(** * Survey Inspired Decimation: a shallow embedding of [src/src/Algorithms.cpp]

    The development follows the C++ source function by function:
    [SurveyPropagation], [UpdateSurvey], [UnitPropagation], [Walksat], [SID]
    and [EvaluateVariable].  The factor graph is kept as three arenas
    (variables, clauses, edges) addressed by index, which is how the pointers
    [Variable*], [Clause*] and [Edge*] of the source are read here.

    Numbers: a C++ [double] is an IEEE-754 binary64 value, modelled by
    [spec_float] with precision 53 and maximal exponent 1024, every operation
    rounded to nearest-even, without contraction or excess precision.  A C++
    [uint] is a 32-bit unsigned integer, modelled in [Z] with its wrap-around
    written out. *)

From Stdlib Require Import ZArith Bool Lia SpecFloat.
From stdpp Require Import base tactics option list sorting sets strings pretty.

Local Open Scope Z_scope.

(** ** IEEE-754 binary64 *)

Module Double.

Definition double := spec_float.

Definition prec : Z := 53.
Definition emax : Z := 1024.

Definition add : double -> double -> double := SFadd prec emax.
Definition sub : double -> double -> double := SFsub prec emax.
Definition mul : double -> double -> double := SFmul prec emax.
Definition div : double -> double -> double := SFdiv prec emax.
Definition abs : double -> double := SFabs.

(** [a < b], [a > b] and [a != b] of C++; a comparison with NaN is false,
    so [a != b] is true as soon as one side is NaN. *)
Definition lt (a b : double) : bool := SFltb a b.
Definition gt (a b : double) : bool := SFltb b a.
Definition le (a b : double) : bool := SFleb a b.
Definition ne (a b : double) : bool := negb (SFeqb a b).

(** [std::isnan] *)
Definition isnan (a : double) : bool :=
  match a with S754_nan => true | _ => false end.

Definition zero : double := S754_zero false.
Definition one : double := S754_finite false 4503599627370496 (-52).

(** Conversion of an unsigned size to [double] (exact below 2^53, rounded
    to nearest-even above). *)
Definition of_nat (n : nat) : double :=
  binary_normalize prec emax (Z.of_nat n) 0 false.

(** The integer obtained by discarding the fractional part of a finite
    value (truncation toward zero). *)
Definition trunc (a : double) : option Z :=
  match a with
  | S754_zero _ => Some 0
  | S754_finite s m e =>
      let q := match e with
               | Z0 => Zpos m
               | Zpos p => Zpos m * Z.pow_pos 2 p
               | Zneg p => Zpos m / Z.pow_pos 2 p
               end in
      Some (if s then - q else q)
  | _ => None
  end.

(** The cast [(int)a] to a 32-bit [int]: truncation toward zero, undefined
    ([None]) when the truncated value is not representable or [a] is NaN
    or infinite. *)
Definition to_int (a : double) : option Z :=
  match trunc a with
  | Some z => if (-2147483648 <=? z) && (z <=? 2147483647) then Some z else None
  | None => None
  end.

(** Valid binary64 values: finite ones have a canonical mantissa. *)
Definition valid (a : double) : bool := valid_binary prec emax a.

(** [0 <= a <= 1] with the comparisons of the machine. *)
Definition in_unit (a : double) : bool := le zero a && le a one.

End Double.

Abbreviation double := Double.double.

(** ** 32-bit unsigned arithmetic *)

Definition uint_max : Z := 4294967296.
Definition uint_wrap (z : Z) : Z := z mod uint_max.
Definition uint_add (a b : Z) : Z := uint_wrap (a + b).

(** ** Configuration constants

    [Configuration.hpp] is not part of the sources at hand; its constants are
    parameters of the development, gathered in a record.  [default_config]
    carries the defaults the specification lists (section 4.3 and 4.5). *)

Record Config := {
  SP_MAX_ITERATIONS : nat;
  SP_EPSILON : double;
  WS_MAX_TRIES : nat;
  WS_MAX_FLIPS : nat;
  WS_NOISE : double
}.

(** Modelled from the spec: the build-time constants of [Configuration.hpp]
    (1000 sweeps, epsilon 0.01, 10 tries, noise 0.57); the number of flips is
    left to the caller since the specification gives it relative to the
    instance size. *)
Definition default_config (flips : nat) : Config := {|
  SP_MAX_ITERATIONS := 1000;
  SP_EPSILON := S754_finite false 5764607523034235 (-59);
  WS_MAX_TRIES := 10;
  WS_MAX_FLIPS := flips;
  WS_NOISE := S754_finite false 5134103575202365 (-53)
|}.

(** ** Random source

    Modelled from the spec: [utils::RandomGen] ([Utils.hpp], not part of the
    sources at hand) as section 4.1 describes it: one seeded generator whose
    state is threaded through every draw.  [shuffle] stands for [std::shuffle]
    and [uniform_int lo hi] for a [std::uniform_int_distribution<>(lo, hi)]
    applied to the generator. *)
Class RandomGen := {
  rng : Type;
  setSeed : Z -> rng;
  getRandomReal01 : rng -> double * rng;
  getRandomBool : rng -> bool * rng;
  uniform_int : Z -> Z -> rng -> Z * rng;
  shuffle : list nat -> rng -> list nat * rng;
  getRandomReal01_valid : forall s, Double.valid (getRandomReal01 s).1 = true;
  getRandomReal01_range : forall s,
    Double.le Double.zero (getRandomReal01 s).1 = true /\
    Double.lt (getRandomReal01 s).1 Double.one = true;
  uniform_int_range : forall lo hi s,
    lo <= hi -> lo <= (uniform_int lo hi s).1 <= hi;
  shuffle_perm : forall l s, (shuffle l s).1 ≡ₚ l
}.

(** ** Outcomes

    A call either returns, or runs into undefined behaviour of C++ (a null
    pointer dereferenced, a vector indexed out of its bounds, a cast out of
    range), or, for the two [while (true)] loops, exhausts the fuel of the
    model. *)
Inductive outcome (A : Type) : Type :=
| Returns (a : A)
| Undefined
| OutOfFuel.
Arguments Returns {A} a.
Arguments Undefined {A}.
Arguments OutOfFuel {A}.

(** ** The factor graph

    Modelled from the spec: [FactorGraph.hpp] is not part of the sources at
    hand; the classes [Variable], [Clause], [Edge] and [FactorGraph] follow
    section 3 and 4.2 of the specification. *)

Record Var := {
  id : Z;
  value : bool;
  assigned : bool;
  evalValue : double
}.

Record Clause := {
  clause_id : Z;
  clause_enabled : bool
}.

Record Edge := {
  type : bool;
  edge_enabled : bool;
  variable : nat;
  clause : nat;
  survey : double
}.

Record FactorGraph := {
  variables : list Var;
  clauses : list Clause;
  edges : list Edge
}.

(** Handles: indices into the arenas. *)
Abbreviation VarId := nat.
Abbreviation ClauseId := nat.
Abbreviation EdgeId := nat.

Section Accessors.
Variable g : FactorGraph.

(** Field reads through a handle.  A handle of the source always points to
    a live object; here a handle out of its arena reads a default. *)
Definition var_value (v : VarId) : bool :=
  from_option value false (variables g !! v).
Definition var_assigned (v : VarId) : bool :=
  from_option assigned false (variables g !! v).
Definition var_evalValue (v : VarId) : double :=
  from_option evalValue Double.zero (variables g !! v).
Definition is_clause_enabled (c : ClauseId) : bool :=
  from_option clause_enabled false (clauses g !! c).
Definition edge_type (e : EdgeId) : bool :=
  from_option type false (edges g !! e).
Definition is_edge_enabled (e : EdgeId) : bool :=
  from_option edge_enabled false (edges g !! e).
Definition edge_variable (e : EdgeId) : VarId :=
  from_option variable 0%nat (edges g !! e).
Definition edge_clause (e : EdgeId) : ClauseId :=
  from_option clause 0%nat (edges g !! e).
Definition edge_survey (e : EdgeId) : double :=
  from_option survey Double.zero (edges g !! e).

(** Modelled from the spec: an edge is present in the enabled views iff
    its own flag and the flag of its clause are set (section 3, invariant
    2). *)
Definition edge_active (e : EdgeId) : bool :=
  is_edge_enabled e && is_clause_enabled (edge_clause e).

(** Modelled from the spec: [FactorGraph::GetEnabledEdges]. *)
Definition GetEnabledEdges : list EdgeId :=
  List.filter edge_active (seq 0 (length (edges g))).

(** Modelled from the spec: [Clause::GetEnabledEdges]. *)
Definition Clause_GetEnabledEdges (c : ClauseId) : list EdgeId :=
  List.filter (fun e => edge_active e && Nat.eqb (edge_clause e) c)
              (seq 0 (length (edges g))).

(** Modelled from the spec: [Variable::GetEnabledEdges]. *)
Definition Variable_GetEnabledEdges (v : VarId) : list EdgeId :=
  List.filter (fun e => edge_active e && Nat.eqb (edge_variable e) v)
              (seq 0 (length (edges g))).

(** Modelled from the spec: [FactorGraph::GetEnabledClauses]. *)
Definition GetEnabledClauses : list ClauseId :=
  List.filter is_clause_enabled (seq 0 (length (clauses g))).

(** Modelled from the spec: [FactorGraph::GetUnassignedVariables]. *)
Definition GetUnassignedVariables : list VarId :=
  List.filter (fun v => negb (var_assigned v)) (seq 0 (length (variables g))).

(** Modelled from the spec: [Clause::IsSAT], an enabled edge whose variable
    is assigned the value of the edge's type. *)
Definition Clause_IsSAT (c : ClauseId) : bool :=
  existsb (fun e => var_assigned (edge_variable e)
                    && Bool.eqb (var_value (edge_variable e)) (edge_type e))
          (Clause_GetEnabledEdges c).

(** Modelled from the spec: [FactorGraph::IsSAT], every clause is disabled
    or satisfied (section 4.2). *)
Definition IsSAT : bool :=
  forallb (fun c => negb (is_clause_enabled c) || Clause_IsSAT c)
          (seq 0 (length (clauses g))).
End Accessors.

(** Modelled from the spec: [Variable::AssignValue] sets [assigned] and
    [value] and does not propagate. *)
Definition AssignValue (g : FactorGraph) (v : VarId) (b : bool) : FactorGraph :=
  {| variables :=
       alter (fun x => {| id := id x; value := b; assigned := true;
                          evalValue := evalValue x |}) v (variables g);
     clauses := clauses g;
     edges := edges g |}.

Definition set_evalValue (g : FactorGraph) (v : VarId) (x : double) : FactorGraph :=
  {| variables :=
       alter (fun y => {| id := id y; value := value y; assigned := assigned y;
                          evalValue := x |}) v (variables g);
     clauses := clauses g;
     edges := edges g |}.

(** Modelled from the spec: [Clause::Dissable] clears the flag of the
    clause. *)
Definition Clause_Dissable (g : FactorGraph) (c : ClauseId) : FactorGraph :=
  {| variables := variables g;
     clauses :=
       alter (fun x => {| clause_id := clause_id x; clause_enabled := false |})
             c (clauses g);
     edges := edges g |}.

(** Modelled from the spec: [Edge::Dissable] clears the flag of the edge. *)
Definition Edge_Dissable (g : FactorGraph) (e : EdgeId) : FactorGraph :=
  {| variables := variables g;
     clauses := clauses g;
     edges :=
       alter (fun x => {| type := type x; edge_enabled := false;
                          variable := variable x; clause := clause x;
                          survey := survey x |}) e (edges g) |}.

Definition set_survey (g : FactorGraph) (e : EdgeId) (s : double) : FactorGraph :=
  {| variables := variables g;
     clauses := clauses g;
     edges :=
       alter (fun x => {| type := type x; edge_enabled := edge_enabled x;
                          variable := variable x; clause := clause x;
                          survey := s |}) e (edges g) |}.

(** Modelled from the spec: the constructor [FactorGraph(std::istream&)]
    after tokenisation of the DIMACS text: [numVars] variables, one clause
    per clause line, one edge per literal with [survey = 0] and
    [enabled = true]; the variable of literal [l] is [|l|] (stored at index
    [|l| - 1]) and the type of its edge is [l > 0]. *)
Definition edges_of_clause (c : ClauseId) (lits : list Z) : list Edge :=
  map (fun l => {| type := 0 <? l; edge_enabled := true;
                   variable := Z.to_nat (Z.abs l) - 1; clause := c;
                   survey := Double.zero |}) lits.

Definition FactorGraph_of_cnf (numVars : nat) (cls : list (list Z)) : FactorGraph :=
  {| variables :=
       map (fun i => {| id := Z.of_nat (S i); value := false; assigned := false;
                        evalValue := Double.zero |}) (seq 0 numVars);
     clauses :=
       map (fun i => {| clause_id := Z.of_nat (S i); clause_enabled := true |})
           (seq 0 (length cls));
     edges := concat (imap edges_of_clause cls) |}.

(** ** Unit Propagation ([UnitPropagation], lines 101-156) *)

(** Step 1: the enabled clauses with exactly one enabled edge. *)
Definition unit_clauses (g : FactorGraph) : list ClauseId :=
  List.filter (fun c => Nat.eqb (length (Clause_GetEnabledEdges g c)) 1)
              (GetEnabledClauses g).

(** What a pass over a vector of clauses ends with: the function returns
    [false] from inside the loop, or the loop runs to its end; in both cases
    with the graph as mutated so far.  An index out of the bounds of a vector
    is undefined behaviour. *)
Inductive pass : Type :=
| Contradiction (g : FactorGraph)
| Completed (g : FactorGraph)
| OutOfBounds.

(** The loop of lines 115-127 over the unit clauses. *)
Fixpoint assign_unit_clauses (g : FactorGraph) (unitClauses : list ClauseId) : pass :=
  match unitClauses with
  | [] => Completed g
  | unitClause :: rest =>
      match Clause_GetEnabledEdges g unitClause with
      | [] => OutOfBounds
      | edge :: _ =>
          if negb (var_assigned g (edge_variable g edge)) then
            assign_unit_clauses
              (AssignValue g (edge_variable g edge) (edge_type g edge)) rest
          else if negb (Bool.eqb (edge_type g edge)
                                 (var_value g (edge_variable g edge)))
          then Contradiction g
          else assign_unit_clauses g rest
      end
  end.

(** The inner loop of lines 131-146 over the enabled edges of one clause,
    collected before the loop starts. *)
Fixpoint simplify_clause (g : FactorGraph) (c : ClauseId) (es : list EdgeId)
  : FactorGraph :=
  match es with
  | [] => g
  | edge :: rest =>
      if var_assigned g (edge_variable g edge) then
        if Bool.eqb (edge_type g edge) (var_value g (edge_variable g edge))
        then Clause_Dissable g c
        else simplify_clause (Edge_Dissable g edge) c rest
      else simplify_clause g c rest
  end.

(** The loop of lines 130-152 over the enabled clauses, collected before the
    loop starts. *)
Fixpoint simplify_clauses (g : FactorGraph) (cs : list ClauseId) : pass :=
  match cs with
  | [] => Completed g
  | c :: rest =>
      let g' := simplify_clause g c (Clause_GetEnabledEdges g c) in
      if is_clause_enabled g' c
         && Nat.eqb (length (Clause_GetEnabledEdges g' c)) 0
      then Contradiction g'
      else simplify_clauses g' rest
  end.

(** One iteration of the [while (true)] of [UnitPropagation]. *)
Inductive iteration (R : Type) : Type :=
| Return (r : R) (g : FactorGraph)
| Continue (g : FactorGraph)
| Crash.
Arguments Return {R} r g.
Arguments Continue {R} g.
Arguments Crash {R}.

Definition UnitPropagation_iteration (g : FactorGraph) : iteration bool :=
  let unitClauses := unit_clauses g in
  if Nat.eqb (length unitClauses) 0 then Return true g
  else
    match assign_unit_clauses g unitClauses with
    | OutOfBounds => Crash
    | Contradiction g1 => Return false g1
    | Completed g1 =>
        match simplify_clauses g1 (GetEnabledClauses g1) with
        | OutOfBounds => Crash
        | Contradiction g2 => Return false g2
        | Completed g2 => Continue g2
        end
    end.

Fixpoint UnitPropagation (fuel : nat) (g : FactorGraph)
  : outcome (bool * FactorGraph) :=
  match fuel with
  | O => OutOfFuel
  | S fuel' =>
      match UnitPropagation_iteration g with
      | Return r g' => Returns (r, g')
      | Crash => Undefined
      | Continue g' => UnitPropagation fuel' g'
      end
  end.


(** ** Survey Propagation ([SurveyPropagation] and [UpdateSurvey], lines 15-96) *)

Definition one_minus (x : double) : double := Double.sub Double.one x.

(** The loop of lines 61-74 over the enabled edges [b->j] of the variable of
    [a->j]; returns [(Pubj, Psbj, P0bj)]. *)
Fixpoint survey_products (g : FactorGraph) (aj : EdgeId) (bjs : list EdgeId)
                         (Pubj Psbj P0bj : double) : double * double * double :=
  match bjs with
  | [] => (Pubj, Psbj, P0bj)
  | bj :: rest =>
      if Nat.eqb bj aj then survey_products g aj rest Pubj Psbj P0bj
      else
        let f := one_minus (edge_survey g bj) in
        let Pubj' := if negb (Bool.eqb (edge_type g bj) (edge_type g aj))
                     then Double.mul Pubj f else Pubj in
        let Psbj' := if Bool.eqb (edge_type g bj) (edge_type g aj)
                     then Double.mul Psbj f else Psbj in
        survey_products g aj rest Pubj' Psbj' (Double.mul P0bj f)
  end.

(** Lines 77-82: the ratio of equation 27 for one edge [a->j]. *)
Definition survey_ratio (g : FactorGraph) (aj : EdgeId) : double :=
  let '(Pubj, Psbj, P0bj) :=
    survey_products g aj (Variable_GetEnabledEdges g (edge_variable g aj))
                    Double.one Double.one Double.one in
  let Puaj := Double.mul (one_minus Pubj) Psbj in
  let Psaj := Double.mul (one_minus Psbj) Pubj in
  let P0aj := P0bj in
  Double.div Puaj (Double.add (Double.add Puaj Psaj) P0aj).

(** The loop of lines 52-92 over the enabled edges [a->j] of the clause of
    [a->i]; returns the final [Sai]. *)
Fixpoint survey_loop (g : FactorGraph) (ai : EdgeId) (ajs : list EdgeId)
                     (Sai : double) : double :=
  match ajs with
  | [] => Sai
  | aj :: rest =>
      if Nat.eqb aj ai then survey_loop g ai rest Sai
      else
        let div := survey_ratio g aj in
        if Double.isnan div then Double.zero
        else survey_loop g ai rest (Double.mul Sai div)
  end.

Definition UpdateSurvey (g : FactorGraph) (ai : EdgeId) : FactorGraph :=
  set_survey g ai
    (survey_loop g ai (Clause_GetEnabledEdges g (edge_clause g ai)) Double.one).

Section Algorithms.
Context {RG : RandomGen}.
Variable cfg : Config.

(** Lines 17-20: random initialisation of the surveys. *)
Fixpoint init_surveys (g : FactorGraph) (r : rng) (es : list EdgeId)
  : FactorGraph * rng :=
  match es with
  | [] => (g, r)
  | edge :: rest =>
      let '(x, r') := getRandomReal01 r in
      init_surveys (set_survey g edge x) r' rest
  end.

(** [hasConverged] of lines 36-37 for one edge, given its survey before the
    update. *)
Definition hasConverged (previousSurveyValue newSurveyValue : double) : bool :=
  Double.lt (Double.abs (Double.sub newSurveyValue previousSurveyValue))
            (SP_EPSILON cfg).

(** Lines 30-39: one pass over the shuffled edges. *)
Fixpoint update_surveys (g : FactorGraph) (es : list EdgeId)
                        (allEdgesConverged : bool) : FactorGraph * bool :=
  match es with
  | [] => (g, allEdgesConverged)
  | edge :: rest =>
      let previousSurveyValue := edge_survey g edge in
      let g' := UpdateSurvey g edge in
      update_surveys g' rest
        (if negb (hasConverged previousSurveyValue (edge_survey g' edge))
         then false else allEdgesConverged)
  end.

(** One sweep: the body of the [for] of line 25. *)
Definition sweep (g : FactorGraph) (es : list EdgeId) (r : rng)
  : FactorGraph * list EdgeId * rng * bool :=
  let '(es', r') := shuffle es r in
  let '(g', allEdgesConverged) := update_surveys g es' true in
  (g', es', r', allEdgesConverged).

Record SPResult := { converged : bool; iterations : Z }.

(** The [for] of line 25; [n] counts the values of [i] that remain below
    [SP_MAX_ITERATIONS]. *)
Fixpoint sp_loop (n : nat) (g : FactorGraph) (es : list EdgeId) (r : rng)
                 (allEdgesConverged : bool) (totalIt : Z)
  : SPResult * FactorGraph * rng :=
  match n with
  | O => ({| converged := allEdgesConverged; iterations := totalIt |}, g, r)
  | S n' =>
      if allEdgesConverged
      then ({| converged := allEdgesConverged; iterations := totalIt |}, g, r)
      else
        let '(g', es', r', c) := sweep g es r in
        sp_loop n' g' es' r' c (uint_add totalIt 1)
  end.

Definition SurveyPropagation (g : FactorGraph) (r : rng)
  : SPResult * FactorGraph * rng :=
  let edges := GetEnabledEdges g in
  let '(g0, r0) := init_surveys g r edges in
  sp_loop (SP_MAX_ITERATIONS cfg) g0 edges r0 false 0.

(** ** WalkSAT ([Walksat], lines 161-246) *)

(** Lines 167-169. *)
Fixpoint assign_random (g : FactorGraph) (r : rng) (vars : list VarId)
  : FactorGraph * rng :=
  match vars with
  | [] => (g, r)
  | var :: rest =>
      let '(b, r') := getRandomBool r in
      assign_random (AssignValue g var b) r' rest
  end.

(** [var->AssignValue(!var->value)] *)
Definition flip_variable (g : FactorGraph) (v : VarId) : FactorGraph :=
  AssignValue g v (negb (var_value g v)).

(** Lines 205-207. *)
Fixpoint count_broken (g : FactorGraph) (satClauses : list ClauseId)
                      (breakCount : Z) : Z :=
  match satClauses with
  | [] => breakCount
  | satClause :: rest =>
      count_broken g rest
        (if negb (Clause_IsSAT g satClause) then uint_add breakCount 1
         else breakCount)
  end.

(** Lines 201-219; [lowestBreakCountVar] is [None] for [nullptr]. *)
Fixpoint lowest_break_count (g : FactorGraph) (satClauses : list ClauseId)
                            (es : list EdgeId)
                            (lowestBreakCountVar : option VarId)
                            (lowestBreakCount : Z)
  : FactorGraph * option VarId * Z :=
  match es with
  | [] => (g, lowestBreakCountVar, lowestBreakCount)
  | edge :: rest =>
      let v := edge_variable g edge in
      let g1 := flip_variable g v in
      let breakCount := count_broken g1 satClauses 0 in
      let g2 := flip_variable g1 v in
      let '(lowVar, low) :=
        if match lowestBreakCountVar with None => true | Some _ => false end
           || (breakCount <? lowestBreakCount)
        then (Some v, breakCount)
        else (lowestBreakCountVar, lowestBreakCount) in
      if breakCount =? 0 then (g2, lowVar, low)
      else lowest_break_count g2 satClauses rest lowVar low
  end.

(** [vec[i]] for a signed index: out of the bounds is undefined. *)
Definition at_index {A : Type} (vec : list A) (i : Z) : option A :=
  if i <? 0 then None else vec !! Z.to_nat i.

Inductive flip_result : Type :=
| Satisfied (g : FactorGraph) (r : rng)
| Flipped (g : FactorGraph) (r : rng)
| FlipUndefined.

(** The body of the [for] of line 172. *)
Definition flip_step (g : FactorGraph) (r : rng) : flip_result :=
  if IsSAT g then Satisfied g r
  else
    let satClauses := List.filter (Clause_IsSAT g) (GetEnabledClauses g) in
    let unsatClauses :=
      List.filter (fun c => negb (Clause_IsSAT g c)) (GetEnabledClauses g) in
    match unsatClauses with
    | [] => FlipUndefined
    | _ :: _ =>
        let '(randIndex, r1) :=
          uniform_int 0 (Z.of_nat (length unsatClauses) - 1) r in
        match at_index unsatClauses randIndex with
        | None => FlipUndefined
        | Some selectedClause =>
            let selectedClauseEdges := Clause_GetEnabledEdges g selectedClause in
            let '(g1, lowestBreakCountVar, lowestBreakCount) :=
              lowest_break_count g satClauses selectedClauseEdges None
                (uint_add (Z.of_nat (length satClauses)) 1) in
            if lowestBreakCount =? 0 then
              match lowestBreakCountVar with
              | None => FlipUndefined
              | Some v => Flipped (flip_variable g1 v) r1
              end
            else
              let '(x, r2) := getRandomReal01 r1 in
              if Double.gt x (WS_NOISE cfg) then
                match lowestBreakCountVar with
                | None => FlipUndefined
                | Some v => Flipped (flip_variable g1 v) r2
                end
              else
                match selectedClauseEdges with
                | [] => FlipUndefined
                | _ :: _ =>
                    let '(randomEdgeIndex, r3) :=
                      uniform_int 0 (Z.of_nat (length selectedClauseEdges) - 1) r2 in
                    match at_index selectedClauseEdges randomEdgeIndex with
                    | None => FlipUndefined
                    | Some e => Flipped (flip_variable g1 (edge_variable g1 e)) r3
                    end
                end
        end
    end.

(** The [for] of line 172; [Flipped] when all flips were used. *)
Fixpoint flips (n : nat) (g : FactorGraph) (r : rng) : flip_result :=
  match n with
  | O => Flipped g r
  | S n' =>
      match flip_step g r with
      | Flipped g' r' => flips n' g' r'
      | other => other
      end
  end.

(** The body of the [for] of line 165. *)
Definition try (g : FactorGraph) (r : rng) : flip_result :=
  let '(g', r') := assign_random g r (GetUnassignedVariables g) in
  flips (WS_MAX_FLIPS cfg) g' r'.

Fixpoint tries (n : nat) (g : FactorGraph) (r : rng)
  : outcome (bool * FactorGraph * rng) :=
  match n with
  | O => Returns (false, g, r)
  | S n' =>
      match try g r with
      | Satisfied g' r' => Returns (true, g', r')
      | Flipped g' r' => tries n' g' r'
      | FlipUndefined => Undefined
      end
  end.

Definition Walksat (g : FactorGraph) (r : rng)
  : outcome (bool * FactorGraph * rng) :=
  tries (WS_MAX_TRIES cfg) g r.
End Algorithms.

(** ** Bias evaluation ([EvaluateVariable], lines 341-376) *)

(** The loop of lines 351-361; returns [(PVi0, PViP, PViN)]. *)
Fixpoint bias_products (g : FactorGraph) (ais : list EdgeId)
                       (PVi0 PViP PViN : double) : double * double * double :=
  match ais with
  | [] => (PVi0, PViP, PViN)
  | ai :: rest =>
      let f := one_minus (edge_survey g ai) in
      let PViP' := if edge_type g ai then Double.mul PViP f else PViP in
      let PViN' := if edge_type g ai then PViN else Double.mul PViN f in
      bias_products g rest (Double.mul PVi0 f) PViP' PViN'
  end.

Definition EvaluateVariable (g : FactorGraph) (v : VarId) : FactorGraph :=
  let '(PVi0, PViP, PViN) :=
    bias_products g (Variable_GetEnabledEdges g v)
                  Double.one Double.one Double.one in
  let PiP := Double.mul (one_minus PViP) PViN in
  let PiN := Double.mul (one_minus PViN) PViP in
  let Pi0 := PVi0 in
  let WiP := Double.div PiP (Double.add (Double.add PiP PiN) Pi0) in
  let WiN := Double.div PiN (Double.add (Double.add PiP PiN) Pi0) in
  if Double.isnan WiP || Double.isnan WiN
  then set_evalValue g v Double.zero
  else set_evalValue g v (Double.sub WiP WiN).

(** ** The standard library and the clock

    [std::sort] is fixed by the C++ standard only up to the order of
    equivalent elements: its result is a permutation of its input, ordered by
    the comparator whenever the comparator is a strict weak ordering on the
    elements.  [std::chrono::steady_clock::now] reads a clock the algorithms
    have no other access to. *)

Definition strict_weak_on (cmp : nat -> nat -> bool) (l : list nat) : Prop :=
  (forall a b, a ∈ l -> b ∈ l -> cmp a b = true -> cmp b a = false) /\
  (forall a b c, a ∈ l -> b ∈ l -> c ∈ l ->
                 cmp a c = true -> cmp a b = true \/ cmp b c = true).

Class StdSort := {
  std_sort : (nat -> nat -> bool) -> list nat -> list nat;
  std_sort_perm : forall cmp l, std_sort cmp l ≡ₚ l;
  std_sort_sorted : forall cmp l,
    strict_weak_on cmp l ->
    StronglySorted (fun a b => cmp b a = false) (std_sort cmp l)
}.

Class SteadyClock := {
  clock : Type;
  time_point : Type;
  now : clock -> time_point * clock
}.

(** ** Survey Inspired Decimation ([SID], lines 251-339) *)

Section Driver.
Context {RG : RandomGen} {SS : StdSort} {CK : SteadyClock}.
Variable cfg : Config.

Record SIDResult := {
  SAT : bool;
  totalSPIterations : Z;
  begin_time : time_point;
  end_time : time_point
}.

(** Lines 269-275. *)
Definition allTrivial (g : FactorGraph) : bool :=
  forallb (fun edge => negb (Double.ne (edge_survey g edge) Double.zero))
          (GetEnabledEdges g).

(** Lines 293-297. *)
Definition evaluate_variables (g : FactorGraph) (vars : list VarId)
  : FactorGraph :=
  foldl EvaluateVariable g vars.

(** Lines 300-301; [None] when the cast to [int] is undefined. *)
Definition assign_fraction (n : nat) (fraction : double) : option Z :=
  match Double.to_int (Double.mul (Double.of_nat n) fraction) with
  | Some assignFraction =>
      Some (if assignFraction <? 1 then 1 else assignFraction)
  | None => None
  end.

(** The comparator of lines 303-305. *)
Definition by_bias (g : FactorGraph) (lvar rvar : VarId) : bool :=
  Double.gt (Double.abs (var_evalValue g lvar))
            (Double.abs (var_evalValue g rvar)).

(** Lines 313-319, over the enabled edges of [var] collected before the
    loop starts. *)
Fixpoint clean_edges (g : FactorGraph) (var : VarId) (es : list EdgeId)
  : FactorGraph :=
  match es with
  | [] => g
  | edge :: rest =>
      clean_edges
        (if Bool.eqb (edge_type g edge) (var_value g var)
         then Clause_Dissable g (edge_clause g edge)
         else Edge_Dissable g edge)
        var rest
  end.

(** The body of the [for] of line 307 for the variable [var]. *)
Definition decimate_variable (g : FactorGraph) (var : VarId) : FactorGraph :=
  let newValue := Double.gt (var_evalValue g var) Double.zero in
  let g1 := AssignValue g var newValue in
  clean_edges g1 var (Variable_GetEnabledEdges g1 var).

(** The [for] of line 307: [count] values of [i] remain, starting at [i];
    [None] when [unassignedVariables[i]] is out of bounds. *)
Fixpoint decimate (g : FactorGraph) (unassignedVariables : list VarId)
                  (i count : nat) : option FactorGraph :=
  match count with
  | O => Some g
  | S count' =>
      match unassignedVariables !! i with
      | None => None
      | Some var =>
          decimate (decimate_variable g var) unassignedVariables (S i) count'
      end
  end.

(** Lines 290-320: bias evaluation and decimation. *)
Definition decimation (g : FactorGraph) (fraction : double)
  : option FactorGraph :=
  let unassignedVariables := GetUnassignedVariables g in
  let g1 := evaluate_variables g unassignedVariables in
  match assign_fraction (length unassignedVariables) fraction with
  | None => None
  | Some assignFraction =>
      decimate g1 (std_sort (by_bias g1) unassignedVariables)
               0 (Z.to_nat assignFraction)
  end.

(** The body of the [while (true)] of line 256.  The result of an
    iteration that returns is the pair of [SAT] and [totalSPIt]; [fuel]
    bounds the [while (true)] of [UnitPropagation]. *)
Definition SID_iteration (fuel : nat) (g : FactorGraph) (fraction : double)
                         (r : rng) (totalSPIt : Z)
  : outcome (iteration (bool * Z) * rng * Z) :=
  let '(spResult, g1, r1) := SurveyPropagation cfg g r in
  let totalSPIt := uint_add totalSPIt (iterations spResult) in
  if negb (converged spResult) then
    Returns (Return (false, totalSPIt) g1, r1, totalSPIt)
  else if allTrivial g1 then
    match Walksat cfg g1 r1 with
    | Returns (walksatResult, g2, r2) =>
        Returns (Return (walksatResult, totalSPIt) g2, r2, totalSPIt)
    | Undefined => Undefined
    | OutOfFuel => OutOfFuel
    end
  else
    match decimation g1 fraction with
    | None => Undefined
    | Some g2 =>
        match UnitPropagation fuel g2 with
        | Returns (UPResult, g3) =>
            if negb UPResult then
              Returns (Return (false, totalSPIt) g3, r1, totalSPIt)
            else if IsSAT g3 then
              Returns (Return (true, totalSPIt) g3, r1, totalSPIt)
            else Returns (Continue g3, r1, totalSPIt)
        | Undefined => Undefined
        | OutOfFuel => OutOfFuel
        end
    end.

(** The [while (true)] of line 256; [fuel] bounds its iterations, and those
    of each call to [UnitPropagation]. *)
Fixpoint SID_loop (fuel : nat) (g : FactorGraph) (fraction : double)
                  (r : rng) (totalSPIt : Z)
  : outcome (bool * Z * FactorGraph * rng) :=
  match fuel with
  | O => OutOfFuel
  | S fuel' =>
      match SID_iteration fuel g fraction r totalSPIt with
      | Returns (Return (sat, total) g', r', _) => Returns (sat, total, g', r')
      | Returns (Continue g', r', total) => SID_loop fuel' g' fraction r' total
      | Returns (Crash, _, _) => Undefined
      | Undefined => Undefined
      | OutOfFuel => OutOfFuel
      end
  end.

Definition SID (fuel : nat) (g : FactorGraph) (fraction : double)
               (r : rng) (c : clock)
  : outcome (SIDResult * FactorGraph * rng * clock) :=
  let '(begin, c1) := now c in
  match SID_loop fuel g fraction r 0 with
  | Returns (sat, total, g', r') =>
      let '(end_, c2) := now c1 in
      Returns ({| SAT := sat; totalSPIterations := total;
                  begin_time := begin; end_time := end_ |}, g', r', c2)
  | Undefined => Undefined
  | OutOfFuel => OutOfFuel
  end.
End Driver.

(** ** Instances used by the examples

    A small generator whose draws depend on a counter only, insertion sort,
    and a clock that counts its readings. *)

Definition counter_real01 (s : Z) : double :=
  if Z.even s then S754_finite false 4503599627370496 (-54)
  else S754_finite false 8962163258467287 (-53).

Definition counter_shuffle (l : list nat) (s : Z) : list nat :=
  if Z.even s then l else reverse l.

Fixpoint insert_sorted (cmp : nat -> nat -> bool) (x : nat) (l : list nat)
  : list nat :=
  match l with
  | [] => [x]
  | y :: l' => if cmp x y then x :: l else y :: insert_sorted cmp x l'
  end.

Definition insertion_sort (cmp : nat -> nat -> bool) (l : list nat) : list nat :=
  foldr (insert_sorted cmp) [] l.

(** * Properties *)

(** ** Reading a field after a write *)

Ltac unfold_accessors :=
  unfold var_value, var_assigned, var_evalValue, is_clause_enabled, edge_type,
    is_edge_enabled, edge_variable, edge_clause, edge_survey,
    AssignValue, set_evalValue, Clause_Dissable, Edge_Dissable, set_survey;
  simpl.

Ltac solve_lookup_alter i j :=
  unfold_accessors;
  destruct (decide (i = j)) as [->|?];
  [ rewrite ?list_lookup_alter_eq | rewrite ?list_lookup_alter_ne by done ];
  try match goal with |- context [?l !! j] => destruct (l !! j) end;
  simpl; try done.

Section ReadAfterWrite.
Variable g : FactorGraph.

Lemma edge_type_Edge_Dissable e e' :
  edge_type (Edge_Dissable g e) e' = edge_type g e'.
Proof. solve_lookup_alter e e'. Qed.

Lemma edge_variable_Edge_Dissable e e' :
  edge_variable (Edge_Dissable g e) e' = edge_variable g e'.
Proof. solve_lookup_alter e e'. Qed.

Lemma edge_clause_Edge_Dissable e e' :
  edge_clause (Edge_Dissable g e) e' = edge_clause g e'.
Proof. solve_lookup_alter e e'. Qed.

Lemma edge_survey_Edge_Dissable e e' :
  edge_survey (Edge_Dissable g e) e' = edge_survey g e'.
Proof. solve_lookup_alter e e'. Qed.

Lemma is_edge_enabled_Edge_Dissable e e' :
  is_edge_enabled (Edge_Dissable g e) e' =
  if decide (e = e') then false else is_edge_enabled g e'.
Proof.
  unfold_accessors. destruct (decide (e = e')) as [->|?].
  - rewrite list_lookup_alter_eq. by destruct (edges g !! e').
  - by rewrite list_lookup_alter_ne.
Qed.

Lemma is_clause_enabled_Clause_Dissable c c' :
  is_clause_enabled (Clause_Dissable g c) c' =
  if decide (c = c') then false else is_clause_enabled g c'.
Proof.
  unfold_accessors. destruct (decide (c = c')) as [->|?].
  - rewrite list_lookup_alter_eq. by destruct (clauses g !! c').
  - by rewrite list_lookup_alter_ne.
Qed.

Lemma var_assigned_AssignValue v b v' :
  var_assigned (AssignValue g v b) v' =
  if decide (v = v') then bool_decide (v < length (variables g))%nat
  else var_assigned g v'.
Proof.
  unfold_accessors. destruct (decide (v = v')) as [->|?].
  - rewrite list_lookup_alter_eq. destruct (variables g !! v') eqn:E; simpl.
    + apply lookup_lt_Some in E. by rewrite bool_decide_eq_true_2.
    + apply lookup_ge_None in E. rewrite bool_decide_eq_false_2; [done|lia].
  - by rewrite list_lookup_alter_ne.
Qed.

Lemma var_value_AssignValue v b v' :
  var_value (AssignValue g v b) v' =
  if decide (v = v') then b && bool_decide (v < length (variables g))%nat
  else var_value g v'.
Proof.
  unfold_accessors. destruct (decide (v = v')) as [->|?].
  - rewrite list_lookup_alter_eq. destruct (variables g !! v') eqn:E; simpl.
    + apply lookup_lt_Some in E. rewrite bool_decide_eq_true_2; [|done].
      by rewrite andb_true_r.
    + apply lookup_ge_None in E. rewrite bool_decide_eq_false_2; [|lia].
      by rewrite andb_false_r.
  - by rewrite list_lookup_alter_ne.
Qed.

Lemma var_evalValue_AssignValue v b v' :
  var_evalValue (AssignValue g v b) v' = var_evalValue g v'.
Proof. solve_lookup_alter v v'. Qed.

Lemma edge_type_set_survey e s e' :
  edge_type (set_survey g e s) e' = edge_type g e'.
Proof. solve_lookup_alter e e'. Qed.

Lemma edge_variable_set_survey e s e' :
  edge_variable (set_survey g e s) e' = edge_variable g e'.
Proof. solve_lookup_alter e e'. Qed.

Lemma edge_clause_set_survey e s e' :
  edge_clause (set_survey g e s) e' = edge_clause g e'.
Proof. solve_lookup_alter e e'. Qed.

Lemma is_edge_enabled_set_survey e s e' :
  is_edge_enabled (set_survey g e s) e' = is_edge_enabled g e'.
Proof. solve_lookup_alter e e'. Qed.

Lemma edge_survey_set_survey e s e' :
  edge_survey (set_survey g e s) e' =
  if decide (e = e') then
    if bool_decide (e < length (edges g))%nat then s else Double.zero
  else edge_survey g e'.
Proof.
  unfold_accessors. destruct (decide (e = e')) as [->|?].
  - rewrite list_lookup_alter_eq. destruct (edges g !! e') eqn:E; simpl.
    + apply lookup_lt_Some in E. by rewrite bool_decide_eq_true_2.
    + apply lookup_ge_None in E. rewrite bool_decide_eq_false_2; [done|lia].
  - by rewrite list_lookup_alter_ne.
Qed.

Lemma var_value_set_evalValue v x v' :
  var_value (set_evalValue g v x) v' = var_value g v'.
Proof. solve_lookup_alter v v'. Qed.

Lemma var_assigned_set_evalValue v x v' :
  var_assigned (set_evalValue g v x) v' = var_assigned g v'.
Proof. solve_lookup_alter v v'. Qed.
End ReadAfterWrite.

(** ** Graphs that differ by disabling and assigning only *)

(** Every edge points to a variable and to a clause of the graph, as the
    pointers of the source do. *)
Definition well_formed (g : FactorGraph) : bool :=
  forallb (fun e => Nat.ltb (variable e) (length (variables g))
                    && Nat.ltb (clause e) (length (clauses g)))
          (edges g).

Record evolves (g g' : FactorGraph) : Prop := {
  ev_variables : length (variables g') = length (variables g);
  ev_clauses : length (clauses g') = length (clauses g);
  ev_edges : length (edges g') = length (edges g);
  ev_type : forall e, edge_type g' e = edge_type g e;
  ev_variable : forall e, edge_variable g' e = edge_variable g e;
  ev_clause : forall e, edge_clause g' e = edge_clause g e;
  ev_edge_enabled :
    forall e, is_edge_enabled g' e = true -> is_edge_enabled g e = true;
  ev_clause_enabled :
    forall c, is_clause_enabled g' c = true -> is_clause_enabled g c = true;
  ev_assigned : forall v, var_assigned g v = true -> var_assigned g' v = true
}.

Lemma evolves_refl g : evolves g g.
Proof. by constructor. Qed.

Lemma evolves_trans g1 g2 g3 : evolves g1 g2 -> evolves g2 g3 -> evolves g1 g3.
Proof.
  intros [] []. constructor; try congruence; auto.
Qed.

Lemma evolves_Edge_Dissable g e : evolves g (Edge_Dissable g e).
Proof.
  constructor; try done.
  - simpl. apply length_alter.
  - apply edge_type_Edge_Dissable.
  - apply edge_variable_Edge_Dissable.
  - apply edge_clause_Edge_Dissable.
  - intros e'. rewrite is_edge_enabled_Edge_Dissable. by case_decide.
Qed.

Lemma evolves_Clause_Dissable g c : evolves g (Clause_Dissable g c).
Proof.
  constructor; try done.
  - simpl. apply length_alter.
  - intros c'. rewrite is_clause_enabled_Clause_Dissable. by case_decide.
Qed.

Lemma evolves_AssignValue g v b : evolves g (AssignValue g v b).
Proof.
  constructor; try done.
  - simpl. apply length_alter.
  - intros v' Hv. rewrite var_assigned_AssignValue. case_decide; [|done].
    subst. apply bool_decide_eq_true_2. revert Hv. unfold var_assigned.
    destruct (variables g !! v') eqn:E; [|done]. by apply lookup_lt_Some in E.
Qed.

Lemma evolves_active g g' e :
  evolves g g' -> edge_active g' e = true -> edge_active g e = true.
Proof.
  intros [] H. unfold edge_active in *.
  apply andb_true_iff in H as [H1 H2]. apply andb_true_iff. split; [auto|].
  rewrite <- ev_clause0. auto.
Qed.

Lemma well_formed_spec g :
  well_formed g = true <->
  forall e, (e < length (edges g))%nat ->
            (edge_variable g e < length (variables g))%nat /\
            (edge_clause g e < length (clauses g))%nat.
Proof.
  unfold well_formed, edge_variable, edge_clause. rewrite forallb_forall. split.
  - intros H e He. destruct (lookup_lt_is_Some_2 _ _ He) as [x Hx].
    rewrite Hx. simpl. specialize (H x). rewrite andb_true_iff in H.
    rewrite !Nat.ltb_lt in H. apply H. apply list_elem_of_In.
    by eapply list_elem_of_lookup_2.
  - intros H x Hx. apply list_elem_of_In, list_elem_of_lookup in Hx as [e He].
    specialize (H e (lookup_lt_Some _ _ _ He)). rewrite He in H. simpl in H.
    rewrite andb_true_iff, !Nat.ltb_lt. done.
Qed.

Lemma evolves_well_formed g g' :
  evolves g g' -> well_formed g = true -> well_formed g' = true.
Proof.
  intros [] H. rewrite well_formed_spec in *. intros e He.
  rewrite ev_variable0, ev_clause0, ev_variables0, ev_clauses0.
  apply H. lia.
Qed.

Lemma is_edge_enabled_lt g e :
  is_edge_enabled g e = true -> (e < length (edges g))%nat.
Proof.
  unfold is_edge_enabled. destruct (edges g !! e) eqn:E; [|done].
  intros _. by apply lookup_lt_Some in E.
Qed.

Lemma filter_length_le {A} (p q : A -> bool) (l : list A) :
  (forall x, In x l -> q x = true -> p x = true) ->
  (length (List.filter q l) <= length (List.filter p l))%nat.
Proof.
  induction l as [|a l IH]; intros H; simpl; [done|].
  assert (IH' := IH (fun x Hx => H x (or_intror Hx))).
  destruct (q a) eqn:Q.
  - rewrite (H a (or_introl eq_refl) Q). simpl. lia.
  - destruct (p a); simpl; lia.
Qed.

Lemma filter_length_lt {A} (p q : A -> bool) (l : list A) (x0 : A) :
  (forall x, In x l -> q x = true -> p x = true) ->
  In x0 l -> p x0 = true -> q x0 = false ->
  (length (List.filter q l) < length (List.filter p l))%nat.
Proof.
  induction l as [|a l IH]; intros H Hin Hp Hq; simpl; [done|].
  assert (Hle := filter_length_le p q l (fun x Hx => H x (or_intror Hx))).
  destruct Hin as [->|Hin].
  - rewrite Hp, Hq. simpl. lia.
  - assert (IH' := IH (fun x Hx => H x (or_intror Hx)) Hin Hp Hq).
    destruct (q a) eqn:Q.
    + rewrite (H a (or_introl eq_refl) Q). simpl. lia.
    + destruct (p a); simpl; lia.
Qed.

(** ** Unit propagation: what each loop changes *)

Lemma views_ext g g' :
  edges g' = edges g -> clauses g' = clauses g ->
  (forall c, Clause_GetEnabledEdges g' c = Clause_GetEnabledEdges g c) /\
  GetEnabledClauses g' = GetEnabledClauses g /\
  GetEnabledEdges g' = GetEnabledEdges g /\
  (forall e, edge_variable g' e = edge_variable g e) /\
  (forall e, edge_type g' e = edge_type g e) /\
  (forall e, edge_clause g' e = edge_clause g e) /\
  (forall e, edge_active g' e = edge_active g e).
Proof.
  intros He Hc.
  unfold Clause_GetEnabledEdges, GetEnabledClauses, GetEnabledEdges,
    edge_active, is_edge_enabled, is_clause_enabled, edge_clause,
    edge_variable, edge_type.
  rewrite He, Hc. done.
Qed.

Lemma assign_unit_clauses_frame g l g1 :
  assign_unit_clauses g l = Completed g1 \/
  assign_unit_clauses g l = Contradiction g1 ->
  edges g1 = edges g /\ clauses g1 = clauses g /\ evolves g g1.
Proof.
  revert g. induction l as [|c l IH]; intros g H; simpl in H.
  - destruct H as [H|H]; [|done]. injection H as <-.
    split_and!; [done|done|apply evolves_refl].
  - destruct (Clause_GetEnabledEdges g c) as [|e rest]; [by destruct H|].
    destruct (negb (var_assigned g (edge_variable g e))).
    + apply IH in H as (He & Hc & Hev). split_and!; [done|done|].
      eapply evolves_trans; [apply evolves_AssignValue|done].
    + destruct (negb (eqb (edge_type g e) (var_value g (edge_variable g e)))).
      * destruct H as [H|H]; [done|]. injection H as <-.
        split_and!; [done|done|apply evolves_refl].
      * by apply IH.
Qed.

Lemma assign_unit_clauses_keeps g l g1 v :
  assign_unit_clauses g l = Completed g1 ->
  var_assigned g v = true -> var_assigned g1 v = true.
Proof.
  intros H. apply ev_assigned.
  by apply (assign_unit_clauses_frame g l g1 (or_introl H)).
Qed.

Lemma assign_unit_clauses_assigns g l g1 c e rest :
  assign_unit_clauses g l = Completed g1 ->
  In c l -> Clause_GetEnabledEdges g c = e :: rest ->
  (edge_variable g e < length (variables g))%nat ->
  var_assigned g1 (edge_variable g e) = true.
Proof.
  revert g. induction l as [|c' l IH]; intros g H Hin Hc Hlt; [done|].
  simpl in H.
  destruct (Clause_GetEnabledEdges g c') as [|e' rest'] eqn:Hc'; [done|].
  destruct (var_assigned g (edge_variable g e')) eqn:Ha; simpl in H.
  - destruct (negb (eqb (edge_type g e') (var_value g (edge_variable g e'))));
      [done|].
    destruct Hin as [->|Hin]; [|by eapply IH].
    rewrite Hc in Hc'. injection Hc' as -> _.
    by eapply assign_unit_clauses_keeps.
  - set (g0 := AssignValue g (edge_variable g e') (edge_type g e')) in *.
    destruct (views_ext g g0 eq_refl eq_refl) as (Hv1 & _ & _ & Hv2 & _).
    destruct Hin as [->|Hin].
    + rewrite Hc in Hc'. injection Hc' as -> _.
      eapply assign_unit_clauses_keeps; [done|].
      unfold g0. rewrite var_assigned_AssignValue, decide_True by done.
      by apply bool_decide_eq_true_2.
    + rewrite <- Hv2. eapply IH; [done|done|by rewrite Hv1|].
      rewrite Hv2. unfold g0. simpl. by rewrite length_alter.
Qed.

Lemma simplify_clause_evolves g c es : evolves g (simplify_clause g c es).
Proof.
  revert g. induction es as [|e es IH]; intros g; simpl.
  - apply evolves_refl.
  - destruct (var_assigned g (edge_variable g e)); [|apply IH].
    destruct (eqb (edge_type g e) (var_value g (edge_variable g e))).
    + apply evolves_Clause_Dissable.
    + eapply evolves_trans; [apply evolves_Edge_Dissable|apply IH].
Qed.

Lemma evolves_inactive g g' e :
  evolves g g' -> edge_active g e = false -> edge_active g' e = false.
Proof.
  intros Hev H. destruct (edge_active g' e) eqn:E; [|done].
  apply (evolves_active _ _ _ Hev) in E. congruence.
Qed.

Lemma simplify_clause_disables g c es e :
  In e es -> edge_clause g e = c ->
  var_assigned g (edge_variable g e) = true ->
  edge_active (simplify_clause g c es) e = false.
Proof.
  revert g. induction es as [|e' es IH]; intros g Hin Hc Ha; [done|]. simpl.
  destruct (var_assigned g (edge_variable g e')) eqn:Ha'.
  - destruct (eqb (edge_type g e') (var_value g (edge_variable g e'))).
    + unfold edge_active. rewrite is_clause_enabled_Clause_Dissable.
      change (edge_clause (Clause_Dissable g c) e) with (edge_clause g e).
      rewrite Hc, decide_True by done. apply andb_false_r.
    + destruct Hin as [->|Hin].
      * eapply evolves_inactive; [apply simplify_clause_evolves|].
        unfold edge_active. rewrite is_edge_enabled_Edge_Dissable.
        by rewrite decide_True.
      * apply IH; [done| |].
        -- by rewrite edge_clause_Edge_Dissable.
        -- by rewrite edge_variable_Edge_Dissable.
  - destruct Hin as [->|Hin]; [congruence|]. by apply IH.
Qed.

Lemma simplify_clauses_evolves g cs g' :
  simplify_clauses g cs = Completed g' \/
  simplify_clauses g cs = Contradiction g' ->
  evolves g g'.
Proof.
  revert g. induction cs as [|c cs IH]; intros g H; simpl in H.
  - destruct H as [H|H]; [|done]. injection H as <-. apply evolves_refl.
  - set (g1 := simplify_clause g c (Clause_GetEnabledEdges g c)) in *.
    assert (evolves g g1) by apply simplify_clause_evolves.
    destruct (is_clause_enabled g1 c
              && Nat.eqb (length (Clause_GetEnabledEdges g1 c)) 0).
    + destruct H as [H|H]; [done|]. by injection H as <-.
    + eapply evolves_trans; [done|by apply IH].
Qed.

Lemma simplify_clauses_never_out_of_bounds g cs :
  simplify_clauses g cs <> OutOfBounds.
Proof.
  revert g. induction cs as [|c cs IH]; intros g; simpl; [done|].
  by destruct (_ && _).
Qed.

Lemma In_Clause_GetEnabledEdges g c e :
  In e (Clause_GetEnabledEdges g c) <->
  edge_active g e = true /\ edge_clause g e = c.
Proof.
  unfold Clause_GetEnabledEdges. rewrite filter_In, in_seq, andb_true_iff.
  rewrite Nat.eqb_eq. split; [tauto|]. intros [H1 H2]. split_and!; try done.
  - lia.
  - apply is_edge_enabled_lt. unfold edge_active in H1.
    by apply andb_true_iff in H1 as [? _].
Qed.

Lemma simplify_clauses_disables g cs g' c e :
  simplify_clauses g cs = Completed g' ->
  In c cs -> edge_clause g e = c -> edge_active g e = true ->
  var_assigned g (edge_variable g e) = true ->
  edge_active g' e = false.
Proof.
  revert g. induction cs as [|c' cs IH]; intros g H Hin Hc Hact Ha; [done|].
  simpl in H.
  set (g1 := simplify_clause g c' (Clause_GetEnabledEdges g c')) in *.
  assert (Hev : evolves g g1) by apply simplify_clause_evolves.
  destruct (is_clause_enabled g1 c'
            && Nat.eqb (length (Clause_GetEnabledEdges g1 c')) 0); [done|].
  assert (Hev' : evolves g1 g')
    by (apply (simplify_clauses_evolves g1 cs); by left).
  destruct (edge_active g1 e) eqn:Hact1;
    [|by eapply evolves_inactive].
  destruct Hin as [->|Hin].
  - exfalso. assert (edge_active g1 e = false); [|congruence].
    apply simplify_clause_disables; [|done|done].
    by apply In_Clause_GetEnabledEdges.
  - eapply IH; try done.
    + by rewrite (ev_clause _ _ Hev).
    + rewrite (ev_variable _ _ Hev). by apply (ev_assigned _ _ Hev).
Qed.

Lemma assign_unit_clauses_in_bounds g l :
  (forall c, In c l -> Clause_GetEnabledEdges g c <> []) ->
  assign_unit_clauses g l <> OutOfBounds.
Proof.
  revert g. induction l as [|c l IH]; intros g H; simpl; [done|].
  destruct (Clause_GetEnabledEdges g c) as [|e rest] eqn:Hc.
  - by destruct (H c (or_introl eq_refl)).
  - destruct (negb (var_assigned g (edge_variable g e))).
    + apply IH. intros c' Hc'.
      set (g0 := AssignValue g (edge_variable g e) (edge_type g e)).
      rewrite (proj1 (views_ext g g0 eq_refl eq_refl)). apply H. by right.
    + destruct (negb (eqb _ _)); [done|]. apply IH. intros c' Hc'.
      apply H. by right.
Qed.

Lemma unit_clauses_spec g c :
  In c (unit_clauses g) ->
  In c (GetEnabledClauses g) /\
  exists e, Clause_GetEnabledEdges g c = [e].
Proof.
  unfold unit_clauses. rewrite filter_In, Nat.eqb_eq. intros [H1 H2].
  split; [done|].
  destruct (Clause_GetEnabledEdges g c) as [|e [|??]]; try done. by exists e.
Qed.

Lemma UnitPropagation_iteration_in_bounds g :
  UnitPropagation_iteration g <> Crash.
Proof.
  unfold UnitPropagation_iteration.
  destruct (Nat.eqb (length (unit_clauses g)) 0); [done|].
  destruct (assign_unit_clauses g (unit_clauses g)) as [g1|g1|] eqn:H1; [done| |].
  - destruct (simplify_clauses g1 (GetEnabledClauses g1)) eqn:H2; try done.
    by apply simplify_clauses_never_out_of_bounds in H2.
  - apply assign_unit_clauses_in_bounds in H1; [done|].
    intros c Hc. apply unit_clauses_spec in Hc as (_ & e & ->). done.
Qed.

(** An iteration that does not return leaves strictly fewer enabled edges. *)
Lemma UnitPropagation_iteration_decreases g g' :
  well_formed g = true ->
  UnitPropagation_iteration g = Continue g' ->
  evolves g g' /\
  (length (GetEnabledEdges g') < length (GetEnabledEdges g))%nat.
Proof.
  intros Hwf. unfold UnitPropagation_iteration.
  destruct (unit_clauses g) as [|c0 ucs] eqn:Hucs; [done|].
  change (Nat.eqb (length (c0 :: ucs)) 0) with false. cbv iota.
  destruct (assign_unit_clauses g (c0 :: ucs)) as [|g1|] eqn:H1; try done.
  destruct (simplify_clauses g1 (GetEnabledClauses g1)) as [|g2|] eqn:H2;
    try done.
  intros [= <-].
  destruct (assign_unit_clauses_frame g _ g1 (or_introl H1)) as (He & Hc & Hev1).
  assert (Hev2 : evolves g1 g2)
    by (apply (simplify_clauses_evolves g1 (GetEnabledClauses g1)); by left).
  assert (Hev : evolves g g2) by by eapply evolves_trans.
  split; [done|].
  destruct (views_ext g g1 He Hc) as (_ & Hcs & _ & Hvar & _ & Hcl & Hact).
  destruct (unit_clauses_spec g c0) as (Hin0 & e0 & He0);
    [rewrite Hucs; by left|].
  assert (Hin : In e0 (Clause_GetEnabledEdges g c0)) by (rewrite He0; by left).
  apply In_Clause_GetEnabledEdges in Hin as [Hact0 Hcl0].
  assert (Hlt : (e0 < length (edges g))%nat).
  { apply is_edge_enabled_lt. unfold edge_active in Hact0.
    by apply andb_true_iff in Hact0 as [? _]. }
  assert (Hass : var_assigned g1 (edge_variable g e0) = true).
  { apply (assign_unit_clauses_assigns g (c0 :: ucs) g1 c0 e0 []);
      [done|by left|done|].
    rewrite well_formed_spec in Hwf. by apply Hwf. }
  assert (Hoff : edge_active g2 e0 = false).
  { apply (simplify_clauses_disables g1 (GetEnabledClauses g1) g2 c0 e0).
    - done.
    - by rewrite Hcs.
    - by rewrite Hcl.
    - by rewrite Hact.
    - by rewrite Hvar. }
  unfold GetEnabledEdges. rewrite (ev_edges _ _ Hev).
  apply (filter_length_lt _ _ _ e0); try done.
  - intros e _. by apply evolves_active.
  - apply in_seq. lia.
Qed.

Lemma UnitPropagation_returns n g :
  well_formed g = true ->
  (length (GetEnabledEdges g) < n)%nat ->
  exists r, UnitPropagation n g = Returns r.
Proof.
  revert g. induction n as [|n IH]; intros g Hwf Hn; [lia|]. simpl.
  destruct (UnitPropagation_iteration g) as [r g'|g'|] eqn:Hit.
  - by eexists.
  - apply UnitPropagation_iteration_decreases in Hit as [Hev Hlt]; [|done].
    apply IH; [by eapply evolves_well_formed|lia].
  - by apply UnitPropagation_iteration_in_bounds in Hit.
Qed.

(** C8: on every well-formed factor graph, an iteration of the outer loop of
    [UnitPropagation] that does not return strictly decreases the number of
    enabled edges or the number of unassigned variables, and
    [UnitPropagation] returns: one more iteration than there are enabled
    edges is always enough. *)
Theorem UnitPropagation_terminates (g : FactorGraph) :
  well_formed g = true ->
  (forall g', UnitPropagation_iteration g = Continue g' ->
     (length (GetEnabledEdges g') < length (GetEnabledEdges g))%nat \/
     (length (GetUnassignedVariables g') < length (GetUnassignedVariables g))%nat)
  /\ exists r, UnitPropagation (S (length (GetEnabledEdges g))) g = Returns r.
Proof.
  intros Hwf. split.
  - intros g' Hit. left.
    by apply (UnitPropagation_iteration_decreases g g' Hwf).
  - apply UnitPropagation_returns; [done|lia].
Qed.

(** ** WalkSAT touches assignments only *)

(** [g'] differs from [g] in the [value] and [assigned] fields of its
    variables at most, and no variable assigned in [g] is unassigned in
    [g']. *)
Definition only_assignments (g g' : FactorGraph) : Prop :=
  clauses g' = clauses g /\
  edges g' = edges g /\
  Forall2 (fun x x' => id x' = id x /\ evalValue x' = evalValue x /\
                       (assigned x = true -> assigned x' = true))
          (variables g) (variables g').

Lemma only_assignments_refl g : only_assignments g g.
Proof.
  split_and!; try done. apply Forall2_same_length_lookup_2; [done|].
  intros i x y Hx Hy. by simplify_eq.
Qed.

Lemma only_assignments_trans g1 g2 g3 :
  only_assignments g1 g2 -> only_assignments g2 g3 -> only_assignments g1 g3.
Proof.
  intros (Hc1 & He1 & Hv1) (Hc2 & He2 & Hv2). split_and!; try congruence.
  eapply Forall2_trans; [|done|done].
  intros x y z (? & ? & ?) (? & ? & ?). split_and!; try congruence. auto.
Qed.

Lemma only_assignments_AssignValue g v b :
  only_assignments g (AssignValue g v b).
Proof.
  split_and!; try done. simpl.
  apply Forall2_same_length_lookup_2; [by rewrite length_alter|].
  intros i x y Hx Hy. destruct (decide (v = i)) as [->|Hne].
  - rewrite list_lookup_alter_eq, Hx in Hy. by simplify_eq/=.
  - rewrite list_lookup_alter_ne in Hy by done. by simplify_eq.
Qed.

Section WalksatFrame.
Context {RG : RandomGen}.
Variable cfg : Config.

Lemma assign_random_frame vars : forall g r,
  only_assignments g (assign_random g r vars).1.
Proof.
  induction vars as [|v vars IH]; intros g r; simpl.
  - apply only_assignments_refl.
  - destruct (getRandomBool r) as [b r'].
    eapply only_assignments_trans; [apply only_assignments_AssignValue|].
    apply IH.
Qed.

Lemma flip_variable_frame g v : only_assignments g (flip_variable g v).
Proof. apply only_assignments_AssignValue. Qed.

Lemma lowest_break_count_frame satClauses es : forall g lowVar low,
  only_assignments g (lowest_break_count g satClauses es lowVar low).1.1.
Proof.
  induction es as [|e es IH]; intros g lowVar low; simpl.
  - apply only_assignments_refl.
  - set (g2 := flip_variable (flip_variable g (edge_variable g e)) (edge_variable g e)).
    assert (only_assignments g g2)
      by (eapply only_assignments_trans; apply flip_variable_frame).
    destruct (_ || _); destruct (_ =? 0); simpl; try done;
      (eapply only_assignments_trans; [done|apply IH]).
Qed.

Lemma flip_step_frame g r g' r' :
  flip_step cfg g r = Flipped g' r' \/ flip_step cfg g r = Satisfied g' r' ->
  only_assignments g g'.
Proof.
  unfold flip_step. destruct (IsSAT g).
  { intros [|[= <- _]]; [done|]. apply only_assignments_refl. }
  destruct (List.filter (fun c => negb (Clause_IsSAT g c)) (GetEnabledClauses g))
    as [|c0 cs]; [by intros []|].
  destruct (uniform_int _ _ r) as [randIndex r1].
  destruct (at_index _ randIndex) as [selectedClause|]; [|by intros []].
  pose proof (lowest_break_count_frame
                (List.filter (Clause_IsSAT g) (GetEnabledClauses g))
                (Clause_GetEnabledEdges g selectedClause) g None
                (uint_add (Z.of_nat (length
                   (List.filter (Clause_IsSAT g) (GetEnabledClauses g)))) 1))
    as Hlow.
  destruct (lowest_break_count _ _ _ _ _) as [[g1 lowVar] low].
  simpl in Hlow.
  assert (Hflip : forall v, only_assignments g (flip_variable g1 v))
    by (intros v; eapply only_assignments_trans; [done|apply flip_variable_frame]).
  destruct (low =? 0).
  { destruct lowVar; intros [H|H]; try done. by injection H as <- _. }
  destruct (getRandomReal01 r1) as [x r2].
  destruct (Double.gt x (WS_NOISE cfg)).
  { destruct lowVar; intros [H|H]; try done. by injection H as <- _. }
  destruct (Clause_GetEnabledEdges g selectedClause); [by intros []|].
  destruct (uniform_int _ _ r2) as [randomEdgeIndex r3].
  destruct (at_index _ randomEdgeIndex); intros [H|H]; try done.
  by injection H as <- _.
Qed.

Lemma flips_frame n : forall g r g' r',
  flips cfg n g r = Flipped g' r' \/ flips cfg n g r = Satisfied g' r' ->
  only_assignments g g'.
Proof.
  induction n as [|n IH]; intros g r g' r'; simpl.
  - intros [[= <- _]|]; [|done]. apply only_assignments_refl.
  - destruct (flip_step cfg g r) as [g1 r1|g1 r1|] eqn:Hstep.
    + intros [|[= <- _]]; [done|].
      apply (flip_step_frame g r g1 r1). by right.
    + intros H. eapply only_assignments_trans; [|by eapply IH].
      apply (flip_step_frame g r g1 r1). by left.
    + by intros [].
Qed.

Lemma try_frame g r g' r' :
  try cfg g r = Flipped g' r' \/ try cfg g r = Satisfied g' r' ->
  only_assignments g g'.
Proof.
  unfold try.
  pose proof (assign_random_frame (GetUnassignedVariables g) g r) as H.
  destruct (assign_random g r _) as [g0 r0]. simpl in H. intros H'.
  eapply only_assignments_trans; [done|by eapply flips_frame].
Qed.

Lemma tries_frame n : forall g r b g' r',
  tries cfg n g r = Returns (b, g', r') -> only_assignments g g'.
Proof.
  induction n as [|n IH]; intros g r b g' r'; simpl.
  - intros [= _ <- _]. apply only_assignments_refl.
  - destruct (try cfg g r) as [g1 r1|g1 r1|] eqn:Htry; [| |done].
    + intros [= _ <- _]. apply (try_frame g r g1 r1). by right.
    + intros H. eapply only_assignments_trans; [|by eapply IH].
      apply (try_frame g r g1 r1). by left.
Qed.

(** C10: whenever [Walksat] returns, with success or with failure, the
    clauses (their enabled flags) and the edges (their enabled flags and
    surveys) of the graph are those of the input; of the variables only
    [value] and [assigned] may differ. *)
Theorem Walksat_preserves_topology (g : FactorGraph) (r : rng)
                                   (b : bool) (g' : FactorGraph) (r' : rng) :
  Walksat cfg g r = Returns (b, g', r') ->
  clauses g' = clauses g /\
  edges g' = edges g /\
  Forall2 (fun x x' => id x' = id x /\ evalValue x' = evalValue x)
          (variables g) (variables g').
Proof.
  intros H. destruct (tries_frame _ _ _ _ _ _ H) as (Hc & He & Hv).
  split_and!; try done. eapply Forall2_impl; [done|].
  by intros x x' (? & ? & ?).
Qed.
End WalksatFrame.

(** ** Survey propagation: the sweeps and the convergence flag *)

Section SweepProperties.
Context {RG : RandomGen}.
Variable cfg : Config.

(** The state the [for] of line 25 carries from one sweep to the next. *)
Definition sp_state : Type := FactorGraph * list EdgeId * rng.

(** The state after one more sweep, whatever its convergence flag. *)
Definition next_sweep (s : sp_state) : sp_state :=
  let '(g, es, r) := s in
  let '(g', es', r', _) := sweep cfg g es r in (g', es', r').

Definition after_sweeps (n : nat) (s : sp_state) : sp_state :=
  Nat.iter n next_sweep s.

(** The updates of one pass: for each edge in turn, its survey before and
    after [UpdateSurvey]. *)
Fixpoint survey_changes (g : FactorGraph) (es : list EdgeId)
  : list (EdgeId * double * double) :=
  match es with
  | [] => []
  | edge :: rest =>
      let g' := UpdateSurvey g edge in
      (edge, edge_survey g edge, edge_survey g' edge) :: survey_changes g' rest
  end.

(** The updates of the sweep that starts in state [s]. *)
Definition changes_of_sweep (s : sp_state) : list (EdgeId * double * double) :=
  let '(g, es, r) := s in survey_changes g (shuffle es r).1.

(** The absolute change of an update is less than [SP_EPSILON]. *)
Definition small_change (c : EdgeId * double * double) : bool :=
  Double.lt (Double.abs (Double.sub c.2 c.1.2)) (SP_EPSILON cfg).

(** The sweep that starts in state [s] updates every edge by less than
    [SP_EPSILON]. *)
Definition sweep_converges (s : sp_state) : bool :=
  forallb small_change (changes_of_sweep s).

Lemma update_surveys_flag es : forall g b,
  (update_surveys cfg g es b).2 = b && forallb small_change (survey_changes g es).
Proof.
  induction es as [|e es IH]; intros g b; simpl.
  - by rewrite andb_true_r.
  - rewrite IH. unfold small_change at 2, hasConverged. simpl.
    destruct (Double.lt _ _); simpl; [done|]. by rewrite andb_false_r.
Qed.

Lemma sweep_flag g es r :
  (sweep cfg g es r).2 = sweep_converges (g, es, r).
Proof.
  unfold sweep, sweep_converges, changes_of_sweep.
  destruct (shuffle es r) as [es' r'] eqn:Hs. simpl.
  pose proof (update_surveys_flag es' g true) as H.
  destruct (update_surveys cfg g es' true) as [g' c]. simpl in *. done.
Qed.

Lemma sweep_state g es r :
  (sweep cfg g es r).1 = next_sweep (g, es, r).
Proof.
  unfold next_sweep. by destruct (sweep cfg g es r) as [[[??]?]?].
Qed.

Lemma after_sweeps_S n s :
  after_sweeps (S n) s = after_sweeps n (next_sweep s).
Proof. unfold after_sweeps. by rewrite Nat.iter_succ_r. Qed.

(** Every sweep runs over a permutation of the same edges. *)
Lemma after_sweeps_edges n : forall s,
  (after_sweeps n s).1.2 ≡ₚ s.1.2.
Proof.
  induction n as [|n IH]; intros s; [done|].
  rewrite after_sweeps_S, IH. destruct s as [[g es] r]. unfold next_sweep, sweep.
  pose proof (shuffle_perm es r) as Hp.
  destruct (shuffle es r) as [es' r'].
  by destruct (update_surveys cfg g es' true).
Qed.

Lemma changes_of_sweep_edges s :
  map (fun c => c.1.1) (changes_of_sweep s) ≡ₚ s.1.2.
Proof.
  destruct s as [[g es] r]. unfold changes_of_sweep. simpl.
  rewrite <- (shuffle_perm es r) at 2.
  generalize (shuffle es r).1 as l. clear. intros l. revert g.
  induction l as [|e l IH]; intros g; simpl; [done|]. by rewrite IH.
Qed.

Lemma sp_loop_converged n g es r totalIt :
  sp_loop cfg n g es r true totalIt =
  ({| converged := true; iterations := totalIt |}, g, r).
Proof. by destruct n. Qed.

(** The loop runs [m] sweeps, none of which but the last may converge. *)
Lemma sp_loop_spec n : forall g es r totalIt,
  0 <= totalIt -> totalIt + Z.of_nat n < uint_max ->
  exists m : nat,
    (m <= n)%nat /\
    (sp_loop cfg n g es r false totalIt).1.1.(iterations)
      = totalIt + Z.of_nat m /\
    ((sp_loop cfg n g es r false totalIt).1.2,
     (sp_loop cfg n g es r false totalIt).2)
      = ((after_sweeps m (g, es, r)).1.1, (after_sweeps m (g, es, r)).2) /\
    (forall j, (S j < m)%nat ->
               sweep_converges (after_sweeps j (g, es, r)) = false) /\
    (sp_loop cfg n g es r false totalIt).1.1.(converged)
      = match m with
        | O => false
        | S j => sweep_converges (after_sweeps j (g, es, r))
        end /\
    ((sp_loop cfg n g es r false totalIt).1.1.(converged) = false -> m = n).
Proof.
  induction n as [|n IH]; intros g es r totalIt H0 Hmax.
  - exists 0%nat. simpl. split_and!; try done; [lia|]. intros j Hj. lia.
  - simpl. destruct (sweep cfg g es r) as [[[g' es'] r'] c] eqn:Hsw.
    assert (Hflag : sweep_converges (g, es, r) = c)
      by (by rewrite <- sweep_flag, Hsw).
    assert (Hstate : next_sweep (g, es, r) = (g', es', r'))
      by (by rewrite <- sweep_state, Hsw).
    assert (Hadd : uint_add totalIt 1 = totalIt + 1).
    { unfold uint_add, uint_wrap. apply Z.mod_small. lia. }
    rewrite Hadd. destruct c.
    + exists 1%nat. rewrite sp_loop_converged.
      change (after_sweeps 1 (g, es, r)) with (next_sweep (g, es, r)).
      change (after_sweeps 0 (g, es, r)) with (g, es, r).
      rewrite Hstate. simpl. split_and!; try done; try lia.
    + destruct (IH g' es' r' (totalIt + 1)) as (m & Hm & Hit & Hst & Hno & Hc & Hf);
        [lia|lia|].
      exists (S m). rewrite after_sweeps_S, Hstate.
      split_and!; try done; try lia.
      * intros [|j] Hj; [done|]. rewrite after_sweeps_S, Hstate.
        apply Hno. lia.
      * rewrite Hc. destruct m as [|j]; [done|].
        by rewrite after_sweeps_S, Hstate.
      * intros Hcf. by rewrite (Hf Hcf).
Qed.
End SweepProperties.

(** ** Survey propagation touches surveys only *)

Record surveys_only (g g' : FactorGraph) : Prop := {
  so_variables : variables g' = variables g;
  so_clauses : clauses g' = clauses g;
  so_edges : length (edges g') = length (edges g);
  so_type : forall e, edge_type g' e = edge_type g e;
  so_variable : forall e, edge_variable g' e = edge_variable g e;
  so_clause : forall e, edge_clause g' e = edge_clause g e;
  so_enabled : forall e, is_edge_enabled g' e = is_edge_enabled g e
}.

Lemma surveys_only_refl g : surveys_only g g.
Proof. by constructor. Qed.

Lemma surveys_only_trans g1 g2 g3 :
  surveys_only g1 g2 -> surveys_only g2 g3 -> surveys_only g1 g3.
Proof. intros [] []. constructor; congruence. Qed.

Lemma surveys_only_set_survey g e s : surveys_only g (set_survey g e s).
Proof.
  constructor; try done.
  - simpl. apply length_alter.
  - apply edge_type_set_survey.
  - apply edge_variable_set_survey.
  - apply edge_clause_set_survey.
  - apply is_edge_enabled_set_survey.
Qed.

Lemma surveys_only_UpdateSurvey g e : surveys_only g (UpdateSurvey g e).
Proof. apply surveys_only_set_survey. Qed.

Lemma surveys_only_active g g' e :
  surveys_only g g' -> edge_active g' e = edge_active g e.
Proof.
  intros []. unfold edge_active, is_clause_enabled.
  by rewrite so_enabled0, so_clause0, so_clauses0.
Qed.

Lemma surveys_only_views g g' :
  surveys_only g g' ->
  GetEnabledEdges g' = GetEnabledEdges g /\
  (forall c, Clause_GetEnabledEdges g' c = Clause_GetEnabledEdges g c) /\
  (forall v, Variable_GetEnabledEdges g' v = Variable_GetEnabledEdges g v) /\
  GetEnabledClauses g' = GetEnabledClauses g /\
  GetUnassignedVariables g' = GetUnassignedVariables g.
Proof.
  intros H. pose proof (surveys_only_active g g') as Ha. destruct H.
  unfold GetEnabledEdges, Clause_GetEnabledEdges, Variable_GetEnabledEdges,
    GetEnabledClauses, GetUnassignedVariables, is_clause_enabled, var_assigned.
  rewrite so_edges0, so_clauses0, so_variables0.
  split_and!; try done; intros; apply filter_ext; intros e;
    rewrite ?Ha, ?so_clause0, ?so_variable0; done.
Qed.

Section SurveysOnly.
Context {RG : RandomGen}.
Variable cfg : Config.

Lemma init_surveys_surveys_only es : forall g r,
  surveys_only g (init_surveys g r es).1.
Proof.
  induction es as [|e es IH]; intros g r; simpl.
  - apply surveys_only_refl.
  - destruct (getRandomReal01 r) as [x r'].
    eapply surveys_only_trans; [apply surveys_only_set_survey|apply IH].
Qed.

Lemma update_surveys_surveys_only es : forall g b,
  surveys_only g (update_surveys cfg g es b).1.
Proof.
  induction es as [|e es IH]; intros g b; simpl.
  - apply surveys_only_refl.
  - eapply surveys_only_trans; [apply surveys_only_UpdateSurvey|apply IH].
Qed.

Lemma next_sweep_surveys_only s : surveys_only s.1.1 (next_sweep cfg s).1.1.
Proof.
  destruct s as [[g es] r]. unfold next_sweep, sweep.
  destruct (shuffle es r) as [es' r'].
  pose proof (update_surveys_surveys_only es' g true) as H.
  by destruct (update_surveys cfg g es' true).
Qed.

Lemma after_sweeps_surveys_only n : forall s,
  surveys_only s.1.1 (after_sweeps cfg n s).1.1.
Proof.
  induction n as [|n IH]; intros s; [apply surveys_only_refl|].
  rewrite after_sweeps_S.
  eapply surveys_only_trans; [apply next_sweep_surveys_only|apply IH].
Qed.

(** C4: [SurveyPropagation] runs [n] sweeps with [n] at most
    [SP_MAX_ITERATIONS], each over the enabled edges of the graph; the
    [iterations] it returns is [n] and the graph it leaves is the one after
    these [n] sweeps; [converged] is true iff some sweep within the cap
    changes every edge by less than [SP_EPSILON], and then the last sweep
    run is the first such sweep. *)
Theorem SurveyPropagation_sweeps (g : FactorGraph) (r : rng) :
  Z.of_nat (SP_MAX_ITERATIONS cfg) < uint_max ->
  let s0 : sp_state :=
    ((init_surveys g r (GetEnabledEdges g)).1, GetEnabledEdges g,
     (init_surveys g r (GetEnabledEdges g)).2) in
  let result := (SurveyPropagation cfg g r).1.1 in
  exists n : nat,
    (n <= SP_MAX_ITERATIONS cfg)%nat /\
    iterations result = Z.of_nat n /\
    (SurveyPropagation cfg g r).1.2 = (after_sweeps cfg n s0).1.1 /\
    (SurveyPropagation cfg g r).2 = (after_sweeps cfg n s0).2 /\
    (forall j,
       map (fun c => c.1.1) (changes_of_sweep (after_sweeps cfg j s0))
         ≡ₚ GetEnabledEdges (after_sweeps cfg j s0).1.1) /\
    (converged result = true <->
     exists j, (j < SP_MAX_ITERATIONS cfg)%nat /\
               sweep_converges cfg (after_sweeps cfg j s0) = true) /\
    (converged result = true ->
     exists j, n = S j /\
               sweep_converges cfg (after_sweeps cfg j s0) = true /\
               forall i, (i < j)%nat ->
                         sweep_converges cfg (after_sweeps cfg i s0) = false).
Proof.
  intros Hmax s0 result. unfold result, SurveyPropagation.
  fold s0. destruct (init_surveys g r (GetEnabledEdges g)) as [g0 r0] eqn:Hinit.
  simpl in s0.
  destruct (sp_loop_spec cfg (SP_MAX_ITERATIONS cfg) g0 (GetEnabledEdges g) r0 0)
    as (n & Hn & Hit & Hst & Hno & Hc & Hf); [done|lia|].
  fold s0 in Hst, Hno, Hc.
  exists n. injection Hst as Hg Hr. split_and!; try done.
  - intros j. rewrite changes_of_sweep_edges, after_sweeps_edges. simpl.
    pose proof (after_sweeps_surveys_only j s0) as H1.
    pose proof (init_surveys_surveys_only (GetEnabledEdges g) g r) as H2.
    rewrite Hinit in H2. simpl in H1, H2.
    rewrite (proj1 (surveys_only_views _ _ H1)).
    by rewrite (proj1 (surveys_only_views _ _ H2)).
  - split.
    + intros Hconv. rewrite Hconv in Hc. destruct n as [|j]; [done|].
      exists j. split; [lia|done].
    + intros (j & Hj & Hjc).
      destruct (converged _) eqn:Hconv; [done|].
      specialize (Hf eq_refl). subst n.
      destruct (SP_MAX_ITERATIONS cfg) as [|k]; [lia|].
      destruct (decide (j = k)) as [->|Hne]; [congruence|].
      rewrite Hno in Hjc; [done|lia].
  - intros Hconv. rewrite Hconv in Hc. destruct n as [|j]; [done|].
    exists j. split_and!; try done. intros i Hi. apply Hno. lia.
Qed.
End SurveysOnly.

(** ** The instances of the examples satisfy their laws *)

Lemma insert_sorted_perm cmp x l : insert_sorted cmp x l ≡ₚ x :: l.
Proof.
  induction l as [|y l IH]; simpl; [done|].
  destruct (cmp x y); [done|]. rewrite IH. apply Permutation_swap.
Qed.

Lemma insertion_sort_perm cmp l : insertion_sort cmp l ≡ₚ l.
Proof.
  induction l as [|x l IH]; simpl; [done|].
  unfold insertion_sort in *. simpl. by rewrite insert_sorted_perm, IH.
Qed.

Lemma insert_sorted_sorted cmp (dom : list nat) x l :
  strict_weak_on cmp dom -> x ∈ dom -> (forall y, y ∈ l -> y ∈ dom) ->
  StronglySorted (fun a b => cmp b a = false) l ->
  StronglySorted (fun a b => cmp b a = false) (insert_sorted cmp x l).
Proof.
  intros [Hasym Hneg] Hx Hl Hs. induction Hs as [|y l Hs IH Hy]; simpl.
  - repeat constructor.
  - assert (Hyd : y ∈ dom) by (apply Hl; left).
    assert (Hld : forall z, z ∈ l -> z ∈ dom) by (intros z Hz; apply Hl; by right).
    destruct (cmp x y) eqn:Hxy.
    + constructor; [by constructor|]. constructor; [by apply Hasym|].
      rewrite Forall_forall in Hy |- *. intros z Hz.
      destruct (cmp z x) eqn:Hzx; [|done].
      destruct (Hneg z y x (Hld z Hz) Hyd Hx Hzx) as [H|H].
      * rewrite (Hy z Hz) in H. done.
      * rewrite (Hasym x y Hx Hyd Hxy) in H. done.
    + constructor; [by apply IH|].
      rewrite Forall_forall in Hy |- *. intros z Hz.
      rewrite insert_sorted_perm in Hz. apply elem_of_cons in Hz as [->|Hz]; auto.
  Qed.

Lemma insertion_sort_sorted cmp l :
  strict_weak_on cmp l ->
  StronglySorted (fun a b => cmp b a = false) (insertion_sort cmp l).
Proof.
  intros Hsw. unfold insertion_sort.
  assert (Hsub : forall y, y ∈ l -> y ∈ l) by done. revert Hsub.
  generalize l at 1 3 as k. induction k as [|x k IH]; intros Hsub; simpl.
  - constructor.
  - apply (insert_sorted_sorted cmp l); [done|apply Hsub; left| |].
    + intros y Hy. apply Hsub. right.
      change (y ∈ insertion_sort cmp k) in Hy.
      by rewrite insertion_sort_perm in Hy.
    + apply IH. intros y Hy. apply Hsub. by right.
Qed.

Definition insertion_StdSort : StdSort := {|
  std_sort := insertion_sort;
  std_sort_perm := insertion_sort_perm;
  std_sort_sorted := insertion_sort_sorted
|}.

Lemma counter_real01_valid s : Double.valid (counter_real01 s) = true.
Proof. unfold counter_real01. by destruct (Z.even s). Qed.

Lemma counter_real01_range s :
  Double.le Double.zero (counter_real01 s) = true /\
  Double.lt (counter_real01 s) Double.one = true.
Proof. unfold counter_real01. by destruct (Z.even s). Qed.

Lemma counter_uniform_int_range (lo hi s : Z) :
  lo <= hi -> lo <= lo + s mod (hi - lo + 1) <= hi.
Proof. intros H. pose proof (Z.mod_pos_bound s (hi - lo + 1)). lia. Qed.

Lemma counter_shuffle_perm l s : counter_shuffle l s ≡ₚ l.
Proof.
  unfold counter_shuffle. destruct (Z.even s); [done|apply reverse_Permutation].
Qed.

Definition counter_RandomGen : RandomGen := {|
  rng := Z;
  setSeed := fun seed => seed;
  getRandomReal01 := fun s => (counter_real01 s, s + 1);
  getRandomBool := fun s => (Z.odd s, s + 1);
  uniform_int := fun lo hi s => (lo + s mod (hi - lo + 1), s + 1);
  shuffle := fun l s => (counter_shuffle l s, s + 1);
  getRandomReal01_valid := counter_real01_valid;
  getRandomReal01_range := counter_real01_range;
  uniform_int_range := counter_uniform_int_range;
  shuffle_perm := counter_shuffle_perm
|}.

Definition counting_SteadyClock : SteadyClock := {|
  clock := nat;
  time_point := nat;
  now := fun c => (c, S c)
|}.

(** ** The driver: fuel, the trivial-survey branch, determinism *)

Lemma UnitPropagation_fuel_mono n : forall m g res,
  UnitPropagation n g = Returns res -> (n <= m)%nat ->
  UnitPropagation m g = Returns res.
Proof.
  induction n as [|n IH]; intros m g res H Hle; [done|].
  destruct m as [|m]; [lia|]. simpl in *.
  destruct (UnitPropagation_iteration g); try done. apply IH; [done|lia].
Qed.

Section DriverProperties.
Context {RG : RandomGen} {SS : StdSort}.
Variable cfg : Config.

Lemma allTrivial_zero g :
  (forall e, In e (GetEnabledEdges g) -> edge_survey g e = Double.zero) ->
  allTrivial g = true.
Proof.
  intros H. unfold allTrivial. apply forallb_forall. intros e He.
  by rewrite (H e He).
Qed.

(** C7: in an iteration of the loop of [SID] in which [SurveyPropagation]
    converged and left the survey of every enabled edge at zero (none at
    all included), [SID] calls [Walksat] on the graph as
    [SurveyPropagation] left it and returns with the boolean of [Walksat]
    as its [SAT]; the graph it leaves is the one [Walksat] left, no bias
    was evaluated and no variable decimated. *)
Theorem SID_trivial_surveys_call_Walksat
        (fuel : nat) (g : FactorGraph) (fraction : double) (r : rng)
        (totalSPIt : Z) :
  let spResult := (SurveyPropagation cfg g r).1.1 in
  let g1 := (SurveyPropagation cfg g r).1.2 in
  let r1 := (SurveyPropagation cfg g r).2 in
  converged spResult = true ->
  (forall e, In e (GetEnabledEdges g1) -> edge_survey g1 e = Double.zero) ->
  SID_loop cfg (S fuel) g fraction r totalSPIt =
  match Walksat cfg g1 r1 with
  | Returns (walksatResult, g2, r2) =>
      Returns (walksatResult, uint_add totalSPIt (iterations spResult), g2, r2)
  | Undefined => Undefined
  | OutOfFuel => OutOfFuel
  end.
Proof.
  intros spResult g1 r1 Hconv Hzero. simpl. unfold SID_iteration.
  subst spResult g1 r1.
  destruct (SurveyPropagation cfg g r) as [[spResult g1] r1]. simpl in *.
  rewrite Hconv, (allTrivial_zero g1 Hzero). simpl.
  by destruct (Walksat cfg g1 r1) as [[[walksatResult g2] r2]| |].
Qed.

Lemma SID_iteration_fuel_mono n m g fraction r totalSPIt res :
  SID_iteration cfg n g fraction r totalSPIt = Returns res -> (n <= m)%nat ->
  SID_iteration cfg m g fraction r totalSPIt = Returns res.
Proof.
  unfold SID_iteration. intros H Hle.
  destruct (SurveyPropagation cfg g r) as [[spResult g1] r1].
  destruct (negb (converged spResult)); [done|].
  destruct (allTrivial g1); [done|].
  destruct (decimation g1 fraction) as [g2|]; [|done].
  destruct (UnitPropagation n g2) as [[UPResult g3]| |] eqn:HUP; try done.
  by rewrite (UnitPropagation_fuel_mono n m g2 _ HUP Hle).
Qed.

Lemma SID_loop_fuel_mono n : forall m g fraction r totalSPIt res,
  SID_loop cfg n g fraction r totalSPIt = Returns res -> (n <= m)%nat ->
  SID_loop cfg m g fraction r totalSPIt = Returns res.
Proof.
  induction n as [|n IH]; intros m g fraction r totalSPIt res H Hle; [done|].
  destruct m as [|m]; [lia|].
  cbn [SID_loop] in *.
  destruct (SID_iteration cfg (S n) g fraction r totalSPIt)
    as [[[it r'] total]| |] eqn:Hit; try done.
  rewrite (SID_iteration_fuel_mono (S n) (S m) _ _ _ _ _ Hit) by lia.
  destruct it as [[sat total'] g'|g'|]; try done. apply IH; [done|lia].
Qed.

(** C9: if a run of [SID] on the graph of a DIMACS input, with the random
    source seeded with [seed], returns, then any other run on the same
    input with the same seed returns too, whatever its clock reads and
    however much more fuel it is given, with the same [SAT] and the same
    [totalSPIterations]. *)
Theorem SID_deterministic
        (CK1 CK2 : SteadyClock) (numVars : nat) (cls : list (list Z))
        (fraction : double) (seed : Z) (fuel1 fuel2 : nat)
        (c1 : @clock CK1) (c2 : @clock CK2) (out1 : _) :
  SID (CK := CK1) cfg fuel1 (FactorGraph_of_cnf numVars cls) fraction
      (setSeed seed) c1 = Returns out1 ->
  (fuel1 <= fuel2)%nat ->
  exists out2,
    SID (CK := CK2) cfg fuel2 (FactorGraph_of_cnf numVars cls) fraction
        (setSeed seed) c2 = Returns out2 /\
    SAT out2.1.1.1 = SAT out1.1.1.1 /\
    totalSPIterations out2.1.1.1 = totalSPIterations out1.1.1.1.
Proof.
  unfold SID. intros H Hle.
  destruct (now c1) as [begin1 c1']. destruct (now c2) as [begin2 c2'].
  destruct (SID_loop cfg fuel1 _ fraction (setSeed seed) 0)
    as [[[[sat total] g'] r']| |] eqn:Hloop; try done.
  rewrite (SID_loop_fuel_mono fuel1 fuel2 _ _ _ _ _ Hloop Hle).
  destruct (now c1') as [end1 c1'']. destruct (now c2') as [end2 c2''].
  injection H as <-. by eexists.
Qed.
End DriverProperties.

(** ** Two unit clauses with opposite signs of the same variable *)

(** The graph of [p cnf 1 2], [1 0], [-1 0]. *)
Definition opposite_units : FactorGraph := FactorGraph_of_cnf 1 [[1]; [-1]].

(** The same graph with the surveys [a] and [b] on its two edges. *)
Definition opposite_units_with (a b : double) : FactorGraph := {|
  variables := [{| id := 1; value := false; assigned := false;
                   evalValue := Double.zero |}];
  clauses := [{| clause_id := 1; clause_enabled := true |};
              {| clause_id := 2; clause_enabled := true |}];
  edges := [{| type := true; edge_enabled := true; variable := 0; clause := 0;
               survey := a |};
            {| type := false; edge_enabled := true; variable := 0; clause := 1;
               survey := b |}]
|}.

(** The graph after the decimation of its only variable: the variable is
    false, the edge of the first clause is disabled, the second clause is
    disabled; the first clause is enabled and has no enabled edge left. *)
Definition opposite_units_decimated : FactorGraph := {|
  variables := [{| id := 1; value := false; assigned := true;
                   evalValue := Double.zero |}];
  clauses := [{| clause_id := 1; clause_enabled := true |};
              {| clause_id := 2; clause_enabled := false |}];
  edges := [{| type := true; edge_enabled := false; variable := 0; clause := 0;
               survey := Double.one |};
            {| type := false; edge_enabled := true; variable := 0; clause := 1;
               survey := Double.one |}]
|}.

Lemma perm_two (l : list nat) :
  l ≡ₚ [0; 1]%nat -> l = [0; 1]%nat \/ l = [1; 0]%nat.
Proof.
  intros H. pose proof (Permutation_length H) as Hlen.
  destruct l as [|x [|y [|??]]]; try done.
  assert (Hx : x ∈ [0; 1]%nat) by (rewrite <- H; left).
  assert (Hy : y ∈ [0; 1]%nat) by (rewrite <- H; right; left).
  assert (H0 : 0%nat ∈ [x; y]) by (rewrite H; left).
  assert (H1 : 1%nat ∈ [x; y]) by (rewrite H; right; left).
  assert ((x = 0 /\ y = 1) \/ (x = 1 /\ y = 0))%nat as [[-> ->]|[-> ->]]
    by (set_unfold; lia); auto.
Qed.

Section OppositeUnits.
Context {RG : RandomGen} {SS : StdSort} {CK : SteadyClock}.
Variable maxFlips : nat.
Let cfg := default_config (S maxFlips).

Lemma opposite_units_init r :
  exists a b r', init_surveys opposite_units r (GetEnabledEdges opposite_units)
                 = (opposite_units_with a b, r').
Proof.
  change (GetEnabledEdges opposite_units) with [0; 1]%nat. simpl.
  destruct (getRandomReal01 r) as [a r1].
  destruct (getRandomReal01 r1) as [b r2]. by exists a, b, r2.
Qed.

Lemma opposite_units_update es a b :
  es ≡ₚ [0; 1]%nat ->
  (update_surveys cfg (opposite_units_with a b) es true).1
  = opposite_units_with Double.one Double.one.
Proof. intros [->| ->]%perm_two; reflexivity. Qed.

Lemma opposite_units_fixed es :
  es ≡ₚ [0; 1]%nat ->
  update_surveys cfg (opposite_units_with Double.one Double.one) es true
  = (opposite_units_with Double.one Double.one, true).
Proof. intros [->| ->]%perm_two; reflexivity. Qed.

(** Survey propagation converges within two sweeps and leaves both surveys
    at one. *)
Lemma opposite_units_SurveyPropagation r :
  exists its r',
    SurveyPropagation cfg opposite_units r
    = ({| converged := true; iterations := its |},
       opposite_units_with Double.one Double.one, r').
Proof.
  unfold SurveyPropagation.
  destruct (opposite_units_init r) as (a & b & r0 & ->).
  change (GetEnabledEdges opposite_units) with [0; 1]%nat.
  change (SP_MAX_ITERATIONS cfg) with (S (S 998)).
  generalize 998%nat. intros k. cbn [sp_loop]. unfold sweep.
  pose proof (shuffle_perm [0; 1]%nat r0) as Hp1.
  destruct (shuffle [0; 1]%nat r0) as [es1 r1]. simpl in Hp1.
  pose proof (opposite_units_update es1 a b Hp1) as Hu.
  destruct (update_surveys cfg (opposite_units_with a b) es1 true) as [g1 c1].
  simpl in Hu. subst g1. destruct c1.
  { cbn [sp_loop]. by eexists _, _. }
  cbn [sp_loop]. unfold sweep.
  pose proof (shuffle_perm es1 r1) as Hp2.
  destruct (shuffle es1 r1) as [es2 r2]. simpl in Hp2.
  assert (Hp3 : es2 ≡ₚ [0; 1]%nat) by (by rewrite Hp2). clear Hp2.
  rename Hp3 into Hp2.
  rewrite (opposite_units_fixed es2 Hp2). cbv beta iota.
  rewrite sp_loop_converged. by eexists _, _.
Qed.

Lemma opposite_units_decimation fraction :
  assign_fraction 1 fraction = Some 1 ->
  decimation (opposite_units_with Double.one Double.one) fraction
  = Some opposite_units_decimated.
Proof.
  intros Hk. unfold decimation.
  change (GetUnassignedVariables (opposite_units_with Double.one Double.one))
    with [0%nat].
  change (length [0%nat]) with 1%nat. rewrite Hk.
  set (g1 := evaluate_variables _ _).
  assert (Hs : std_sort (by_bias g1) [0%nat] = [0%nat])
    by (apply Permutation_singleton_r, std_sort_perm).
  rewrite Hs. reflexivity.
Qed.

(** Unit propagation finds no unit clause and reports success, although the
    first clause is enabled and empty. *)
Lemma opposite_units_UnitPropagation fuel :
  UnitPropagation (S fuel) opposite_units_decimated
  = Returns (true, opposite_units_decimated).
Proof. reflexivity. Qed.

Lemma opposite_units_decimated_SurveyPropagation r :
  exists r',
    SurveyPropagation cfg opposite_units_decimated r
    = ({| converged := true; iterations := 1 |}, opposite_units_decimated, r').
Proof.
  unfold SurveyPropagation.
  change (GetEnabledEdges opposite_units_decimated) with (@nil nat).
  change (SP_MAX_ITERATIONS cfg) with (S 999).
  generalize 999%nat. intros k. cbn [sp_loop init_surveys]. unfold sweep.
  pose proof (shuffle_perm [] r) as Hp.
  destruct (shuffle [] r) as [es r']. simpl in Hp.
  apply Permutation_nil_r in Hp. subst es. cbn [update_surveys].
  rewrite sp_loop_converged. by eexists.
Qed.

(** WalkSAT selects the empty clause and dereferences the null pointer
    [lowestBreakCountVar], or indexes the empty vector of its edges. *)
Lemma opposite_units_Walksat r :
  Walksat cfg opposite_units_decimated r = Undefined.
Proof.
  unfold Walksat. change (WS_MAX_TRIES cfg) with (S 9). cbn [tries].
  unfold try.
  change (GetUnassignedVariables opposite_units_decimated) with (@nil nat).
  change (WS_MAX_FLIPS cfg) with (S maxFlips). cbn [assign_random flips].
  unfold flip_step.
  change (IsSAT opposite_units_decimated) with false. cbv iota.
  change (List.filter (fun c => negb (Clause_IsSAT opposite_units_decimated c))
                      (GetEnabledClauses opposite_units_decimated))
    with [0%nat].
  change (List.filter (Clause_IsSAT opposite_units_decimated)
                      (GetEnabledClauses opposite_units_decimated))
    with (@nil nat).
  cbv iota. change (Z.of_nat (length [0%nat]) - 1) with 0.
  pose proof (uniform_int_range 0 0 r) as Hr.
  destruct (uniform_int 0 0 r) as [randIndex r1]. simpl in Hr.
  assert (randIndex = 0) as -> by lia.
  change (at_index [0%nat] 0) with (Some 0%nat). cbv iota.
  change (Clause_GetEnabledEdges opposite_units_decimated 0) with (@nil nat).
  cbn [lowest_break_count].
  change (uint_add (Z.of_nat (length (@nil nat))) 1 =? 0) with false. cbv iota.
  destruct (getRandomReal01 r1) as [x r2].
  by destruct (Double.gt x (WS_NOISE cfg)).
Qed.

(** C1 (the code departs from the claim): on the graph of [p cnf 1 2],
    [1 0], [-1 0], with the default constants and a fraction that assigns
    one variable, [SID] does not return [SAT = false]: decimation empties
    the first clause, [UnitPropagation] reports success, the second round
    of survey propagation converges on no edge at all, and [Walksat] runs
    into undefined behaviour on the empty clause. *)
Theorem SID_opposite_units_undefined
        (fuel : nat) (fraction : double) (r : rng) (c : clock) :
  assign_fraction 1 fraction = Some 1 ->
  SID cfg (S (S fuel)) opposite_units fraction r c = Undefined.
Proof.
  intros Hk. unfold SID. destruct (now c) as [begin c1].
  cbn [SID_loop]. unfold SID_iteration at 1.
  destruct (opposite_units_SurveyPropagation r) as (its & r1 & ->).
  cbn [converged iterations negb].
  change (allTrivial (opposite_units_with Double.one Double.one)) with false.
  cbv iota. rewrite (opposite_units_decimation fraction Hk).
  rewrite opposite_units_UnitPropagation. cbn [negb].
  change (IsSAT opposite_units_decimated) with false. cbv iota.
  unfold SID_iteration.
  destruct (opposite_units_decimated_SurveyPropagation r1) as (r2 & ->).
  cbn [converged iterations negb].
  change (allTrivial opposite_units_decimated) with true. cbv iota.
  by rewrite opposite_units_Walksat.
Qed.
End OppositeUnits.

(** C2 (the code departs from the claim): on the graph that decimation
    leaves of [p cnf 1 2], [1 0], [-1 0], [UnitPropagation] returns success
    and leaves the graph as it is, in which the first clause is enabled and
    has no enabled edge. *)
Theorem UnitPropagation_success_keeps_empty_clause (fuel : nat) :
  UnitPropagation (S fuel) opposite_units_decimated
  = Returns (true, opposite_units_decimated) /\
  is_clause_enabled opposite_units_decimated 0 = true /\
  Clause_GetEnabledEdges opposite_units_decimated 0 = [].
Proof. done. Qed.

(** ** The order of the machine comparison *)

(** A key whose lexicographic order is the order of [SFcompare] on the
    values that are not NaN. *)
Definition rank (x : double) : Z * Z * Z :=
  match x with
  | S754_zero _ => (0, 0, 0)
  | S754_infinity false => (2, 0, 0)
  | S754_infinity true => (-2, 0, 0)
  | S754_nan => (3, 0, 0)
  | S754_finite false m e => (1, e, Zpos m)
  | S754_finite true m e => (-1, - e, Zneg m)
  end.

Definition lex_lt (a b : Z * Z * Z) : Prop :=
  a.1.1 < b.1.1 \/
  (a.1.1 = b.1.1 /\ (a.1.2 < b.1.2 \/ (a.1.2 = b.1.2 /\ a.2 < b.2))).

Lemma SFltb_rank x y :
  Double.isnan x = false -> Double.isnan y = false ->
  SFltb x y = true <-> lex_lt (rank x) (rank y).
Proof.
  intros Hx Hy. unfold SFltb, lex_lt.
  destruct x as [sx|sx| |sx mx ex], y as [sy|sy| |sy my ey]; try done;
    try destruct sx; try destruct sy; simpl; try (split; [done|lia]);
    try (split; [lia|done]); try (split; intros; lia).
  - destruct (Z.compare_spec ex ey); simpl.
    + subst. rewrite Pos.compare_cont_spec. simpl.
      destruct (Pos.compare_spec mx my); simpl; split; try done; lia.
    + split; [done|lia].
    + split; [lia|done].
  - destruct (Z.compare_spec ex ey); simpl.
    + subst. rewrite Pos.compare_cont_spec. simpl.
      destruct (Pos.compare_spec mx my); simpl; split; try done; lia.
    + split; [lia|done].
    + split; [done|lia].
Qed.

Lemma isnan_abs x : Double.isnan (Double.abs x) = Double.isnan x.
Proof. by destruct x. Qed.

(** On variables whose bias is not NaN, the comparator of [std::sort] in
    [SID] is a strict weak ordering. *)
Lemma by_bias_strict_weak g l :
  (forall v, v ∈ l -> Double.isnan (var_evalValue g v) = false) ->
  strict_weak_on (by_bias g) l.
Proof.
  intros Hnan.
  assert (Hr : forall a b, a ∈ l -> b ∈ l ->
            by_bias g a b = true <->
            lex_lt (rank (Double.abs (var_evalValue g b)))
                   (rank (Double.abs (var_evalValue g a)))).
  { intros a b Ha Hb. unfold by_bias, Double.gt.
    apply SFltb_rank; rewrite isnan_abs; auto. }
  split.
  - intros a b Ha Hb Hab. apply (Hr a b Ha Hb) in Hab.
    destruct (by_bias g b a) eqn:Hba; [|done].
    apply (Hr b a Hb Ha) in Hba. unfold lex_lt in *. lia.
  - intros a b c Ha Hb Hc Hac. apply (Hr a c Ha Hc) in Hac.
    destruct (by_bias g a b) eqn:Hab; [by left|]. right.
    apply (Hr b c Hb Hc).
    assert (Hn : ~ lex_lt (rank (Double.abs (var_evalValue g b)))
                          (rank (Double.abs (var_evalValue g a)))).
    { intros H. apply (Hr a b Ha Hb) in H. congruence. }
    unfold lex_lt in *. lia.
Qed.

(** ** Decimation *)

(** The exact value of a finite binary64 value, counted in units of
    [2^-1074], the least positive value of the format: every valid finite
    value is a whole number of units. *)
Definition units (a : double) : Z :=
  match a with
  | S754_finite s m e => (if s then Zneg m else Zpos m) * 2 ^ (e + 1074)
  | _ => 0
  end.

Definition is_finite (a : double) : bool :=
  match a with
  | S754_zero _ | S754_finite _ _ _ => true
  | _ => false
  end.

(** [|evalValue|] of a variable, in units: the quantity by which the
    specification orders the unassigned variables. *)
Definition magnitude (g : FactorGraph) (v : VarId) : Z :=
  Z.abs (units (var_evalValue g v)).

(** The number of variables a decimation step assigns, in the words of the
    specification: [max(1, floor(n * fraction))], the product being that of
    the real numbers. *)
Definition decimation_size (n : nat) (fraction : double) : option Z :=
  if is_finite fraction
  then Some (Z.max 1 (Z.of_nat n * units fraction / 2 ^ 1074))
  else None.

(** [assignFraction] is at least one after line 301. *)
Lemma assign_fraction_pos n fraction k :
  assign_fraction n fraction = Some k -> 1 <= k.
Proof.
  unfold assign_fraction.
  destruct (Double.to_int _) as [z|]; [|done]. intros [= <-].
  destruct (Z.ltb_spec z 1); lia.
Qed.

(** What the body of the [for] of line 307 does to the graph for one
    variable, stated on the fields. *)
Record decimates (g : FactorGraph) (var : VarId) (g' : FactorGraph) : Prop := {
  dec_assigned : var_assigned g' var = true;
  dec_value : var_value g' var = Double.gt (var_evalValue g var) Double.zero;
  dec_others : forall v, v <> var -> variables g' !! v = variables g !! v;
  dec_evalValue : forall v, var_evalValue g' v = var_evalValue g v;
  dec_evolves : evolves g g';
  dec_satisfied : forall e,
    In e (Variable_GetEnabledEdges g var) ->
    edge_type g e = var_value g' var ->
    is_clause_enabled g' (edge_clause g e) = false;
  dec_falsified : forall e,
    In e (Variable_GetEnabledEdges g var) ->
    edge_type g e <> var_value g' var ->
    is_edge_enabled g' e = false;
  dec_clause_kept : forall c,
    is_clause_enabled g c = true ->
    (forall e, In e (Variable_GetEnabledEdges g var) ->
               edge_clause g e = c -> edge_type g e <> var_value g' var) ->
    is_clause_enabled g' c = true;
  dec_edge_kept : forall e,
    is_edge_enabled g e = true ->
    (In e (Variable_GetEnabledEdges g var) -> edge_type g e = var_value g' var) ->
    is_edge_enabled g' e = true
}.

Inductive decimates_all : FactorGraph -> list VarId -> FactorGraph -> Prop :=
| decimates_nil g : decimates_all g [] g
| decimates_cons g var g1 vars g2 :
    decimates g var g1 -> decimates_all g1 vars g2 ->
    decimates_all g (var :: vars) g2.

Section CleanEdges.
Context {RG : RandomGen} {SS : StdSort} {CK : SteadyClock}.

Lemma clean_edges_spec var es : forall g,
  let g' := clean_edges g var es in
  variables g' = variables g /\
  evolves g g' /\
  (forall e, In e es ->
     if eqb (edge_type g e) (var_value g var)
     then is_clause_enabled g' (edge_clause g e) = false
     else is_edge_enabled g' e = false) /\
  (forall c, is_clause_enabled g c = true ->
     (forall e, In e es -> edge_clause g e = c ->
                eqb (edge_type g e) (var_value g var) = false) ->
     is_clause_enabled g' c = true) /\
  (forall e, is_edge_enabled g e = true ->
     (In e es -> eqb (edge_type g e) (var_value g var) = true) ->
     is_edge_enabled g' e = true).
Proof.
  induction es as [|e0 es IH]; intros g; simpl.
  - split_and!; try done; try apply evolves_refl.
  - set (g1 := if eqb (edge_type g e0) (var_value g var)
               then Clause_Dissable g (edge_clause g e0)
               else Edge_Dissable g e0).
    assert (Hv : variables g1 = variables g)
      by (unfold g1; by destruct (eqb _ _)).
    assert (Hev : evolves g g1).
    { unfold g1. destruct (eqb _ _);
        [apply evolves_Clause_Dissable|apply evolves_Edge_Dissable]. }
    assert (Hval : var_value g1 var = var_value g var)
      by (unfold var_value; by rewrite Hv).
    destruct (IH g1) as (IHv & IHev & IHdone & IHc & IHe).
    pose proof (evolves_trans _ _ _ Hev IHev) as Hev'.
    split_and!.
    + congruence.
    + done.
    + intros e [<-|Hin].
      * unfold g1 in *. destruct (eqb (edge_type g e0) (var_value g var)).
        -- destruct (is_clause_enabled _ (edge_clause g e0)) eqn:E; [|done].
           apply (ev_clause_enabled _ _ IHev) in E.
           rewrite is_clause_enabled_Clause_Dissable, decide_True in E; done.
        -- destruct (is_edge_enabled _ e0) eqn:E; [|done].
           apply (ev_edge_enabled _ _ IHev) in E.
           rewrite is_edge_enabled_Edge_Dissable, decide_True in E; done.
      * specialize (IHdone e Hin).
        by rewrite (ev_type _ _ Hev), (ev_clause _ _ Hev), Hval in IHdone.
    + intros c Hc Hno. apply IHc.
      * unfold g1. destruct (eqb (edge_type g e0) (var_value g var)) eqn:E.
        -- rewrite is_clause_enabled_Clause_Dissable. case_decide; [|done].
           rewrite (Hno e0) in E; [done|by left|done].
        -- done.
      * intros e Hin Hce.
        rewrite (ev_type _ _ Hev), Hval. rewrite (ev_clause _ _ Hev) in Hce.
        apply Hno; [by right|done].
    + intros e He Hno. apply IHe.
      * unfold g1. destruct (eqb (edge_type g e0) (var_value g var)) eqn:E.
        -- done.
        -- rewrite is_edge_enabled_Edge_Dissable. case_decide; [|done].
           subst. rewrite Hno in E; [done|by left].
      * intros Hin. rewrite (ev_type _ _ Hev), Hval. apply Hno. by right.
Qed.

Lemma decimate_variable_spec g var :
  (var < length (variables g))%nat ->
  decimates g var (decimate_variable g var).
Proof.
  intros Hlt. unfold decimate_variable.
  set (b := Double.gt (var_evalValue g var) Double.zero).
  set (g1 := AssignValue g var b).
  destruct (views_ext g g1 eq_refl eq_refl) as (_ & _ & _ & Hvar & Hty & Hcl & Hact).
  assert (Hes : Variable_GetEnabledEdges g1 var = Variable_GetEnabledEdges g var).
  { unfold Variable_GetEnabledEdges. apply filter_ext. intros e.
    by rewrite Hact, Hvar. }
  rewrite Hes.
  destruct (clean_edges_spec var (Variable_GetEnabledEdges g var) g1)
    as (Hv & Hev & Hdone & Hc & He).
  set (g' := clean_edges g1 var (Variable_GetEnabledEdges g var)) in *.
  assert (Hb : var_value g1 var = b).
  { unfold g1. rewrite var_value_AssignValue, decide_True by done.
    rewrite bool_decide_eq_true_2 by done. apply andb_true_r. }
  assert (Hb' : var_value g' var = b)
    by (unfold var_value in *; by rewrite Hv).
  constructor.
  - unfold var_assigned. rewrite Hv. fold (var_assigned g1 var). unfold g1.
    rewrite var_assigned_AssignValue, decide_True by done.
    by apply bool_decide_eq_true_2.
  - done.
  - intros v Hne. rewrite Hv. unfold g1. simpl.
    by rewrite list_lookup_alter_ne.
  - intros v. unfold var_evalValue. rewrite Hv. fold (var_evalValue g1 v).
    apply var_evalValue_AssignValue.
  - eapply evolves_trans; [apply evolves_AssignValue|done].
  - intros e Hin Hty'. specialize (Hdone e Hin).
    rewrite Hty, Hcl, Hb in Hdone. rewrite Hty', Hb', eqb_reflx in Hdone. done.
  - intros e Hin Hty'. specialize (Hdone e Hin).
    rewrite Hty, Hb in Hdone. rewrite Hb' in Hty'.
    apply eqb_false_iff in Hty'. by rewrite Hty' in Hdone.
  - intros c Hc0 Hno. apply Hc; [done|]. intros e Hin Hce.
    rewrite Hty, Hb. apply eqb_false_iff. rewrite <- Hb'. apply Hno; [done|].
    by rewrite <- Hcl.
  - intros e He0 Hno. apply He; [done|]. intros Hin.
    rewrite Hty, Hb. apply eqb_true_iff. rewrite <- Hb'. by apply Hno.
Qed.
End CleanEdges.

Lemma EvaluateVariable_length g v :
  length (variables (EvaluateVariable g v)) = length (variables g).
Proof.
  unfold EvaluateVariable.
  destruct (bias_products _ _ _ _ _) as [[PVi0 PViP] PViN].
  destruct (_ || _); simpl; apply length_alter.
Qed.

Section DecimationProperties.
Context {RG : RandomGen} {SS : StdSort} {CK : SteadyClock}.

Lemma evaluate_variables_length vars : forall g,
  length (variables (evaluate_variables g vars)) = length (variables g).
Proof.
  unfold evaluate_variables.
  induction vars as [|v vars IH]; intros g; simpl; [done|].
  by rewrite IH, EvaluateVariable_length.
Qed.

Lemma decimate_spec count : forall i g l g',
  decimate g l i count = Some g' ->
  (i <= length l)%nat ->
  (forall v, v ∈ l -> (v < length (variables g))%nat) ->
  decimates_all g (take count (drop i l)) g' /\ (i + count <= length l)%nat.
Proof.
  induction count as [|count IH]; intros i g l g' H Hi0 Hl; simpl in H.
  - injection H as <-. rewrite take_0. split; [constructor|lia].
  - destruct (l !! i) as [var|] eqn:Hi; [|done].
    pose proof (lookup_lt_Some _ _ _ Hi) as Hlt.
    assert (Hvar : (var < length (variables g))%nat)
      by (apply Hl; by eapply list_elem_of_lookup_2).
    pose proof (decimate_variable_spec g var Hvar) as Hdec.
    destruct (IH (S i) _ l g' H) as [Hall Hlen]; [lia| |].
    { intros v Hv. rewrite (ev_variables _ _ (dec_evolves _ _ _ Hdec)). auto. }
    rewrite (drop_S _ _ _ Hi). simpl. split; [|lia].
    by econstructor.
Qed.

Lemma decimates_all_spec g vars g' :
  decimates_all g vars g' -> NoDup vars ->
  evolves g g' /\
  (forall v, var_evalValue g' v = var_evalValue g v) /\
  (forall v, v ∈ vars ->
     var_assigned g' v = true /\
     var_value g' v = Double.gt (var_evalValue g v) Double.zero) /\
  (forall v, v ∉ vars -> variables g' !! v = variables g !! v).
Proof.
  induction 1 as [g|g var g1 vars g2 Hdec Hall IH]; intros Hnd.
  - split_and!; try done; try apply evolves_refl. intros v Hv. by inv Hv.
  - apply NoDup_cons in Hnd as [Hnotin Hnd].
    destruct (IH Hnd) as (Hev & Heval & Hin & Hout). destruct Hdec.
    split_and!.
    + by eapply evolves_trans.
    + intros v. by rewrite Heval.
    + intros v [->|Hv]%elem_of_cons.
      * unfold var_assigned, var_value in *. by rewrite (Hout var Hnotin).
      * destruct (Hin v Hv) as [Ha Hval]. by rewrite <- dec_evalValue0.
    + intros v Hv. apply not_elem_of_cons in Hv as [Hne Hv].
      rewrite (Hout v Hv). by apply dec_others0.
Qed.

Lemma GetUnassignedVariables_NoDup g : NoDup (GetUnassignedVariables g).
Proof.
  unfold GetUnassignedVariables.
  apply NoDup_ListNoDup, List.NoDup_filter, List.seq_NoDup.
Qed.

Lemma GetUnassignedVariables_lt g v :
  v ∈ GetUnassignedVariables g -> (v < length (variables g))%nat.
Proof.
  unfold GetUnassignedVariables. rewrite list_elem_of_In, filter_In, in_seq.
  lia.
Qed.

End DecimationProperties.

(** ** WalkSAT: the tries after the first *)

Definition all_assigned (g : FactorGraph) : Prop :=
  forall v, (v < length (variables g))%nat -> var_assigned g v = true.

Lemma all_assigned_GetUnassignedVariables g :
  all_assigned g -> GetUnassignedVariables g = [].
Proof.
  intros H. unfold GetUnassignedVariables.
  destruct (List.filter _ _) as [|v l] eqn:E; [done|].
  assert (Hin : In v (List.filter (fun v => negb (var_assigned g v))
                                  (seq 0 (length (variables g)))))
    by (rewrite E; by left).
  apply filter_In in Hin as [Hv Hn]. apply in_seq in Hv.
  rewrite H in Hn by lia. done.
Qed.

Lemma only_assignments_all_assigned g g' :
  only_assignments g g' -> all_assigned g -> all_assigned g'.
Proof.
  intros (_ & _ & Hv) Hall v Hlt. unfold var_assigned.
  destruct (lookup_lt_is_Some_2 _ _ Hlt) as [x' Hx'].
  destruct (Forall2_lookup_r _ _ _ _ _ Hv Hx') as (x & Hx & _ & _ & Ha).
  rewrite Hx'. simpl. apply Ha.
  specialize (Hall v (lookup_lt_Some _ _ _ Hx)). unfold var_assigned in Hall.
  by rewrite Hx in Hall.
Qed.

Section LaterTries.
Context {RG : RandomGen}.
Variable cfg : Config.

Lemma assign_random_all_assigned vars : forall g r,
  (forall v, (v < length (variables g))%nat ->
             var_assigned g v = true \/ In v vars) ->
  all_assigned (assign_random g r vars).1.
Proof.
  induction vars as [|v0 vars IH]; intros g r H; simpl.
  - intros v Hv. by destruct (H v Hv).
  - destruct (getRandomBool r) as [b r']. apply IH. intros v Hv.
    simpl in Hv. rewrite length_alter in Hv.
    rewrite var_assigned_AssignValue. case_decide as Hd.
    + subst. left. by apply bool_decide_eq_true_2.
    + destruct (H v Hv) as [|[|]]; auto; done.
Qed.

Lemma try_all_assigned g r g1 r1 :
  try cfg g r = Flipped g1 r1 -> all_assigned g1.
Proof.
  unfold try. intros H.
  pose proof (assign_random_all_assigned (GetUnassignedVariables g) g r) as Ha.
  destruct (assign_random g r (GetUnassignedVariables g)) as [g0 r0].
  simpl in Ha. eapply only_assignments_all_assigned.
  - eapply flips_frame. left. done.
  - apply Ha. intros v Hv.
    destruct (var_assigned g v) eqn:E; [by left|right].
    unfold GetUnassignedVariables. apply filter_In. rewrite E.
    split; [apply in_seq; lia|done].
Qed.

(** The tries after the first draw no random boolean. *)
Lemma try_leaves_no_unassigned g r g1 r1 :
  try cfg g r = Flipped g1 r1 ->
  GetUnassignedVariables g1 = [] /\
  assign_random g1 r1 (GetUnassignedVariables g1) = (g1, r1).
Proof.
  intros H%try_all_assigned%all_assigned_GetUnassignedVariables.
  by rewrite H.
Qed.
End LaterTries.

(** C3 (the code departs from the claim): whenever a try of [Walksat] ends
    without a satisfying assignment, no variable is unassigned any more, so
    the next try assigns no random value at all and starts from the
    assignment the previous try ended with; on the graph of [p cnf 1 2],
    [1 0], [-1 0] the first try does end so. *)
Theorem Walksat_later_tries_not_randomised :
  (forall (RG : RandomGen) (cfg : Config) (g : FactorGraph) (r : rng),
     match try cfg g r with
     | Flipped g1 r1 =>
         GetUnassignedVariables g1 = [] /\
         assign_random g1 r1 (GetUnassignedVariables g1) = (g1, r1)
     | _ => True
     end) /\
  (exists g1 r1,
     try (RG := counter_RandomGen) (default_config 2) opposite_units 0
     = Flipped g1 r1).
Proof.
  split.
  - intros RG cfg g r.
    destruct (try cfg g r) as [| g1 r1 |] eqn:H; try done.
    by apply (try_leaves_no_unassigned cfg g r).
  - by eexists _, _.
Qed.

(** ** Rounding in binary64 *)

Lemma fexp_eq e : fexp Double.prec Double.emax e = Z.max (e - 53) (-1074).
Proof. reflexivity. Qed.

Lemma digits2_pos_size p : digits2_pos p = Pos.size p.
Proof. induction p; simpl; congruence. Qed.

Lemma Zdigits2_log2 m : 0 < m -> Zdigits2 m = Z.log2 m + 1.
Proof.
  destruct m as [|p|p]; try lia. intros _. simpl. rewrite digits2_pos_size.
  destruct p; simpl; lia.
Qed.

Lemma Zdigits2_nonneg m : 0 <= Zdigits2 m.
Proof. destruct m; simpl; lia. Qed.

Lemma Zdigits2_pos m : 0 < m -> 0 < Zdigits2 m.
Proof. destruct m; simpl; lia. Qed.

Lemma Zdigits2_bounds m :
  0 < m -> 2 ^ (Zdigits2 m - 1) <= m < 2 ^ (Zdigits2 m).
Proof.
  intros H. rewrite (Zdigits2_log2 m H).
  replace (Z.log2 m + 1 - 1) with (Z.log2 m) by lia.
  apply (Z.log2_spec m H).
Qed.

Lemma Zdigits2_unique m k :
  0 < k -> 2 ^ (k - 1) <= m < 2 ^ k -> Zdigits2 m = k.
Proof.
  intros Hk H. assert (0 < m) by (pose proof (Z.pow_pos_nonneg 2 (k - 1)); lia).
  rewrite Zdigits2_log2 by done.
  rewrite (Z.log2_unique m (k - 1)); [lia|lia|].
  by replace (Z.succ (k - 1)) with k by lia.
Qed.

Lemma Zdigits2_le_iff m k : 0 <= m -> 0 <= k -> Zdigits2 m <= k <-> m < 2 ^ k.
Proof.
  intros Hm Hk. destruct (Z.eq_dec m 0) as [->|Hne].
  { simpl. pose proof (Z.pow_pos_nonneg 2 k). lia. }
  pose proof (Zdigits2_bounds m ltac:(lia)) as [Hlo Hhi]. split; intros H.
  - eapply Z.lt_le_trans; [done|]. apply Z.pow_le_mono_r; lia.
  - destruct (Z_lt_le_dec k (Zdigits2 m)) as [Hlt|]; [|done].
    assert (2 ^ k <= 2 ^ (Zdigits2 m - 1)) by (apply Z.pow_le_mono_r; lia).
    lia.
Qed.

Lemma Zdigits2_mono m n : 0 <= m <= n -> Zdigits2 m <= Zdigits2 n.
Proof.
  intros [Hm Hmn]. apply Zdigits2_le_iff; [done|apply Zdigits2_nonneg|].
  destruct (Z.eq_dec n 0) as [->|]; [simpl; lia|].
  pose proof (Zdigits2_bounds n ltac:(lia)). lia.
Qed.

Lemma Zdigits2_pow2 k : 0 <= k -> Zdigits2 (2 ^ k) = k + 1.
Proof.
  intros Hk. apply Zdigits2_unique; [lia|].
  replace (k + 1 - 1) with k by lia. split; [lia|].
  apply Z.pow_lt_mono_r; lia.
Qed.

Lemma Zdigits2_div_pow2 m n :
  0 <= m -> 0 <= n -> Zdigits2 (m / 2 ^ n) = Z.max 0 (Zdigits2 m - n).
Proof.
  intros Hm Hn. destruct (Z.eq_dec m 0) as [->|Hne].
  { rewrite Z.div_0_l by (pose proof (Z.pow_pos_nonneg 2 n); lia). simpl. lia. }
  pose proof (Zdigits2_bounds m ltac:(lia)) as [Hlo Hhi].
  pose proof (Zdigits2_pos m ltac:(lia)) as Hd.
  assert (H2n : 0 < 2 ^ n) by (apply Z.pow_pos_nonneg; lia).
  destruct (Z_lt_le_dec n (Zdigits2 m)) as [Hlt|Hge].
  - rewrite Z.max_r by lia. apply Zdigits2_unique; [lia|]. split.
    + apply Z.div_le_lower_bound; [done|]. rewrite <- Z.pow_add_r by lia.
      by replace (n + (Zdigits2 m - n - 1)) with (Zdigits2 m - 1) by lia.
    + apply Z.div_lt_upper_bound; [done|]. rewrite <- Z.pow_add_r by lia.
      by replace (n + (Zdigits2 m - n)) with (Zdigits2 m) by lia.
  - rewrite Z.max_l by lia. rewrite Z.div_small; [done|]. split; [done|].
    eapply Z.lt_le_trans; [done|]. apply Z.pow_le_mono_r; lia.
Qed.

Lemma Zdigits2_succ m :
  0 <= m ->
  Zdigits2 (m + 1) = Zdigits2 m \/
  (m + 1 = 2 ^ Zdigits2 m /\ Zdigits2 (m + 1) = Zdigits2 m + 1).
Proof.
  intros Hm. destruct (Z.eq_dec m 0) as [->|Hne]; [right; done|].
  pose proof (Zdigits2_bounds m ltac:(lia)) as [Hlo Hhi].
  pose proof (Zdigits2_pos m ltac:(lia)) as Hd.
  destruct (Z.eq_dec (m + 1) (2 ^ Zdigits2 m)) as [Heq|Hneq].
  - right. split; [done|]. rewrite Heq. apply Zdigits2_pow2. lia.
  - left. apply Zdigits2_unique; [done|]. lia.
Qed.

(** The mantissa after a right shift. *)

Lemma iter_pos_nat {A} (f : A -> A) p : forall x,
  SpecFloat.iter_pos f p x = Nat.iter (Pos.to_nat p) f x.
Proof.
  induction p as [p IH|p IH|]; intros x; cbn [SpecFloat.iter_pos].
  - rewrite !IH, Pos2Nat.inj_xI, <- Nat.iter_add, <- Nat.iter_succ_r.
    f_equal. lia.
  - rewrite !IH, Pos2Nat.inj_xO, <- Nat.iter_add. f_equal. lia.
  - done.
Qed.

Lemma shr_m_shr_1 mrs : 0 <= shr_m mrs -> shr_m (shr_1 mrs) = shr_m mrs / 2.
Proof.
  destruct mrs as [m r s]. simpl. intros Hm.
  destruct m as [|[p|p|]|p]; cbn [shr_m]; try lia; try done.
  - apply (Z.div_unique_pos (Z.pos p~1) 2 (Z.pos p) 1); lia.
  - apply (Z.div_unique_pos (Z.pos p~0) 2 (Z.pos p) 0); lia.
Qed.

Lemma shr_m_iter n : forall mrs,
  0 <= shr_m mrs ->
  shr_m (Nat.iter n shr_1 mrs) = shr_m mrs / 2 ^ Z.of_nat n.
Proof.
  induction n as [|n IH]; intros mrs Hm.
  - simpl. by rewrite Z.div_1_r.
  - assert (H2n : 0 < 2 ^ Z.of_nat n) by (apply Z.pow_pos_nonneg; lia).
    assert (H : 0 <= shr_m (Nat.iter n shr_1 mrs))
      by (rewrite IH by done; apply Z.div_pos; lia).
    rewrite Nat.iter_succ, shr_m_shr_1, IH by done.
    rewrite Nat2Z.inj_succ, Z.pow_succ_r by lia.
    rewrite Z.div_div by lia. f_equal. lia.
Qed.

Lemma shr_spec mrs e n :
  0 <= shr_m mrs ->
  shr_m (shr mrs e n).1 = shr_m mrs / 2 ^ Z.max 0 n /\
  (shr mrs e n).2 = e + Z.max 0 n.
Proof.
  intros Hm. destruct n as [|p|p]; simpl.
  - rewrite Z.div_1_r. split; [done|lia].
  - rewrite iter_pos_nat, shr_m_iter, positive_nat_Z by done. done.
  - rewrite Z.div_1_r. split; [done|lia].
Qed.

Lemma shr_m_of_loc m l : shr_m (shr_record_of_loc m l) = m.
Proof. by destruct l as [|[]]. Qed.

Lemma shr_fexp_spec m e l :
  0 <= m ->
  let n := Z.max 0 (fexp Double.prec Double.emax (Zdigits2 m + e) - e) in
  shr_m (shr_fexp Double.prec Double.emax m e l).1 = m / 2 ^ n /\
  (shr_fexp Double.prec Double.emax m e l).2 = e + n.
Proof.
  intros Hm n. unfold shr_fexp.
  destruct (shr_spec (shr_record_of_loc m l) e
              (fexp Double.prec Double.emax (Zdigits2 m + e) - e)) as [H1 H2].
  { by rewrite shr_m_of_loc. }
  rewrite shr_m_of_loc in H1. done.
Qed.

Lemma round_nearest_even_cases m l :
  round_nearest_even m l = m \/ round_nearest_even m l = m + 1.
Proof. destruct l as [|[]]; simpl; auto. destruct (Z.even m); auto. Qed.

(** The result of rounding: with [e1] the exponent the format gives to the
    input and [M1] the input truncated to that exponent, the value of the
    result is [M1] or [M1 + 1] units of [2 ^ e1], in canonical form. *)
Lemma binary_round_aux_spec sx mx ex lx :
  0 <= mx -> ex <= fexp Double.prec Double.emax (Zdigits2 mx + ex) ->
  let e1 := fexp Double.prec Double.emax (Zdigits2 mx + ex) in
  let M1 := mx / 2 ^ (e1 - ex) in
  exists M2,
    (M2 = M1 \/ M2 = M1 + 1) /\
    ((M2 = 0 /\ binary_round_aux Double.prec Double.emax sx mx ex lx = S754_zero sx) \/
     (exists m e,
        Zpos m * 2 ^ (e - e1) = M2 /\ e1 <= e <= e1 + 1 /\
        canonical_mantissa Double.prec Double.emax m e = true /\
        binary_round_aux Double.prec Double.emax sx mx ex lx =
        if e <=? Double.emax - Double.prec then S754_finite sx m e else S754_infinity sx)).
Proof.
  intros Hm Hex e1 M1. unfold binary_round_aux.
  destruct (shr_fexp_spec mx ex lx Hm) as [HM1 He1].
  destruct (shr_fexp Double.prec Double.emax mx ex lx) as [mrs' e'].
  simpl in HM1, He1. fold e1 in HM1, He1.
  rewrite Z.max_r in HM1, He1 by lia.
  replace (ex + (e1 - ex)) with e1 in He1 by lia. subst e'.
  fold M1 in HM1. rewrite HM1.
  set (M2 := round_nearest_even M1 (loc_of_shr_record mrs')).
  assert (H2e : 0 < 2 ^ (e1 - ex)) by (apply Z.pow_pos_nonneg; lia).
  assert (HM1pos : 0 <= M1) by (apply Z.div_pos; lia).
  assert (HM2 : M2 = M1 \/ M2 = M1 + 1) by apply round_nearest_even_cases.
  assert (HM2pos : 0 <= M2) by lia.
  destruct (shr_fexp_spec M2 e1 loc_Exact HM2pos) as [HM3 He2].
  destruct (shr_fexp Double.prec Double.emax M2 e1 loc_Exact) as [mrs'' e''].
  simpl in HM3, He2. exists M2. split; [done|].
  (* the digits of [M1] and [M2] *)
  pose proof (Zdigits2_div_pow2 mx (e1 - ex) Hm ltac:(lia)) as Hd1.
  fold M1 in Hd1.
  pose proof (Zdigits2_nonneg mx) as Hd0.
  assert (Hf1 : fexp Double.prec Double.emax (Zdigits2 M1 + e1) = e1).
  { rewrite Hd1. unfold e1 in *. rewrite !fexp_eq in *. lia. }
  assert (Hd2 : Zdigits2 M2 = Zdigits2 M1 \/
                (M2 = 2 ^ Zdigits2 M1 /\ Zdigits2 M2 = Zdigits2 M1 + 1)).
  { destruct HM2 as [->| ->]; [by left|]. destruct (Zdigits2_succ M1 HM1pos); auto. }
  set (n2 := Z.max 0 (fexp Double.prec Double.emax (Zdigits2 M2 + e1) - e1)) in *.
  pose proof (Zdigits2_nonneg M1) as Hd1pos.
  assert (Hn2 : n2 = 0 \/ (n2 = 1 /\ M2 = 2 ^ 53 /\ Zdigits2 M2 = 54)).
  { unfold n2. destruct Hd2 as [->|[HM2eq ->]].
    - left. rewrite Hf1. lia.
    - rewrite fexp_eq in *.
      destruct (Z_le_gt_dec (Zdigits2 M1 + e1 - 52) (-1074)); [left; lia|].
      right. assert (Zdigits2 M1 = 53) as Hd by lia.
      rewrite Hd in HM2eq. lia. }
  destruct Hn2 as [Hn2|(Hn2 & HM2eq & HdM2)].
  - rewrite Hn2, Z.div_1_r in HM3. rewrite Hn2 in He2.
    replace (e1 + 0) with e1 in He2 by lia. subst e''. rewrite HM3.
    destruct M2 as [|m|m] eqn:EM2; [by left| |lia].
    right. exists m, e1. replace (e1 - e1) with 0 by lia.
    split_and!; try done; try lia.
    unfold canonical_mantissa. apply Z.eqb_eq.
    change (Z.pos (digits2_pos m)) with (Zdigits2 (Z.pos m)).
    unfold n2 in Hn2.
    assert (e1 <= fexp Double.prec Double.emax (Zdigits2 (Z.pos m) + e1)).
    { rewrite <- Hf1 at 1. rewrite !fexp_eq. lia. }
    lia.
  - rewrite Hn2, HM2eq in HM3. change (2 ^ 53 / 2 ^ 1) with (2 ^ 52) in HM3.
    rewrite HM3. right. exists (4503599627370496%positive), (e1 + 1).
    replace (e1 + 1 - e1) with 1 by lia. rewrite He2, Hn2.
    split_and!; try done; try lia.
    unfold canonical_mantissa. apply Z.eqb_eq.
    change (Z.pos (digits2_pos 4503599627370496)) with 53.
    unfold n2 in Hn2. rewrite HdM2 in Hn2. rewrite fexp_eq in *. lia.
Qed.

(** ** Values between zero and one *)

(** A valid value of [[0, 1]]: a zero, one, or a positive canonical value
    below one. *)
Definition unit_float (x : spec_float) : Prop :=
  match x with
  | S754_zero _ => True
  | S754_finite false m e =>
      bounded Double.prec Double.emax m e = true /\
      (Zdigits2 (Zpos m) + e <= 0 \/ x = Double.one)
  | _ => False
  end.

Lemma canonical_spec m e :
  canonical_mantissa Double.prec Double.emax m e = true <->
  e = Z.max (Zdigits2 (Zpos m) + e - 53) (-1074).
Proof.
  unfold canonical_mantissa. rewrite Z.eqb_eq, fexp_eq. simpl. split; lia.
Qed.

Lemma bounded_spec m e :
  bounded Double.prec Double.emax m e = true <->
  e = Z.max (Zdigits2 (Zpos m) + e - 53) (-1074) /\ e <= 971.
Proof.
  unfold bounded. rewrite andb_true_iff, canonical_spec, Z.leb_le. done.
Qed.

(** Rounding a value below one gives a value of the unit interval. *)
Lemma round_unit mx ex lx :
  0 <= mx -> ex <= fexp Double.prec Double.emax (Zdigits2 mx + ex) ->
  Zdigits2 mx + ex <= 0 ->
  unit_float (binary_round_aux Double.prec Double.emax false mx ex lx).
Proof.
  intros Hm Hex Hlt.
  destruct (binary_round_aux_spec false mx ex lx Hm Hex)
    as (M2 & HM2 & [[_ ->]|(m & e & Hval & He & Hcan & ->)]); [done|].
  set (e1 := fexp Double.prec Double.emax (Zdigits2 mx + ex)) in *.
  set (M1 := mx / 2 ^ (e1 - ex)) in *.
  assert (He1 : e1 <= -53) by (unfold e1; rewrite fexp_eq; lia).
  replace (e <=? Double.emax - Double.prec) with true
    by (symmetry; apply Z.leb_le; unfold Double.emax, Double.prec; lia).
  pose proof (Zdigits2_div_pow2 mx (e1 - ex) Hm ltac:(lia)) as Hd1.
  fold M1 in Hd1.
  assert (H2e : 0 < 2 ^ (e1 - ex)) by (apply Z.pow_pos_nonneg; lia).
  assert (HM1pos : 0 <= M1) by (apply Z.div_pos; lia).
  assert (HM2pos : 0 < M2)
    by (rewrite <- Hval; apply Z.mul_pos_pos; [lia|apply Z.pow_pos_nonneg; lia]).
  (* the digits of the result are those of [M2], shifted *)
  assert (HdM2 : Zdigits2 M2 = Zdigits2 (Zpos m) + (e - e1)).
  { rewrite <- Hval. pose proof (Zdigits2_bounds (Zpos m) ltac:(lia)) as [Hlo Hhi].
    pose proof (Zdigits2_pos (Zpos m) ltac:(lia)).
    apply Zdigits2_unique; [lia|]. split.
    - replace (Zdigits2 (Z.pos m) + (e - e1) - 1)
        with ((Zdigits2 (Z.pos m) - 1) + (e - e1)) by lia.
      rewrite Z.pow_add_r by lia. apply Z.mul_le_mono_nonneg_r; [|done].
      apply Z.pow_nonneg. lia.
    - rewrite Z.pow_add_r by lia. apply Z.mul_lt_mono_pos_r; [|done].
      apply Z.pow_pos_nonneg; lia. }
  assert (Hbound : bounded Double.prec Double.emax m e = true).
  { unfold bounded. rewrite Hcan. apply Z.leb_le. unfold Double.emax, Double.prec. lia. }
  simpl. split; [done|].
  apply canonical_spec in Hcan.
  assert (HdM2le : Zdigits2 M2 <= Zdigits2 M1 + 1).
  { destruct HM2 as [->| ->]; [lia|].
    destruct (Zdigits2_succ M1 HM1pos) as [->|[_ ->]]; lia. }
  pose proof (Zdigits2_nonneg mx) as Hd0.
  unfold e1 in *. rewrite fexp_eq in *.
  destruct (Z_le_gt_dec (Zdigits2 (Z.pos m) + e) 0) as [|Hgt]; [by left|].
  right.
  (* the only value above is one itself *)
  assert (Hd53 : Zdigits2 M1 = 53) by lia.
  assert (HM2eq : M2 = 2 ^ 53).
  { destruct HM2 as [->| ->]; [lia|].
    destruct (Zdigits2_succ M1 HM1pos) as [?|[-> _]]; [lia|]. by rewrite Hd53. }
  assert (e = -52) as -> by lia.
  assert (Z.max (Zdigits2 mx + ex - 53) (-1074) = -53) as He1' by lia.
  rewrite He1' in Hval. rewrite HM2eq in Hval.
  change (2 ^ (-52 - -53)) with 2 in Hval.
  assert (Zpos m = 4503599627370496) as Hm52 by lia.
  injection Hm52 as ->. done.
Qed.

Lemma unit_float_finite m e :
  unit_float (S754_finite false m e) ->
  e = Z.max (Zdigits2 (Zpos m) + e - 53) (-1074) /\ e <= -52 /\
  Zpos m <= 2 ^ (- e) /\
  (Zdigits2 (Zpos m) + e <= 0 \/ (m = 4503599627370496%positive /\ e = -52)).
Proof.
  intros [Hb Hv]. apply bounded_spec in Hb as [Hc _].
  pose proof (Zdigits2_pos (Zpos m) ltac:(lia)).
  destruct Hv as [Hlt|[= -> ->]].
  - split_and!; [done|lia| |by left].
    apply Z.lt_le_incl, Zdigits2_le_iff; lia.
  - split_and!; try done. right. done.
Qed.

Lemma Zdigits2_mul_lower a b :
  0 < a -> 0 < b -> Zdigits2 a + Zdigits2 b - 1 <= Zdigits2 (a * b).
Proof.
  intros Ha Hb.
  pose proof (Zdigits2_bounds a Ha) as [Hla _].
  pose proof (Zdigits2_bounds b Hb) as [Hlb _].
  pose proof (Zdigits2_pos a Ha). pose proof (Zdigits2_pos b Hb).
  destruct (Z_le_gt_dec (Zdigits2 a + Zdigits2 b - 1) (Zdigits2 (a * b)))
    as [|Hgt]; [done|exfalso].
  assert (Hlt : a * b < 2 ^ (Zdigits2 a + Zdigits2 b - 2)).
  { apply Zdigits2_le_iff; [nia|lia|lia]. }
  replace (Zdigits2 a + Zdigits2 b - 2)
    with ((Zdigits2 a - 1) + (Zdigits2 b - 1)) in Hlt by lia.
  rewrite Z.pow_add_r in Hlt by lia.
  assert (2 ^ (Zdigits2 a - 1) * 2 ^ (Zdigits2 b - 1) <= a * b)
    by (apply Z.mul_le_mono_nonneg; try done; apply Z.pow_nonneg; lia).
  lia.
Qed.

(** The product of two values of the unit interval is in the unit interval. *)
Lemma mul_unit x y :
  unit_float x -> unit_float y -> unit_float (SFmul Double.prec Double.emax x y).
Proof.
  intros Hx Hy.
  destruct x as [sx|sx| |sx mx ex], y as [sy|sy| |sy my ey]; try done;
    try (destruct sx; done); try (destruct sy; done).
  destruct sx, sy; try done.
  destruct (unit_float_finite _ _ Hx) as (Hcx & Hex & Hmx & Hvx).
  destruct (unit_float_finite _ _ Hy) as (Hcy & Hey & Hmy & Hvy).
  unfold SFmul. change (xorb false false) with false.
  pose proof (Zdigits2_pos (Zpos mx) ltac:(lia)) as Hdx.
  pose proof (Zdigits2_pos (Zpos my) ltac:(lia)) as Hdy.
  pose proof (Zdigits2_mul_lower (Zpos mx) (Zpos my) ltac:(lia) ltac:(lia)) as Hlow.
  change (Z.pos (mx * my)) with (Z.pos mx * Z.pos my).
  destruct (Z.eq_dec (Z.pos mx * Z.pos my) (2 ^ (- ex - ey))) as [Heq|Hne].
  - (* the product is exactly one: both factors are one *)
    assert (Hxy : (mx = 4503599627370496%positive /\ ex = -52) /\
                  (my = 4503599627370496%positive /\ ey = -52)).
    { assert (H2x : 0 < 2 ^ (- ex)) by (apply Z.pow_pos_nonneg; lia).
      assert (H2y : 0 < 2 ^ (- ey)) by (apply Z.pow_pos_nonneg; lia).
      replace (- ex - ey) with (- ex + - ey) in Heq by lia.
      rewrite Z.pow_add_r in Heq by lia.
      assert (Z.pos mx = 2 ^ (- ex) /\ Z.pos my = 2 ^ (- ey)) as [Hx' Hy'] by nia.
      split.
      - destruct Hvx as [Hlt|]; [|done].
        assert (Hlt' : Zdigits2 (Z.pos mx) <= - ex) by lia.
        apply Zdigits2_le_iff in Hlt'; lia.
      - destruct Hvy as [Hlt|]; [|done].
        assert (Hlt' : Zdigits2 (Z.pos my) <= - ey) by lia.
        apply Zdigits2_le_iff in Hlt'; lia. }
    destruct Hxy as [[-> ->] [-> ->]]. vm_compute. split; [done|by right].
  - apply round_unit; [lia| |].
    + rewrite fexp_eq. lia.
    + assert (Hlt : Z.pos mx * Z.pos my < 2 ^ (- ex - ey)).
      { assert (Z.pos mx * Z.pos my <= 2 ^ (- ex) * 2 ^ (- ey))
          by (apply Z.mul_le_mono_nonneg; lia).
        replace (- ex - ey) with (- ex + - ey) in * by lia.
        rewrite Z.pow_add_r in * by lia. lia. }
      apply Zdigits2_le_iff in Hlt; lia.
Qed.

Lemma shl_align_spec m e e' :
  let '(mz, ez) := shl_align m e e' in
  ez = Z.min e e' /\ Zpos mz = Zpos m * 2 ^ (e - ez).
Proof.
  unfold shl_align. destruct (e' - e) as [|d|d] eqn:Hd; cbv beta iota.
  - split; [lia|]. replace (e - e) with 0 by lia. simpl. lia.
  - split; [lia|]. replace (e - e) with 0 by lia. simpl. lia.
  - split; [lia|]. change (Pos.iter xO m d) with (Zpower.shift_pos d m).
    rewrite Zpower.shift_pos_correct. replace (e - e') with (Zpos d) by lia.
    change (2 ^ Z.pos d) with (Z.pow_pos 2 d). apply Z.mul_comm.
Qed.

Lemma Zdigits2_mul_pow2 m k :
  0 < m -> 0 <= k -> Zdigits2 (m * 2 ^ k) = Zdigits2 m + k.
Proof.
  intros Hm Hk. pose proof (Zdigits2_bounds m Hm) as [Hlo Hhi].
  pose proof (Zdigits2_pos m Hm).
  assert (0 < 2 ^ k) by (apply Z.pow_pos_nonneg; lia).
  apply Zdigits2_unique; [lia|]. split.
  - replace (Zdigits2 m + k - 1) with ((Zdigits2 m - 1) + k) by lia.
    rewrite Z.pow_add_r by lia. apply Z.mul_le_mono_nonneg_r; lia.
  - rewrite Z.pow_add_r by lia. apply Z.mul_lt_mono_pos_r; lia.
Qed.

(** [binary_round] hands [binary_round_aux] a mantissa with enough digits. *)
Lemma binary_round_spec sx m e :
  exists mz ez,
    binary_round Double.prec Double.emax sx m e
    = binary_round_aux Double.prec Double.emax sx (Zpos mz) ez loc_Exact /\
    ez <= e /\ Zpos mz = Zpos m * 2 ^ (e - ez) /\
    ez <= fexp Double.prec Double.emax (Zdigits2 (Zpos mz) + ez) /\
    Zdigits2 (Zpos mz) + ez = Zdigits2 (Zpos m) + e.
Proof.
  unfold binary_round.
  pose proof (shl_align_spec m e (fexp Double.prec Double.emax (Zpos (digits2_pos m) + e))) as H.
  destruct (shl_align m e _) as [mz ez]. destruct H as [Hez Hmz].
  exists mz, ez. split; [done|].
  assert (Hd : Zdigits2 (Zpos mz) + ez = Zdigits2 (Zpos m) + e).
  { rewrite Hmz, Zdigits2_mul_pow2 by lia. lia. }
  split_and!; try done; try lia.
  rewrite Hd. change (Zdigits2 (Z.pos m)) with (Z.pos (digits2_pos m)). lia.
Qed.

Lemma binary_round_unit m e :
  Zdigits2 (Zpos m) + e <= 0 ->
  unit_float (binary_round Double.prec Double.emax false m e).
Proof.
  intros H. destruct (binary_round_spec false m e)
    as (mz & ez & -> & _ & _ & Hpre & Hd).
  apply round_unit; [lia|done|lia].
Qed.

(** [1 - x] stays in the unit interval. *)
Lemma one_minus_unit x : unit_float x -> unit_float (SFsub Double.prec Double.emax Double.one x).
Proof.
  intros Hx. destruct x as [sx|sx| |sx mx ex]; try done.
  { simpl. split; [done|by right]. }
  destruct sx; [done|].
  destruct (unit_float_finite _ _ Hx) as (Hcx & Hex & Hmx & Hvx).
  unfold SFsub, Double.one. rewrite Z.min_r by lia. cbn [cond_Zopp].
  pose proof (shl_align_spec 4503599627370496 (-52) ex) as H1.
  destruct (shl_align 4503599627370496 (-52) ex) as [m1 e1].
  destruct H1 as [He1 Hm1]. rewrite Z.min_r in He1 by lia. subst e1.
  pose proof (shl_align_spec mx ex ex) as H2.
  destruct (shl_align mx ex ex) as [m2 e2].
  destruct H2 as [He2 Hm2]. rewrite Z.min_id in He2. subst e2.
  replace (ex - ex) with 0 in Hm2 by lia. rewrite Z.mul_1_r in Hm2.
  cbn [fst]. rewrite Hm1, Hm2.
  change (Z.pos 4503599627370496) with (2 ^ 52).
  rewrite <- Z.pow_add_r by lia. replace (52 + (-52 - ex)) with (- ex) by lia.
  destruct (2 ^ (- ex) - Z.pos mx) as [|M|M] eqn:HM; [done| |lia].
  simpl. apply binary_round_unit.
  assert (Hlt : Z.pos M < 2 ^ (- ex)) by lia.
  apply Zdigits2_le_iff in Hlt; lia.
Qed.

(** ** Sums of non-negative values *)

(** A valid value that is zero, positive or plus infinity. *)
Definition nonneg_float (x : spec_float) : Prop :=
  match x with
  | S754_zero _ => True
  | S754_infinity false => True
  | S754_finite false m e => bounded Double.prec Double.emax m e = true
  | _ => False
  end.

(** The order of the values on [nonneg_float]. *)
Definition fle (x y : spec_float) : Prop :=
  match x, y with
  | S754_zero _, _ => True
  | S754_finite _ m1 e1, S754_finite _ m2 e2 =>
      e1 < e2 \/ (e1 = e2 /\ Zpos m1 <= Zpos m2)
  | _, S754_infinity _ => True
  | _, _ => False
  end.

Lemma fle_refl x : nonneg_float x -> fle x x.
Proof. destruct x as [|[]| |[]]; simpl; try done. lia. Qed.

Lemma fle_trans x y z : fle x y -> fle y z -> fle x z.
Proof.
  destruct x as [sx|sx| |sx mx ex], y as [sy|sy| |sy my ey],
    z as [sz|sz| |sz mz ez]; simpl; try done; lia.
Qed.

Lemma unit_float_nonneg x : unit_float x -> nonneg_float x.
Proof. destruct x as [|[]| |[]]; simpl; try done. by intros []. Qed.

Lemma add_nonneg x y :
  nonneg_float x -> nonneg_float y ->
  nonneg_float (SFadd Double.prec Double.emax x y) /\ fle x (SFadd Double.prec Double.emax x y).
Proof.
  intros Hx Hy.
  destruct x as [sx|sx| |sx mx ex], y as [sy|sy| |sy my ey]; try done;
    try (destruct sx; try done); try (destruct sy; try done);
    try (simpl; split; try done; lia).
  apply bounded_spec in Hx as [Hcx Hbx]. apply bounded_spec in Hy as [Hcy Hby].
  unfold SFadd. cbn [cond_Zopp]. set (ez := Z.min ex ey).
  pose proof (shl_align_spec mx ex ez) as H1.
  destruct (shl_align mx ex ez) as [m1 e1]. destruct H1 as [He1 Hm1].
  pose proof (shl_align_spec my ey ez) as H2.
  destruct (shl_align my ey ez) as [m2 e2]. destruct H2 as [He2 Hm2].
  assert (e1 = ez) as -> by lia. assert (e2 = ez) as -> by lia. cbn [fst].
  change (Z.pos m1 + Z.pos m2) with (Z.pos (m1 + m2)). cbn [binary_normalize].
  destruct (binary_round_spec false (m1 + m2) ez)
    as (mz & ez' & -> & Hez' & Hmz & Hpre & Hd).
  destruct (binary_round_aux_spec false (Zpos mz) ez' loc_Exact ltac:(lia) Hpre)
    as (M2 & HM2 & Hres).
  set (E1 := fexp Double.prec Double.emax (Zdigits2 (Z.pos mz) + ez')) in *.
  set (M1 := Z.pos mz / 2 ^ (E1 - ez')) in *.
  pose proof (Zdigits2_pos (Zpos mx) ltac:(lia)) as Hdx.
  (* the sum has at least the digits of [x] *)
  assert (Hdig : Zdigits2 (Zpos mx) + ex <= Zdigits2 (Zpos (m1 + m2)) + ez).
  { assert (Zdigits2 (Zpos m1) = Zdigits2 (Zpos mx) + (ex - ez))
      by (rewrite Hm1; apply Zdigits2_mul_pow2; lia).
    pose proof (Zdigits2_mono (Zpos m1) (Zpos (m1 + m2)) ltac:(lia)). lia. }
  assert (HE1v : E1 = Z.max (Zdigits2 (Z.pos mz) + ez' - 53) (-1074))
    by (unfold E1; by rewrite fexp_eq).
  assert (HE1 : ex <= E1) by lia.
  assert (H2E : 0 < 2 ^ (E1 - ez')) by (apply Z.pow_pos_nonneg; lia).
  assert (HM1 : 0 < M1).
  { pose proof (Zdigits2_div_pow2 (Zpos mz) (E1 - ez') ltac:(lia) ltac:(lia)) as HdM1.
    fold M1 in HdM1. destruct (Z.eq_dec M1 0) as [HM0|];
      [|assert (0 <= M1) by (apply Z.div_pos; lia); lia].
    rewrite HM0 in HdM1. change (Zdigits2 0) with 0 in HdM1. lia. }
  destruct Hres as [[HM0 _]|(m & e & Hval & He & Hcan & ->)]; [lia|].
  destruct (Z.leb_spec e (Double.emax - Double.prec)) as [Hle|Hgt]; [|done].
  split.
  - simpl. unfold bounded. rewrite Hcan. apply Z.leb_le. done.
  - simpl. destruct (Z_lt_le_dec ex e) as [|Hee]; [by left|right].
    assert (e = ex) as -> by lia. assert (E1 = ex) as HE by lia.
    split; [done|].
    assert (Hval' : Z.pos m = M2).
    { rewrite <- Hval. replace (ex - E1) with 0 by lia. lia. }
    rewrite Hval'. assert (Z.pos mx <= M1); [|lia].
    unfold M1. apply Z.div_le_lower_bound; [apply Z.pow_pos_nonneg; lia|].
    rewrite Hmz.
    assert (Z.pos mx * 2 ^ (ex - ez) <= Z.pos (m1 + m2)) by lia.
    assert (0 < 2 ^ (ez - ez')) by (apply Z.pow_pos_nonneg; lia).
    replace (E1 - ez') with ((ex - ez) + (ez - ez')) by lia.
    rewrite Z.pow_add_r by lia. nia.
Qed.

(** ** Quotients *)

Lemma div_core_spec m1 e1 m2 e2 :
  let e' := Z.min (fexp Double.prec Double.emax (Zdigits2 (Zpos m1) + e1
                                   - (Zdigits2 (Zpos m2) + e2))) (e1 - e2) in
  exists l,
    SFdiv_core_binary Double.prec Double.emax (Zpos m1) e1 (Zpos m2) e2
    = ((Zpos m1 * 2 ^ (e1 - e2 - e')) / Zpos m2, e', l) /\
    (forall k, Zpos m1 * 2 ^ (e1 - e2 - e') = k * Zpos m2 -> l = loc_Exact).
Proof.
  intros e'. unfold SFdiv_core_binary. fold e'.
  set (s := e1 - e2 - e').
  assert (Hs : 0 <= s) by (unfold s, e'; lia).
  set (m' := match s with
             | 0 => Z.pos m1
             | Z.pos _ => Z.shiftl (Z.pos m1) s
             | Z.neg _ => 0
             end).
  assert (Hm' : m' = Z.pos m1 * 2 ^ s).
  { unfold m'. destruct s as [|p|p] eqn:Es; [simpl; lia| |lia].
    by rewrite Z.shiftl_mul_pow2. }
  clearbody m'. subst m'.
  pose proof (Z.div_eucl_eq (Z.pos m1 * 2 ^ s) (Zpos m2) ltac:(lia)) as Heq.
  assert (Hdiv : (Z.pos m1 * 2 ^ s) / Zpos m2
                 = (Z.div_eucl (Z.pos m1 * 2 ^ s) (Zpos m2)).1)
    by (unfold Z.div; by destruct (Z.div_eucl _ _)).
  assert (Hmod : (Z.pos m1 * 2 ^ s) mod Zpos m2
                 = (Z.div_eucl (Z.pos m1 * 2 ^ s) (Zpos m2)).2)
    by (unfold Z.modulo; by destruct (Z.div_eucl _ _)).
  destruct (Z.div_eucl (Z.pos m1 * 2 ^ s) (Z.pos m2)) as [q r].
  cbn [fst snd] in Hdiv, Hmod. subst q. eexists. split; [done|].
  intros k Hex. rewrite Hex, Z.mod_mul in Hmod by lia. subst r.
  unfold new_location, new_location_even, new_location_odd.
  by destruct (Z.even (Z.pos m2)).
Qed.

Lemma canonical_lt_value m1 e1 m2 e2 :
  e1 = Z.max (Zdigits2 (Zpos m1) + e1 - 53) (-1074) ->
  e2 = Z.max (Zdigits2 (Zpos m2) + e2 - 53) (-1074) ->
  e1 < e2 -> Zpos m1 < Zpos m2 * 2 ^ (e2 - e1).
Proof.
  intros H1 H2 Hlt.
  pose proof (Zdigits2_bounds (Zpos m1) ltac:(lia)) as [_ Hhi].
  pose proof (Zdigits2_bounds (Zpos m2) ltac:(lia)) as [Hlo _].
  assert (Zdigits2 (Zpos m2) = 53) as Hd2 by lia. rewrite Hd2 in Hlo.
  assert (Zpos m1 < 2 ^ 53).
  { eapply Z.lt_le_trans; [done|]. apply Z.pow_le_mono_r; lia. }
  assert (2 ^ 1 <= 2 ^ (e2 - e1)) by (apply Z.pow_le_mono_r; lia).
  change (2 ^ (53 - 1)) with 4503599627370496 in Hlo.
  change (2 ^ 53) with 9007199254740992 in *. change (2 ^ 1) with 2 in *.
  nia.
Qed.

(** A value of the unit interval divided by a value that is not smaller is
    in the unit interval, unless both are zero. *)
Lemma div_unit a t :
  unit_float a -> nonneg_float t -> fle a t ->
  Double.isnan (SFdiv Double.prec Double.emax a t) = true \/ unit_float (SFdiv Double.prec Double.emax a t).
Proof.
  intros Ha Ht Hle.
  destruct a as [sa|sa| |sa ma ea], t as [st|st| |st mt et]; try done;
    try (by left); try (by right);
    try (destruct sa; try done); try (destruct st; try done);
    try (by right).
  destruct (unit_float_finite _ _ Ha) as (Hca & Hea & Hma & Hva).
  apply bounded_spec in Ht as [Hct Hbt]. simpl in Hle. right.
  unfold SFdiv. change (xorb false false) with false.
  destruct (div_core_spec ma ea mt et) as (l & -> & Hl).
  set (e' := Z.min (fexp Double.prec Double.emax (Zdigits2 (Zpos ma) + ea
                                    - (Zdigits2 (Zpos mt) + et))) (ea - et)) in *.
  set (s := ea - et - e') in *.
  assert (He'v : e' = Z.min (Z.max (Zdigits2 (Zpos ma) + ea
                                    - (Zdigits2 (Zpos mt) + et) - 53) (-1074))
                            (ea - et))
    by (unfold e'; by rewrite fexp_eq).
  assert (Hsv : s = ea - et - e') by done.
  assert (Hs : 0 <= s) by lia.
  assert (H2s : 0 < 2 ^ s) by (apply Z.pow_pos_nonneg; lia).
  set (q := Z.pos ma * 2 ^ s / Z.pos mt).
  assert (Hq : 0 <= q) by (apply Z.div_pos; lia).
  pose proof (Zdigits2_pos (Zpos ma) ltac:(lia)) as Hda.
  pose proof (Zdigits2_pos (Zpos mt) ltac:(lia)) as Hdt.
  pose proof (Zdigits2_bounds (Zpos ma) ltac:(lia)) as [Hlo_a Hhi_a].
  pose proof (Zdigits2_bounds (Zpos mt) ltac:(lia)) as [Hlo_t Hhi_t].
  (* the quotient has enough digits *)
  assert (Hdq : Zdigits2 (Zpos ma) - Zdigits2 (Zpos mt) + s <= Zdigits2 q).
  { pose proof (Zdigits2_nonneg q).
    destruct (Z_le_gt_dec (Zdigits2 (Zpos ma) - Zdigits2 (Zpos mt) + s) 0);
      [lia|].
    set (k := Zdigits2 (Zpos ma) - Zdigits2 (Zpos mt) + s - 1).
    assert (Hk : 2 ^ k <= q).
    { unfold q. apply Z.div_le_lower_bound; [lia|].
      assert (Z.pos mt * 2 ^ k <= 2 ^ Zdigits2 (Zpos mt) * 2 ^ k)
        by (apply Z.mul_le_mono_nonneg_r; [apply Z.pow_nonneg|]; lia).
      assert (2 ^ (Zdigits2 (Zpos ma) - 1) * 2 ^ s <= Z.pos ma * 2 ^ s)
        by (apply Z.mul_le_mono_nonneg_r; lia).
      rewrite <- Z.pow_add_r in * by lia.
      replace (Zdigits2 (Z.pos mt) + k) with (Zdigits2 (Z.pos ma) - 1 + s)
        in * by lia.
      lia. }
    pose proof (Zdigits2_mono (2 ^ k) q ltac:(split; [apply Z.pow_nonneg|]; lia)).
    rewrite Zdigits2_pow2 in * by lia. lia. }
  assert (He'0 : e' <= 0) by lia.
  assert (H2e : 0 < 2 ^ (- e')) by (apply Z.pow_pos_nonneg; lia).
  assert (Hcmp : Z.pos ma * 2 ^ s < 2 ^ (- e') * Z.pos mt \/
                 (ea = et /\ Z.pos ma = Z.pos mt)).
  { destruct Hle as [Hlt|[-> Hm]].
    - left. pose proof (canonical_lt_value ma ea mt et Hca Hct Hlt) as Hv.
      replace (- e') with ((et - ea) + s) by (unfold s; lia).
      rewrite Z.pow_add_r by lia. nia.
    - destruct (Z.eq_dec (Z.pos ma) (Z.pos mt)) as [|Hne]; [by right|left].
      replace (- e') with s by (unfold s; lia). nia. }
  destruct Hcmp as [Hlt|[-> Hm]].
  - assert (Hq1 : q < 2 ^ (- e'))
      by (unfold q; apply Z.div_lt_upper_bound; lia).
    apply Zdigits2_le_iff in Hq1; [|done|lia].
    apply round_unit; [done| |lia].
    rewrite fexp_eq. clearbody q s e'. lia.
  - (* the two values are equal: the quotient is one *)
    injection Hm as ->.
    rewrite (Hl (2 ^ s)) by apply Z.mul_comm.
    unfold q. rewrite Z.mul_comm, Z.div_mul by lia.
    assert (e' = -53) as He' by lia. unfold s. rewrite He'.
    replace (et - et - -53) with 53 by lia. vm_compute. split; [done|by right].
Qed.


(** ** Surveys stay in the unit interval *)

Lemma unit_float_machine x :
  unit_float x ->
  Double.valid x = true /\ Double.in_unit x = true /\ Double.isnan x = false.
Proof.
  destruct x as [sx|sx| |sx mx ex]; try done.
  destruct sx; [done|]. intros Hx.
  destruct (unit_float_finite _ _ Hx) as (Hc & He & _ & Hv).
  destruct Hx as [Hb _]. split_and!; [done| |done].
  destruct Hv as [Hd|[-> ->]]; [|by vm_compute].
  unfold Double.in_unit, Double.le, SFleb, Double.zero, Double.one.
  cbn [SFcompare].
  pose proof (Zdigits2_pos (Zpos mx) ltac:(lia)).
  assert (ex < -52) as Hlt by lia. apply Z.compare_lt_iff in Hlt.
  by rewrite Hlt.
Qed.

Lemma machine_unit_float x :
  Double.valid x = true -> Double.in_unit x = true -> unit_float x.
Proof.
  destruct x as [sx|sx| |sx mx ex]; try done; try (by destruct sx).
  destruct sx; [done|]. intros Hb Hu. split; [done|].
  apply bounded_spec in Hb as [Hc _].
  unfold Double.in_unit, Double.le, SFleb, Double.zero, Double.one in Hu.
  cbn [SFcompare andb] in Hu.
  pose proof (Zdigits2_bounds (Zpos mx) ltac:(lia)) as [Hlo _].
  destruct (Z.compare_spec ex (-52)) as [->|Hlt|Hgt]; [|left; lia|done].
  right. rewrite Pos.compare_cont_spec in Hu. cbn [Pos.switch_Eq] in Hu.
  assert (Zdigits2 (Z.pos mx) = 53) as Hd by lia. rewrite Hd in Hlo.
  change (2 ^ (53 - 1)) with 4503599627370496 in Hlo.
  destruct (mx ?= 4503599627370496)%positive eqn:Hcmp.
  - apply Pos.compare_eq_iff in Hcmp. by subst.
  - assert (Hlt : Z.pos mx < 4503599627370496)
      by (apply Pos2Z.pos_lt_pos; exact Hcmp).
    exfalso. clear - Hlt Hlo. lia.
  - discriminate Hu.
Qed.

Definition unit_surveys (g : FactorGraph) : Prop :=
  forall e, In e (GetEnabledEdges g) -> unit_float (edge_survey g e).

Lemma In_Variable_GetEnabledEdges g v e :
  In e (Variable_GetEnabledEdges g v) -> In e (GetEnabledEdges g).
Proof.
  unfold Variable_GetEnabledEdges, GetEnabledEdges. rewrite !filter_In.
  rewrite andb_true_iff. tauto.
Qed.

Lemma one_minus_unit_interval x : unit_float x -> unit_float (one_minus x).
Proof. apply one_minus_unit. Qed.

Lemma survey_products_unit g aj bjs : forall Pubj Psbj P0bj,
  (forall e, In e bjs -> unit_float (edge_survey g e)) ->
  unit_float Pubj -> unit_float Psbj -> unit_float P0bj ->
  unit_float (survey_products g aj bjs Pubj Psbj P0bj).1.1 /\
  unit_float (survey_products g aj bjs Pubj Psbj P0bj).1.2 /\
  unit_float (survey_products g aj bjs Pubj Psbj P0bj).2.
Proof.
  induction bjs as [|bj bjs IH]; intros Pubj Psbj P0bj Hs Hu Hp H0; simpl;
    [done|].
  assert (Hs' : forall e, In e bjs -> unit_float (edge_survey g e))
    by (intros e He; apply Hs; by right).
  destruct (Nat.eqb bj aj); [by apply IH|].
  assert (Hf : unit_float (one_minus (edge_survey g bj)))
    by (apply one_minus_unit_interval, Hs; by left).
  apply IH; [done| | |by apply mul_unit].
  - destruct (negb _); [by apply mul_unit|done].
  - destruct (eqb _ _); [by apply mul_unit|done].
Qed.

Lemma survey_ratio_unit g aj :
  unit_surveys g ->
  Double.isnan (survey_ratio g aj) = true \/ unit_float (survey_ratio g aj).
Proof.
  intros Hg. unfold survey_ratio.
  assert (H1 : unit_float Double.one) by (split; [done|by right]).
  pose proof (survey_products_unit g aj
                (Variable_GetEnabledEdges g (edge_variable g aj))
                Double.one Double.one Double.one) as Hp.
  destruct (survey_products _ _ _ _ _ _) as [[Pubj Psbj] P0bj].
  destruct Hp as (Hu & Hs & H0); try done.
  { intros e He. apply Hg. by eapply In_Variable_GetEnabledEdges. }
  simpl in Hu, Hs, H0.
  set (Puaj := Double.mul (one_minus Pubj) Psbj).
  set (Psaj := Double.mul (one_minus Psbj) Pubj).
  assert (HPu : unit_float Puaj)
    by (apply mul_unit; [by apply one_minus_unit_interval|done]).
  assert (HPs : unit_float Psaj)
    by (apply mul_unit; [by apply one_minus_unit_interval|done]).
  destruct (add_nonneg Puaj Psaj) as [Hn1 Hle1]; try by apply unit_float_nonneg.
  destruct (add_nonneg (Double.add Puaj Psaj) P0bj) as [Hn2 Hle2];
    [done|by apply unit_float_nonneg|].
  apply div_unit; [done|done|].
  eapply fle_trans; [exact Hle1|exact Hle2].
Qed.

Lemma survey_loop_unit g ai ajs : forall Sai,
  unit_surveys g -> unit_float Sai -> unit_float (survey_loop g ai ajs Sai).
Proof.
  induction ajs as [|aj ajs IH]; intros Sai Hg HS; simpl; [done|].
  destruct (Nat.eqb aj ai); [by apply IH|].
  destruct (survey_ratio_unit g aj Hg) as [Hnan|Hu].
  - by rewrite Hnan.
  - destruct (Double.isnan _); [done|]. apply IH; [done|by apply mul_unit].
Qed.

Lemma survey_loop_nan g ai ajs aj : forall Sai,
  In aj ajs -> aj <> ai -> Double.isnan (survey_ratio g aj) = true ->
  survey_loop g ai ajs Sai = Double.zero.
Proof.
  induction ajs as [|aj' ajs IH]; intros Sai Hin Hne Hnan; [done|]. simpl.
  destruct (Nat.eqb_spec aj' ai) as [->|Hne'].
  - destruct Hin as [->|Hin]; [done|]. by apply IH.
  - destruct (Double.isnan (survey_ratio g aj')) eqn:E; [done|].
    destruct Hin as [->|Hin]; [congruence|]. by apply IH.
Qed.

Lemma set_survey_unit g e s :
  unit_surveys g -> unit_float s -> unit_surveys (set_survey g e s).
Proof.
  intros Hg Hs e' He'.
  rewrite (proj1 (surveys_only_views _ _ (surveys_only_set_survey g e s))) in He'.
  rewrite edge_survey_set_survey. case_decide; [|by apply Hg].
  by case_bool_decide.
Qed.

Lemma UpdateSurvey_unit g ai :
  unit_surveys g ->
  unit_surveys (UpdateSurvey g ai) /\
  unit_float (edge_survey (UpdateSurvey g ai) ai).
Proof.
  intros Hg.
  assert (H1 : unit_float Double.one) by (split; [done|by right]).
  pose proof (survey_loop_unit g ai
                (Clause_GetEnabledEdges g (edge_clause g ai)) Double.one Hg H1)
    as HS.
  split; [by apply set_survey_unit|].
  unfold UpdateSurvey. rewrite edge_survey_set_survey, decide_True by done.
  by case_bool_decide.
Qed.

Section UnitSurveys.
Context {RG : RandomGen}.
Variable cfg : Config.

Lemma getRandomReal01_unit r : unit_float (getRandomReal01 r).1.
Proof.
  apply machine_unit_float; [apply getRandomReal01_valid|].
  destruct (getRandomReal01_range r) as [H0 H1].
  unfold Double.in_unit. rewrite H0. cbn [andb]. clear H0.
  unfold Double.lt, Double.le, SFltb, SFleb in *.
  by destruct (SFcompare (getRandomReal01 r).1 Double.one) as [[]|].
Qed.

Lemma init_surveys_unit es : forall g r,
  (forall e, In e (GetEnabledEdges g) ->
             In e es \/ unit_float (edge_survey g e)) ->
  unit_surveys (init_surveys g r es).1.
Proof.
  induction es as [|e0 es IH]; intros g r H; simpl.
  - intros e He. by destruct (H e He).
  - pose proof (getRandomReal01_unit r) as Hx.
    destruct (getRandomReal01 r) as [x r']. simpl in Hx. apply IH.
    intros e He.
    rewrite (proj1 (surveys_only_views _ _ (surveys_only_set_survey g e0 x)))
      in He.
    rewrite edge_survey_set_survey. case_decide as Hd.
    + right. subst. by case_bool_decide.
    + destruct (H e He) as [[|]|]; auto. done.
Qed.

Lemma update_surveys_unit es : forall g b,
  unit_surveys g -> unit_surveys (update_surveys cfg g es b).1.
Proof.
  induction es as [|e es IH]; intros g b Hg; simpl; [done|].
  apply IH. by apply UpdateSurvey_unit.
Qed.

Lemma next_sweep_unit s : unit_surveys s.1.1 -> unit_surveys (next_sweep cfg s).1.1.
Proof.
  destruct s as [[g es] r]. unfold next_sweep, sweep. simpl. intros Hg.
  destruct (shuffle es r) as [es' r'].
  pose proof (update_surveys_unit es' g true Hg) as H.
  by destruct (update_surveys cfg g es' true).
Qed.

Lemma after_sweeps_unit n : forall s,
  unit_surveys s.1.1 -> unit_surveys (after_sweeps cfg n s).1.1.
Proof.
  induction n as [|n IH]; intros s Hs; [done|].
  rewrite after_sweeps_S. by apply IH, next_sweep_unit.
Qed.

(** C5: when the surveys of the enabled edges are valid values of [[0, 1]],
    [UpdateSurvey] writes a valid value of [[0, 1]], which is not NaN, and
    writes exactly zero when the ratio of equation 27 is NaN for some other
    enabled edge of the clause; hence, whatever the graph, the surveys of the
    enabled edges are valid values of [[0, 1]] once [SurveyPropagation] has
    initialised them and after each of its sweeps. *)
Theorem surveys_stay_in_unit_interval :
  (forall g ai,
     (forall e, In e (GetEnabledEdges g) ->
                Double.valid (edge_survey g e) = true /\
                Double.in_unit (edge_survey g e) = true) ->
     let s := edge_survey (UpdateSurvey g ai) ai in
     Double.valid s = true /\ Double.in_unit s = true /\
     Double.isnan s = false /\
     ((exists aj, In aj (Clause_GetEnabledEdges g (edge_clause g ai)) /\
                  aj <> ai /\ Double.isnan (survey_ratio g aj) = true) ->
      (ai < length (edges g))%nat -> s = Double.zero)) /\
  (forall g r n e,
     let s0 : sp_state :=
       ((init_surveys g r (GetEnabledEdges g)).1, GetEnabledEdges g,
        (init_surveys g r (GetEnabledEdges g)).2) in
     In e (GetEnabledEdges g) ->
     Double.valid (edge_survey (after_sweeps cfg n s0).1.1 e) = true /\
     Double.in_unit (edge_survey (after_sweeps cfg n s0).1.1 e) = true /\
     Double.isnan (edge_survey (after_sweeps cfg n s0).1.1 e) = false).
Proof.
  split.
  - intros g ai Hg s.
    assert (Hu : unit_surveys g).
    { intros e He. destruct (Hg e He). by apply machine_unit_float. }
    destruct (UpdateSurvey_unit g ai Hu) as [_ Hs].
    destruct (unit_float_machine _ Hs) as (Hv & Hi & Hn).
    split_and!; try done.
    intros (aj & Hin & Hne & Hnan) Hlt. unfold s, UpdateSurvey.
    rewrite edge_survey_set_survey, decide_True by done.
    rewrite bool_decide_eq_true_2 by done.
    by apply (survey_loop_nan g ai _ aj).
  - intros g r n e s0 He. apply unit_float_machine.
    assert (H0 : unit_surveys s0.1.1).
    { apply init_surveys_unit. intros e' He'. by left. }
    pose proof (after_sweeps_unit n s0 H0) as Hn. apply Hn.
    pose proof (after_sweeps_surveys_only cfg n s0) as H1.
    pose proof (init_surveys_surveys_only (GetEnabledEdges g) g r) as H2.
    rewrite (proj1 (surveys_only_views _ _ H1)). unfold s0. cbn [fst].
    by rewrite (proj1 (surveys_only_views _ _ H2)).
Qed.
End UnitSurveys.

(** ** Biases are not NaN *)

Lemma binary_round_not_nan sx m e :
  Double.isnan (binary_round Double.prec Double.emax sx m e) = false.
Proof.
  destruct (binary_round_spec sx m e) as (mz & ez & -> & _ & _ & Hpre & _).
  destruct (binary_round_aux_spec sx (Zpos mz) ez loc_Exact ltac:(lia) Hpre)
    as (M2 & _ & [[_ ->]|(m' & e' & _ & _ & _ & ->)]); [done|].
  by destruct (e' <=? _).
Qed.

Lemma sub_unit_not_nan x y :
  unit_float x -> unit_float y -> Double.isnan (Double.sub x y) = false.
Proof.
  intros Hx Hy.
  destruct x as [sx|sx| |sx mx ex], y as [sy|sy| |sy my ey]; try done;
    try (by destruct sx); try (by destruct sy); try (by destruct sx, sy).
  unfold Double.sub, SFsub.
  destruct (_ - _) as [|p|p]; [done| |]; apply binary_round_not_nan.
Qed.

Lemma add_comm_nonneg x y :
  nonneg_float x -> nonneg_float y ->
  SFadd Double.prec Double.emax x y = SFadd Double.prec Double.emax y x.
Proof.
  intros Hx Hy.
  destruct x as [sx|sx| |sx mx ex], y as [sy|sy| |sy my ey]; try done;
    try (by destruct sx); try (by destruct sy); try (by destruct sx, sy).
  unfold SFadd. by rewrite Z.min_comm, Z.add_comm.
Qed.

Lemma bias_products_unit g ais : forall PVi0 PViP PViN,
  (forall e, In e ais -> unit_float (edge_survey g e)) ->
  unit_float PVi0 -> unit_float PViP -> unit_float PViN ->
  unit_float (bias_products g ais PVi0 PViP PViN).1.1 /\
  unit_float (bias_products g ais PVi0 PViP PViN).1.2 /\
  unit_float (bias_products g ais PVi0 PViP PViN).2.
Proof.
  induction ais as [|ai ais IH]; intros PVi0 PViP PViN Hs H0 Hp Hn; simpl;
    [done|].
  assert (Hf : unit_float (one_minus (edge_survey g ai)))
    by (apply one_minus_unit_interval, Hs; by left).
  apply IH; [intros e He; apply Hs; by right|by apply mul_unit| |].
  - destruct (edge_type g ai); [by apply mul_unit|done].
  - destruct (edge_type g ai); [done|by apply mul_unit].
Qed.

Lemma var_evalValue_set_evalValue g v x v' :
  var_evalValue (set_evalValue g v x) v' =
  if decide (v = v') then
    if bool_decide (v < length (variables g))%nat then x else Double.zero
  else var_evalValue g v'.
Proof.
  unfold_accessors. destruct (decide (v = v')) as [->|?].
  - rewrite list_lookup_alter_eq. destruct (variables g !! v') eqn:E; simpl.
    + apply lookup_lt_Some in E. by rewrite bool_decide_eq_true_2.
    + apply lookup_ge_None in E. rewrite bool_decide_eq_false_2; [done|lia].
  - by rewrite list_lookup_alter_ne.
Qed.

Lemma EvaluateVariable_not_nan g v v' :
  unit_surveys g ->
  v = v' \/ Double.isnan (var_evalValue g v') = false ->
  Double.isnan (var_evalValue (EvaluateVariable g v) v') = false.
Proof.
  intros Hg Hv. unfold EvaluateVariable.
  assert (H1 : unit_float Double.one) by (split; [done|by right]).
  pose proof (bias_products_unit g (Variable_GetEnabledEdges g v)
                Double.one Double.one Double.one) as Hp.
  destruct (bias_products _ _ _ _ _) as [[PVi0 PViP] PViN].
  destruct Hp as (H0 & HP & HN); try done.
  { intros e He. apply Hg. by eapply In_Variable_GetEnabledEdges. }
  simpl in H0, HP, HN.
  set (PiP := Double.mul (one_minus PViP) PViN).
  set (PiN := Double.mul (one_minus PViN) PViP).
  assert (HPiP : unit_float PiP)
    by (apply mul_unit; [by apply one_minus_unit_interval|done]).
  assert (HPiN : unit_float PiN)
    by (apply mul_unit; [by apply one_minus_unit_interval|done]).
  pose proof (unit_float_nonneg _ HPiP) as HnP.
  pose proof (unit_float_nonneg _ HPiN) as HnN.
  destruct (add_nonneg PiP PiN HnP HnN) as [Hn1 HleP].
  destruct (add_nonneg PiN PiP HnN HnP) as [_ HleN].
  rewrite (add_comm_nonneg PiN PiP HnN HnP) in HleN.
  destruct (add_nonneg (Double.add PiP PiN) PVi0 Hn1 (unit_float_nonneg _ H0))
    as [Hn2 Hle2].
  set (sum := Double.add (Double.add PiP PiN) PVi0) in *.
  destruct (div_unit PiP sum HPiP Hn2 (fle_trans _ _ _ HleP Hle2)) as [HWP|HWP];
    [change (Double.isnan (Double.div PiP sum) = true) in HWP; rewrite HWP|].
  { simpl. rewrite var_evalValue_set_evalValue. case_decide; [|by destruct Hv].
    by case_bool_decide. }
  destruct (div_unit PiN sum HPiN Hn2 (fle_trans _ _ _ HleN Hle2)) as [HWN|HWN];
    [change (Double.isnan (Double.div PiN sum) = true) in HWN; rewrite HWN|].
  { rewrite orb_true_r. rewrite var_evalValue_set_evalValue.
    case_decide; [|by destruct Hv]. by case_bool_decide. }
  change (unit_float (Double.div PiP sum)) in HWP.
  change (unit_float (Double.div PiN sum)) in HWN.
  destruct (_ || _); rewrite var_evalValue_set_evalValue;
    (case_decide; [|by destruct Hv]); case_bool_decide; try done.
  by apply sub_unit_not_nan.
Qed.

Lemma EvaluateVariable_unit_surveys g v :
  unit_surveys g -> unit_surveys (EvaluateVariable g v).
Proof.
  intros Hg. unfold EvaluateVariable.
  destruct (bias_products _ _ _ _ _) as [[PVi0 PViP] PViN].
  by destruct (_ || _).
Qed.

Lemma evaluate_variables_not_nan vars : forall g v,
  unit_surveys g ->
  In v vars \/ Double.isnan (var_evalValue g v) = false ->
  Double.isnan (var_evalValue (foldl EvaluateVariable g vars) v) = false.
Proof.
  induction vars as [|v0 vars IH]; intros g v Hg Hv; simpl.
  - by destruct Hv.
  - apply IH; [by apply EvaluateVariable_unit_surveys|].
    destruct (decide (v0 = v)) as [->|Hne].
    + right. apply EvaluateVariable_not_nan; auto.
    + destruct Hv as [[|]|]; [done|by left|].
      right. apply EvaluateVariable_not_nan; auto.
Qed.

(** * Concrete runs

    The statements above are applied to small inputs, with the counter
    generator, insertion sort and the counting clock. *)

(** The fraction 0.04 of the experiments. *)
Definition fraction_004 : double := S754_finite false 5764607523034235 (-57).

(** [p cnf 3 3], [1 0], [-1 2 0], [-2 -1 3 0]: a chain of unit clauses. *)
Definition unit_chain : FactorGraph :=
  FactorGraph_of_cnf 3 [[1]; [-1; 2]; [-2; -1; 3]].

(** [p cnf 3 3], [1 2 3 0], [-1 2 3 0], [1 -2 3 0]. *)
Definition small_3sat : FactorGraph :=
  FactorGraph_of_cnf 3 [[1; 2; 3]; [-1; 2; 3]; [1; -2; 3]].

Lemma UnitPropagation_terminates_witness :
  well_formed unit_chain = true /\
  exists r,
    UnitPropagation (S (length (GetEnabledEdges unit_chain))) unit_chain
    = Returns r.
Proof.
  split; [reflexivity|].
  apply (UnitPropagation_terminates unit_chain). reflexivity.
Defined.

Lemma Walksat_preserves_topology_witness :
  exists b g' r',
    Walksat (RG := counter_RandomGen) (default_config 100) small_3sat 0
    = Returns (b, g', r') /\
    clauses g' = clauses small_3sat /\
    edges g' = edges small_3sat.
Proof.
  assert (H : exists b g' r',
             Walksat (RG := counter_RandomGen) (default_config 100) small_3sat 0
             = Returns (b, g', r'))
    by (eexists _, _, _; vm_compute; reflexivity).
  destruct H as (b & g' & r' & H). exists b, g', r'.
  split; [exact H|].
  destruct (Walksat_preserves_topology (RG := counter_RandomGen)
              (default_config 100) small_3sat 0 b g' r' H) as (Hc & He & _).
  split; assumption.
Defined.

Lemma SurveyPropagation_sweeps_witness :
  Z.of_nat (SP_MAX_ITERATIONS (default_config 100)) < uint_max /\
  exists n : nat,
    (n <= 1000)%nat /\
    iterations (SurveyPropagation (RG := counter_RandomGen)
                  (default_config 100) small_3sat 1).1.1 = Z.of_nat n.
Proof.
  split; [reflexivity|].
  destruct (SurveyPropagation_sweeps (RG := counter_RandomGen)
              (default_config 100) small_3sat 1 eq_refl)
    as (n & Hn & Hit & _).
  exists n. split; assumption.
Defined.

Lemma SID_trivial_surveys_call_Walksat_witness :
  let sp := SurveyPropagation (RG := counter_RandomGen)
              (default_config 100) small_3sat 1 in
  converged sp.1.1 = true /\
  SID_loop (RG := counter_RandomGen) (SS := insertion_StdSort)
           (default_config 100) 1 small_3sat fraction_004 1 0
  = match Walksat (RG := counter_RandomGen) (default_config 100) sp.1.2 sp.2 with
    | Returns (walksatResult, g2, r2) =>
        Returns (walksatResult, uint_add 0 (iterations sp.1.1), g2, r2)
    | Undefined => Undefined
    | OutOfFuel => OutOfFuel
    end.
Proof.
  split; [vm_compute; reflexivity|].
  apply (SID_trivial_surveys_call_Walksat (RG := counter_RandomGen)
           (SS := insertion_StdSort) (default_config 100) 0 small_3sat
           fraction_004 1 0).
  - vm_compute. reflexivity.
  - intros e He. vm_compute in He.
    repeat (destruct He as [<-|He]; [vm_compute; reflexivity|]).
    destruct He.
Defined.

Lemma SID_deterministic_witness :
  exists out1 out2,
    SID (RG := counter_RandomGen) (SS := insertion_StdSort)
        (CK := counting_SteadyClock) (default_config 100) 10
        (FactorGraph_of_cnf 3 [[1; 2; 3]; [-1; 2; 3]; [1; -2; 3]])
        fraction_004 (setSeed (RandomGen := counter_RandomGen) 1) 0%nat
    = Returns out1 /\
    SID (RG := counter_RandomGen) (SS := insertion_StdSort)
        (CK := counting_SteadyClock) (default_config 100) 12
        (FactorGraph_of_cnf 3 [[1; 2; 3]; [-1; 2; 3]; [1; -2; 3]])
        fraction_004 (setSeed (RandomGen := counter_RandomGen) 1) 77%nat
    = Returns out2 /\
    SAT out2.1.1.1 = SAT out1.1.1.1 /\
    totalSPIterations out2.1.1.1 = totalSPIterations out1.1.1.1.
Proof.
  assert (H : exists out1,
             SID (RG := counter_RandomGen) (SS := insertion_StdSort)
                 (CK := counting_SteadyClock) (default_config 100) 10
                 (FactorGraph_of_cnf 3 [[1; 2; 3]; [-1; 2; 3]; [1; -2; 3]])
                 fraction_004 (setSeed (RandomGen := counter_RandomGen) 1) 0%nat
             = Returns out1)
    by (eexists; vm_compute; reflexivity).
  destruct H as [out1 H]. exists out1.
  assert (Hle : (10 <= 12)%nat) by (repeat constructor).
  destruct (SID_deterministic (RG := counter_RandomGen)
              (SS := insertion_StdSort) (default_config 100)
              counting_SteadyClock counting_SteadyClock 3
              [[1; 2; 3]; [-1; 2; 3]; [1; -2; 3]] fraction_004 1 10 12
              0%nat 77%nat out1 H Hle) as (out2 & H2 & Hsat & Htot).
  exists out2. repeat split; assumption.
Defined.

Lemma SID_opposite_units_undefined_witness :
  assign_fraction 1 fraction_004 = Some 1 /\
  SID (RG := counter_RandomGen) (SS := insertion_StdSort)
      (CK := counting_SteadyClock) (default_config 100) 2
      opposite_units fraction_004 0 0%nat
  = Undefined.
Proof.
  split; [reflexivity|].
  apply (SID_opposite_units_undefined (RG := counter_RandomGen)
           (SS := insertion_StdSort) (CK := counting_SteadyClock)
           99 0 fraction_004 0 0%nat).
  reflexivity.
Defined.

Lemma surveys_stay_in_unit_interval_witness :
  let g := opposite_units_with fraction_004 Double.one in
  (forall e, In e (GetEnabledEdges g) ->
             Double.valid (edge_survey g e) = true /\
             Double.in_unit (edge_survey g e) = true) /\
  Double.valid (edge_survey (UpdateSurvey g 0) 0) = true /\
  Double.in_unit (edge_survey (UpdateSurvey g 0) 0) = true /\
  Double.isnan (edge_survey (UpdateSurvey g 0) 0) = false.
Proof.
  intros g.
  assert (Hg : forall e, In e (GetEnabledEdges g) ->
                         Double.valid (edge_survey g e) = true /\
                         Double.in_unit (edge_survey g e) = true).
  { intros e He. vm_compute in He.
    destruct He as [<-|[<-|[]]]; split; vm_compute; reflexivity. }
  split; [exact Hg|].
  destruct (proj1 (surveys_stay_in_unit_interval (RG := counter_RandomGen)
                     (default_config 100)) g 0%nat Hg)
    as (Hv & Hi & Hn & _).
  repeat split; assumption.
Defined.

(** * Further properties *)

(** ** Solutions of the residual formula *)

(** A total assignment of the variables. *)
Definition assignment : Type := VarId -> bool.

(** [sigma] gives every assigned variable the value the graph holds. *)
Definition extends (g : FactorGraph) (sigma : assignment) : Prop :=
  forall v, var_assigned g v = true -> sigma v = var_value g v.

(** [sigma] makes a literal true in every enabled clause, among its enabled
    edges. *)
Definition satisfies (g : FactorGraph) (sigma : assignment) : Prop :=
  forall c, is_clause_enabled g c = true ->
    exists e, edge_active g e = true /\ edge_clause g e = c /\
              sigma (edge_variable g e) = edge_type g e.

Definition solution (g : FactorGraph) (sigma : assignment) : Prop :=
  extends g sigma /\ satisfies g sigma.

Lemma satisfies_ext g g' sigma :
  edges g' = edges g -> clauses g' = clauses g ->
  satisfies g' sigma <-> satisfies g sigma.
Proof.
  intros He Hc.
  destruct (views_ext g g' He Hc) as (_ & _ & _ & Hvar & Hty & Hcl & Hact).
  unfold satisfies, is_clause_enabled. rewrite Hc.
  split; intros H c Hen; destruct (H c Hen) as (e & H1 & H2 & H3); exists e.
  - by rewrite <- Hact, <- Hcl, <- Hvar, <- Hty.
  - by rewrite Hact, Hcl, Hvar, Hty.
Qed.

Lemma extends_ext g g' sigma :
  variables g' = variables g -> extends g' sigma <-> extends g sigma.
Proof. intros Hv. unfold extends, var_assigned, var_value. by rewrite Hv. Qed.

Lemma Clause_GetEnabledEdges_NoDup g c : List.NoDup (Clause_GetEnabledEdges g c).
Proof. apply List.NoDup_filter, List.seq_NoDup. Qed.

Lemma extends_AssignValue g v b sigma :
  var_assigned g v = false -> sigma v = b ->
  extends g sigma <-> extends (AssignValue g v b) sigma.
Proof.
  intros Hna Hb. split; intros H v' Hv'.
  - rewrite var_assigned_AssignValue in Hv'. rewrite var_value_AssignValue.
    case_decide as Hd; [subst v'|by apply H].
    rewrite Hv'. by rewrite andb_true_r.
  - assert (v <> v') by congruence.
    specialize (H v'). rewrite var_assigned_AssignValue, var_value_AssignValue in H.
    rewrite !decide_False in H by done. by apply H.
Qed.

(** The loop over the unit clauses keeps the solutions, and stops on a
    contradiction only when there is none. *)
Lemma assign_unit_clauses_solutions l : forall g sigma,
  (forall c, In c l -> is_clause_enabled g c = true /\
                       exists e, Clause_GetEnabledEdges g c = [e]) ->
  match assign_unit_clauses g l with
  | Completed g1 => solution g sigma <-> solution g1 sigma
  | Contradiction _ => ~ solution g sigma
  | OutOfBounds => True
  end.
Proof.
  induction l as [|c l IH]; intros g sigma Hl; simpl; [done|].
  destruct (Hl c (or_introl eq_refl)) as (Hen & e & He). rewrite He.
  assert (Hin : In e (Clause_GetEnabledEdges g c)) by (rewrite He; by left).
  apply In_Clause_GetEnabledEdges in Hin as [Hact Hcl].
  assert (Hsat : satisfies g sigma -> sigma (edge_variable g e) = edge_type g e).
  { intros Hs. destruct (Hs c Hen) as (e' & Ha' & Hc' & Hs').
    assert (Hin' : In e' (Clause_GetEnabledEdges g c))
      by by apply In_Clause_GetEnabledEdges.
    rewrite He in Hin'. by destruct Hin' as [->|[]]. }
  destruct (var_assigned g (edge_variable g e)) eqn:Ha; simpl.
  - destruct (eqb (edge_type g e) (var_value g (edge_variable g e))) eqn:Hty;
      simpl.
    + apply IH. intros c' Hc'. apply Hl. by right.
    + intros [Hext Hs]. apply eqb_false_iff in Hty. apply Hty.
      rewrite <- (Hext _ Ha). symmetry. by apply Hsat.
  - set (g0 := AssignValue g (edge_variable g e) (edge_type g e)).
    specialize (IH g0 sigma).
    destruct (views_ext g g0 eq_refl eq_refl) as (Hv1 & _).
    assert (Hl0 : forall c', In c' l -> is_clause_enabled g0 c' = true /\
                              exists e', Clause_GetEnabledEdges g0 c' = [e']).
    { intros c' Hc'. rewrite Hv1. apply Hl. by right. }
    specialize (IH Hl0).
    assert (Hstep : solution g sigma <-> solution g0 sigma).
    { unfold solution. rewrite (satisfies_ext g g0 sigma eq_refl eq_refl).
      split; intros [Hext Hs]; split; try done.
      - apply extends_AssignValue; [done|by apply Hsat|done].
      - intros v Hv. destruct (decide (edge_variable g e = v)) as [<-|Hne];
          [congruence|].
        specialize (Hext v).
        unfold g0 in Hext.
        rewrite var_assigned_AssignValue, var_value_AssignValue in Hext.
        rewrite !decide_False in Hext by done. by apply Hext. }
    destruct (assign_unit_clauses g0 l); [|by rewrite Hstep|done].
    by rewrite Hstep.
Qed.

Lemma edge_active_Edge_Dissable g e e' :
  edge_active (Edge_Dissable g e) e' =
  if decide (e = e') then false else edge_active g e'.
Proof.
  unfold edge_active. rewrite is_edge_enabled_Edge_Dissable.
  rewrite edge_clause_Edge_Dissable. by case_decide.
Qed.

Lemma edge_active_Clause_Dissable g c e :
  edge_active (Clause_Dissable g c) e =
  if decide (c = edge_clause g e) then false else edge_active g e.
Proof.
  unfold edge_active. rewrite is_clause_enabled_Clause_Dissable.
  change (edge_clause (Clause_Dissable g c) e) with (edge_clause g e).
  change (is_edge_enabled (Clause_Dissable g c) e) with (is_edge_enabled g e).
  case_decide; [apply andb_false_r|done].
Qed.

Lemma simplify_clause_variables g c es :
  variables (simplify_clause g c es) = variables g.
Proof.
  revert g. induction es as [|e es IH]; intros g; simpl; [done|].
  destruct (var_assigned g (edge_variable g e)); [|apply IH].
  destruct (eqb _ _); [done|]. by rewrite IH.
Qed.

(** The pass over the edges of one clause keeps the solutions. *)
Lemma simplify_clause_solutions c es : forall g sigma,
  List.NoDup es ->
  (forall e, In e es -> edge_active g e = true /\ edge_clause g e = c) ->
  extends g sigma ->
  satisfies g sigma <-> satisfies (simplify_clause g c es) sigma.
Proof.
  induction es as [|e es IH]; intros g sigma Hnd Hes Hext; simpl; [done|].
  apply List.NoDup_cons_iff in Hnd as [Hnotin Hnd].
  destruct (Hes e (or_introl eq_refl)) as [Hact Hcl].
  destruct (var_assigned g (edge_variable g e)) eqn:Ha.
  - destruct (eqb (edge_type g e) (var_value g (edge_variable g e))) eqn:Hty.
    + apply eqb_prop in Hty. split; intros Hs c' Hen.
      * rewrite is_clause_enabled_Clause_Dissable in Hen.
        case_decide as Hd; [done|].
        destruct (Hs c' Hen) as (e' & H1 & H2 & H3). exists e'.
        rewrite edge_active_Clause_Dissable, decide_False by congruence.
        done.
      * destruct (decide (c = c')) as [<-|Hne].
        -- exists e. split_and!; try done. by rewrite (Hext _ Ha).
        -- destruct (Hs c') as (e' & H1 & H2 & H3).
           { by rewrite is_clause_enabled_Clause_Dissable, decide_False. }
           exists e'. rewrite edge_active_Clause_Dissable in H1.
           case_decide; [done|]. done.
    + apply eqb_false_iff in Hty.
      rewrite <- IH; try done.
      * split; intros Hs c' Hen.
        -- destruct (Hs c' Hen) as (e' & H1 & H2 & H3). exists e'.
           rewrite edge_active_Edge_Dissable, edge_clause_Edge_Dissable,
             edge_variable_Edge_Dissable, edge_type_Edge_Dissable.
           rewrite decide_False; [done|]. intros <-.
           rewrite (Hext _ Ha) in H3. congruence.
        -- destruct (Hs c' Hen) as (e' & H1 & H2 & H3). exists e'.
           rewrite edge_active_Edge_Dissable, edge_clause_Edge_Dissable,
             edge_variable_Edge_Dissable, edge_type_Edge_Dissable in *.
           case_decide; done.
      * intros e' He'. rewrite edge_active_Edge_Dissable, edge_clause_Edge_Dissable.
        rewrite decide_False by (intros <-; done).
        apply Hes. by right.
  - apply IH; try done. intros e' He'. apply Hes. by right.
Qed.

Lemma simplify_clauses_variables cs : forall g g',
  simplify_clauses g cs = Completed g' \/
  simplify_clauses g cs = Contradiction g' ->
  variables g' = variables g.
Proof.
  induction cs as [|c cs IH]; intros g g' H; simpl in H.
  - destruct H as [H|H]; [|done]. by injection H as <-.
  - destruct (_ && _).
    + destruct H as [H|H]; [done|]. injection H as <-.
      apply simplify_clause_variables.
    + rewrite (IH _ _ H). apply simplify_clause_variables.
Qed.

(** The pass over the clauses keeps the solutions, and stops on an empty
    clause only when there is none. *)
Lemma simplify_clauses_solutions cs : forall g sigma,
  extends g sigma ->
  match simplify_clauses g cs with
  | Completed g' => satisfies g sigma <-> satisfies g' sigma
  | Contradiction _ => ~ satisfies g sigma
  | OutOfBounds => True
  end.
Proof.
  induction cs as [|c cs IH]; intros g sigma Hext; simpl; [done|].
  set (g1 := simplify_clause g c (Clause_GetEnabledEdges g c)).
  assert (H1 : satisfies g sigma <-> satisfies g1 sigma).
  { apply simplify_clause_solutions; [apply Clause_GetEnabledEdges_NoDup| |done].
    intros e. apply In_Clause_GetEnabledEdges. }
  destruct (is_clause_enabled g1 c) eqn:Hen; simpl.
  - destruct (Clause_GetEnabledEdges g1 c) as [|e0 l] eqn:Hes; simpl.
    + rewrite H1. intros Hs. destruct (Hs c Hen) as (e & Ha & Hc & _).
      assert (Hin : In e (Clause_GetEnabledEdges g1 c))
        by by apply In_Clause_GetEnabledEdges.
      by rewrite Hes in Hin.
    + specialize (IH g1 sigma).
      rewrite (extends_ext g g1) in IH by apply simplify_clause_variables.
      specialize (IH Hext).
      destruct (simplify_clauses g1 cs); [|by rewrite H1|done]. by rewrite H1.
  - specialize (IH g1 sigma).
    rewrite (extends_ext g g1) in IH by apply simplify_clause_variables.
    specialize (IH Hext).
    destruct (simplify_clauses g1 cs); [|by rewrite H1|done]. by rewrite H1.
Qed.

Lemma unit_clauses_enabled g c :
  In c (unit_clauses g) ->
  is_clause_enabled g c = true /\ exists e, Clause_GetEnabledEdges g c = [e].
Proof.
  intros H. destruct (unit_clauses_spec g c H) as [Hin He]. split; [|done].
  unfold GetEnabledClauses in Hin. by apply filter_In in Hin as [_ ?].
Qed.

Lemma simplify_clauses_solution cs g sigma :
  match simplify_clauses g cs with
  | Completed g' => solution g sigma <-> solution g' sigma
  | Contradiction _ => ~ solution g sigma
  | OutOfBounds => True
  end.
Proof.
  pose proof (simplify_clauses_solutions cs g sigma) as H.
  pose proof (simplify_clauses_variables cs g) as Hv.
  destruct (simplify_clauses g cs) as [g'|g'|]; [| |done].
  - intros [Hext Hs]. by apply H.
  - specialize (Hv g' (or_introl eq_refl)). unfold solution.
    rewrite (extends_ext g g' sigma Hv). split; intros [Hext Hs]; (split; [done|]);
      by apply H.
Qed.

Lemma UnitPropagation_iteration_solutions g sigma :
  match UnitPropagation_iteration g with
  | Return true g' => g' = g
  | Return false _ => ~ solution g sigma
  | Continue g' => solution g sigma <-> solution g' sigma
  | Crash => True
  end.
Proof.
  unfold UnitPropagation_iteration.
  destruct (Nat.eqb (length (unit_clauses g)) 0); [done|].
  pose proof (assign_unit_clauses_solutions (unit_clauses g) g sigma
                (unit_clauses_enabled g)) as H1.
  destruct (assign_unit_clauses g (unit_clauses g)) as [g1|g1|]; [done| |done].
  pose proof (simplify_clauses_solution (GetEnabledClauses g1) g1 sigma) as H2.
  destruct (simplify_clauses g1 (GetEnabledClauses g1)); [|by rewrite H1|done].
  by rewrite H1.
Qed.

Lemma UnitPropagation_solutions fuel : forall g r g' sigma,
  UnitPropagation fuel g = Returns (r, g') ->
  if r then solution g sigma <-> solution g' sigma else ~ solution g sigma.
Proof.
  induction fuel as [|fuel IH]; intros g r g' sigma H; simpl in H; [done|].
  pose proof (UnitPropagation_iteration_solutions g sigma) as Hit.
  destruct (UnitPropagation_iteration g) as [r0 g0|g0|]; [| |done].
  - injection H as <- <-. destruct r0; [by subst|done].
  - specialize (IH _ _ _ sigma H). destruct r; by rewrite Hit.
Qed.

(** X1: when [UnitPropagation] returns [true], the graph it leaves has the
    solutions of the graph it was given: a total assignment gives the
    assigned variables their values and makes a literal true among the
    enabled edges of every enabled clause before the call iff it does so
    after. *)
Theorem UnitPropagation_keeps_solutions
        (fuel : nat) (g g' : FactorGraph) (sigma : assignment) :
  UnitPropagation fuel g = Returns (true, g') ->
  solution g sigma <-> solution g' sigma.
Proof. intros H. apply (UnitPropagation_solutions fuel g true g' sigma H). Qed.

(** X2: when [UnitPropagation] returns [false], the graph it was given had
    no solution: no total assignment gives the assigned variables their
    values and makes a literal true among the enabled edges of every enabled
    clause. *)
Theorem UnitPropagation_contradiction_sound
        (fuel : nat) (g g' : FactorGraph) (sigma : assignment) :
  UnitPropagation fuel g = Returns (false, g') ->
  ~ solution g sigma.
Proof. intros H. apply (UnitPropagation_solutions fuel g false g' sigma H). Qed.

(** ** What unit propagation leaves untouched *)

(** [g'] keeps the variables assigned in [g] as they are, and the surveys and
    biases of [g]. *)
Record keeps_assigned (g g' : FactorGraph) : Prop := {
  ka_assigned : forall v,
    var_assigned g v = true -> variables g' !! v = variables g !! v;
  ka_evalValue : forall v, var_evalValue g' v = var_evalValue g v;
  ka_survey : forall e, edge_survey g' e = edge_survey g e
}.

Lemma keeps_assigned_refl g : keeps_assigned g g.
Proof. by constructor. Qed.

Lemma keeps_assigned_trans g1 g2 g3 :
  keeps_assigned g1 g2 -> keeps_assigned g2 g3 -> keeps_assigned g1 g3.
Proof.
  intros [] []. constructor; try congruence.
  intros v Hv. rewrite <- ka_assigned0 by done. apply ka_assigned1.
  unfold var_assigned in *. by rewrite ka_assigned0.
Qed.

Lemma keeps_assigned_AssignValue g v b :
  var_assigned g v = false -> keeps_assigned g (AssignValue g v b).
Proof.
  intros Hv. constructor; try done.
  - intros v' Hv'. simpl. rewrite list_lookup_alter_ne; [done|congruence].
  - apply var_evalValue_AssignValue.
Qed.

Lemma keeps_assigned_same_variables g g' :
  variables g' = variables g ->
  (forall e, edge_survey g' e = edge_survey g e) ->
  keeps_assigned g g'.
Proof.
  intros Hv Hs. constructor; try done.
  - intros v _. by rewrite Hv.
  - intros v. unfold var_evalValue. by rewrite Hv.
Qed.

Lemma assign_unit_clauses_keeps_assigned l : forall g g1,
  assign_unit_clauses g l = Completed g1 \/
  assign_unit_clauses g l = Contradiction g1 ->
  keeps_assigned g g1.
Proof.
  induction l as [|c l IH]; intros g g1 H; simpl in H.
  - destruct H as [H|H]; [|done]. injection H as <-. apply keeps_assigned_refl.
  - destruct (Clause_GetEnabledEdges g c) as [|e rest]; [by destruct H|].
    destruct (var_assigned g (edge_variable g e)) eqn:Ha; simpl in H.
    + destruct (negb (eqb (edge_type g e) (var_value g (edge_variable g e)))).
      * destruct H as [H|H]; [done|]. injection H as <-.
        apply keeps_assigned_refl.
      * by apply IH.
    + eapply keeps_assigned_trans; [|by apply IH].
      by apply keeps_assigned_AssignValue.
Qed.

Lemma simplify_clause_survey g c es e :
  edge_survey (simplify_clause g c es) e = edge_survey g e.
Proof.
  revert g. induction es as [|e0 es IH]; intros g; simpl; [done|].
  destruct (var_assigned g (edge_variable g e0)); [|apply IH].
  destruct (eqb _ _); [done|]. by rewrite IH, edge_survey_Edge_Dissable.
Qed.

Lemma simplify_clauses_survey cs : forall g g' e,
  simplify_clauses g cs = Completed g' \/
  simplify_clauses g cs = Contradiction g' ->
  edge_survey g' e = edge_survey g e.
Proof.
  induction cs as [|c cs IH]; intros g g' e H; simpl in H.
  - destruct H as [H|H]; [|done]. by injection H as <-.
  - destruct (_ && _).
    + destruct H as [H|H]; [done|]. injection H as <-.
      apply simplify_clause_survey.
    + rewrite (IH _ _ e H). apply simplify_clause_survey.
Qed.

Lemma simplify_clauses_keeps_assigned cs g g' :
  simplify_clauses g cs = Completed g' \/
  simplify_clauses g cs = Contradiction g' ->
  keeps_assigned g g'.
Proof.
  intros H. apply keeps_assigned_same_variables.
  - by eapply simplify_clauses_variables.
  - intros e. by eapply simplify_clauses_survey.
Qed.

Lemma UnitPropagation_iteration_frame g :
  match UnitPropagation_iteration g with
  | Return _ g' | Continue g' => evolves g g' /\ keeps_assigned g g'
  | Crash => True
  end.
Proof.
  unfold UnitPropagation_iteration.
  destruct (Nat.eqb (length (unit_clauses g)) 0).
  { split; [apply evolves_refl|apply keeps_assigned_refl]. }
  destruct (assign_unit_clauses g (unit_clauses g)) as [g1|g1|] eqn:H1; [| |done].
  - split.
    + by apply (assign_unit_clauses_frame g _ g1 (or_intror H1)).
    + by apply (assign_unit_clauses_keeps_assigned _ g g1 (or_intror H1)).
  - assert (evolves g g1)
      by by apply (assign_unit_clauses_frame g _ g1 (or_introl H1)).
    assert (keeps_assigned g g1)
      by by apply (assign_unit_clauses_keeps_assigned _ g g1 (or_introl H1)).
    destruct (simplify_clauses g1 (GetEnabledClauses g1)) as [g2|g2|] eqn:H2;
      [| |done].
    + split.
      * eapply evolves_trans; [done|].
        by apply (simplify_clauses_evolves g1 _ g2 (or_intror H2)).
      * eapply keeps_assigned_trans; [done|].
        by apply (simplify_clauses_keeps_assigned _ g1 g2 (or_intror H2)).
    + split.
      * eapply evolves_trans; [done|].
        by apply (simplify_clauses_evolves g1 _ g2 (or_introl H2)).
      * eapply keeps_assigned_trans; [done|].
        by apply (simplify_clauses_keeps_assigned _ g1 g2 (or_introl H2)).
Qed.

Lemma UnitPropagation_frame fuel : forall g r g',
  UnitPropagation fuel g = Returns (r, g') ->
  evolves g g' /\ keeps_assigned g g'.
Proof.
  induction fuel as [|fuel IH]; intros g r g' H; simpl in H; [done|].
  pose proof (UnitPropagation_iteration_frame g) as Hit.
  destruct (UnitPropagation_iteration g) as [r0 g0|g0|]; [| |done].
  - by injection H as <- <-.
  - destruct Hit as [Hev Hka]. destruct (IH _ _ _ H) as [Hev' Hka'].
    split; [by eapply evolves_trans|by eapply keeps_assigned_trans].
Qed.

(** X3: whatever it returns, [UnitPropagation] changes neither the type,
    the variable, the clause nor the survey of an edge, nor a bias; it
    enables no edge and no clause, and a variable assigned before the call
    is assigned the same value after it. *)
Theorem UnitPropagation_only_disables_and_assigns
        (fuel : nat) (g : FactorGraph) (r : bool) (g' : FactorGraph) :
  UnitPropagation fuel g = Returns (r, g') ->
  (forall e, edge_type g' e = edge_type g e /\
             edge_variable g' e = edge_variable g e /\
             edge_clause g' e = edge_clause g e /\
             edge_survey g' e = edge_survey g e /\
             (is_edge_enabled g' e = true -> is_edge_enabled g e = true)) /\
  (forall c, is_clause_enabled g' c = true -> is_clause_enabled g c = true) /\
  (forall v, var_evalValue g' v = var_evalValue g v /\
             (var_assigned g v = true ->
              var_assigned g' v = true /\ var_value g' v = var_value g v)).
Proof.
  intros H. destruct (UnitPropagation_frame _ _ _ _ H) as [[] []].
  split_and!; try done.
  - intros e. split_and!; auto.
  - intros v. split; [done|]. intros Hv. split; [auto|].
    unfold var_value. by rewrite ka_assigned0.
Qed.

(** ** What a successful unit propagation leaves *)

Lemma simplify_clause_other_clauses g c es :
  (forall e, In e es -> edge_clause g e = c) ->
  (forall c', c' <> c ->
     is_clause_enabled (simplify_clause g c es) c' = is_clause_enabled g c') /\
  (forall e, edge_clause g e <> c ->
     is_edge_enabled (simplify_clause g c es) e = is_edge_enabled g e).
Proof.
  revert g. induction es as [|e0 es IH]; intros g Hes; simpl; [done|].
  destruct (var_assigned g (edge_variable g e0)).
  - destruct (eqb _ _).
    + split; [|done]. intros c' Hne.
      rewrite is_clause_enabled_Clause_Dissable. by rewrite decide_False.
    + destruct (IH (Edge_Dissable g e0)) as [IH1 IH2].
      { intros e He. rewrite edge_clause_Edge_Dissable. apply Hes. by right. }
      split; [done|]. intros e He.
      rewrite IH2 by by rewrite edge_clause_Edge_Dissable.
      rewrite is_edge_enabled_Edge_Dissable, decide_False; [done|].
      intros <-. apply He, Hes. by left.
  - apply IH. intros e He. apply Hes. by right.
Qed.

Lemma simplify_clauses_other_clauses cs : forall g g' c,
  simplify_clauses g cs = Completed g' -> ~ In c cs ->
  is_clause_enabled g' c = is_clause_enabled g c /\
  Clause_GetEnabledEdges g' c = Clause_GetEnabledEdges g c.
Proof.
  induction cs as [|c0 cs IH]; intros g g' c H Hc; simpl in H.
  - by injection H as <-.
  - set (g1 := simplify_clause g c0 (Clause_GetEnabledEdges g c0)) in *.
    destruct (_ && _); [done|].
    destruct (IH g1 g' c H) as [IH1 IH2]; [intros ?; apply Hc; by right|].
    assert (Hne : c <> c0) by (intros ->; apply Hc; by left).
    destruct (simplify_clause_other_clauses g c0 (Clause_GetEnabledEdges g c0))
      as [H1 H2].
    { intros e. by intros [_ ?]%In_Clause_GetEnabledEdges. }
    fold g1 in H1, H2.
    pose proof (simplify_clause_evolves g c0 (Clause_GetEnabledEdges g c0)) as Hev.
    fold g1 in Hev.
    rewrite IH1, IH2, H1 by done. split; [done|].
    unfold Clause_GetEnabledEdges. rewrite (ev_edges _ _ Hev).
    apply filter_ext. intros e. unfold edge_active.
    rewrite (ev_clause _ _ Hev).
    destruct (Nat.eqb_spec (edge_clause g e) c) as [Heq|Hneq];
      [|by rewrite !andb_false_r].
    rewrite H2 by congruence. rewrite Heq, H1; done.
Qed.

Lemma simplify_clauses_no_empty cs : forall g g' c,
  simplify_clauses g cs = Completed g' -> In c cs ->
  is_clause_enabled g' c = true -> Clause_GetEnabledEdges g' c <> [].
Proof.
  induction cs as [|c0 cs IH]; intros g g' c H Hc Hen; [done|]. simpl in H.
  set (g1 := simplify_clause g c0 (Clause_GetEnabledEdges g c0)) in *.
  destruct (is_clause_enabled g1 c0
            && Nat.eqb (length (Clause_GetEnabledEdges g1 c0)) 0) eqn:Hchk;
    [done|].
  destruct (in_dec Nat.eq_dec c cs) as [Hin|Hnotin]; [by eapply IH|].
  destruct Hc as [->|Hc]; [|done].
  destruct (simplify_clauses_other_clauses cs g1 g' c H Hnotin) as [H1 H2].
  rewrite H2. rewrite H1 in Hen. rewrite Hen in Hchk. simpl in Hchk.
  by destruct (Clause_GetEnabledEdges g1 c).
Qed.

(** After an iteration that continues, no enabled edge leads to an assigned
    variable and no enabled clause is empty. *)
Definition propagated (g : FactorGraph) : Prop :=
  (forall e, edge_active g e = true ->
             var_assigned g (edge_variable g e) = false) /\
  (forall c, is_clause_enabled g c = true -> Clause_GetEnabledEdges g c <> []).

Lemma is_clause_enabled_lt g c :
  is_clause_enabled g c = true -> (c < length (clauses g))%nat.
Proof.
  unfold is_clause_enabled. destruct (clauses g !! c) eqn:E; [|done].
  intros _. by apply lookup_lt_Some in E.
Qed.

Lemma In_GetEnabledClauses g c :
  In c (GetEnabledClauses g) <-> is_clause_enabled g c = true.
Proof.
  unfold GetEnabledClauses. rewrite filter_In, in_seq. split; [tauto|].
  intros H. split; [|done]. apply is_clause_enabled_lt in H. lia.
Qed.

Lemma UnitPropagation_iteration_propagated g g' :
  UnitPropagation_iteration g = Continue g' -> propagated g'.
Proof.
  unfold UnitPropagation_iteration.
  destruct (Nat.eqb (length (unit_clauses g)) 0); [done|].
  destruct (assign_unit_clauses g (unit_clauses g)) as [g1|g1|]; try done.
  destruct (simplify_clauses g1 (GetEnabledClauses g1)) as [|g2|] eqn:H2;
    try done.
  intros [= <-].
  pose proof (simplify_clauses_evolves g1 _ g2 (or_introl H2)) as Hev.
  pose proof (simplify_clauses_variables _ g1 g2 (or_introl H2)) as Hv.
  split.
  - intros e Hact.
    destruct (var_assigned g2 (edge_variable g2 e)) eqn:Ha; [|done].
    assert (Hact1 : edge_active g1 e = true) by by eapply evolves_active.
    assert (edge_active g2 e = false); [|congruence].
    apply (simplify_clauses_disables g1 (GetEnabledClauses g1) g2
             (edge_clause g1 e) e); try done.
    + apply In_GetEnabledClauses. unfold edge_active in Hact1.
      by apply andb_true_iff in Hact1 as [_ ?].
    + rewrite <- (ev_variable _ _ Hev). unfold var_assigned in *.
      by rewrite <- Hv.
  - intros c Hen. eapply simplify_clauses_no_empty; [done| |done].
    apply In_GetEnabledClauses. by apply (ev_clause_enabled _ _ Hev).
Qed.

Lemma UnitPropagation_iteration_untouched g g' :
  UnitPropagation_iteration g = Return true g' -> g' = g.
Proof.
  unfold UnitPropagation_iteration.
  destruct (Nat.eqb (length (unit_clauses g)) 0); [by intros [= <-]|].
  destruct (assign_unit_clauses g (unit_clauses g)); try done.
  by destruct (simplify_clauses _ _).
Qed.

Lemma UnitPropagation_success fuel : forall g g',
  UnitPropagation fuel g = Returns (true, g') ->
  unit_clauses g' = [] /\ (g' = g \/ propagated g').
Proof.
  induction fuel as [|fuel IH]; intros g g' H; simpl in H; [done|].
  destruct (UnitPropagation_iteration g) as [r0 g0|g0|] eqn:Hit; [| |done].
  - injection H as -> ->.
    pose proof (UnitPropagation_iteration_untouched _ _ Hit) as ->.
    split; [|by left]. unfold UnitPropagation_iteration in Hit.
    destruct (unit_clauses g) as [|c l]; [done|].
    change (Nat.eqb (length (c :: l)) 0) with false in Hit. cbv iota in Hit.
    destruct (assign_unit_clauses g (c :: l)); try done.
    destruct (simplify_clauses _ _); done.
  - destruct (IH _ _ H) as [H1 [->|H2]]; (split; [done|right]); [|done].
    by eapply UnitPropagation_iteration_propagated.
Qed.

(** X4: the graph a successful [UnitPropagation] leaves is a fixed point:
    run again, with any fuel, it returns [true] at once and leaves the graph
    as it is.  Either the call changed nothing (there was no unit clause to
    start with), or no enabled edge of an enabled clause leads to an assigned
    variable and every enabled clause keeps two enabled edges at least. *)
Theorem UnitPropagation_success_leaves
        (fuel : nat) (g g' : FactorGraph) :
  UnitPropagation fuel g = Returns (true, g') ->
  (forall n, UnitPropagation (S n) g' = Returns (true, g')) /\
  (g' = g \/
   (forall e, edge_active g' e = true ->
              var_assigned g' (edge_variable g' e) = false) /\
   (forall c, is_clause_enabled g' c = true ->
              (2 <= length (Clause_GetEnabledEdges g' c))%nat)).
Proof.
  intros H. destruct (UnitPropagation_success _ _ _ H) as [Hu Hp]. split.
  - intros n. simpl. unfold UnitPropagation_iteration. by rewrite Hu.
  - destruct Hp as [->|[Hp1 Hp2]]; [by left|right]. split; [done|].
    intros c Hen. specialize (Hp2 c Hen).
    destruct (Clause_GetEnabledEdges g' c) as [|e1 [|e2 l]] eqn:Hes;
      [done| |simpl; lia].
    assert (Hin : In c (unit_clauses g')); [|by rewrite Hu in Hin].
    unfold unit_clauses. apply filter_In. rewrite Hes.
    split; [by apply In_GetEnabledClauses|done].
Qed.

(** ** WalkSAT: success, defined behaviour and the variables it moves *)

(** A variable WalkSAT cannot move: assigned, and in no enabled edge of an
    enabled clause. *)
Definition fixed (g : FactorGraph) (v : VarId) : Prop :=
  var_assigned g v = true /\
  forall e, edge_active g e = true -> edge_variable g e <> v.

(** [g] is [g0] with some of its movable variables assigned anew. *)
Definition walked (g0 g : FactorGraph) : Prop :=
  only_assignments g0 g /\
  forall v, fixed g0 v -> variables g !! v = variables g0 !! v.

Lemma walked_refl g : walked g g.
Proof. split; [apply only_assignments_refl|done]. Qed.

Lemma only_assignments_assigned g g' v :
  only_assignments g g' -> var_assigned g v = true -> var_assigned g' v = true.
Proof.
  intros (_ & _ & Hv) Ha. unfold var_assigned in *.
  destruct (variables g !! v) as [x|] eqn:Hx; [|done].
  destruct (Forall2_lookup_l _ _ _ _ _ Hv Hx) as (x' & -> & _ & _ & Hx').
  simpl in *. auto.
Qed.

Lemma walked_AssignValue g0 g u b :
  walked g0 g -> ~ fixed g0 u -> walked g0 (AssignValue g u b).
Proof.
  intros [Hoa Hfix] Hu. split.
  - eapply only_assignments_trans; [done|apply only_assignments_AssignValue].
  - intros v Hv. rewrite <- (Hfix v Hv). simpl.
    apply list_lookup_alter_ne. by intros ->.
Qed.

Lemma walked_edge g0 g e :
  walked g0 g -> edge_active g e = true -> ~ fixed g0 (edge_variable g e).
Proof.
  intros [(Hc & He & _) _] Hact [_ Hfix].
  destruct (views_ext g0 g He Hc) as (_ & _ & _ & Hvar & _ & _ & Ha).
  apply (Hfix e); [by rewrite <- Ha|by rewrite Hvar].
Qed.

Lemma walked_unassigned g0 g v :
  walked g0 g -> var_assigned g v = false -> ~ fixed g0 v.
Proof.
  intros [Hoa _] Hv [Ha _].
  apply (only_assignments_assigned _ _ _ Hoa) in Ha. congruence.
Qed.

Section WalksatProperties.
Context {RG : RandomGen}.
Variable cfg : Config.

Lemma assign_random_walked g0 vars : forall g r,
  walked g0 g ->
  (forall v, In v vars -> ~ fixed g0 v) ->
  walked g0 (assign_random g r vars).1.
Proof.
  induction vars as [|v vars IH]; intros g r Hw Hvars; simpl; [done|].
  destruct (getRandomBool r) as [b r']. apply IH.
  - apply walked_AssignValue; [done|]. apply Hvars. by left.
  - intros v' Hv'. apply Hvars. by right.
Qed.

Lemma flip_variable_walked g0 g v :
  walked g0 g -> ~ fixed g0 v -> walked g0 (flip_variable g v).
Proof. apply walked_AssignValue. Qed.

Lemma lowest_break_count_walked g0 satClauses es : forall g lowVar low,
  walked g0 g ->
  (forall e, In e es -> edge_active g e = true) ->
  walked g0 (lowest_break_count g satClauses es lowVar low).1.1.
Proof.
  induction es as [|e es IH]; intros g lowVar low Hw Hes; simpl; [done|].
  assert (Hnf : ~ fixed g0 (edge_variable g e))
    by (apply walked_edge; [done|apply Hes; by left]).
  set (g2 := flip_variable (flip_variable g (edge_variable g e))
                           (edge_variable g e)).
  assert (Hw2 : walked g0 g2)
    by (apply flip_variable_walked; [by apply flip_variable_walked|done]).
  destruct (_ || _); destruct (_ =? 0); simpl; try done; apply IH; try done;
    intros e' He'; change (edge_active g2 e') with (edge_active g e');
    apply Hes; by right.
Qed.

(** The variable [lowest_break_count] ends with belongs to one of the
    edges, and there is one as soon as there is an edge. *)
Lemma lowest_break_count_var satClauses es : forall g lowVar low,
  match (lowest_break_count g satClauses es lowVar low).1.2 with
  | Some v => lowVar = Some v \/ exists e, In e es /\ v = edge_variable g e
  | None => lowVar = None /\ es = []
  end.
Proof.
  induction es as [|e es IH]; intros g lowVar low; simpl.
  - destruct lowVar; [by left|done].
  - set (g2 := flip_variable (flip_variable g (edge_variable g e))
                             (edge_variable g e)).
    set (bc := count_broken (flip_variable g (edge_variable g e)) satClauses 0).
    destruct (match lowVar with None => true | Some _ => false end
              || (bc <? low)) eqn:Hupd.
    + destruct (bc =? 0); simpl; [right; exists e; split; [by left|done]|].
      specialize (IH g2 (Some (edge_variable g e)) bc).
      destruct (lowest_break_count g2 _ es _ _).1.2 as [v|].
      * destruct IH as [[= <-]|(e' & He' & ->)];
          right; [exists e|exists e']; split; try done; [by left|by right].
      * by destruct IH.
    + destruct lowVar as [v0|]; [|done].
      destruct (bc =? 0); simpl; [by left|].
      specialize (IH g2 (Some v0) low).
      destruct (lowest_break_count g2 _ es _ _).1.2 as [v|].
      * destruct IH as [|(e' & He' & ->)]; [by left|].
        right. exists e'. split; [by right|done].
      * by destruct IH.
Qed.

Lemma at_index_In {A} (l : list A) i x : at_index l i = Some x -> In x l.
Proof.
  unfold at_index. destruct (i <? 0); [done|]. intros H.
  apply list_elem_of_In. by eapply list_elem_of_lookup_2.
Qed.

Lemma uniform_int_at_index {A} (l : list A) r :
  l <> [] ->
  exists x, at_index l (uniform_int 0 (Z.of_nat (length l) - 1) r).1 = Some x.
Proof.
  intros Hl. assert (0 < length l)%nat by (destruct l; [done|simpl; lia]).
  pose proof (uniform_int_range 0 (Z.of_nat (length l) - 1) r ltac:(lia)) as Hr.
  unfold at_index. destruct (Z.ltb_spec (uniform_int 0 (Z.of_nat (length l) - 1) r).1 0);
    [lia|].
  apply lookup_lt_is_Some_2. lia.
Qed.

(** What a step that flips does: it flips one variable of an enabled edge
    of an enabled clause that is not satisfied, after the computation of
    the break counts. *)
Lemma flip_step_Flipped g r g' r' :
  flip_step cfg g r = Flipped g' r' ->
  IsSAT g = false /\
  exists c e v g1,
    is_clause_enabled g c = true /\ Clause_IsSAT g c = false /\
    In e (Clause_GetEnabledEdges g c) /\ v = edge_variable g e /\
    g1 = (lowest_break_count g
            (List.filter (Clause_IsSAT g) (GetEnabledClauses g))
            (Clause_GetEnabledEdges g c) None
            (uint_add (Z.of_nat (length
               (List.filter (Clause_IsSAT g) (GetEnabledClauses g)))) 1)).1.1 /\
    g' = flip_variable g1 v.
Proof.
  unfold flip_step. destruct (IsSAT g); [done|]. intros H. split; [done|].
  set (unsat := List.filter (fun c => negb (Clause_IsSAT g c)) (GetEnabledClauses g)) in *.
  destruct unsat as [|c0 cs] eqn:Hunsat; [done|]. rewrite <- Hunsat in H.
  destruct (uniform_int _ _ r) as [randIndex r1].
  destruct (at_index unsat randIndex) as [c|] eqn:Hc; [|done].
  apply at_index_In in Hc. unfold unsat in Hc. apply filter_In in Hc as [Hc1 Hc2].
  apply In_GetEnabledClauses in Hc1. apply negb_true_iff in Hc2.
  set (sat := List.filter (Clause_IsSAT g) (GetEnabledClauses g)) in *.
  pose proof (lowest_break_count_var sat (Clause_GetEnabledEdges g c) g None
                (uint_add (Z.of_nat (length sat)) 1)) as Hvar.
  destruct (lowest_break_count _ _ _ _ _) as [[g1 lowVar] low] eqn:Hlow.
  simpl in Hvar.
  assert (Hsome : forall v rr, lowVar = Some v -> Flipped (flip_variable g1 v) rr
                                                  = Flipped g' r' ->
            exists c e v g1,
              is_clause_enabled g c = true /\ Clause_IsSAT g c = false /\
              In e (Clause_GetEnabledEdges g c) /\ v = edge_variable g e /\
              g1 = (lowest_break_count g sat (Clause_GetEnabledEdges g c) None
                      (uint_add (Z.of_nat (length sat)) 1)).1.1 /\
              g' = flip_variable g1 v).
  { intros v rr -> [= <- _]. destruct Hvar as [|(e & He & ->)]; [done|].
    exists c, e, (edge_variable g e), g1. rewrite Hlow. done. }
  destruct (low =? 0).
  { destruct lowVar as [v|]; [|done]. by eapply Hsome. }
  destruct (getRandomReal01 r1) as [x r2].
  destruct (Double.gt x (WS_NOISE cfg)).
  { destruct lowVar as [v|]; [|done]. by eapply Hsome. }
  destruct (Clause_GetEnabledEdges g c) as [|e0 es] eqn:Hes; [done|].
  rewrite <- Hes in *.
  destruct (uniform_int _ _ r2) as [randomEdgeIndex r3].
  destruct (at_index _ randomEdgeIndex) as [e|] eqn:He; [|done].
  apply at_index_In in He. injection H as <- _.
  exists c, e, (edge_variable g e), g1. rewrite Hlow. split_and!; try done.
  pose proof (lowest_break_count_frame sat (Clause_GetEnabledEdges g c) g None
                (uint_add (Z.of_nat (length sat)) 1)) as Hfr.
  rewrite Hlow in Hfr. destruct Hfr as (Hc' & He' & _).
  by destruct (views_ext g g1 He' Hc') as (_ & _ & _ & -> & _).
Qed.

Lemma flip_step_Satisfied g r g' r' :
  flip_step cfg g r = Satisfied g' r' -> g' = g /\ r' = r /\ IsSAT g = true.
Proof.
  unfold flip_step. destruct (IsSAT g); [by intros [= <- <-]|].
  destruct (List.filter _ _); [done|].
  destruct (uniform_int _ _ r) as [randIndex r1].
  destruct (at_index _ randIndex); [|done].
  destruct (lowest_break_count _ _ _ _ _) as [[g1 lowVar] low].
  destruct (low =? 0); [by destruct lowVar|].
  destruct (getRandomReal01 r1) as [x r2].
  destruct (Double.gt x (WS_NOISE cfg)); [by destruct lowVar|].
  destruct (Clause_GetEnabledEdges _ _); [done|].
  destruct (uniform_int _ _ r2) as [randomEdgeIndex r3].
  by destruct (at_index _ randomEdgeIndex).
Qed.

Lemma flip_step_walked g0 g r g' r' :
  walked g0 g ->
  flip_step cfg g r = Flipped g' r' \/ flip_step cfg g r = Satisfied g' r' ->
  walked g0 g'.
Proof.
  intros Hw [H|H].
  - apply flip_step_Flipped in H as (_ & c & e & v & g1 & Hen & _ & He & -> & -> & ->).
    apply In_Clause_GetEnabledEdges in He as [Hact _].
    apply flip_variable_walked; [|by apply walked_edge].
    apply lowest_break_count_walked; [done|].
    intros e'. by intros [? _]%In_Clause_GetEnabledEdges.
  - by apply flip_step_Satisfied in H as (-> & _ & _).
Qed.

Lemma flips_walked g0 n : forall g r g' r',
  walked g0 g ->
  flips cfg n g r = Flipped g' r' \/ flips cfg n g r = Satisfied g' r' ->
  walked g0 g'.
Proof.
  induction n as [|n IH]; intros g r g' r' Hw; simpl.
  - by intros [[= <- _]|].
  - destruct (flip_step cfg g r) as [g1 r1|g1 r1|] eqn:Hstep.
    + intros [|[= <- _]]; [done|].
      apply (flip_step_walked g0 g r g1 r1); [done|by right].
    + apply IH. apply (flip_step_walked g0 g r g1 r1); [done|by left].
    + by intros [].
Qed.

Lemma In_GetUnassignedVariables g v :
  In v (GetUnassignedVariables g) ->
  var_assigned g v = false /\ (v < length (variables g))%nat.
Proof.
  unfold GetUnassignedVariables. rewrite filter_In, in_seq, negb_true_iff.
  intros [H1 H2]. split; [done|lia].
Qed.

Lemma try_walked g0 g r g' r' :
  walked g0 g ->
  try cfg g r = Flipped g' r' \/ try cfg g r = Satisfied g' r' ->
  walked g0 g'.
Proof.
  unfold try. intros Hw.
  pose proof (assign_random_walked g0 (GetUnassignedVariables g) g r Hw) as H.
  destruct (assign_random g r _) as [g1 r1]. simpl in H.
  apply flips_walked, H. intros v [Hv _]%In_GetUnassignedVariables.
  by eapply walked_unassigned.
Qed.

Lemma tries_walked g0 n : forall g r b g' r',
  walked g0 g -> tries cfg n g r = Returns (b, g', r') -> walked g0 g'.
Proof.
  induction n as [|n IH]; intros g r b g' r' Hw; simpl.
  - by intros [= _ <- _].
  - destruct (try cfg g r) as [g1 r1|g1 r1|] eqn:Htry; [| |done].
    + intros [= _ <- _]. apply (try_walked g0 g r g1 r1); [done|by right].
    + apply IH. apply (try_walked g0 g r g1 r1); [done|by left].
Qed.

(** X5: [Walksat] moves only the variables that are unassigned on entry or
    occur in an enabled edge of an enabled clause: a variable assigned on
    entry and without such an edge has the same [value] and [assigned]
    fields when [Walksat] returns, with success or with failure. *)
Theorem Walksat_moves_only_free_variables
        (g : FactorGraph) (r : rng) (b : bool) (g' : FactorGraph) (r' : rng)
        (v : VarId) :
  Walksat cfg g r = Returns (b, g', r') ->
  var_assigned g v = true ->
  (forall e, edge_active g e = true -> edge_variable g e <> v) ->
  variables g' !! v = variables g !! v.
Proof.
  intros H Ha He.
  apply (tries_walked g _ _ _ _ _ _ (walked_refl g) H). by split.
Qed.

Lemma flips_Satisfied n : forall g r g' r',
  flips cfg n g r = Satisfied g' r' -> IsSAT g' = true.
Proof.
  induction n as [|n IH]; intros g r g' r'; simpl; [done|].
  destruct (flip_step cfg g r) as [g1 r1|g1 r1|] eqn:Hstep; [| |done].
  - intros [= <- <-]. by apply flip_step_Satisfied in Hstep as (-> & _ & ?).
  - apply IH.
Qed.

Lemma try_result_all_assigned g r g1 r1 :
  try cfg g r = Flipped g1 r1 \/ try cfg g r = Satisfied g1 r1 ->
  all_assigned g1.
Proof.
  unfold try. intros H.
  pose proof (assign_random_all_assigned (GetUnassignedVariables g) g r) as Ha.
  destruct (assign_random g r (GetUnassignedVariables g)) as [g0 r0].
  simpl in Ha. eapply only_assignments_all_assigned.
  - by eapply flips_frame.
  - apply Ha. intros v Hv.
    destruct (var_assigned g v) eqn:E; [by left|right].
    unfold GetUnassignedVariables. apply filter_In. rewrite E.
    split; [apply in_seq; lia|done].
Qed.

Lemma tries_success n : forall g r g' r',
  tries cfg n g r = Returns (true, g', r') ->
  IsSAT g' = true /\ all_assigned g'.
Proof.
  induction n as [|n IH]; intros g r g' r'; simpl; [done|].
  destruct (try cfg g r) as [g1 r1|g1 r1|] eqn:Htry; [| |done].
  - intros [= <- <-]. split.
    + unfold try in Htry. destruct (assign_random g r _) as [g0 r0].
      by eapply flips_Satisfied.
    + apply (try_result_all_assigned g r g1 r1). by right.
  - apply IH.
Qed.

(** X6: when [Walksat] returns [true], the graph it leaves passes
    [IsSAT], and no variable is left unassigned. *)
Theorem Walksat_success_is_satisfied
        (g : FactorGraph) (r : rng) (g' : FactorGraph) (r' : rng) :
  Walksat cfg g r = Returns (true, g', r') ->
  IsSAT g' = true /\ GetUnassignedVariables g' = [].
Proof.
  intros H. destruct (tries_success _ _ _ _ _ H) as [H1 H2].
  split; [done|by apply all_assigned_GetUnassignedVariables].
Qed.

(** Every enabled clause has an enabled edge. *)
Definition no_empty_clause (g : FactorGraph) : bool :=
  forallb (fun c => negb (Nat.eqb (length (Clause_GetEnabledEdges g c)) 0))
          (GetEnabledClauses g).

Lemma no_empty_clause_spec g :
  no_empty_clause g = true <->
  forall c, is_clause_enabled g c = true -> Clause_GetEnabledEdges g c <> [].
Proof.
  unfold no_empty_clause. rewrite forallb_forall. split.
  - intros H c Hc%In_GetEnabledClauses. specialize (H c Hc).
    by destruct (Clause_GetEnabledEdges g c).
  - intros H c Hc%In_GetEnabledClauses. specialize (H c Hc).
    by destruct (Clause_GetEnabledEdges g c).
Qed.

Lemma only_assignments_no_empty_clause g g' :
  only_assignments g g' -> no_empty_clause g' = no_empty_clause g.
Proof.
  intros (Hc & He & _).
  destruct (views_ext g g' He Hc) as (H1 & H2 & _).
  unfold no_empty_clause. rewrite H2.
  generalize (GetEnabledClauses g). intros l.
  induction l as [|c l IH]; [done|]. cbn [forallb]. by rewrite H1, IH.
Qed.

Lemma IsSAT_false_unsat_clause g :
  IsSAT g = false ->
  List.filter (fun c => negb (Clause_IsSAT g c)) (GetEnabledClauses g) <> [].
Proof.
  unfold IsSAT. intros H.
  destruct (forallb_forall (fun c => negb (is_clause_enabled g c) || Clause_IsSAT g c)
              (seq 0 (length (clauses g)))) as [_ Hall].
  destruct (List.filter _ _) as [|c l] eqn:E; [|done].
  rewrite Hall in H; [done|]. intros c Hc.
  destruct (is_clause_enabled g c) eqn:Hen; [|done].
  destruct (Clause_IsSAT g c) eqn:Hs; [done|].
  assert (Hin : In c (List.filter (fun c => negb (Clause_IsSAT g c))
                                  (GetEnabledClauses g))).
  { apply filter_In. rewrite Hs. split; [by apply In_GetEnabledClauses|done]. }
  by rewrite E in Hin.
Qed.

Lemma flip_step_defined g r :
  no_empty_clause g = true -> flip_step cfg g r <> FlipUndefined.
Proof.
  intros Hne. rewrite no_empty_clause_spec in Hne.
  unfold flip_step. destruct (IsSAT g) eqn:Hsat; [done|].
  pose proof (IsSAT_false_unsat_clause g Hsat) as Hunsat.
  set (unsat := List.filter (fun c => negb (Clause_IsSAT g c)) (GetEnabledClauses g)) in *.
  destruct (uniform_int_at_index unsat r Hunsat) as [c Hc].
  destruct unsat as [|c0 cs] eqn:Hu; [done|]. rewrite <- Hu in *.
  destruct (uniform_int _ _ r) as [randIndex r1]. simpl in Hc. rewrite Hc.
  apply at_index_In in Hc. unfold unsat in Hc. apply filter_In in Hc as [Hc1 _].
  apply In_GetEnabledClauses, Hne in Hc1.
  set (sat := List.filter (Clause_IsSAT g) (GetEnabledClauses g)).
  pose proof (lowest_break_count_var sat (Clause_GetEnabledEdges g c) g None
                (uint_add (Z.of_nat (length sat)) 1)) as Hvar.
  destruct (lowest_break_count _ _ _ _ _) as [[g1 lowVar] low]. simpl in Hvar.
  destruct lowVar as [v|]; [|by destruct Hvar].
  destruct (low =? 0); [done|].
  destruct (getRandomReal01 r1) as [x r2].
  destruct (Double.gt x (WS_NOISE cfg)); [done|].
  destruct (uniform_int_at_index (Clause_GetEnabledEdges g c) r2 Hc1) as [e He].
  destruct (Clause_GetEnabledEdges g c) as [|e0 es] eqn:Hes; [done|].
  rewrite <- Hes in *.
  destruct (uniform_int _ _ r2) as [randomEdgeIndex r3]. simpl in He.
  by rewrite He.
Qed.

Lemma flips_defined n : forall g r,
  no_empty_clause g = true -> flips cfg n g r <> FlipUndefined.
Proof.
  induction n as [|n IH]; intros g r Hne; simpl; [done|].
  pose proof (flip_step_defined g r Hne) as Hd.
  destruct (flip_step cfg g r) as [g1 r1|g1 r1|] eqn:Hstep; [done| |done].
  apply IH. rewrite <- Hne. apply only_assignments_no_empty_clause.
  apply (flip_step_frame cfg g r g1 r1). by left.
Qed.

Lemma try_defined g r :
  no_empty_clause g = true -> try cfg g r <> FlipUndefined.
Proof.
  intros Hne. unfold try.
  pose proof (assign_random_frame (GetUnassignedVariables g) g r) as H.
  destruct (assign_random g r _) as [g1 r1]. simpl in H.
  apply flips_defined. rewrite <- Hne. by apply only_assignments_no_empty_clause.
Qed.

Lemma tries_defined n : forall g r,
  no_empty_clause g = true -> exists res, tries cfg n g r = Returns res.
Proof.
  induction n as [|n IH]; intros g r Hne; simpl; [by eexists|].
  pose proof (try_defined g r Hne) as Hd.
  destruct (try cfg g r) as [g1 r1|g1 r1|] eqn:Htry; [by eexists| |done].
  apply IH. rewrite <- Hne. apply only_assignments_no_empty_clause.
  apply (try_frame cfg g r g1 r1). by left.
Qed.

(** X7: on a graph in which every enabled clause has an enabled edge,
    [Walksat] has no undefined behaviour: the vector of unsatisfied clauses
    is not empty when a clause is drawn from it, both random indices are
    within bounds and [lowestBreakCountVar] is not null when it is
    dereferenced, so the call returns. *)
Theorem Walksat_defined_without_empty_clause (g : FactorGraph) (r : rng) :
  no_empty_clause g = true ->
  exists b g' r', Walksat cfg g r = Returns (b, g', r').
Proof.
  intros H. destruct (tries_defined (WS_MAX_TRIES cfg) g r H) as [[[b g'] r'] Hr].
  by exists b, g', r'.
Qed.

Lemma tries_no_flips n : forall g r,
  WS_MAX_FLIPS cfg = 0%nat ->
  exists g' r', tries cfg n g r = Returns (false, g', r').
Proof.
  induction n as [|n IH]; intros g r H0; simpl; [by eexists _, _|].
  unfold try. rewrite H0. destruct (assign_random g r _) as [g1 r1]. simpl.
  by apply IH.
Qed.

(** X8: satisfaction is tested inside the loop over the flips only: with
    [WS_MAX_FLIPS = 0], [Walksat] returns [false] on every graph, satisfied
    or not. *)
Theorem Walksat_without_flips_fails (g : FactorGraph) (r : rng) :
  WS_MAX_FLIPS cfg = 0%nat ->
  exists g' r', Walksat cfg g r = Returns (false, g', r').
Proof. apply tries_no_flips. Qed.

End WalksatProperties.

(** ** The formula and the assignment a run leaves *)

(** The clause [c] of [g] has a literal that [val] makes true, whatever the
    flags of the clause and of its edges. *)
Definition clause_true (g : FactorGraph) (val : VarId -> bool) (c : ClauseId)
  : bool :=
  existsb (fun e => Nat.eqb (edge_clause g e) c
                    && Bool.eqb (val (edge_variable g e)) (edge_type g e))
          (seq 0 (length (edges g))).

(** [val] makes every clause of [g] true. *)
Definition formula_true (g : FactorGraph) (val : VarId -> bool) : bool :=
  forallb (clause_true g val) (seq 0 (length (clauses g))).

(** A graph as the loader leaves it: no clause disabled, no variable
    assigned. *)
Definition freshly_loaded (g : FactorGraph) : bool :=
  forallb clause_enabled (clauses g)
  && forallb (fun x => negb (assigned x)) (variables g).

(** The clause [c] has a literal whose variable is assigned the value that
    makes it true. *)
Definition clause_satisfied (g : FactorGraph) (c : ClauseId) : Prop :=
  exists e, (e < length (edges g))%nat /\ edge_clause g e = c /\
            var_assigned g (edge_variable g e) = true /\
            var_value g (edge_variable g e) = edge_type g e.

(** The state between the phases of [SID]: every disabled clause is
    satisfied, and no enabled edge of an enabled clause leads to an assigned
    variable. *)
Definition disabled_satisfied (g : FactorGraph) : Prop :=
  forall c, (c < length (clauses g))%nat ->
            is_clause_enabled g c = false -> clause_satisfied g c.

Definition active_unassigned (g : FactorGraph) : Prop :=
  forall e, edge_active g e = true ->
            var_assigned g (edge_variable g e) = false.

(** [g'] is [g] with more variables assigned and more clauses and edges
    disabled, each clause disabled on the way being satisfied. *)
Record reduces (g g' : FactorGraph) : Prop := {
  red_evolves : evolves g g';
  red_values : forall v, var_assigned g v = true ->
                         var_value g' v = var_value g v;
  red_new : forall c, is_clause_enabled g c = true ->
                      is_clause_enabled g' c = false -> clause_satisfied g' c
}.

Lemma clause_satisfied_mono g g' c :
  evolves g g' ->
  (forall v, var_assigned g v = true -> var_value g' v = var_value g v) ->
  clause_satisfied g c -> clause_satisfied g' c.
Proof.
  intros Hev Hval (e & He & Hc & Ha & Hv). exists e.
  rewrite (ev_edges _ _ Hev), (ev_clause _ _ Hev), (ev_variable _ _ Hev),
    (ev_type _ _ Hev).
  split_and!; try done.
  - by apply (ev_assigned _ _ Hev).
  - by rewrite Hval.
Qed.

Lemma reduces_refl g : reduces g g.
Proof. constructor; [apply evolves_refl|done|congruence]. Qed.

Lemma reduces_trans g1 g2 g3 : reduces g1 g2 -> reduces g2 g3 -> reduces g1 g3.
Proof.
  intros [Hev1 Hv1 Hn1] [Hev2 Hv2 Hn2]. constructor.
  - by eapply evolves_trans.
  - intros v Hv. rewrite Hv2, Hv1; [done|done|]. by apply (ev_assigned _ _ Hev1).
  - intros c Hc1 Hc3. destruct (is_clause_enabled g2 c) eqn:Hc2.
    + by apply Hn2.
    + eapply clause_satisfied_mono; [done|done|]. by apply Hn1.
Qed.

Lemma reduces_disabled_satisfied g g' :
  reduces g g' -> disabled_satisfied g -> disabled_satisfied g'.
Proof.
  intros [Hev Hv Hn] Hd c Hc Hdis.
  rewrite (ev_clauses _ _ Hev) in Hc.
  destruct (is_clause_enabled g c) eqn:Hen; [by apply Hn|].
  eapply clause_satisfied_mono; [done|done|]. by apply Hd.
Qed.

(** *** Steps that move no flag and no assignment *)

Record same_state (g g' : FactorGraph) : Prop := {
  ss_clauses : clauses g' = clauses g;
  ss_variables : length (variables g') = length (variables g);
  ss_assigned : forall v, var_assigned g' v = var_assigned g v;
  ss_value : forall v, var_value g' v = var_value g v;
  ss_edges : length (edges g') = length (edges g);
  ss_type : forall e, edge_type g' e = edge_type g e;
  ss_variable : forall e, edge_variable g' e = edge_variable g e;
  ss_clause : forall e, edge_clause g' e = edge_clause g e;
  ss_enabled : forall e, is_edge_enabled g' e = is_edge_enabled g e
}.

Lemma same_state_refl g : same_state g g.
Proof. by constructor. Qed.

Lemma same_state_trans g1 g2 g3 :
  same_state g1 g2 -> same_state g2 g3 -> same_state g1 g3.
Proof. intros [] []. constructor; congruence. Qed.

Lemma same_state_active g g' e :
  same_state g g' -> edge_active g' e = edge_active g e.
Proof.
  intros []. unfold edge_active, is_clause_enabled.
  by rewrite ss_enabled0, ss_clause0, ss_clauses0.
Qed.

Lemma same_state_evolves g g' : same_state g g' -> evolves g g'.
Proof.
  intros []. constructor; try done; try congruence.
  - intros c. unfold is_clause_enabled. by rewrite ss_clauses0.
Qed.

Lemma same_state_reduces g g' : same_state g g' -> reduces g g'.
Proof.
  intros H. constructor; [by apply same_state_evolves|by destruct H|].
  intros c. unfold is_clause_enabled. destruct H. rewrite ss_clauses0.
  congruence.
Qed.

Lemma same_state_active_unassigned g g' :
  same_state g g' -> active_unassigned g -> active_unassigned g'.
Proof.
  intros H Hb e. rewrite (same_state_active _ _ _ H). destruct H.
  rewrite ss_variable0, ss_assigned0. apply Hb.
Qed.

Lemma same_state_views g g' :
  same_state g g' ->
  GetEnabledEdges g' = GetEnabledEdges g /\
  GetUnassignedVariables g' = GetUnassignedVariables g /\
  well_formed g' = well_formed g.
Proof.
  intros H. pose proof (same_state_active g g') as Ha. destruct H.
  unfold GetEnabledEdges, GetUnassignedVariables.
  rewrite ss_edges0, ss_variables0. split_and!.
  - apply filter_ext. intros e. by apply Ha.
  - apply filter_ext. intros v. by rewrite ss_assigned0.
  - apply eq_true_iff_eq. rewrite !well_formed_spec.
    rewrite ss_edges0, ss_variables0, ss_clauses0.
    split; intros H e He; specialize (H e He).
    + by rewrite <- ss_variable0, <- ss_clause0.
    + by rewrite ss_variable0, ss_clause0.
Qed.

Lemma surveys_only_same_state g g' : surveys_only g g' -> same_state g g'.
Proof.
  intros [Hv Hc He Hty Hvar Hcl Hen]. constructor; try done.
  - by rewrite Hv.
  - intros v. unfold var_assigned. by rewrite Hv.
  - intros v. unfold var_value. by rewrite Hv.
Qed.

Lemma set_evalValue_same_state g v x : same_state g (set_evalValue g v x).
Proof.
  constructor; try done.
  - simpl. apply length_alter.
  - intros v'. apply var_assigned_set_evalValue.
  - intros v'. apply var_value_set_evalValue.
Qed.

Lemma EvaluateVariable_same_state g v : same_state g (EvaluateVariable g v).
Proof.
  unfold EvaluateVariable.
  destruct (bias_products _ _ _ _ _) as [[PVi0 PViP] PViN].
  destruct (_ || _); apply set_evalValue_same_state.
Qed.

Lemma evaluate_variables_same_state vars : forall g,
  same_state g (foldl EvaluateVariable g vars).
Proof.
  induction vars as [|v vars IH]; intros g; simpl; [apply same_state_refl|].
  eapply same_state_trans; [apply EvaluateVariable_same_state|apply IH].
Qed.

(** *** Decimation *)

Lemma decimates_reduces g var g' :
  decimates g var g' -> var_assigned g var = false ->
  reduces g g' /\ (active_unassigned g -> active_unassigned g').
Proof.
  intros [Hd_assigned Hd_value Hd_others Hd_evalValue Hd_evolves Hd_satisfied
          Hd_falsified Hd_clause_kept Hd_edge_kept] Hun. split.
  - constructor; [done| |].
    + intros v Hv. unfold var_value. rewrite Hd_others; [done|congruence].
    + intros c Hen Hdis.
      destruct (existsb (fun e => Nat.eqb (edge_clause g e) c
                                  && eqb (edge_type g e) (var_value g' var))
                        (Variable_GetEnabledEdges g var)) eqn:Hex.
      * apply existsb_exists in Hex as (e & He & Hp).
        apply andb_true_iff in Hp as [Hc%Nat.eqb_eq Hty%eqb_prop].
        exists e. rewrite (ev_edges _ _ Hd_evolves), (ev_clause _ _ Hd_evolves),
          (ev_variable _ _ Hd_evolves), (ev_type _ _ Hd_evolves).
        unfold Variable_GetEnabledEdges in He.
        apply filter_In in He as [Hlt Hp]. apply in_seq in Hlt.
        apply andb_true_iff in Hp as [_ Hvar%Nat.eqb_eq].
        rewrite Hvar. split_and!; try done. lia.
      * rewrite Hd_clause_kept in Hdis; [done|done|].
        intros e He Hc Hty.
        apply not_true_iff_false in Hex. apply Hex.
        apply existsb_exists. exists e. split; [done|].
        rewrite Hc, Hty, Nat.eqb_refl, eqb_reflx. done.
  - intros Hb e Hact.
    assert (Hact0 : edge_active g e = true) by by eapply evolves_active.
    specialize (Hb e Hact0). rewrite (ev_variable _ _ Hd_evolves).
    destruct (decide (edge_variable g e = var)) as [Heq|Hne].
    + exfalso.
      assert (Hin : In e (Variable_GetEnabledEdges g var)).
      { unfold Variable_GetEnabledEdges. apply filter_In.
        rewrite Hact0, Heq, Nat.eqb_refl. split; [|done]. apply in_seq.
        unfold edge_active in Hact0. apply andb_true_iff in Hact0 as [He _].
        apply is_edge_enabled_lt in He. lia. }
      unfold edge_active in Hact. apply andb_true_iff in Hact as [He Hc].
      rewrite (ev_clause _ _ Hd_evolves) in Hc.
      destruct (Bool.bool_dec (edge_type g e) (var_value g' var)) as [Hty|Hty].
      * rewrite Hd_satisfied in Hc; done.
      * rewrite Hd_falsified in He; done.
    + unfold var_assigned in *. by rewrite Hd_others.
Qed.

Lemma decimates_all_reduces g vars g' :
  decimates_all g vars g' -> NoDup vars ->
  (forall v, v ∈ vars -> var_assigned g v = false) ->
  reduces g g' /\ (active_unassigned g -> active_unassigned g') /\
  (forall v, v ∈ vars -> var_assigned g' v = true).
Proof.
  induction 1 as [g|g var g1 vars g2 Hdec Hall IH]; intros Hnd Hun.
  - split_and!; [apply reduces_refl|done|]. intros v Hv. by inv Hv.
  - apply NoDup_cons in Hnd as [Hnotin Hnd].
    destruct (decimates_reduces g var g1 Hdec) as [Hr1 Hb1].
    { apply Hun. by left. }
    destruct IH as (Hr2 & Hb2 & Ha2); [done| |].
    { intros v Hv. unfold var_assigned.
      rewrite (dec_others _ _ _ Hdec) by (by intros ->).
      apply Hun. by right. }
    split_and!; [by eapply reduces_trans|auto|].
    intros v [->|Hv]%elem_of_cons; [|auto].
    apply (ev_assigned _ _ (red_evolves _ _ Hr2)). by destruct Hdec.
Qed.

Section DriverSoundness.
Context {RG : RandomGen} {SS : StdSort}.
Variable cfg : Config.

Lemma decimation_reduces g fraction g' :
  decimation g fraction = Some g' ->
  reduces g g' /\ (active_unassigned g -> active_unassigned g') /\
  (length (GetUnassignedVariables g') < length (GetUnassignedVariables g))%nat.
Proof.
  unfold decimation, evaluate_variables.
  set (unassigned := GetUnassignedVariables g).
  set (g1 := foldl EvaluateVariable g unassigned).
  pose proof (evaluate_variables_same_state unassigned g) as Hss. fold g1 in Hss.
  destruct (assign_fraction (length unassigned) fraction) as [kz|] eqn:Hk;
    [|done].
  apply assign_fraction_pos in Hk as Hpos.
  set (sorted := std_sort (by_bias g1) unassigned).
  assert (Hperm : sorted ≡ₚ unassigned) by apply std_sort_perm.
  intros H. destruct (decimate_spec _ _ _ _ _ H) as [Hall Hlen]; [lia| |].
  { intros v Hv. rewrite Hperm in Hv. rewrite (ss_variables _ _ Hss).
    by apply GetUnassignedVariables_lt. }
  rewrite drop_0 in Hall. simpl in Hlen.
  assert (Hnd : NoDup sorted)
    by (rewrite Hperm; apply GetUnassignedVariables_NoDup).
  set (chosen := take (Z.to_nat kz) sorted) in *.
  assert (Hsub : forall v, v ∈ chosen -> v ∈ unassigned).
  { intros v Hv. rewrite <- Hperm, <- (take_drop (Z.to_nat kz) sorted).
    apply elem_of_app. by left. }
  destruct (decimates_all_reduces g1 chosen g' Hall) as (Hr & Hb & Ha).
  { unfold chosen. rewrite <- (take_drop (Z.to_nat kz) sorted) in Hnd.
    by apply NoDup_app in Hnd as (? & _). }
  { intros v Hv%Hsub. rewrite (ss_assigned _ _ Hss).
    apply list_elem_of_In, In_GetUnassignedVariables in Hv. by destruct Hv. }
  pose proof (reduces_trans _ _ _ (same_state_reduces _ _ Hss) Hr) as Hred.
  split_and!; [done| |].
  - intros Hb0. by apply Hb, (same_state_active_unassigned g g1).
  - destruct chosen as [|v0 rest] eqn:Hch.
    { apply (f_equal length) in Hch. unfold chosen in Hch.
      rewrite length_take in Hch. simpl in Hch. lia. }
    assert (Hv0 : v0 ∈ unassigned) by (apply Hsub; by left).
    apply list_elem_of_In in Hv0.
    pose proof Hv0 as Hv0'. apply In_GetUnassignedVariables in Hv0' as [Hun Hlt].
    unfold GetUnassignedVariables in *.
    rewrite (ev_variables _ _ (red_evolves _ _ Hred)).
    apply (filter_length_lt _ _ _ v0).
    + intros v _ Hv. apply negb_true_iff in Hv. apply negb_true_iff.
      destruct (var_assigned g v) eqn:E; [|done].
      apply (ev_assigned _ _ (red_evolves _ _ Hred)) in E. congruence.
    + apply in_seq. lia.
    + by rewrite Hun.
    + rewrite Ha; [done|by left].
Qed.

End DriverSoundness.

(** *** Unit propagation *)

Lemma assign_unit_clauses_reduces l g g1 :
  assign_unit_clauses g l = Completed g1 -> reduces g g1.
Proof.
  intros H.
  destruct (assign_unit_clauses_frame g l g1 (or_introl H)) as (He & Hc & Hev).
  pose proof (assign_unit_clauses_keeps_assigned l g g1 (or_introl H)) as Hka.
  constructor; [done| |].
  - intros v Hv. unfold var_value. by rewrite (ka_assigned _ _ Hka).
  - intros c. unfold is_clause_enabled. rewrite Hc. congruence.
Qed.

Lemma simplify_clause_reduces c es : forall g,
  (forall e, In e es -> edge_clause g e = c /\ (e < length (edges g))%nat) ->
  reduces g (simplify_clause g c es).
Proof.
  induction es as [|e es IH]; intros g Hes; simpl; [apply reduces_refl|].
  destruct (Hes e (or_introl eq_refl)) as [Hcl Hlt].
  destruct (var_assigned g (edge_variable g e)) eqn:Ha.
  - destruct (eqb (edge_type g e) (var_value g (edge_variable g e))) eqn:Hty.
    + constructor; [apply evolves_Clause_Dissable|done|].
      intros c' Hen Hdis. rewrite is_clause_enabled_Clause_Dissable in Hdis.
      case_decide; [subst c'|congruence].
      exists e. split_and!; try done. symmetry. by apply eqb_prop.
    + eapply reduces_trans; [|apply IH].
      * constructor; [apply evolves_Edge_Dissable|done|].
        intros c'. change (is_clause_enabled (Edge_Dissable g e) c')
                     with (is_clause_enabled g c'). congruence.
      * intros e' He'. rewrite edge_clause_Edge_Dissable. simpl.
        rewrite length_alter. apply Hes. by right.
  - apply IH. intros e' He'. apply Hes. by right.
Qed.

Lemma simplify_clauses_reduces cs : forall g g',
  simplify_clauses g cs = Completed g' -> reduces g g'.
Proof.
  induction cs as [|c cs IH]; intros g g' H; simpl in H.
  - injection H as <-. apply reduces_refl.
  - destruct (_ && _); [done|].
    eapply reduces_trans; [|by apply IH].
    apply simplify_clause_reduces. intros e [Ha Hc]%In_Clause_GetEnabledEdges.
    split; [done|]. apply is_edge_enabled_lt. unfold edge_active in Ha.
    by apply andb_true_iff in Ha as [? _].
Qed.

Lemma UnitPropagation_iteration_reduces g g' :
  UnitPropagation_iteration g = Continue g' -> reduces g g'.
Proof.
  unfold UnitPropagation_iteration.
  destruct (Nat.eqb (length (unit_clauses g)) 0); [done|].
  destruct (assign_unit_clauses g (unit_clauses g)) as [g1|g1|] eqn:H1;
    try done.
  destruct (simplify_clauses g1 (GetEnabledClauses g1)) as [|g2|] eqn:H2;
    try done.
  intros [= <-]. eapply reduces_trans.
  - by eapply assign_unit_clauses_reduces.
  - by eapply simplify_clauses_reduces.
Qed.

Lemma UnitPropagation_reduces fuel : forall g g',
  UnitPropagation fuel g = Returns (true, g') -> reduces g g'.
Proof.
  induction fuel as [|fuel IH]; intros g g' H; simpl in H; [done|].
  destruct (UnitPropagation_iteration g) as [r0 g0|g0|] eqn:Hit; [| |done].
  - injection H as -> ->. apply UnitPropagation_iteration_untouched in Hit.
    subst. apply reduces_refl.
  - eapply reduces_trans; [by apply UnitPropagation_iteration_reduces|].
    by apply IH.
Qed.

Lemma UnitPropagation_active_unassigned fuel g g' :
  UnitPropagation fuel g = Returns (true, g') ->
  active_unassigned g -> active_unassigned g'.
Proof.
  intros H Hb. destruct (UnitPropagation_success _ _ _ H) as [_ [->|[Hp _]]];
    done.
Qed.

(** *** The answer SAT *)

Lemma IsSAT_all_satisfied g :
  IsSAT g = true -> disabled_satisfied g ->
  forall c, (c < length (clauses g))%nat -> clause_satisfied g c.
Proof.
  unfold IsSAT. rewrite forallb_forall. intros Hsat Hd c Hc.
  destruct (is_clause_enabled g c) eqn:Hen; [|by apply Hd].
  specialize (Hsat c). rewrite Hen in Hsat. simpl in Hsat.
  unfold Clause_IsSAT in Hsat.
  destruct (proj1 (existsb_exists _ _) (Hsat ltac:(apply in_seq; lia)))
    as (e & He & Hp).
  apply In_Clause_GetEnabledEdges in He as [Ha Hcl].
  apply andb_true_iff in Hp as [Hass Hty%eqb_prop].
  exists e. split_and!; try done.
  apply is_edge_enabled_lt. unfold edge_active in Ha.
  by apply andb_true_iff in Ha as [? _].
Qed.

Lemma all_satisfied_formula_true g0 g :
  evolves g0 g ->
  (forall c, (c < length (clauses g))%nat -> clause_satisfied g c) ->
  formula_true g0 (var_value g) = true.
Proof.
  intros Hev Hall. unfold formula_true. apply forallb_forall.
  intros c Hc%in_seq. rewrite <- (ev_clauses _ _ Hev) in Hc.
  destruct (Hall c ltac:(lia)) as (e & He & Hcl & Ha & Hv).
  unfold clause_true. apply existsb_exists. exists e. split.
  - apply in_seq. rewrite <- (ev_edges _ _ Hev). lia.
  - rewrite <- (ev_clause _ _ Hev), <- (ev_type _ _ Hev),
      <- (ev_variable _ _ Hev), Hcl, Hv, Nat.eqb_refl, eqb_reflx. done.
Qed.

Lemma only_assignments_evolves g g' : only_assignments g g' -> evolves g g'.
Proof.
  intros Hoa. pose proof Hoa as (Hc & He & Hv).
  destruct (views_ext g g' He Hc) as (_ & _ & _ & Hvar & Hty & Hcl & _).
  constructor; try done.
  - symmetry. by eapply Forall2_length.
  - by rewrite Hc.
  - by rewrite He.
  - intros e. unfold is_edge_enabled. by rewrite He.
  - intros c. unfold is_clause_enabled. by rewrite Hc.
  - intros v. by apply only_assignments_assigned.
Qed.

Lemma freshly_loaded_spec g :
  freshly_loaded g = true -> disabled_satisfied g /\ active_unassigned g.
Proof.
  unfold freshly_loaded. rewrite andb_true_iff, !forallb_forall.
  intros [Hc Hv]. split.
  - intros c Hlt Hdis. exfalso. unfold is_clause_enabled in Hdis.
    destruct (lookup_lt_is_Some_2 _ _ Hlt) as [x Hx]. rewrite Hx in Hdis.
    simpl in Hdis. rewrite Hc in Hdis; [done|].
    apply list_elem_of_In. by eapply list_elem_of_lookup_2.
  - intros e _. unfold var_assigned.
    destruct (variables g !! edge_variable g e) as [x|] eqn:Hx; [|done].
    simpl. apply negb_true_iff, Hv, list_elem_of_In.
    by eapply list_elem_of_lookup_2.
Qed.

Lemma evolves_edges_le g g' :
  evolves g g' ->
  (length (GetEnabledEdges g') <= length (GetEnabledEdges g))%nat.
Proof.
  intros Hev. unfold GetEnabledEdges. rewrite (ev_edges _ _ Hev).
  apply filter_length_le. intros e _. by apply evolves_active.
Qed.

Lemma evolves_unassigned_le g g' :
  evolves g g' ->
  (length (GetUnassignedVariables g') <= length (GetUnassignedVariables g))%nat.
Proof.
  intros Hev. unfold GetUnassignedVariables. rewrite (ev_variables _ _ Hev).
  apply filter_length_le. intros v _ Hv. apply negb_true_iff in Hv.
  apply negb_true_iff. destruct (var_assigned g v) eqn:E; [|done].
  apply (ev_assigned _ _ Hev) in E. congruence.
Qed.

Section DriverRuns.
Context {RG : RandomGen} {SS : StdSort}.
Variable cfg : Config.

Lemma sp_loop_surveys_only n : forall g es r b totalIt,
  surveys_only g (sp_loop cfg n g es r b totalIt).1.2.
Proof.
  induction n as [|n IH]; intros g es r b totalIt; simpl;
    [apply surveys_only_refl|].
  destruct b; [apply surveys_only_refl|].
  unfold sweep. destruct (shuffle es r) as [es' r'].
  pose proof (update_surveys_surveys_only cfg es' g true) as H.
  destruct (update_surveys cfg g es' true) as [g' c]. simpl in H.
  eapply surveys_only_trans; [done|apply IH].
Qed.

Lemma SurveyPropagation_surveys_only g r :
  surveys_only g (SurveyPropagation cfg g r).1.2.
Proof.
  unfold SurveyPropagation.
  pose proof (init_surveys_surveys_only (GetEnabledEdges g) g r) as H.
  destruct (init_surveys g r (GetEnabledEdges g)) as [g0 r0]. simpl in H.
  eapply surveys_only_trans; [done|apply sp_loop_surveys_only].
Qed.

Lemma Walksat_success_satisfies g r g' r' :
  disabled_satisfied g -> active_unassigned g ->
  Walksat cfg g r = Returns (true, g', r') ->
  evolves g g' /\
  forall c, (c < length (clauses g'))%nat -> clause_satisfied g' c.
Proof.
  intros Hd Hb H.
  destruct (tries_walked cfg g _ _ _ _ _ _ (walked_refl g) H) as [Hoa Hfix].
  pose proof (only_assignments_evolves _ _ Hoa) as Hev.
  split; [done|].
  apply IsSAT_all_satisfied; [by apply (tries_success cfg _ _ _ _ _ H)|].
  intros c Hc Hdis. rewrite (ev_clauses _ _ Hev) in Hc.
  assert (Hdis0 : is_clause_enabled g c = false).
  { destruct Hoa as (Hcl & _). unfold is_clause_enabled in *.
    by rewrite <- Hcl. }
  destruct (Hd c Hc Hdis0) as (e & He & Hcl & Ha & Hv).
  assert (Hsame : variables g' !! edge_variable g e
                  = variables g !! edge_variable g e).
  { apply Hfix. split; [done|]. intros e' Hact Heq.
    specialize (Hb e' Hact). congruence. }
  exists e. rewrite (ev_edges _ _ Hev), (ev_clause _ _ Hev),
    (ev_variable _ _ Hev), (ev_type _ _ Hev).
  unfold var_assigned, var_value in *. rewrite Hsame. done.
Qed.

(** One iteration of the loop of [SID] from a state between two phases. *)
Lemma SID_iteration_sound fuel g fraction r totalSPIt :
  disabled_satisfied g -> active_unassigned g ->
  match SID_iteration cfg fuel g fraction r totalSPIt with
  | Returns (Return (sat, _) g', _, _) =>
      evolves g g' /\
      (sat = true ->
       forall c, (c < length (clauses g'))%nat -> clause_satisfied g' c)
  | Returns (Continue g', _, _) =>
      evolves g g' /\ disabled_satisfied g' /\ active_unassigned g'
  | _ => True
  end.
Proof.
  intros Hd Hb. unfold SID_iteration.
  pose proof (SurveyPropagation_surveys_only g r) as Hso.
  destruct (SurveyPropagation cfg g r) as [[spResult g1] r1]. simpl in Hso.
  apply surveys_only_same_state in Hso.
  pose proof (same_state_evolves _ _ Hso) as Hev1.
  pose proof (reduces_disabled_satisfied _ _ (same_state_reduces _ _ Hso) Hd)
    as Hd1.
  pose proof (same_state_active_unassigned _ _ Hso Hb) as Hb1.
  destruct (negb (converged spResult)); [done|].
  destruct (allTrivial g1).
  { destruct (Walksat cfg g1 r1) as [[[b g2] r2]| |] eqn:Hw; [|done|done].
    destruct b.
    - destruct (Walksat_success_satisfies _ _ _ _ Hd1 Hb1 Hw) as [Hev2 Hall].
      split; [by eapply evolves_trans|done].
    - split; [|done]. eapply evolves_trans; [done|].
      apply only_assignments_evolves. by eapply tries_frame. }
  destruct (decimation g1 fraction) as [g2|] eqn:Hdec; [|done].
  destruct (decimation_reduces _ _ _ Hdec) as (Hr2 & Hb2 & _).
  specialize (Hb2 Hb1).
  pose proof (reduces_disabled_satisfied _ _ Hr2 Hd1) as Hd2.
  pose proof (evolves_trans _ _ _ Hev1 (red_evolves _ _ Hr2)) as Hev2.
  destruct (UnitPropagation fuel g2) as [[UPResult g3]| |] eqn:Hup; [|done|done].
  destruct (UnitPropagation_frame _ _ _ _ Hup) as [Hev3' _].
  pose proof (evolves_trans _ _ _ Hev2 Hev3') as Hev3.
  destruct UPResult; simpl; [|done].
  pose proof (UnitPropagation_reduces _ _ _ Hup) as Hr3.
  pose proof (reduces_disabled_satisfied _ _ Hr3 Hd2) as Hd3.
  pose proof (UnitPropagation_active_unassigned _ _ _ Hup Hb2) as Hb3.
  destruct (IsSAT g3) eqn:Hsat; [|done].
  split; [done|]. intros _. by apply IsSAT_all_satisfied.
Qed.

Lemma SID_loop_sound fuel : forall g fraction r totalSPIt sat total g' r',
  disabled_satisfied g -> active_unassigned g ->
  SID_loop cfg fuel g fraction r totalSPIt = Returns (sat, total, g', r') ->
  evolves g g' /\
  (sat = true ->
   forall c, (c < length (clauses g'))%nat -> clause_satisfied g' c).
Proof.
  induction fuel as [|fuel IH]; intros g fraction r totalSPIt sat total g' r'
    Hd Hb H; [done|].
  cbn [SID_loop] in H.
  pose proof (SID_iteration_sound (S fuel) g fraction r totalSPIt Hd Hb) as Hit.
  destruct (SID_iteration cfg (S fuel) g fraction r totalSPIt)
    as [[[[[sat0 total0] g0|g0|] r0] t0]| |]; try done.
  - by injection H as <- <- <- <-.
  - destruct Hit as (Hev & Hd0 & Hb0).
    destruct (IH _ _ _ _ _ _ _ _ Hd0 Hb0 H) as [Hev' Hall].
    split; [by eapply evolves_trans|done].
Qed.

(** X9: the answer [SAT = true] of [SID] is sound.  Started on a graph
    without a disabled clause and without an assigned variable, as the
    loader builds it, a run that returns [SAT = true] leaves values in the
    variables that make a literal true in every clause of the input, the
    clauses and edges disabled on the way included. *)
Theorem SID_answer_SAT_is_sound
        {CK : SteadyClock} (fuel : nat) (g : FactorGraph) (fraction : double)
        (r : rng) (c : clock) (result : SIDResult) (g' : FactorGraph)
        (r' : rng) (c' : clock) :
  freshly_loaded g = true ->
  SID cfg fuel g fraction r c = Returns (result, g', r', c') ->
  SAT result = true ->
  formula_true g (var_value g') = true.
Proof.
  intros Hfresh H Hsat. apply freshly_loaded_spec in Hfresh as [Hd Hb].
  unfold SID in H. destruct (now c) as [begin c1].
  destruct (SID_loop cfg fuel g fraction r 0) as [[[[sat total] g2] r2]| |] eqn:Hl;
    [|done|done].
  destruct (now c1) as [end_ c2]. injection H as <- <- _ _. simpl in Hsat.
  destruct (SID_loop_sound _ _ _ _ _ _ _ _ _ Hd Hb Hl) as [Hev Hall].
  apply all_satisfied_formula_true; auto.
Qed.

Lemma tries_not_out_of_fuel n : forall g r, tries cfg n g r <> OutOfFuel.
Proof.
  induction n as [|n IH]; intros g r; simpl; [done|].
  destruct (try cfg g r); [done|apply IH|done].
Qed.

(** One iteration of the loop of [SID] on any graph: flags are only
    cleared, variables only assigned, and an iteration that continues has
    assigned one variable more at least. *)
Lemma SID_iteration_evolves fuel g fraction r totalSPIt :
  match SID_iteration cfg fuel g fraction r totalSPIt with
  | Returns (Return _ g', _, _) => evolves g g'
  | Returns (Continue g', _, _) =>
      evolves g g' /\
      (length (GetUnassignedVariables g') < length (GetUnassignedVariables g))%nat
  | _ => True
  end.
Proof.
  unfold SID_iteration.
  pose proof (SurveyPropagation_surveys_only g r) as Hso.
  destruct (SurveyPropagation cfg g r) as [[spResult g1] r1]. simpl in Hso.
  apply surveys_only_same_state in Hso.
  pose proof (same_state_evolves _ _ Hso) as Hev1.
  destruct (same_state_views _ _ Hso) as (_ & Hun & _).
  destruct (negb (converged spResult)); [done|].
  destruct (allTrivial g1).
  { destruct (Walksat cfg g1 r1) as [[[b g2] r2]| |] eqn:Hw; [|done|done].
    eapply evolves_trans; [done|].
    apply only_assignments_evolves. by eapply tries_frame. }
  destruct (decimation g1 fraction) as [g2|] eqn:Hdec; [|done].
  destruct (decimation_reduces _ _ _ Hdec) as (Hr2 & _ & Hlt).
  pose proof (evolves_trans _ _ _ Hev1 (red_evolves _ _ Hr2)) as Hev2.
  destruct (UnitPropagation fuel g2) as [[UPResult g3]| |] eqn:Hup; [|done|done].
  destruct (UnitPropagation_frame _ _ _ _ Hup) as [Hev3' _].
  pose proof (evolves_trans _ _ _ Hev2 Hev3') as Hev3.
  destruct (negb UPResult); [done|]. destruct (IsSAT g3); [done|].
  split; [done|]. pose proof (evolves_unassigned_le _ _ Hev3').
  rewrite Hun in Hlt. lia.
Qed.

Lemma SID_iteration_not_out_of_fuel fuel g fraction r totalSPIt :
  well_formed g = true ->
  (length (GetEnabledEdges g) < fuel)%nat ->
  SID_iteration cfg fuel g fraction r totalSPIt <> OutOfFuel.
Proof.
  intros Hwf Hfuel. unfold SID_iteration.
  pose proof (SurveyPropagation_surveys_only g r) as Hso.
  destruct (SurveyPropagation cfg g r) as [[spResult g1] r1]. simpl in Hso.
  apply surveys_only_same_state in Hso.
  pose proof (same_state_evolves _ _ Hso) as Hev1.
  destruct (negb (converged spResult)); [done|].
  destruct (allTrivial g1).
  { pose proof (tries_not_out_of_fuel (WS_MAX_TRIES cfg) g1 r1) as Hw.
    unfold Walksat. by destruct (tries cfg _ g1 r1) as [[[b g2] r2]| |]. }
  destruct (decimation g1 fraction) as [g2|] eqn:Hdec; [|done].
  destruct (decimation_reduces _ _ _ Hdec) as (Hr2 & _ & _).
  pose proof (evolves_trans _ _ _ Hev1 (red_evolves _ _ Hr2)) as Hev2.
  assert (Hup : exists res, UnitPropagation fuel g2 = Returns res).
  { apply UnitPropagation_returns; [by eapply evolves_well_formed|].
    pose proof (evolves_edges_le _ _ Hev2). lia. }
  destruct Hup as [[UPResult g3] ->].
  destruct (negb UPResult); [done|]. by destruct (IsSAT g3).
Qed.

Lemma SID_loop_not_out_of_fuel fuel : forall g fraction r totalSPIt,
  well_formed g = true ->
  (length (GetUnassignedVariables g) + length (GetEnabledEdges g) < fuel)%nat ->
  SID_loop cfg fuel g fraction r totalSPIt <> OutOfFuel.
Proof.
  induction fuel as [|fuel IH]; intros g fraction r totalSPIt Hwf Hfuel; [lia|].
  cbn [SID_loop].
  pose proof (SID_iteration_evolves (S fuel) g fraction r totalSPIt) as Hit.
  pose proof (SID_iteration_not_out_of_fuel (S fuel) g fraction r totalSPIt Hwf
                ltac:(lia)) as Hno.
  destruct (SID_iteration cfg (S fuel) g fraction r totalSPIt)
    as [[[[[sat0 total0] g0|g0|] r0] t0]| |]; try done.
  destruct Hit as [Hev Hlt]. apply IH.
  - by eapply evolves_well_formed.
  - pose proof (evolves_edges_le _ _ Hev). lia.
Qed.

Lemma SID_loop_evolves fuel : forall g fraction r totalSPIt sat total g' r',
  SID_loop cfg fuel g fraction r totalSPIt = Returns (sat, total, g', r') ->
  evolves g g'.
Proof.
  induction fuel as [|fuel IH]; intros g fraction r totalSPIt sat total g' r' H;
    [done|].
  cbn [SID_loop] in H.
  pose proof (SID_iteration_evolves (S fuel) g fraction r totalSPIt) as Hit.
  destruct (SID_iteration cfg (S fuel) g fraction r totalSPIt)
    as [[[[[sat0 total0] g0|g0|] r0] t0]| |]; try done.
  - by injection H as <- <- <- <-.
  - destruct Hit as [Hev _]. eapply evolves_trans; [done|by eapply IH].
Qed.

(** X10: [SID] keeps the arenas and the shape of the formula: the numbers
    of variables, clauses and edges, and the type, variable and clause of
    every edge are those of the input when it returns; it enables no edge
    and no clause and unassigns no variable. *)
Theorem SID_only_disables_and_assigns
        {CK : SteadyClock} (fuel : nat) (g : FactorGraph) (fraction : double)
        (r : rng) (c : clock) (result : SIDResult) (g' : FactorGraph)
        (r' : rng) (c' : clock) :
  SID cfg fuel g fraction r c = Returns (result, g', r', c') ->
  length (variables g') = length (variables g) /\
  length (clauses g') = length (clauses g) /\
  length (edges g') = length (edges g) /\
  (forall e, edge_type g' e = edge_type g e /\
             edge_variable g' e = edge_variable g e /\
             edge_clause g' e = edge_clause g e /\
             (is_edge_enabled g' e = true -> is_edge_enabled g e = true)) /\
  (forall cl, is_clause_enabled g' cl = true -> is_clause_enabled g cl = true) /\
  (forall v, var_assigned g v = true -> var_assigned g' v = true).
Proof.
  intros H. unfold SID in H. destruct (now c) as [begin c1].
  destruct (SID_loop cfg fuel g fraction r 0) as [[[[sat total] g2] r2]| |] eqn:Hl;
    [|done|done].
  destruct (now c1) as [end_ c2]. injection H as _ <- _ _.
  pose proof (SID_loop_evolves _ _ _ _ _ _ _ _ _ Hl) as Hev.
  split_and!; try apply Hev. intros e. split_and!; apply Hev.
Qed.

(** X11: the loop of [SID] terminates on every well-formed graph.  An
    iteration that goes round again leaves strictly fewer unassigned
    variables, and with more fuel than there are unassigned variables and
    enabled edges together no run stops for lack of fuel, in the loop or in
    a call to [UnitPropagation]. *)
Theorem SID_terminates
        {CK : SteadyClock} (fuel : nat) (g : FactorGraph) (fraction : double)
        (r : rng) (c : clock) :
  well_formed g = true ->
  (length (GetUnassignedVariables g) + length (GetEnabledEdges g) < fuel)%nat ->
  (forall totalSPIt g1 r1 total1,
     SID_iteration cfg fuel g fraction r totalSPIt
     = Returns (Continue g1, r1, total1) ->
     (length (GetUnassignedVariables g1)
      < length (GetUnassignedVariables g))%nat) /\
  SID cfg fuel g fraction r c <> OutOfFuel.
Proof.
  intros Hwf Hfuel. split.
  - intros totalSPIt g1 r1 total1 H.
    pose proof (SID_iteration_evolves fuel g fraction r totalSPIt) as Hit.
    rewrite H in Hit. by destruct Hit.
  - unfold SID. destruct (now c) as [begin c1].
    pose proof (SID_loop_not_out_of_fuel fuel g fraction r 0 Hwf Hfuel) as Hno.
    destruct (SID_loop cfg fuel g fraction r 0) as [[[[sat total] g2] r2]| |];
      [|done|done].
    by destruct (now c1).
Qed.

End DriverRuns.

(** ** Survey propagation: the edges it writes *)

Lemma edge_survey_set_survey_ne g e s e' :
  e <> e' -> edge_survey (set_survey g e s) e' = edge_survey g e'.
Proof. intros H. rewrite edge_survey_set_survey. by rewrite decide_False. Qed.

Section SurveyFrame.
Context {RG : RandomGen}.
Variable cfg : Config.

Lemma init_surveys_other es e : forall g r,
  ~ In e es -> edge_survey (init_surveys g r es).1 e = edge_survey g e.
Proof.
  induction es as [|e0 es IH]; intros g r Hin; simpl; [done|].
  destruct (getRandomReal01 r) as [x r']. rewrite IH by (intros ?; apply Hin; by right).
  apply edge_survey_set_survey_ne. intros ->. apply Hin. by left.
Qed.

Lemma update_surveys_other es e : forall g b,
  ~ In e es -> edge_survey (update_surveys cfg g es b).1 e = edge_survey g e.
Proof.
  induction es as [|e0 es IH]; intros g b Hin; simpl; [done|].
  rewrite IH by (intros ?; apply Hin; by right).
  apply edge_survey_set_survey_ne. intros ->. apply Hin. by left.
Qed.

Lemma sp_loop_other n e : forall g es r b totalIt,
  ~ In e es -> edge_survey (sp_loop cfg n g es r b totalIt).1.2 e = edge_survey g e.
Proof.
  induction n as [|n IH]; intros g es r b totalIt Hin; simpl; [done|].
  destruct b; [done|]. unfold sweep.
  pose proof (shuffle_perm es r) as Hp.
  destruct (shuffle es r) as [es' r']. simpl in Hp.
  assert (Hin' : ~ In e es').
  { intros H. apply Hin. apply list_elem_of_In. rewrite <- Hp.
    by apply list_elem_of_In. }
  pose proof (update_surveys_other es' e g true Hin') as H.
  destruct (update_surveys cfg g es' true) as [g' c]. simpl in H.
  by rewrite IH.
Qed.

(** X12: [SurveyPropagation] writes surveys of enabled edges only: the
    variables and the clauses are those of the input, every edge keeps its
    type, variable, clause and flag, and the survey of an edge that is not
    enabled in an enabled clause is the one it had. *)
Theorem SurveyPropagation_writes_enabled_surveys_only
        (g : FactorGraph) (r : rng) :
  let g' := (SurveyPropagation cfg g r).1.2 in
  variables g' = variables g /\
  clauses g' = clauses g /\
  length (edges g') = length (edges g) /\
  forall e, edge_type g' e = edge_type g e /\
            edge_variable g' e = edge_variable g e /\
            edge_clause g' e = edge_clause g e /\
            is_edge_enabled g' e = is_edge_enabled g e /\
            (edge_active g e = false -> edge_survey g' e = edge_survey g e).
Proof.
  intros g'. pose proof (SurveyPropagation_surveys_only cfg g r) as Hso.
  fold g' in Hso. destruct Hso as [Hv Hc He Hty Hvar Hcl Hen].
  split_and!; try done. intros e. split_and!; try done.
  intros Hact. unfold g', SurveyPropagation.
  assert (Hin : ~ In e (GetEnabledEdges g)).
  { unfold GetEnabledEdges. rewrite filter_In. intros [_ ?]. congruence. }
  pose proof (init_surveys_other (GetEnabledEdges g) e g r Hin) as H0.
  destruct (init_surveys g r (GetEnabledEdges g)) as [g0 r0]. simpl in H0.
  by rewrite sp_loop_other.
Qed.

Lemma SurveyPropagation_no_enabled_edge (g : FactorGraph) (r : rng) :
  GetEnabledEdges g = [] ->
  (0 < SP_MAX_ITERATIONS cfg)%nat ->
  SurveyPropagation cfg g r
  = ({| converged := true; iterations := 1 |}, g, (shuffle [] r).2).
Proof.
  intros Hes Hmax. unfold SurveyPropagation. rewrite Hes. simpl.
  destruct (SP_MAX_ITERATIONS cfg) as [|n]; [lia|]. simpl. unfold sweep.
  pose proof (shuffle_perm [] r) as Hp.
  destruct (shuffle [] r) as [es' r']. simpl in *.
  apply Permutation_nil_r in Hp. subst es'. simpl.
  by destruct n.
Qed.

(** X13: on a graph without an enabled edge, [SurveyPropagation] converges
    in its first sweep, whatever the cap (if positive): it returns
    [converged = true] and [iterations = 1], leaves the graph as it is and
    advances the generator by one shuffle of the empty vector. *)
Theorem SurveyPropagation_without_enabled_edges (g : FactorGraph) (r : rng) :
  GetEnabledEdges g = [] ->
  (0 < SP_MAX_ITERATIONS cfg)%nat ->
  SurveyPropagation cfg g r
  = ({| converged := true; iterations := 1 |}, g, (shuffle [] r).2).
Proof. apply SurveyPropagation_no_enabled_edge. Qed.

End SurveyFrame.

(** ** The survey one update writes *)

Definition is_zero (x : double) : bool :=
  match x with S754_zero _ => true | _ => false end.

Lemma is_zero_ne x : is_zero x = true -> Double.ne x Double.zero = false.
Proof. by destruct x as [[]| | |]. Qed.

Lemma mul_zero_r x y :
  unit_float x -> is_zero y = true -> is_zero (Double.mul x y) = true.
Proof.
  destruct x as [sx|sx| |sx mx ex], y as [sy|sy| |sy my ey]; try done.
Qed.

Lemma mul_zero_l x y :
  is_zero x = true -> unit_float y -> is_zero (Double.mul x y) = true.
Proof.
  destruct x as [sx|sx| |sx mx ex], y as [sy|sy| |sy my ey]; try done.
Qed.

Lemma survey_loop_zero g ai ajs : forall Sai,
  unit_surveys g -> is_zero Sai = true ->
  is_zero (survey_loop g ai ajs Sai) = true.
Proof.
  induction ajs as [|aj ajs IH]; intros Sai Hg HS; simpl; [done|].
  destruct (Nat.eqb aj ai); [by apply IH|].
  destruct (survey_ratio_unit g aj Hg) as [Hnan|Hu].
  - by rewrite Hnan.
  - destruct (Double.isnan _); [done|]. apply IH; [done|by apply mul_zero_l].
Qed.

Lemma survey_loop_free_variable g ai ajs aj : forall Sai,
  unit_surveys g -> unit_float Sai ->
  In aj ajs -> aj <> ai -> is_zero (survey_ratio g aj) = true ->
  is_zero (survey_loop g ai ajs Sai) = true.
Proof.
  induction ajs as [|a ajs IH]; intros Sai Hg HS Hin Hne Hz; [done|]. simpl.
  destruct (Nat.eqb_spec a ai) as [->|Hne'].
  - destruct Hin as [->|Hin]; [done|]. by apply IH.
  - destruct (survey_ratio_unit g a Hg) as [Hnan|Hu]; [by rewrite Hnan|].
    destruct (Double.isnan (survey_ratio g a)) eqn:E; [done|].
    destruct Hin as [->|Hin].
    + apply survey_loop_zero; [done|]. by apply mul_zero_r.
    + apply IH; try done. by apply mul_unit.
Qed.

Lemma survey_ratio_free_variable g aj :
  Variable_GetEnabledEdges g (edge_variable g aj) = [aj] ->
  survey_ratio g aj = Double.zero.
Proof.
  intros H. unfold survey_ratio. rewrite H. simpl. rewrite Nat.eqb_refl.
  vm_compute. reflexivity.
Qed.

(** X14: when the clause of [ai] has another enabled edge [aj] whose
    variable occurs in no other enabled edge, and the surveys are values of
    the unit interval, [UpdateSurvey] writes a survey that compares equal to
    [0.0] on [ai]: a clause with a free variable sends no warning. *)
Theorem UpdateSurvey_free_variable_gives_zero
        (g : FactorGraph) (ai aj : EdgeId) :
  (ai < length (edges g))%nat ->
  (forall e, In e (GetEnabledEdges g) ->
             Double.valid (edge_survey g e) = true /\
             Double.in_unit (edge_survey g e) = true) ->
  In aj (Clause_GetEnabledEdges g (edge_clause g ai)) -> aj <> ai ->
  Variable_GetEnabledEdges g (edge_variable g aj) = [aj] ->
  Double.ne (edge_survey (UpdateSurvey g ai) ai) Double.zero = false.
Proof.
  intros Hlt Hg Hin Hne Hfree. unfold UpdateSurvey.
  rewrite edge_survey_set_survey, decide_True, bool_decide_eq_true_2 by done.
  apply is_zero_ne.
  assert (Hu : unit_surveys g).
  { intros e He. destruct (Hg e He). by apply machine_unit_float. }
  apply (survey_loop_free_variable g ai _ aj); try done.
  - split; [done|by right].
  - by rewrite survey_ratio_free_variable.
Qed.

(** X20: when [ai] is the only enabled edge of its clause, [UpdateSurvey]
    writes exactly [1.0] on it: the loop over the other edges of the clause
    is empty. *)
Theorem UpdateSurvey_unit_clause_gives_one (g : FactorGraph) (ai : EdgeId) :
  (ai < length (edges g))%nat ->
  Clause_GetEnabledEdges g (edge_clause g ai) = [ai] ->
  edge_survey (UpdateSurvey g ai) ai = Double.one.
Proof.
  intros Hlt Hes. unfold UpdateSurvey.
  rewrite edge_survey_set_survey, decide_True, bool_decide_eq_true_2 by done.
  rewrite Hes. simpl. by rewrite Nat.eqb_refl.
Qed.

(** ** The bias of a variable *)

(** The value [EvaluateVariable] stores, as a function of the graph. *)
Definition bias_of (g : FactorGraph) (v : VarId) : double :=
  var_evalValue (EvaluateVariable g v) v.

Lemma bias_products_negative g ais : forall PVi0 PViP PViN,
  (forall e, In e ais -> edge_type g e = false) ->
  (bias_products g ais PVi0 PViP PViN).1.2 = PViP.
Proof.
  induction ais as [|ai ais IH]; intros PVi0 PViP PViN H; simpl; [done|].
  rewrite (H ai) by by left. apply IH. intros e He. apply H. by right.
Qed.

Lemma bias_products_positive g ais : forall PVi0 PViP PViN,
  (forall e, In e ais -> edge_type g e = true) ->
  (bias_products g ais PVi0 PViP PViN).2 = PViN.
Proof.
  induction ais as [|ai ais IH]; intros PVi0 PViP PViN H; simpl; [done|].
  rewrite (H ai) by by left. apply IH. intros e He. apply H. by right.
Qed.

Lemma div_zero_l x y :
  is_zero x = true ->
  Double.isnan (Double.div x y) = true \/ is_zero (Double.div x y) = true.
Proof.
  destruct x as [sx|sx| |sx mx ex], y as [sy|sy| |sy my ey]; try done;
    (by left) || (by right).
Qed.

Lemma sub_zero_l_not_positive x y :
  is_zero x = true -> unit_float y ->
  Double.gt (Double.sub x y) Double.zero = false.
Proof.
  destruct x as [sx|sx| |sx mx ex], y as [sy|sy| |sy my ey]; try done.
  - by destruct sx, sy.
  - by destruct sy.
Qed.

Lemma sub_zero_r_not_negative x y :
  unit_float x -> is_zero y = true ->
  Double.lt (Double.sub x y) Double.zero = false.
Proof.
  destruct x as [sx|sx| |sx mx ex], y as [sy|sy| |sy my ey]; try done.
  - by destruct sx, sy.
  - by destruct sx.
Qed.

(** The two ratios of [EvaluateVariable] are NaN or values of the unit
    interval. *)
Lemma bias_ratios_unit PVi0 PViP PViN :
  unit_float PVi0 -> unit_float PViP -> unit_float PViN ->
  let PiP := Double.mul (one_minus PViP) PViN in
  let PiN := Double.mul (one_minus PViN) PViP in
  let sum := Double.add (Double.add PiP PiN) PVi0 in
  (Double.isnan (Double.div PiP sum) = true \/ unit_float (Double.div PiP sum)) /\
  (Double.isnan (Double.div PiN sum) = true \/ unit_float (Double.div PiN sum)).
Proof.
  intros H0 HP HN PiP PiN sum.
  assert (HPiP : unit_float PiP)
    by (apply mul_unit; [by apply one_minus_unit_interval|done]).
  assert (HPiN : unit_float PiN)
    by (apply mul_unit; [by apply one_minus_unit_interval|done]).
  pose proof (unit_float_nonneg _ HPiP) as HnP.
  pose proof (unit_float_nonneg _ HPiN) as HnN.
  destruct (add_nonneg PiP PiN HnP HnN) as [Hn1 HleP].
  destruct (add_nonneg PiN PiP HnN HnP) as [_ HleN].
  rewrite (add_comm_nonneg PiN PiP HnN HnP) in HleN.
  destruct (add_nonneg (Double.add PiP PiN) PVi0 Hn1 (unit_float_nonneg _ H0))
    as [Hn2 Hle2].
  split.
  - apply (div_unit PiP sum HPiP Hn2 (fle_trans _ _ _ HleP Hle2)).
  - apply (div_unit PiN sum HPiN Hn2 (fle_trans _ _ _ HleN Hle2)).
Qed.

Lemma one_minus_one : one_minus Double.one = Double.zero.
Proof. vm_compute. reflexivity. Qed.

Lemma unit_float_one : unit_float Double.one.
Proof. split; [done|by right]. Qed.

Lemma bias_of_polarity g v :
  unit_surveys g ->
  ((forall e, In e (Variable_GetEnabledEdges g v) -> edge_type g e = false) ->
   Double.gt (bias_of g v) Double.zero = false) /\
  ((forall e, In e (Variable_GetEnabledEdges g v) -> edge_type g e = true) ->
   Double.lt (bias_of g v) Double.zero = false).
Proof.
  intros Hg. unfold bias_of, EvaluateVariable.
  pose proof (bias_products_unit g (Variable_GetEnabledEdges g v)
                Double.one Double.one Double.one) as Hp.
  pose proof (bias_products_negative g (Variable_GetEnabledEdges g v)
                Double.one Double.one Double.one) as Hneg.
  pose proof (bias_products_positive g (Variable_GetEnabledEdges g v)
                Double.one Double.one Double.one) as Hpos.
  destruct (bias_products _ _ _ _ _) as [[PVi0 PViP] PViN].
  destruct Hp as (H0 & HP & HN); try apply unit_float_one.
  { intros e He. apply Hg. by eapply In_Variable_GetEnabledEdges. }
  simpl in H0, HP, HN, Hneg, Hpos.
  destruct (bias_ratios_unit PVi0 PViP PViN H0 HP HN) as [HWP HWN].
  set (PiP := Double.mul (one_minus PViP) PViN) in *.
  set (PiN := Double.mul (one_minus PViN) PViP) in *.
  set (sum := Double.add (Double.add PiP PiN) PVi0) in *.
  assert (Hread : forall x,
            var_evalValue (set_evalValue g v x) v = x \/
            var_evalValue (set_evalValue g v x) v = Double.zero).
  { intros x. rewrite var_evalValue_set_evalValue, decide_True by done.
    case_bool_decide; auto. }
  split; intros Hty.
  - assert (HzP : is_zero PiP = true).
    { unfold PiP. rewrite (Hneg Hty), one_minus_one. by apply mul_zero_l. }
    destruct (Double.isnan (Double.div PiP sum) || Double.isnan (Double.div PiN sum))
      eqn:Hnan.
    { by destruct (Hread Double.zero) as [-> | ->]. }
    apply orb_false_iff in Hnan as [HnP HnN].
    destruct HWN as [|HWN]; [congruence|].
    destruct (div_zero_l PiP sum HzP) as [|HzW]; [congruence|].
    destruct (Hread (Double.sub (Double.div PiP sum) (Double.div PiN sum)))
      as [-> | ->]; [|done].
    by apply sub_zero_l_not_positive.
  - assert (HzN : is_zero PiN = true).
    { unfold PiN. rewrite (Hpos Hty), one_minus_one. by apply mul_zero_l. }
    destruct (Double.isnan (Double.div PiP sum) || Double.isnan (Double.div PiN sum))
      eqn:Hnan.
    { by destruct (Hread Double.zero) as [-> | ->]. }
    apply orb_false_iff in Hnan as [HnP HnN].
    destruct HWP as [|HWP]; [congruence|].
    destruct (div_zero_l PiN sum HzN) as [|HzW]; [congruence|].
    destruct (Hread (Double.sub (Double.div PiP sum) (Double.div PiN sum)))
      as [-> | ->]; [|done].
    by apply sub_zero_r_not_negative.
Qed.

Lemma EvaluateVariable_bias_of g v :
  EvaluateVariable g v = set_evalValue g v (bias_of g v).
Proof.
  unfold bias_of, EvaluateVariable.
  destruct (bias_products _ _ _ _ _) as [[PVi0 PViP] PViN].
  assert (Hset : forall x,
    set_evalValue g v x = set_evalValue g v (var_evalValue (set_evalValue g v x) v)).
  { intros x. unfold set_evalValue, var_evalValue. simpl. f_equal.
    rewrite list_lookup_alter_eq.
    destruct (variables g !! v) as [y|] eqn:Hy; simpl; [done|].
    apply list_eq. intros i. destruct (decide (v = i)) as [->|Hne].
    - by rewrite !list_lookup_alter_eq, Hy.
    - by rewrite !list_lookup_alter_ne. }
  destruct (_ || _); apply Hset.
Qed.

Lemma bias_of_ext g g' v :
  edges g' = edges g -> clauses g' = clauses g ->
  length (variables g') = length (variables g) ->
  bias_of g' v = bias_of g v.
Proof.
  intros He Hc Hv. unfold bias_of, EvaluateVariable.
  assert (Hes : Variable_GetEnabledEdges g' v = Variable_GetEnabledEdges g v).
  { unfold Variable_GetEnabledEdges, edge_active, is_edge_enabled,
      is_clause_enabled, edge_clause, edge_variable. by rewrite He, Hc. }
  assert (Hbp : forall ais a b c, bias_products g' ais a b c = bias_products g ais a b c).
  { induction ais as [|ai ais IH]; intros a b c; simpl; [done|].
    unfold edge_survey, edge_type. rewrite He. apply IH. }
  rewrite Hes, Hbp.
  destruct (bias_products _ _ _ _ _) as [[PVi0 PViP] PViN].
  destruct (_ || _); rewrite !var_evalValue_set_evalValue, !decide_True, Hv by done;
    done.
Qed.

Lemma evaluate_variables_other vars v : forall g,
  ~ In v vars ->
  var_evalValue (foldl EvaluateVariable g vars) v = var_evalValue g v.
Proof.
  induction vars as [|u vars IH]; intros g Hin; simpl; [done|].
  rewrite IH by (intros ?; apply Hin; by right).
  rewrite EvaluateVariable_bias_of, var_evalValue_set_evalValue.
  rewrite decide_False; [done|]. intros ->. apply Hin. by left.
Qed.

(** The biases do not depend on the order in which the variables are
    evaluated. *)
Lemma evaluate_variables_bias_of vars v : forall g,
  In v vars -> (v < length (variables g))%nat ->
  var_evalValue (foldl EvaluateVariable g vars) v = bias_of g v.
Proof.
  induction vars as [|u vars IH]; intros g Hin Hlt; [done|]. simpl.
  assert (Hext : bias_of (EvaluateVariable g u) v = bias_of g v).
  { rewrite EvaluateVariable_bias_of. apply bias_of_ext; try done.
    simpl. apply length_alter. }
  destruct (in_dec Nat.eq_dec v vars) as [Hv|Hv].
  - rewrite IH; [done|done|]. by rewrite EvaluateVariable_length.
  - destruct Hin as [->|Hin]; [|done].
    rewrite evaluate_variables_other by done.
    rewrite EvaluateVariable_bias_of, var_evalValue_set_evalValue.
    by rewrite decide_True, bool_decide_eq_true_2.
Qed.

(** X15: with surveys in the unit interval, [EvaluateVariable] writes a
    bias that is not NaN and touches nothing else: edges and clauses, the
    values and the assigned flags, and the biases of the other variables
    are as before.  The sign of the bias follows the polarity: a variable
    whose enabled edges are all negative gets no positive bias, one whose
    enabled edges are all positive gets no negative bias. *)
Theorem EvaluateVariable_bias_follows_polarity (g : FactorGraph) (v : VarId) :
  (forall e, In e (GetEnabledEdges g) ->
             Double.valid (edge_survey g e) = true /\
             Double.in_unit (edge_survey g e) = true) ->
  let g' := EvaluateVariable g v in
  edges g' = edges g /\
  clauses g' = clauses g /\
  (forall v', var_assigned g' v' = var_assigned g v' /\
              var_value g' v' = var_value g v' /\
              (v' <> v -> var_evalValue g' v' = var_evalValue g v')) /\
  Double.isnan (var_evalValue g' v) = false /\
  ((forall e, In e (Variable_GetEnabledEdges g v) -> edge_type g e = false) ->
   Double.gt (var_evalValue g' v) Double.zero = false) /\
  ((forall e, In e (Variable_GetEnabledEdges g v) -> edge_type g e = true) ->
   Double.lt (var_evalValue g' v) Double.zero = false).
Proof.
  intros Hg g'.
  assert (Hu : unit_surveys g).
  { intros e He. destruct (Hg e He). by apply machine_unit_float. }
  destruct (bias_of_polarity g v Hu) as [Hneg Hpos].
  split_and!; try done.
  - unfold g'. by rewrite EvaluateVariable_bias_of.
  - unfold g'. by rewrite EvaluateVariable_bias_of.
  - intros v'. unfold g'. rewrite EvaluateVariable_bias_of.
    rewrite var_assigned_set_evalValue, var_value_set_evalValue,
      var_evalValue_set_evalValue.
    split_and!; try done. intros Hne. by rewrite decide_False.
  - apply EvaluateVariable_not_nan; auto.
Qed.

Section PureNegative.
Context {SS : StdSort}.

(** X16: the decimation step of [SID] never sets to [true] a variable
    that occurs only negated: if the enabled edges of an unassigned variable
    are all negative and the step assigns it, it assigns [false], which
    satisfies every clause the variable is in. *)
Theorem decimation_never_sets_negated_variable_true
        (g : FactorGraph) (fraction : double) (g' : FactorGraph) (v : VarId) :
  (forall e, In e (GetEnabledEdges g) ->
             Double.valid (edge_survey g e) = true /\
             Double.in_unit (edge_survey g e) = true) ->
  decimation g fraction = Some g' ->
  var_assigned g v = false ->
  (forall e, In e (Variable_GetEnabledEdges g v) -> edge_type g e = false) ->
  var_assigned g' v = true ->
  var_value g' v = false.
Proof.
  intros Hg H Hun Hty Ha.
  assert (Hu : unit_surveys g).
  { intros e He. destruct (Hg e He). by apply machine_unit_float. }
  unfold decimation, evaluate_variables in H.
  set (unassigned := GetUnassignedVariables g) in *.
  set (g1 := foldl EvaluateVariable g unassigned) in *.
  pose proof (evaluate_variables_same_state unassigned g) as Hss. fold g1 in Hss.
  destruct (assign_fraction (length unassigned) fraction) as [kz|] eqn:Hk;
    [|done].
  set (sorted := std_sort (by_bias g1) unassigned) in *.
  assert (Hperm : sorted ≡ₚ unassigned) by apply std_sort_perm.
  destruct (decimate_spec _ _ _ _ _ H) as [Hall _]; [lia| |].
  { intros u Hu'. rewrite Hperm in Hu'. rewrite (ss_variables _ _ Hss).
    by apply GetUnassignedVariables_lt. }
  rewrite drop_0 in Hall.
  assert (Hnd : NoDup sorted)
    by (rewrite Hperm; apply GetUnassignedVariables_NoDup).
  set (chosen := take (Z.to_nat kz) sorted) in *.
  destruct (decimates_all_spec _ _ _ Hall) as (_ & _ & Hin & Hout).
  { unfold chosen. rewrite <- (take_drop (Z.to_nat kz) sorted) in Hnd.
    by apply NoDup_app in Hnd as (? & _). }
  destruct (decide (v ∈ chosen)) as [Hv|Hv].
  - destruct (Hin v Hv) as [_ ->].
    assert (Hv' : In v unassigned).
    { apply list_elem_of_In. rewrite <- Hperm,
        <- (take_drop (Z.to_nat kz) sorted). apply elem_of_app. by left. }
    unfold g1. rewrite evaluate_variables_bias_of; [|done|].
    + by apply (bias_of_polarity g v Hu).
    + by apply In_GetUnassignedVariables in Hv' as [_ ?].
  - exfalso. unfold var_assigned in Ha. rewrite (Hout v Hv) in Ha.
    fold (var_assigned g1 v) in Ha. rewrite (ss_assigned _ _ Hss) in Ha.
    congruence.
Qed.
End PureNegative.

(** ** WalkSAT: the break counts leave the assignment as it was *)

Lemma flip_variable_twice g v :
  var_assigned g v = true -> flip_variable (flip_variable g v) v = g.
Proof.
  intros Ha. unfold flip_variable.
  rewrite (var_value_AssignValue g v _ v), decide_True by done.
  unfold var_assigned, var_value in *. destruct g as [vs cs es]. simpl in *.
  unfold AssignValue. simpl. f_equal.
  destruct (vs !! v) as [x|] eqn:Hx; [|done]. simpl in *.
  rewrite bool_decide_eq_true_2 by by eapply lookup_lt_Some.
  apply list_eq. intros i. destruct (decide (v = i)) as [<-|Hne].
  - rewrite !list_lookup_alter_eq, Hx. simpl. destruct x as [i0 val a ev].
    simpl in *. subst a. by rewrite andb_true_r, negb_involutive.
  - by rewrite !list_lookup_alter_ne.
Qed.

Lemma lowest_break_count_restores satClauses es : forall g lowVar low,
  (forall e, In e es -> var_assigned g (edge_variable g e) = true) ->
  (lowest_break_count g satClauses es lowVar low).1.1 = g.
Proof.
  induction es as [|e es IH]; intros g lowVar low Hes; simpl; [done|].
  rewrite flip_variable_twice by (apply Hes; by left).
  destruct (_ || _); destruct (_ =? 0); simpl; try done; apply IH;
    intros e' He'; apply Hes; by right.
Qed.

Section WalksatFlip.
Context {RG : RandomGen}.
Variable cfg : Config.

(** X17: in a graph whose enabled edges lead to assigned variables (as
    after the random assignment that opens a try), a step of [Walksat] that
    does not return flips exactly one variable, and that variable occurs in
    an enabled edge of an enabled clause that is not satisfied; the
    computation of the break counts has put every variable back. *)
Theorem flip_step_flips_one_variable_of_an_unsatisfied_clause
        (g : FactorGraph) (r : rng) (g' : FactorGraph) (r' : rng) :
  (forall e, edge_active g e = true ->
             var_assigned g (edge_variable g e) = true) ->
  flip_step cfg g r = Flipped g' r' ->
  exists c e,
    is_clause_enabled g c = true /\ Clause_IsSAT g c = false /\
    In e (Clause_GetEnabledEdges g c) /\
    g' = flip_variable g (edge_variable g e).
Proof.
  intros Hass H.
  apply flip_step_Flipped in H as (_ & c & e & v & g1 & Hen & Hun & He & -> & Hg1 & ->).
  exists c, e. split_and!; try done.
  rewrite Hg1, lowest_break_count_restores; [done|].
  intros e'. intros [? _]%In_Clause_GetEnabledEdges. by apply Hass.
Qed.
End WalksatFlip.

(** ** A formula without enabled clauses *)

Lemma no_enabled_clause_no_enabled_edge g :
  GetEnabledClauses g = [] -> GetEnabledEdges g = [].
Proof.
  intros Hc. unfold GetEnabledEdges.
  destruct (List.filter _ _) as [|e l] eqn:E; [done|].
  assert (Hin : In e (List.filter (edge_active g) (seq 0 (length (edges g)))))
    by (rewrite E; by left).
  apply filter_In in Hin as [_ Hact]. unfold edge_active in Hact.
  apply andb_true_iff in Hact as [_ Hen]. apply In_GetEnabledClauses in Hen.
  by rewrite Hc in Hen.
Qed.

Lemma no_enabled_clause_IsSAT g : GetEnabledClauses g = [] -> IsSAT g = true.
Proof.
  intros Hc. unfold IsSAT. apply forallb_forall. intros c _.
  destruct (is_clause_enabled g c) eqn:Hen; [|done].
  apply In_GetEnabledClauses in Hen. by rewrite Hc in Hen.
Qed.

Section EmptyFormula.
Context {RG : RandomGen} {SS : StdSort} {CK : SteadyClock}.
Variable cfg : Config.

(** X18: on a graph without an enabled clause (the empty formula
    included), with positive caps, [SID] answers [SAT = true] after a single
    sweep of survey propagation, [Walksat] having assigned every variable
    that was not. *)
Theorem SID_without_enabled_clauses
        (fuel : nat) (g : FactorGraph) (fraction : double) (r : rng) (c : clock) :
  GetEnabledClauses g = [] ->
  (0 < SP_MAX_ITERATIONS cfg)%nat -> (0 < WS_MAX_TRIES cfg)%nat ->
  (0 < WS_MAX_FLIPS cfg)%nat -> (0 < fuel)%nat ->
  exists result g' r' c',
    SID cfg fuel g fraction r c = Returns (result, g', r', c') /\
    SAT result = true /\ totalSPIterations result = 1 /\
    GetUnassignedVariables g' = [].
Proof.
  intros Hc Hsp Htries Hflips Hfuel. unfold SID.
  destruct (now c) as [begin c1]. destruct fuel as [|fuel]; [lia|].
  cbn [SID_loop]. unfold SID_iteration.
  rewrite (SurveyPropagation_no_enabled_edge cfg g r
             (no_enabled_clause_no_enabled_edge g Hc) Hsp).
  cbn [converged iterations negb].
  assert (Htriv : allTrivial g = true).
  { unfold allTrivial. by rewrite (no_enabled_clause_no_enabled_edge g Hc). }
  rewrite Htriv. unfold Walksat.
  destruct (WS_MAX_TRIES cfg) as [|n]; [lia|]. cbn [tries].
  pose proof (try_result_all_assigned cfg g (shuffle [] r).2) as Hall.
  unfold try in *.
  pose proof (assign_random_frame (GetUnassignedVariables g) g (shuffle [] r).2)
    as Hfr.
  destruct (assign_random g _ _) as [g1 r1]. simpl in Hfr.
  destruct (WS_MAX_FLIPS cfg) as [|m]; [lia|]. cbn [flips] in *.
  unfold flip_step in *.
  assert (Hsat : IsSAT g1 = true).
  { apply no_enabled_clause_IsSAT. destruct Hfr as (Hcl & He & _).
    destruct (views_ext g g1 He Hcl) as (_ & -> & _). done. }
  rewrite Hsat in *. destruct (now c1) as [end_ c2].
  eexists _, _, _, _. split_and!; try done.
  apply all_assigned_GetUnassignedVariables. eapply Hall. by right.
Qed.
End EmptyFormula.

(** ** The instance files of the experiments
       ([GetRandomCNFFiles], [src/experiments/experiment.cpp], lines 22-36) *)

(** [operator<<] of an output stream for an [int]: the decimal digits, after
    a minus sign for a negative number. *)
Definition show_int (z : Z) : string := pretty z.

Definition int_max : Z := 2147483647.

Section InstanceFiles.
(** [operator<<] of an output stream for a [double], in the default
    format. *)
Variable show_double : double -> string.

(** The path one iteration of the loop pushes. *)
Definition cnf_path (N : Z) (alpha : double) (generator : string) (i : Z)
  : string :=
  "experiments/instances/" +:+ generator +:+ "_3SAT_" +:+ show_int N +:+ "N_"
  +:+ show_double alpha +:+ "R_" +:+ show_int i +:+ ".cnf".

(** The [for] of line 26 from [i] on, [count] values of [i] remaining. *)
Fixpoint cnf_paths (count : nat) (i : Z) (N : Z) (alpha : double)
                   (generator : string) : list string :=
  match count with
  | O => []
  | S count' =>
      cnf_path N alpha generator i :: cnf_paths count' (i + 1) N alpha generator
  end.

(** [i++] overflows when [totalInstances] is the greatest [int]: the loop
    condition never fails before. *)
Definition GetRandomCNFFiles (totalInstances N : Z) (alpha : double)
                             (generator : string) : outcome (list string) :=
  if totalInstances =? int_max then Undefined
  else Returns (cnf_paths (Z.to_nat totalInstances) 1 N alpha generator).

Lemma list_ascii_of_string_append s t :
  String.list_ascii_of_string (s +:+ t)
  = (String.list_ascii_of_string s ++ String.list_ascii_of_string t)%list.
Proof. induction s as [|a s IH]; simpl; [done|]. by rewrite IH. Qed.

Lemma string_app_inj_r t s1 s2 : s1 +:+ t = s2 +:+ t -> s1 = s2.
Proof.
  intros H. apply (f_equal String.list_ascii_of_string) in H.
  rewrite !list_ascii_of_string_append in H. apply app_inv_tail in H.
  apply (f_equal String.string_of_list_ascii) in H.
  by rewrite !String.string_of_list_ascii_of_string in H.
Qed.

Lemma cnf_path_inj N alpha generator i j :
  cnf_path N alpha generator i = cnf_path N alpha generator j -> i = j.
Proof.
  unfold cnf_path. intros H.
  do 7 apply String.app_inj in H.
  apply string_app_inj_r in H. by apply pretty_Z_inj in H.
Qed.

Lemma cnf_paths_spec count N alpha generator : forall i p,
  In p (cnf_paths count i N alpha generator) ->
  exists j, i <= j < i + Z.of_nat count /\ p = cnf_path N alpha generator j.
Proof.
  induction count as [|count IH]; intros i p Hin; [done|].
  destruct Hin as [<-|Hin].
  - exists i. split; [lia|done].
  - destruct (IH _ _ Hin) as (j & Hj & ->). exists j. split; [lia|done].
Qed.

Lemma cnf_paths_NoDup count N alpha generator : forall i,
  List.NoDup (cnf_paths count i N alpha generator).
Proof.
  induction count as [|count IH]; intros i; simpl; constructor; [|apply IH].
  intros (j & Hj & Heq)%cnf_paths_spec. apply cnf_path_inj in Heq. lia.
Qed.

Lemma cnf_paths_length count N alpha generator : forall i,
  length (cnf_paths count i N alpha generator) = count.
Proof. induction count as [|count IH]; intros i; simpl; [done|]. by rewrite IH. Qed.

(** X19: for a number of instances below the greatest [int],
    [GetRandomCNFFiles] returns [max(0, totalInstances)] paths, pairwise
    distinct, the path of each instance number from [1] to
    [totalInstances]. *)
Theorem GetRandomCNFFiles_distinct_paths
        (totalInstances N : Z) (alpha : double) (generator : string) :
  totalInstances < int_max ->
  exists paths,
    GetRandomCNFFiles totalInstances N alpha generator = Returns paths /\
    Z.of_nat (length paths) = Z.max 0 totalInstances /\
    List.NoDup paths /\
    forall p, In p paths ->
      exists i, 1 <= i <= totalInstances /\ p = cnf_path N alpha generator i.
Proof.
  intros Hlt. unfold GetRandomCNFFiles.
  destruct (Z.eqb_spec totalInstances int_max) as [->|_]; [lia|].
  eexists. split_and!; [done| | |].
  - rewrite cnf_paths_length. lia.
  - apply cnf_paths_NoDup.
  - intros p (j & Hj & ->)%cnf_paths_spec. exists j. split; [lia|done].
Qed.
End InstanceFiles.

(** ** The number of variables a decimation step assigns *)

(** Rounding leaves a canonical mantissa as it is. *)
Lemma binary_round_aux_canonical sx m e :
  canonical_mantissa Double.prec Double.emax m e = true ->
  e <= Double.emax - Double.prec ->
  binary_round_aux Double.prec Double.emax sx (Zpos m) e loc_Exact
  = S754_finite sx m e.
Proof.
  intros Hc He. unfold canonical_mantissa in Hc. apply Z.eqb_eq in Hc.
  unfold binary_round_aux, shr_fexp.
  change (Zdigits2 (Z.pos m)) with (Z.pos (digits2_pos m)).
  rewrite Hc, Z.sub_diag. cbn [shr shr_record_of_loc shr_m loc_of_shr_record
    shr_r shr_s round_nearest_even].
  change (Zdigits2 (Z.pos m)) with (Z.pos (digits2_pos m)).
  rewrite Hc, Z.sub_diag. cbn [shr shr_record_of_loc shr_m].
  apply Z.leb_le in He. by rewrite He.
Qed.

(** The conversion of a size below [2^53] is exact. *)
Lemma of_nat_exact n :
  1 <= Z.of_nat n < 2 ^ 53 ->
  exists m e,
    Double.of_nat n = S754_finite false m e /\
    -52 <= e <= 0 /\ Zpos m = Z.of_nat n * 2 ^ (- e) /\
    Zdigits2 (Zpos m) = 53.
Proof.
  intros Hn. unfold Double.of_nat, binary_normalize.
  destruct (Z.of_nat n) as [|p|p] eqn:Hp; [lia| |lia].
  unfold binary_round.
  pose proof (shl_align_spec p 0
                (fexp Double.prec Double.emax (Zpos (digits2_pos p) + 0))) as H.
  destruct (shl_align p 0 _) as [mz ez]. destruct H as [Hez Hmz].
  change (Z.pos (digits2_pos p)) with (Zdigits2 (Z.pos p)) in Hez.
  rewrite fexp_eq in Hez.
  pose proof (Zdigits2_pos (Z.pos p) ltac:(lia)) as Hd1.
  assert (Hd2 : Zdigits2 (Z.pos p) <= 53) by (apply Zdigits2_le_iff; lia).
  assert (Hez' : ez = Zdigits2 (Z.pos p) - 53) by lia.
  assert (Hdz : Zdigits2 (Z.pos mz) = 53).
  { rewrite Hmz, Zdigits2_mul_pow2 by lia. lia. }
  assert (Hval : Z.pos mz = Z.pos p * 2 ^ (- ez))
    by (rewrite Hmz; f_equal; f_equal; lia).
  assert (Hr : binary_round_aux Double.prec Double.emax false (Z.pos mz) ez
                 loc_Exact = S754_finite false mz ez).
  { apply binary_round_aux_canonical.
    - apply canonical_spec. lia.
    - unfold Double.emax, Double.prec. lia. }
  exists mz, ez. split_and!; try done; lia.
Qed.

(** The product of a size below [2^31] and a value of the unit interval,
    cast to [int], is defined and at most the size. *)
Lemma to_int_mul_unit n f :
  1 <= Z.of_nat n < 2 ^ 31 -> unit_float f ->
  exists z, Double.to_int (Double.mul (Double.of_nat n) f) = Some z /\
            0 <= z <= Z.of_nat n.
Proof.
  intros Hn Hf.
  destruct (of_nat_exact n ltac:(lia)) as (mn & en & -> & Hen & Hmn & Hdn).
  destruct f as [sf|sf| |sf mf ef]; try done.
  { exists 0. split; [done|lia]. }
  destruct sf; [done|].
  destruct (unit_float_finite _ _ Hf) as (Hcf & Hef & Hmf & _).
  unfold Double.mul, SFmul. cbn [xorb].
  pose proof (Zdigits2_pos (Z.pos mf) ltac:(lia)) as Hdf.
  pose proof (Zdigits2_mul_lower (Z.pos mn) (Z.pos mf) ltac:(lia) ltac:(lia))
    as Hdl.
  set (mx := Z.pos (mn * mf)) in *. set (ex := en + ef) in *.
  assert (Hmx : mx = Z.pos mn * Z.pos mf) by done.
  assert (H2ef : 0 < 2 ^ (- ef)) by (apply Z.pow_pos_nonneg; lia).
  assert (H2en : 0 < 2 ^ (- en)) by (apply Z.pow_pos_nonneg; lia).
  assert (Hup : mx <= Z.of_nat n * 2 ^ (- ex)).
  { unfold ex. replace (- (en + ef)) with (- en + - ef) by lia.
    rewrite Z.pow_add_r by lia. rewrite Hmx, Hmn. nia. }
  assert (Hdx : Zdigits2 mx + ex <= 31).
  { assert (Zdigits2 mx <= 31 - ex); [|lia].
    apply Zdigits2_le_iff; [lia|lia|].
    replace (31 - ex) with (31 + - ex) by lia. rewrite Z.pow_add_r by lia.
    assert (0 < 2 ^ (- ex)) by (apply Z.pow_pos_nonneg; lia). nia. }
  assert (Hpre : ex <= fexp Double.prec Double.emax (Zdigits2 mx + ex)).
  { rewrite fexp_eq. unfold ex. rewrite Hmx. lia. }
  destruct (binary_round_aux_spec false mx ex loc_Exact ltac:(lia) Hpre)
    as (M2 & HM2 & [[_ ->]|(m & e & Hval & He & Hcan & ->)]).
  { exists 0. split; [done|lia]. }
  set (e1 := fexp Double.prec Double.emax (Zdigits2 mx + ex)) in *.
  assert (He1 : ex <= e1 <= -22) by (unfold e1 in *; rewrite fexp_eq in *; lia).
  assert (Hle : (e <=? Double.emax - Double.prec) = true)
    by (apply Z.leb_le; unfold Double.emax, Double.prec; lia).
  rewrite Hle.
  assert (HM1 : mx / 2 ^ (e1 - ex) <= Z.of_nat n * 2 ^ (- e1)).
  { apply Z.div_le_upper_bound; [apply Z.pow_pos_nonneg; lia|].
    rewrite Z.mul_comm, <- Z.mul_assoc, <- Z.pow_add_r by lia.
    by replace (- e1 + (e1 - ex)) with (- ex) by lia. }
  assert (HM2' : Z.pos m * 2 ^ (e - e1) <= Z.of_nat n * 2 ^ (- e1) + 1) by lia.
  unfold Double.to_int, Double.trunc.
  destruct e as [|pe|pe]; [lia|lia|].
  set (T := Z.pow_pos 2 pe).
  assert (HT : T = 2 ^ (- Z.neg pe)) by done.
  assert (HT2 : 2 <= T).
  { rewrite HT. change 2 with (2 ^ 1) at 1. apply Z.pow_le_mono_r; lia. }
  assert (HTU : 2 ^ (- e1) = T * 2 ^ (Z.neg pe - e1)).
  { rewrite HT, <- Z.pow_add_r by lia. f_equal. lia. }
  assert (HU : 1 <= 2 ^ (Z.neg pe - e1))
    by (pose proof (Z.pow_pos_nonneg 2 (Z.neg pe - e1)); lia).
  assert (Hq : 0 <= Z.pos m / T <= Z.of_nat n).
  { split; [apply Z.div_pos; lia|].
    apply Z.lt_succ_r, Z.div_lt_upper_bound; [lia|].
    rewrite HTU in HM2'. nia. }
  exists (Z.pos m / T). split; [|done].
  destruct (Z.leb_spec (-2147483648) (Z.pos m / T)); [|lia].
  destruct (Z.leb_spec (Z.pos m / T) 2147483647); [done|lia].
Qed.

Lemma decimate_defined count : forall i g l,
  (i + count <= length l)%nat -> exists g', decimate g l i count = Some g'.
Proof.
  induction count as [|count IH]; intros i g l Hlen; simpl; [by eexists|].
  destruct (lookup_lt_is_Some_2 l i ltac:(lia)) as [var ->].
  apply IH. lia.
Qed.

Section DecimationDefined.
Context {SS : StdSort}.

(** X21: for a fraction of the unit interval and at least one, fewer than
    [2^31], unassigned variables, the decimation step of [SID] has no
    undefined behaviour: the product cast to [int] is representable, the
    number [assignFraction] of variables to assign lies between one and the
    number of unassigned variables, and every index into
    [unassignedVariables] is within bounds. *)
Theorem decimation_defined_for_unit_fraction
        (g : FactorGraph) (fraction : double) :
  Double.valid fraction = true -> Double.in_unit fraction = true ->
  1 <= Z.of_nat (length (GetUnassignedVariables g)) < 2 ^ 31 ->
  exists k g',
    assign_fraction (length (GetUnassignedVariables g)) fraction = Some k /\
    1 <= k <= Z.of_nat (length (GetUnassignedVariables g)) /\
    decimation g fraction = Some g'.
Proof.
  intros Hv Hu Hn. pose proof (machine_unit_float _ Hv Hu) as Hf.
  destruct (to_int_mul_unit _ _ Hn Hf) as (z & Hz & Hzn).
  unfold decimation, assign_fraction. rewrite Hz.
  set (k := if z <? 1 then 1 else z).
  assert (Hk : 1 <= k <= Z.of_nat (length (GetUnassignedVariables g)))
    by (unfold k; destruct (Z.ltb_spec z 1); lia).
  destruct (decimate_defined (Z.to_nat k) 0
              (evaluate_variables g (GetUnassignedVariables g))
              (std_sort (by_bias (evaluate_variables g (GetUnassignedVariables g)))
                        (GetUnassignedVariables g))) as [g' Hg'].
  { rewrite (Permutation_length (std_sort_perm _ _)). lia. }
  by exists k, g'.
Qed.

(** X22: on a graph without an unassigned variable the decimation step of
    [SID] is undefined, whatever the fraction: [assignFraction] is raised
    to one and [unassignedVariables[0]] is read from an empty vector. *)
Theorem decimation_undefined_without_unassigned_variable
        (g : FactorGraph) (fraction : double) :
  GetUnassignedVariables g = [] ->
  decimation g fraction = None.
Proof.
  intros Hun. unfold decimation. rewrite Hun.
  destruct (assign_fraction _ _) as [k|] eqn:Hk; [|done].
  apply assign_fraction_pos in Hk as Hpos.
  pose proof (std_sort_perm (by_bias (evaluate_variables g [])) []) as Hp.
  apply Permutation_nil_r in Hp. rewrite Hp.
  destruct (Z.to_nat k) as [|n] eqn:E; [lia|done].
Qed.
End DecimationDefined.

(** ** Unit propagation satisfies the unit clauses *)

Lemma assign_unit_clauses_values l : forall g g1 c e rest,
  assign_unit_clauses g l = Completed g1 ->
  In c l -> Clause_GetEnabledEdges g c = e :: rest ->
  (edge_variable g e < length (variables g))%nat ->
  var_assigned g1 (edge_variable g e) = true /\
  var_value g1 (edge_variable g e) = edge_type g e.
Proof.
  induction l as [|c' l IH]; intros g g1 c e rest H Hin Hc Hlt; [done|].
  simpl in H.
  destruct (Clause_GetEnabledEdges g c') as [|e' rest'] eqn:Hc'; [done|].
  destruct (var_assigned g (edge_variable g e')) eqn:Ha; simpl in H.
  - destruct (eqb (edge_type g e') (var_value g (edge_variable g e'))) eqn:Hty;
      [|done]. simpl in H.
    destruct Hin as [->|Hin]; [|by eapply IH].
    rewrite Hc in Hc'. injection Hc' as -> _.
    pose proof (assign_unit_clauses_keeps_assigned l g g1 (or_introl H)) as Hka.
    unfold var_assigned, var_value in *. rewrite (ka_assigned _ _ Hka) by done.
    split; [done|]. symmetry. by apply eqb_prop.
  - set (g0 := AssignValue g (edge_variable g e') (edge_type g e')) in *.
    destruct (views_ext g g0 eq_refl eq_refl) as (Hv1 & _ & _ & Hv2 & Hv3 & _).
    destruct (decide (c = c')) as [->|Hne].
    + rewrite Hc in Hc'. injection Hc' as -> _.
      assert (Ha0 : var_assigned g0 (edge_variable g e') = true).
      { unfold g0. rewrite var_assigned_AssignValue, decide_True by done.
        by apply bool_decide_eq_true_2. }
      assert (Hval0 : var_value g0 (edge_variable g e') = edge_type g e').
      { unfold g0. rewrite var_value_AssignValue, decide_True by done.
        rewrite bool_decide_eq_true_2 by done. apply andb_true_r. }
      pose proof (assign_unit_clauses_keeps_assigned l g0 g1 (or_introl H))
        as Hka.
      unfold var_assigned, var_value in *.
      rewrite (ka_assigned _ _ Hka) by done. done.
    + destruct Hin as [|Hin]; [congruence|].
      rewrite <- Hv2, <- Hv3. eapply IH; [done|done|by rewrite Hv1|].
      rewrite Hv2. unfold g0. simpl. by rewrite length_alter.
Qed.

Lemma simplify_clause_satisfied_edge c es : forall g e,
  In e es ->
  (forall e', In e' es -> edge_clause g e' = c) ->
  (forall e', In e' es -> var_assigned g (edge_variable g e') = true ->
              var_value g (edge_variable g e') = edge_type g e') ->
  var_assigned g (edge_variable g e) = true ->
  is_clause_enabled (simplify_clause g c es) c = false.
Proof.
  induction es as [|e0 es IH]; intros g e Hin Hcl Hval Ha; [done|]. simpl.
  destruct (var_assigned g (edge_variable g e0)) eqn:Ha0.
  - rewrite (Hval e0) by (done || by left). rewrite eqb_reflx.
    rewrite is_clause_enabled_Clause_Dissable. by rewrite decide_True.
  - destruct Hin as [->|Hin]; [congruence|].
    eapply IH; try done.
    + intros e' He'. apply Hcl. by right.
    + intros e' He'. apply Hval. by right.
Qed.

Lemma simplify_clauses_disables_clause cs : forall g g' c e,
  simplify_clauses g cs = Completed g' -> In c cs ->
  Clause_GetEnabledEdges g c = [e] ->
  var_assigned g (edge_variable g e) = true ->
  var_value g (edge_variable g e) = edge_type g e ->
  is_clause_enabled g' c = false.
Proof.
  induction cs as [|c0 cs IH]; intros g g' c e H Hin Hes Ha Hv; [done|].
  simpl in H.
  set (g1 := simplify_clause g c0 (Clause_GetEnabledEdges g c0)) in *.
  pose proof (simplify_clause_evolves g c0 (Clause_GetEnabledEdges g c0)) as Hev.
  fold g1 in Hev.
  destruct (is_clause_enabled g1 c0
            && Nat.eqb (length (Clause_GetEnabledEdges g1 c0)) 0); [done|].
  pose proof (simplify_clauses_evolves g1 cs g' (or_introl H)) as Hev'.
  destruct (decide (c = c0)) as [->|Hne].
  - destruct (is_clause_enabled g' c0) eqn:Hen; [|done].
    apply (ev_clause_enabled _ _ Hev') in Hen.
    unfold g1 in Hen. rewrite Hes in Hen.
    rewrite (simplify_clause_satisfied_edge c0 [e] g e) in Hen; try done.
    + by left.
    + intros e' [<-|[]].
      assert (Hin' : In e (Clause_GetEnabledEdges g c0)) by (rewrite Hes; by left).
      by apply In_Clause_GetEnabledEdges in Hin' as [_ ?].
    + by intros e' [<-|[]] _.
  - destruct Hin as [|Hin]; [congruence|].
    destruct (simplify_clause_other_clauses g c0 (Clause_GetEnabledEdges g c0))
      as [H1 H2].
    { intros e'. by intros [_ ?]%In_Clause_GetEnabledEdges. }
    fold g1 in H1, H2.
    assert (Hes1 : Clause_GetEnabledEdges g1 c = Clause_GetEnabledEdges g c).
    { unfold Clause_GetEnabledEdges. rewrite (ev_edges _ _ Hev).
      apply filter_ext. intros e'. unfold edge_active.
      rewrite (ev_clause _ _ Hev).
      destruct (Nat.eqb_spec (edge_clause g e') c) as [Heq|Hneq];
        [|by rewrite !andb_false_r].
      rewrite H2 by congruence. rewrite Heq, H1; done. }
    eapply (IH g1 g' c e); try done.
    + by rewrite Hes1.
    + rewrite (ev_variable _ _ Hev). unfold var_assigned, g1.
      by rewrite simplify_clause_variables.
    + rewrite (ev_variable _ _ Hev), (ev_type _ _ Hev). unfold var_value, g1.
      by rewrite simplify_clause_variables.
Qed.

(** X23: a successful [UnitPropagation] has satisfied every unit clause of
    the graph it was given: the variable of the only enabled edge of such a
    clause is assigned the value that makes the literal true, and the clause
    is disabled. *)
Theorem UnitPropagation_success_satisfies_unit_clauses
        (fuel : nat) (g g' : FactorGraph) (c : ClauseId) (e : EdgeId) :
  well_formed g = true ->
  UnitPropagation fuel g = Returns (true, g') ->
  is_clause_enabled g c = true ->
  Clause_GetEnabledEdges g c = [e] ->
  var_assigned g' (edge_variable g e) = true /\
  var_value g' (edge_variable g e) = edge_type g e /\
  is_clause_enabled g' c = false.
Proof.
  intros Hwf H Hen Hes. destruct fuel as [|fuel]; [done|]. simpl in H.
  assert (Hin : In c (unit_clauses g)).
  { unfold unit_clauses. apply filter_In. rewrite Hes.
    split; [by apply In_GetEnabledClauses|done]. }
  unfold UnitPropagation_iteration in H.
  destruct (unit_clauses g) as [|c0 ucs] eqn:Hucs; [done|].
  change (Nat.eqb (length (c0 :: ucs)) 0) with false in H. cbv iota in H.
  destruct (assign_unit_clauses g (c0 :: ucs)) as [g1|g1|] eqn:H1; try done.
  destruct (simplify_clauses g1 (GetEnabledClauses g1)) as [g2|g2|] eqn:H2;
    try done.
  assert (Hine : In e (Clause_GetEnabledEdges g c)) by (rewrite Hes; by left).
  apply In_Clause_GetEnabledEdges in Hine as [Hact Hcl].
  assert (Hlt : (edge_variable g e < length (variables g))%nat).
  { rewrite well_formed_spec in Hwf. apply Hwf, is_edge_enabled_lt.
    unfold edge_active in Hact. by apply andb_true_iff in Hact as [? _]. }
  destruct (assign_unit_clauses_values _ _ _ _ _ _ H1 Hin Hes Hlt) as [Ha1 Hv1].
  destruct (assign_unit_clauses_frame g _ g1 (or_introl H1)) as (He & Hc & Hev1).
  destruct (views_ext g g1 He Hc) as (Hces & Hcs & _ & Hvar & Hty & _).
  assert (Hdis2 : is_clause_enabled g2 c = false).
  { apply (simplify_clauses_disables_clause _ g1 g2 c e H2).
    - rewrite Hcs. by apply In_GetEnabledClauses.
    - by rewrite Hces.
    - by rewrite Hvar.
    - by rewrite Hvar, Hty. }
  pose proof (simplify_clauses_variables _ g1 g2 (or_introl H2)) as Hv2.
  destruct (UnitPropagation_frame _ _ _ _ H) as [Hev Hka].
  assert (Ha2 : var_assigned g2 (edge_variable g e) = true)
    by (unfold var_assigned in *; by rewrite Hv2).
  assert (Hval2 : var_value g2 (edge_variable g e) = edge_type g e)
    by (unfold var_value in *; by rewrite Hv2).
  split_and!.
  - by apply (ev_assigned _ _ Hev).
  - unfold var_value in *. by rewrite (ka_assigned _ _ Hka).
  - destruct (is_clause_enabled g' c) eqn:E; [|done].
    apply (ev_clause_enabled _ _ Hev) in E. congruence.
Qed.

(** ** WalkSAT: the variable of lowest break count *)

(** The break count of a variable: the number of the satisfied clauses that
    are not satisfied any more once the variable is flipped. *)
Definition break_count (g : FactorGraph) (satClauses : list ClauseId)
                       (v : VarId) : Z :=
  Z.of_nat (length (List.filter
                      (fun c => negb (Clause_IsSAT (flip_variable g v) c))
                      satClauses)).

Lemma count_broken_spec g satClauses : forall breakCount,
  0 <= breakCount ->
  breakCount + Z.of_nat (length satClauses) < uint_max ->
  count_broken g satClauses breakCount
  = breakCount
    + Z.of_nat (length (List.filter (fun c => negb (Clause_IsSAT g c))
                                    satClauses)).
Proof.
  induction satClauses as [|c l IH]; intros breakCount H0 Hmax; simpl; [lia|].
  simpl in Hmax. destruct (negb (Clause_IsSAT g c)); simpl.
  - rewrite IH.
    + unfold uint_add, uint_wrap. rewrite Z.mod_small by lia. lia.
    + unfold uint_add, uint_wrap. rewrite Z.mod_small by lia. lia.
    + unfold uint_add, uint_wrap. rewrite Z.mod_small by lia. lia.
  - apply IH; lia.
Qed.

Lemma break_count_nonneg g satClauses v : 0 <= break_count g satClauses v.
Proof. unfold break_count. lia. Qed.

Lemma lowest_break_count_first_minimum g satClauses es : forall lowVar low,
  Z.of_nat (length satClauses) < uint_max ->
  (forall e, In e es -> var_assigned g (edge_variable g e) = true) ->
  (lowVar <> None -> 0 < low) ->
  let bc e := break_count g satClauses (edge_variable g e) in
  (exists l1 e l2,
     es = l1 ++ e :: l2 /\
     lowest_break_count g satClauses es lowVar low
     = (g, Some (edge_variable g e), bc e) /\
     (forall e', In e' l1 -> bc e < bc e') /\
     (lowVar <> None -> bc e < low) /\
     (bc e = 0 \/ forall e', In e' l2 -> bc e <= bc e')) \/
  (lowest_break_count g satClauses es lowVar low = (g, lowVar, low) /\
   (lowVar = None -> es = []) /\
   forall e', In e' es -> low <= bc e').
Proof.
  induction es as [|e es IH]; intros lowVar low Hmax Hes Hlow bc.
  { right. by split_and!. }
  cbn [lowest_break_count].
  rewrite flip_variable_twice by (apply Hes; by left).
  rewrite count_broken_spec by lia. rewrite Z.add_0_l.
  fold (break_count g satClauses (edge_variable g e)). fold (bc e).
  pose proof (break_count_nonneg g satClauses (edge_variable g e)) as Hb0.
  fold (bc e) in Hb0.
  assert (Hes' : forall e', In e' es -> var_assigned g (edge_variable g e') = true)
    by (intros e' He'; apply Hes; by right).
  destruct (match lowVar with None => true | Some _ => false end
            || (bc e <? low)) eqn:Hupd.
  - assert (Hlt : lowVar <> None -> bc e < low).
    { intros Hne. destruct lowVar; [|done]. simpl in Hupd. lia. }
    destruct (Z.eqb_spec (bc e) 0) as [Hz|Hnz].
    + left. exists [], e, es. split_and!; try done. by left.
    + destruct (IH (Some (edge_variable g e)) (bc e) Hmax Hes' ltac:(lia))
        as [(l1 & e1 & l2 & -> & -> & H1 & H2 & H3)|(-> & _ & H3)].
      * left. exists (e :: l1), e1, l2. fold (bc e1) in *.
        specialize (H2 ltac:(done)). split_and!; try done.
        -- intros e' [<-|He']; [done|by apply H1].
        -- intros Hne. specialize (Hlt Hne). lia.
      * left. exists [], e, es. split_and!; try done. by right.
  - apply orb_false_iff in Hupd as [Hsome Hge]. apply Z.ltb_ge in Hge.
    assert (Hne : lowVar <> None) by (by destruct lowVar).
    specialize (Hlow Hne).
    destruct (Z.eqb_spec (bc e) 0) as [Hz|Hnz]; [lia|].
    destruct (IH lowVar low Hmax Hes' ltac:(done))
      as [(l1 & e1 & l2 & -> & -> & H1 & H2 & H3)|(-> & _ & H3)].
    + left. exists (e :: l1), e1, l2. fold (bc e1) in *.
      specialize (H2 Hne). split_and!; try done.
      intros e' [<-|He']; [lia|by apply H1].
    + right. split_and!; try done. intros e' [<-|He']; [done|by apply H3].
Qed.

(** X24: the greedy choice of [Walksat].  Over the enabled edges of the
    selected clause, in their order, the loop of the break counts leaves the
    assignment as it was and ends with the variable of the first edge whose
    break count is zero, if there is one, and otherwise with the variable
    of the first edge of least break count; [lowestBreakCount] is the break
    count of that variable: the number of satisfied clauses its flip leaves
    unsatisfied. *)
Theorem lowest_break_count_picks_first_minimum
        (g : FactorGraph) (satClauses : list ClauseId) (es : list EdgeId)
        (low : Z) :
  Z.of_nat (length satClauses) < uint_max ->
  (forall e, In e es -> var_assigned g (edge_variable g e) = true) ->
  es <> [] ->
  let bc e := break_count g satClauses (edge_variable g e) in
  exists l1 e l2,
    es = l1 ++ e :: l2 /\
    lowest_break_count g satClauses es None low
    = (g, Some (edge_variable g e), bc e) /\
    (forall e', In e' l1 -> bc e < bc e') /\
    (bc e = 0 \/ forall e', In e' l2 -> bc e <= bc e').
Proof.
  intros Hmax Hes Hne bc.
  destruct (lowest_break_count_first_minimum g satClauses es None low Hmax Hes
              ltac:(done))
    as [(l1 & e & l2 & H1 & H2 & H3 & _ & H4)|(_ & H & _)].
  - by exists l1, e, l2.
  - by specialize (H eq_refl).
Qed.

(** ** The range of the bias *)

Lemma abs_binary_round_aux sx mx ex lx :
  SFabs (binary_round_aux Double.prec Double.emax sx mx ex lx)
  = binary_round_aux Double.prec Double.emax false mx ex lx.
Proof.
  unfold binary_round_aux.
  destruct (shr_fexp Double.prec Double.emax mx ex lx) as [mrs' e'].
  destruct (shr_fexp _ _ _ e' loc_Exact) as [mrs'' e''].
  destruct (shr_m mrs''); try done. by destruct (_ <=? _).
Qed.

Lemma abs_binary_round sx m e :
  SFabs (binary_round Double.prec Double.emax sx m e)
  = binary_round Double.prec Double.emax false m e.
Proof.
  unfold binary_round. destruct (shl_align m e _) as [mz ez].
  apply abs_binary_round_aux.
Qed.

(** The difference of two values of the unit interval has an absolute
    value in the unit interval. *)
Lemma sub_unit_abs x y :
  unit_float x -> unit_float y ->
  unit_float (SFabs (SFsub Double.prec Double.emax x y)).
Proof.
  intros Hx Hy.
  destruct x as [sx|sx| |sx mx ex], y as [sy|sy| |sy my ey]; try done;
    try (by destruct sx); try (by destruct sy); try (by destruct sx, sy).
  destruct sx, sy; try done.
  destruct (unit_float_finite _ _ Hx) as (Hcx & Hex & Hmx & _).
  destruct (unit_float_finite _ _ Hy) as (Hcy & Hey & Hmy & _).
  unfold SFsub. cbn [cond_Zopp negb].
  set (ez := Z.min ex ey).
  pose proof (shl_align_spec mx ex ez) as H1.
  destruct (shl_align mx ex ez) as [m1 e1]. destruct H1 as [He1 Hm1].
  pose proof (shl_align_spec my ey ez) as H2.
  destruct (shl_align my ey ez) as [m2 e2]. destruct H2 as [He2 Hm2].
  cbn [fst].
  assert (He1' : e1 = ez) by (unfold ez in *; lia).
  assert (He2' : e2 = ez) by (unfold ez in *; lia).
  clear He1 He2. subst e1 e2.
  assert (Hez : ez <= ex /\ ez <= ey /\ ez <= -52) by (unfold ez; lia).
  assert (Hb1 : Z.pos m1 <= 2 ^ (- ez)).
  { rewrite Hm1. replace (- ez) with (- ex + (ex - ez)) by lia.
    rewrite Z.pow_add_r by lia. apply Z.mul_le_mono_nonneg_r; [|done].
    apply Z.pow_nonneg. lia. }
  assert (Hb2 : Z.pos m2 <= 2 ^ (- ez)).
  { rewrite Hm2. replace (- ez) with (- ey + (ey - ez)) by lia.
    rewrite Z.pow_add_r by lia. apply Z.mul_le_mono_nonneg_r; [|done].
    apply Z.pow_nonneg. lia. }
  destruct (Z.pos m1 - Z.pos m2) as [|M|M] eqn:HM; [done| |].
  - cbn [binary_normalize]. rewrite abs_binary_round.
    apply binary_round_unit.
    assert (Hlt : Z.pos M < 2 ^ (- ez)) by lia.
    apply Zdigits2_le_iff in Hlt; lia.
  - cbn [binary_normalize]. rewrite abs_binary_round.
    apply binary_round_unit.
    assert (Hlt : Z.pos M < 2 ^ (- ez)) by lia.
    apply Zdigits2_le_iff in Hlt; lia.
Qed.

Lemma valid_abs x : Double.valid (Double.abs x) = Double.valid x.
Proof. by destruct x. Qed.

Lemma EvaluateVariable_abs_unit g v v' :
  unit_surveys g ->
  v = v' \/ unit_float (Double.abs (var_evalValue g v')) ->
  unit_float (Double.abs (var_evalValue (EvaluateVariable g v) v')).
Proof.
  intros Hu Hv. unfold EvaluateVariable.
  pose proof (bias_products_unit g (Variable_GetEnabledEdges g v)
                Double.one Double.one Double.one) as Hp.
  destruct (bias_products _ _ _ _ _) as [[PVi0 PViP] PViN].
  destruct Hp as (H0 & HP & HN); try apply unit_float_one.
  { intros e He. apply Hu. by eapply In_Variable_GetEnabledEdges. }
  simpl in H0, HP, HN.
  destruct (bias_ratios_unit PVi0 PViP PViN H0 HP HN) as [HWP HWN].
  set (PiP := Double.mul (one_minus PViP) PViN) in *.
  set (PiN := Double.mul (one_minus PViN) PViP) in *.
  set (sum := Double.add (Double.add PiP PiN) PVi0) in *.
  destruct (Double.isnan (Double.div PiP sum)
            || Double.isnan (Double.div PiN sum)) eqn:Hnan.
  { rewrite var_evalValue_set_evalValue. case_decide; [|by destruct Hv].
    by case_bool_decide. }
  apply orb_false_iff in Hnan as [HnP HnN].
  destruct HWP as [|HWP]; [congruence|].
  destruct HWN as [|HWN]; [congruence|].
  rewrite var_evalValue_set_evalValue. case_decide; [|by destruct Hv].
  case_bool_decide; [|done]. by apply sub_unit_abs.
Qed.

Lemma evaluate_variables_abs_unit vars : forall g v,
  unit_surveys g ->
  In v vars \/ unit_float (Double.abs (var_evalValue g v)) ->
  unit_float (Double.abs (var_evalValue (foldl EvaluateVariable g vars) v)).
Proof.
  induction vars as [|v0 vars IH]; intros g v Hg Hv; simpl.
  - by destruct Hv.
  - apply IH; [by apply EvaluateVariable_unit_surveys|].
    destruct (decide (v0 = v)) as [->|Hne].
    + right. apply EvaluateVariable_abs_unit; auto.
    + destruct Hv as [[|]|]; [done|by left|].
      right. apply EvaluateVariable_abs_unit; auto.
Qed.

(** X25: with surveys in the unit interval, the bias [EvaluateVariable]
    writes is a valid value of absolute value at most one. *)
Theorem EvaluateVariable_bias_in_range (g : FactorGraph) (v : VarId) :
  (forall e, In e (GetEnabledEdges g) ->
             Double.valid (edge_survey g e) = true /\
             Double.in_unit (edge_survey g e) = true) ->
  let bias := var_evalValue (EvaluateVariable g v) v in
  Double.valid bias = true /\
  Double.le (Double.abs bias) Double.one = true.
Proof.
  intros Hg bias.
  assert (Hu : unit_surveys g).
  { intros e He. destruct (Hg e He). by apply machine_unit_float. }
  assert (Habs : unit_float (Double.abs bias))
    by (apply EvaluateVariable_abs_unit; [done|by left]).
  destruct (unit_float_machine _ Habs) as (Hv & Hi & _).
  rewrite valid_abs in Hv. split; [done|].
  unfold Double.in_unit in Hi. by apply andb_true_iff in Hi as [_ ?].
Qed.

(** ** Survey propagation: the number of sweeps reported *)

Section SweepCount.
Context {RG : RandomGen}.
Variable cfg : Config.

(** X26: the number of sweeps [SurveyPropagation] reports is at most
    [SP_MAX_ITERATIONS]; with a positive cap one sweep at least is run, the
    loop being entered with [allEdgesConverged = false]; and a call that
    does not converge reports exactly [SP_MAX_ITERATIONS]. *)
Theorem SurveyPropagation_iterations_bounds (g : FactorGraph) (r : rng) :
  Z.of_nat (SP_MAX_ITERATIONS cfg) < uint_max ->
  let result := (SurveyPropagation cfg g r).1.1 in
  ((0 < SP_MAX_ITERATIONS cfg)%nat -> 1 <= iterations result) /\
  iterations result <= Z.of_nat (SP_MAX_ITERATIONS cfg) /\
  (converged result = false ->
   iterations result = Z.of_nat (SP_MAX_ITERATIONS cfg)).
Proof.
  intros Hmax result. unfold result, SurveyPropagation.
  destruct (init_surveys g r (GetEnabledEdges g)) as [g0 r0].
  destruct (sp_loop_spec cfg (SP_MAX_ITERATIONS cfg) g0 (GetEnabledEdges g) r0 0)
    as (m & Hm & Hit & _ & _ & Hc & Hf); [done|lia|].
  rewrite Hit. split_and!.
  - intros Hpos. destruct m as [|m]; [|lia]. specialize (Hf Hc). lia.
  - lia.
  - intros Hconv. rewrite (Hf Hconv). lia.
Qed.
End SweepCount.

(** * Concrete runs of the further properties *)

(** [p cnf 2 1], [1 2 0]. *)
Definition one_clause : FactorGraph := FactorGraph_of_cnf 2 [[1; 2]].

(** [p cnf 2 1], [-1 2 0]. *)
Definition mixed_clause : FactorGraph := FactorGraph_of_cnf 2 [[-1; 2]].

(** [p cnf 2 0]: no clause. *)
Definition no_clause : FactorGraph := FactorGraph_of_cnf 2 [].

(** [small_3sat] after the decimation of its first variable. *)
Definition small_3sat_decimated : FactorGraph := decimate_variable small_3sat 0.

(** [opposite_units] with its variable set to [true]. *)
Definition opposite_units_true : FactorGraph := AssignValue opposite_units 0 true.

Lemma UnitPropagation_keeps_solutions_witness :
  exists g',
    UnitPropagation 10 unit_chain = Returns (true, g') /\
    (solution unit_chain (fun _ => true) <-> solution g' (fun _ => true)).
Proof.
  assert (H : exists g', UnitPropagation 10 unit_chain = Returns (true, g'))
    by (eexists; vm_compute; reflexivity).
  destruct H as [g' H]. exists g'. split; [exact H|].
  exact (UnitPropagation_keeps_solutions 10 unit_chain g' (fun _ => true) H).
Defined.

Lemma UnitPropagation_contradiction_sound_witness :
  exists g',
    UnitPropagation 1 opposite_units = Returns (false, g') /\
    ~ solution opposite_units (fun _ => true).
Proof.
  assert (H : exists g', UnitPropagation 1 opposite_units = Returns (false, g'))
    by (eexists; vm_compute; reflexivity).
  destruct H as [g' H]. exists g'. split; [exact H|].
  exact (UnitPropagation_contradiction_sound 1 opposite_units g' (fun _ => true) H).
Defined.

Lemma UnitPropagation_only_disables_and_assigns_witness :
  exists r g',
    UnitPropagation 10 unit_chain = Returns (r, g') /\
    forall c, is_clause_enabled g' c = true -> is_clause_enabled unit_chain c = true.
Proof.
  assert (H : exists r g', UnitPropagation 10 unit_chain = Returns (r, g'))
    by (eexists _, _; vm_compute; reflexivity).
  destruct H as (r & g' & H). exists r, g'. split; [exact H|].
  exact (proj1 (proj2 (UnitPropagation_only_disables_and_assigns
                         10 unit_chain r g' H))).
Defined.

Lemma UnitPropagation_success_leaves_witness :
  exists g',
    UnitPropagation 10 unit_chain = Returns (true, g') /\
    forall n, UnitPropagation (S n) g' = Returns (true, g').
Proof.
  assert (H : exists g', UnitPropagation 10 unit_chain = Returns (true, g'))
    by (eexists; vm_compute; reflexivity).
  destruct H as [g' H]. exists g'. split; [exact H|].
  exact (proj1 (UnitPropagation_success_leaves 10 unit_chain g' H)).
Defined.

Lemma small_3sat_decimated_fixed :
  var_assigned small_3sat_decimated 0 = true /\
  forall e, edge_active small_3sat_decimated e = true ->
            edge_variable small_3sat_decimated e <> 0%nat.
Proof.
  split; [reflexivity|]. intros e He.
  do 9 (destruct e as [|e]; [vm_compute in He |- *; congruence|]).
  vm_compute in He. congruence.
Qed.

Lemma Walksat_moves_only_free_variables_witness :
  exists b g' r',
    Walksat (RG := counter_RandomGen) (default_config 100)
            small_3sat_decimated 0 = Returns (b, g', r') /\
    variables g' !! 0%nat = variables small_3sat_decimated !! 0%nat.
Proof.
  assert (H : exists b g' r',
             Walksat (RG := counter_RandomGen) (default_config 100)
                     small_3sat_decimated 0 = Returns (b, g', r'))
    by (eexists _, _, _; vm_compute; reflexivity).
  destruct H as (b & g' & r' & H). exists b, g', r'. split; [exact H|].
  exact (Walksat_moves_only_free_variables (RG := counter_RandomGen)
           (default_config 100) small_3sat_decimated 0 b g' r' 0%nat H
           (proj1 small_3sat_decimated_fixed) (proj2 small_3sat_decimated_fixed)).
Defined.

Lemma Walksat_success_is_satisfied_witness :
  exists g' r',
    Walksat (RG := counter_RandomGen) (default_config 100) small_3sat 0
    = Returns (true, g', r') /\
    IsSAT g' = true /\ GetUnassignedVariables g' = [].
Proof.
  assert (H : exists g' r',
             Walksat (RG := counter_RandomGen) (default_config 100) small_3sat 0
             = Returns (true, g', r'))
    by (eexists _, _; vm_compute; reflexivity).
  destruct H as (g' & r' & H). exists g', r'. split; [exact H|].
  exact (Walksat_success_is_satisfied (RG := counter_RandomGen)
           (default_config 100) small_3sat 0 g' r' H).
Defined.

Lemma Walksat_defined_without_empty_clause_witness :
  no_empty_clause small_3sat = true /\
  exists b g' r',
    Walksat (RG := counter_RandomGen) (default_config 100) small_3sat 0
    = Returns (b, g', r').
Proof.
  split; [reflexivity|].
  exact (Walksat_defined_without_empty_clause (RG := counter_RandomGen)
           (default_config 100) small_3sat 0 eq_refl).
Defined.

Lemma Walksat_without_flips_fails_witness :
  WS_MAX_FLIPS (default_config 0) = 0%nat /\
  exists g' r',
    Walksat (RG := counter_RandomGen) (default_config 0) no_clause 0
    = Returns (false, g', r').
Proof.
  split; [reflexivity|].
  exact (Walksat_without_flips_fails (RG := counter_RandomGen)
           (default_config 0) no_clause 0 eq_refl).
Defined.

Lemma SID_answer_SAT_is_sound_witness :
  freshly_loaded small_3sat = true /\
  exists result g' r' c',
    SID (RG := counter_RandomGen) (SS := insertion_StdSort)
        (CK := counting_SteadyClock) (default_config 100) 13
        small_3sat fraction_004 1 0%nat
    = Returns (result, g', r', c') /\
    SAT result = true /\
    formula_true small_3sat (var_value g') = true.
Proof.
  split; [reflexivity|].
  assert (H : exists result g' r' c',
             SID (RG := counter_RandomGen) (SS := insertion_StdSort)
                 (CK := counting_SteadyClock) (default_config 100) 13
                 small_3sat fraction_004 1 0%nat
             = Returns (result, g', r', c') /\ SAT result = true)
    by (eexists _, _, _, _; vm_compute; split; reflexivity).
  destruct H as (result & g' & r' & c' & H & Hsat).
  exists result, g', r', c'. split; [exact H|]. split; [exact Hsat|].
  exact (SID_answer_SAT_is_sound (RG := counter_RandomGen)
           (SS := insertion_StdSort) (CK := counting_SteadyClock)
           (default_config 100) 13 small_3sat fraction_004 1 0%nat
           result g' r' c' eq_refl H Hsat).
Defined.

Lemma SID_only_disables_and_assigns_witness :
  exists result g' r' c',
    SID (RG := counter_RandomGen) (SS := insertion_StdSort)
        (CK := counting_SteadyClock) (default_config 100) 13
        small_3sat fraction_004 1 0%nat
    = Returns (result, g', r', c') /\
    length (edges g') = length (edges small_3sat).
Proof.
  assert (H : exists result g' r' c',
             SID (RG := counter_RandomGen) (SS := insertion_StdSort)
                 (CK := counting_SteadyClock) (default_config 100) 13
                 small_3sat fraction_004 1 0%nat
             = Returns (result, g', r', c'))
    by (eexists _, _, _, _; vm_compute; reflexivity).
  destruct H as (result & g' & r' & c' & H).
  exists result, g', r', c'. split; [exact H|].
  exact (proj1 (proj2 (proj2
           (SID_only_disables_and_assigns (RG := counter_RandomGen)
              (SS := insertion_StdSort) (CK := counting_SteadyClock)
              (default_config 100) 13 small_3sat fraction_004 1 0%nat
              result g' r' c' H)))).
Defined.

Lemma SID_terminates_witness :
  well_formed small_3sat = true /\
  (length (GetUnassignedVariables small_3sat)
   + length (GetEnabledEdges small_3sat) < 13)%nat /\
  SID (RG := counter_RandomGen) (SS := insertion_StdSort)
      (CK := counting_SteadyClock) (default_config 100) 13
      small_3sat fraction_004 1 0%nat
  <> OutOfFuel.
Proof.
  assert (Hlt : (length (GetUnassignedVariables small_3sat)
                 + length (GetEnabledEdges small_3sat) < 13)%nat)
    by (vm_compute; lia).
  split; [reflexivity|]. split; [exact Hlt|].
  exact (proj2 (SID_terminates (RG := counter_RandomGen)
                  (SS := insertion_StdSort) (CK := counting_SteadyClock)
                  (default_config 100) 13 small_3sat fraction_004 1 0%nat
                  eq_refl Hlt)).
Defined.

Lemma SurveyPropagation_without_enabled_edges_witness :
  GetEnabledEdges no_clause = [] /\
  (0 < SP_MAX_ITERATIONS (default_config 100))%nat /\
  SurveyPropagation (RG := counter_RandomGen) (default_config 100) no_clause 0
  = ({| converged := true; iterations := 1 |}, no_clause,
     (shuffle (RandomGen := counter_RandomGen) [] 0).2).
Proof.
  assert (Hpos : (0 < SP_MAX_ITERATIONS (default_config 100))%nat)
    by (vm_compute; lia).
  split; [reflexivity|]. split; [exact Hpos|].
  exact (SurveyPropagation_without_enabled_edges (RG := counter_RandomGen)
           (default_config 100) no_clause 0 eq_refl Hpos).
Defined.

Lemma one_clause_unit_surveys :
  forall e, In e (GetEnabledEdges one_clause) ->
            Double.valid (edge_survey one_clause e) = true /\
            Double.in_unit (edge_survey one_clause e) = true.
Proof.
  intros e He. vm_compute in He.
  destruct He as [<-|[<-|[]]]; split; vm_compute; reflexivity.
Qed.

Lemma UpdateSurvey_free_variable_gives_zero_witness :
  (0 < length (edges one_clause))%nat /\
  In 1%nat (Clause_GetEnabledEdges one_clause (edge_clause one_clause 0)) /\
  Variable_GetEnabledEdges one_clause (edge_variable one_clause 1) = [1%nat] /\
  Double.ne (edge_survey (UpdateSurvey one_clause 0) 0) Double.zero = false.
Proof.
  assert (Hlt : (0 < length (edges one_clause))%nat) by (vm_compute; lia).
  assert (Hin : In 1%nat (Clause_GetEnabledEdges one_clause
                            (edge_clause one_clause 0)))
    by (vm_compute; auto).
  split; [exact Hlt|]. split; [exact Hin|]. split; [reflexivity|].
  exact (UpdateSurvey_free_variable_gives_zero one_clause 0 1 Hlt
           one_clause_unit_surveys Hin ltac:(discriminate) eq_refl).
Defined.

Lemma UpdateSurvey_unit_clause_gives_one_witness :
  (0 < length (edges opposite_units))%nat /\
  Clause_GetEnabledEdges opposite_units (edge_clause opposite_units 0)
  = [0%nat] /\
  edge_survey (UpdateSurvey opposite_units 0) 0 = Double.one.
Proof.
  assert (Hlt : (0 < length (edges opposite_units))%nat) by (vm_compute; lia).
  split; [exact Hlt|]. split; [reflexivity|].
  exact (UpdateSurvey_unit_clause_gives_one opposite_units 0 Hlt eq_refl).
Defined.

Lemma mixed_clause_unit_surveys :
  forall e, In e (GetEnabledEdges mixed_clause) ->
            Double.valid (edge_survey mixed_clause e) = true /\
            Double.in_unit (edge_survey mixed_clause e) = true.
Proof.
  intros e He. vm_compute in He.
  destruct He as [<-|[<-|[]]]; split; vm_compute; reflexivity.
Qed.

Lemma EvaluateVariable_bias_follows_polarity_witness :
  (forall e, In e (Variable_GetEnabledEdges mixed_clause 0) ->
             edge_type mixed_clause e = false) /\
  Double.gt (var_evalValue (EvaluateVariable mixed_clause 0) 0) Double.zero
  = false /\
  (forall e, In e (Variable_GetEnabledEdges mixed_clause 1) ->
             edge_type mixed_clause e = true) /\
  Double.lt (var_evalValue (EvaluateVariable mixed_clause 1) 1) Double.zero
  = false.
Proof.
  assert (Hneg : forall e, In e (Variable_GetEnabledEdges mixed_clause 0) ->
                           edge_type mixed_clause e = false).
  { intros e He. vm_compute in He. destruct He as [<-|[]]. reflexivity. }
  assert (Hpos : forall e, In e (Variable_GetEnabledEdges mixed_clause 1) ->
                           edge_type mixed_clause e = true).
  { intros e He. vm_compute in He. destruct He as [<-|[]]. reflexivity. }
  split; [exact Hneg|]. split.
  - exact (proj1 (proj2 (proj2 (proj2 (proj2
             (EvaluateVariable_bias_follows_polarity mixed_clause 0
                mixed_clause_unit_surveys))))) Hneg).
  - split; [exact Hpos|].
    exact (proj2 (proj2 (proj2 (proj2 (proj2
             (EvaluateVariable_bias_follows_polarity mixed_clause 1
                mixed_clause_unit_surveys))))) Hpos).
Defined.

(** [p cnf 1 1], [-1 0]. *)
Definition negated_unit : FactorGraph := FactorGraph_of_cnf 1 [[-1]].

Lemma decimation_never_sets_negated_variable_true_witness :
  exists g',
    decimation (SS := insertion_StdSort) negated_unit fraction_004 = Some g' /\
    var_assigned negated_unit 0 = false /\
    var_assigned g' 0 = true /\
    var_value g' 0 = false.
Proof.
  assert (H : exists g',
             decimation (SS := insertion_StdSort) negated_unit fraction_004
             = Some g' /\ var_assigned g' 0 = true)
    by (eexists; vm_compute; split; reflexivity).
  destruct H as (g' & H & Ha). exists g'.
  split; [exact H|]. split; [reflexivity|]. split; [exact Ha|].
  apply (decimation_never_sets_negated_variable_true (SS := insertion_StdSort)
           negated_unit fraction_004 g' 0%nat).
  - intros e He. vm_compute in He.
    destruct He as [<-|[]]; split; vm_compute; reflexivity.
  - exact H.
  - reflexivity.
  - intros e He. vm_compute in He. destruct He as [<-|[]]. reflexivity.
  - exact Ha.
Defined.

Lemma opposite_units_true_assigned :
  forall e, edge_active opposite_units_true e = true ->
            var_assigned opposite_units_true
                         (edge_variable opposite_units_true e) = true.
Proof.
  intros e He.
  do 2 (destruct e as [|e]; [reflexivity|]).
  vm_compute in He. congruence.
Qed.

Lemma flip_step_flips_one_variable_of_an_unsatisfied_clause_witness :
  exists g' r' c e,
    flip_step (RG := counter_RandomGen) (default_config 100)
              opposite_units_true 0 = Flipped g' r' /\
    Clause_IsSAT opposite_units_true c = false /\
    g' = flip_variable opposite_units_true
                       (edge_variable opposite_units_true e).
Proof.
  assert (H : exists g' r',
             flip_step (RG := counter_RandomGen) (default_config 100)
                       opposite_units_true 0 = Flipped g' r')
    by (eexists _, _; vm_compute; reflexivity).
  destruct H as (g' & r' & H).
  destruct (flip_step_flips_one_variable_of_an_unsatisfied_clause
              (RG := counter_RandomGen) (default_config 100)
              opposite_units_true 0 g' r' opposite_units_true_assigned H)
    as (c & e & _ & Hc & _ & Hg).
  exists g', r', c, e. split; [exact H|]. split; [exact Hc|exact Hg].
Defined.

Lemma SID_without_enabled_clauses_witness :
  GetEnabledClauses no_clause = [] /\
  exists result g' r' c',
    SID (RG := counter_RandomGen) (SS := insertion_StdSort)
        (CK := counting_SteadyClock) (default_config 100) 1
        no_clause fraction_004 1 0%nat
    = Returns (result, g', r', c') /\
    SAT result = true /\ totalSPIterations result = 1.
Proof.
  split; [reflexivity|].
  destruct (SID_without_enabled_clauses (RG := counter_RandomGen)
              (SS := insertion_StdSort) (CK := counting_SteadyClock)
              (default_config 100) 1 no_clause fraction_004 1 0%nat eq_refl)
    as (result & g' & r' & c' & H & Hsat & Htot & _);
    try (vm_compute; lia).
  exists result, g', r', c'. split; [exact H|]. split; [exact Hsat|exact Htot].
Defined.

Lemma GetRandomCNFFiles_distinct_paths_witness :
  3 < int_max /\
  exists paths,
    GetRandomCNFFiles (fun _ => "4.2") 3 100 Double.one "random"
    = Returns paths /\
    Z.of_nat (length paths) = 3 /\ List.NoDup paths.
Proof.
  assert (Hlt : 3 < int_max) by (vm_compute; reflexivity).
  split; [exact Hlt|].
  destruct (GetRandomCNFFiles_distinct_paths (fun _ => "4.2") 3 100 Double.one
              "random" Hlt) as (paths & H & Hlen & Hnd & _).
  exists paths. split; [exact H|]. split; [exact Hlen|exact Hnd].
Defined.

Lemma decimation_defined_for_unit_fraction_witness :
  Double.valid fraction_004 = true /\
  Double.in_unit fraction_004 = true /\
  1 <= Z.of_nat (length (GetUnassignedVariables small_3sat)) < 2 ^ 31 /\
  exists k g',
    assign_fraction (length (GetUnassignedVariables small_3sat)) fraction_004
    = Some k /\
    decimation (SS := insertion_StdSort) small_3sat fraction_004 = Some g'.
Proof.
  assert (Hn : 1 <= Z.of_nat (length (GetUnassignedVariables small_3sat))
               < 2 ^ 31) by (vm_compute; split; congruence).
  split; [reflexivity|]. split; [reflexivity|]. split; [exact Hn|].
  destruct (decimation_defined_for_unit_fraction (SS := insertion_StdSort)
              small_3sat fraction_004 eq_refl eq_refl Hn)
    as (k & g' & Hk & _ & Hg').
  exists k, g'. split; [exact Hk|exact Hg'].
Defined.

Lemma decimation_undefined_without_unassigned_variable_witness :
  GetUnassignedVariables opposite_units_true = [] /\
  decimation (SS := insertion_StdSort) opposite_units_true fraction_004 = None.
Proof.
  split; [reflexivity|].
  exact (decimation_undefined_without_unassigned_variable
           (SS := insertion_StdSort) opposite_units_true fraction_004 eq_refl).
Defined.

Lemma UnitPropagation_success_satisfies_unit_clauses_witness :
  well_formed unit_chain = true /\
  is_clause_enabled unit_chain 0 = true /\
  Clause_GetEnabledEdges unit_chain 0 = [0%nat] /\
  exists g',
    UnitPropagation 10 unit_chain = Returns (true, g') /\
    var_value g' (edge_variable unit_chain 0) = edge_type unit_chain 0 /\
    is_clause_enabled g' 0 = false.
Proof.
  split; [reflexivity|]. split; [reflexivity|]. split; [reflexivity|].
  assert (H : exists g', UnitPropagation 10 unit_chain = Returns (true, g'))
    by (eexists; vm_compute; reflexivity).
  destruct H as [g' H]. exists g'. split; [exact H|].
  exact (proj2 (UnitPropagation_success_satisfies_unit_clauses
                  10 unit_chain g' 0%nat 0%nat eq_refl H eq_refl eq_refl)).
Defined.

Lemma lowest_break_count_picks_first_minimum_witness :
  Z.of_nat (length [0%nat]) < uint_max /\
  exists e,
    lowest_break_count opposite_units_true [0%nat] [1%nat] None 2
    = (opposite_units_true, Some (edge_variable opposite_units_true e),
       break_count opposite_units_true [0%nat]
                   (edge_variable opposite_units_true e)).
Proof.
  assert (Hmax : Z.of_nat (length [0%nat]) < uint_max)
    by (vm_compute; reflexivity).
  split; [exact Hmax|].
  destruct (lowest_break_count_picks_first_minimum opposite_units_true
              [0%nat] [1%nat] 2 Hmax)
    as (l1 & e & l2 & _ & H & _).
  - intros e [<-|[]]. reflexivity.
  - discriminate.
  - exists e. exact H.
Defined.

Lemma EvaluateVariable_bias_in_range_witness :
  Double.valid (var_evalValue (EvaluateVariable mixed_clause 0) 0) = true /\
  Double.le (Double.abs (var_evalValue (EvaluateVariable mixed_clause 0) 0))
            Double.one = true.
Proof.
  exact (EvaluateVariable_bias_in_range mixed_clause 0
           mixed_clause_unit_surveys).
Defined.

Lemma SurveyPropagation_iterations_bounds_witness :
  Z.of_nat (SP_MAX_ITERATIONS (default_config 100)) < uint_max /\
  1 <= iterations (SurveyPropagation (RG := counter_RandomGen)
                     (default_config 100) small_3sat 1).1.1
    <= 1000.
Proof.
  assert (Hmax : Z.of_nat (SP_MAX_ITERATIONS (default_config 100)) < uint_max)
    by (vm_compute; reflexivity).
  split; [exact Hmax|].
  destruct (SurveyPropagation_iterations_bounds (RG := counter_RandomGen)
              (default_config 100) small_3sat 1 Hmax) as (H1 & H2 & _).
  split; [apply H1; vm_compute; lia|exact H2].
Defined.

(** * Decimation: how many variables, and which

    The number of variables assigned is compared with the product of the
    real numbers, and the order in which they are taken with the exact
    values of the biases. *)

(** ** The machine comparison against the exact values *)

Lemma abs_units x : Z.abs (units x) = units (Double.abs x).
Proof.
  destruct x as [s|s| |s m e]; try done. unfold Double.abs, SFabs, units.
  rewrite Z.abs_mul, (Z.abs_eq (2 ^ _)) by (apply Z.pow_nonneg; lia).
  by destruct s.
Qed.

Lemma abs_unit_finite x :
  unit_float (Double.abs x) -> is_finite x = true /\ Double.valid x = true.
Proof. destruct x as [s|s| |s m e]; try done. by intros [Hb _]. Qed.

(** Where the machine does not find [x < y], the exact value of [y] is at
    most that of [x]. *)
Lemma units_le_of_not_lt x y :
  unit_float x -> unit_float y -> SFltb x y = false -> units y <= units x.
Proof.
  intros Hx Hy Hlt.
  assert (Hnx : Double.isnan x = false) by (by destruct x).
  assert (Hny : Double.isnan y = false) by (by destruct y).
  assert (Hn : ~ lex_lt (rank x) (rank y)).
  { intros H. apply SFltb_rank in H; [congruence|done|done]. }
  clear Hnx Hny.
  destruct x as [sx|sx| |sx mx ex], y as [sy|sy| |sy my ey]; try done;
    try (by destruct sx); try (by destruct sy).
  - destruct sx; [by destruct Hx|]. unfold units.
    assert (0 <= 2 ^ (ex + 1074)) by (apply Z.pow_nonneg; lia). nia.
  - destruct sx; [by destruct Hx|]. destruct sy; [by destruct Hy|].
    destruct (unit_float_finite _ _ Hx) as (Hcx & _).
    destruct (unit_float_finite _ _ Hy) as (Hcy & _).
    unfold lex_lt in Hn. simpl in Hn. unfold units.
    assert (Hc : ey < ex \/ (ey = ex /\ Z.pos my <= Z.pos mx)) by lia.
    clear Hn Hlt Hx Hy.
    destruct Hc as [Hc|[-> Hc]].
    + pose proof (Zdigits2_bounds (Z.pos mx) ltac:(lia)) as [Hlx _].
      pose proof (Zdigits2_bounds (Z.pos my) ltac:(lia)) as [_ Hhy].
      assert (Hdx : Zdigits2 (Z.pos mx) = 53) by lia.
      assert (Hdy : Zdigits2 (Z.pos my) <= 53) by lia.
      rewrite Hdx in Hlx.
      assert (Hy53 : Z.pos my < 2 ^ 53).
      { eapply Z.lt_le_trans; [exact Hhy|].
        apply Z.pow_le_mono_r; lia. }
      replace (ex + 1074) with ((ey + 1074) + (ex - ey)) by lia.
      rewrite (Z.pow_add_r 2 (ey + 1074) (ex - ey)) by lia.
      assert (HP : 0 < 2 ^ (ey + 1074)) by (apply Z.pow_pos_nonneg; lia).
      assert (HQ : 2 ^ 1 <= 2 ^ (ex - ey)) by (apply Z.pow_le_mono_r; lia).
      change (2 ^ (53 - 1)) with 4503599627370496 in Hlx.
      change (2 ^ 53) with 9007199254740992 in Hy53.
      change (2 ^ 1) with 2 in HQ.
      set (P := 2 ^ (ey + 1074)) in *. set (Q := 2 ^ (ex - ey)) in *.
      clearbody P Q. clear - Hlx Hy53 HP HQ.
      assert (Z.pos my * P <= 2 * Z.pos mx * P) by nia.
      assert (2 * (Z.pos mx * P) <= Q * (Z.pos mx * P)) by nia.
      lia.
    + apply Z.mul_le_mono_nonneg_r; [apply Z.pow_nonneg; lia|done].
Qed.

(** The test [evalValue > 0] of line 309 against the exact value. *)
Lemma gt_zero_units x :
  unit_float (Double.abs x) ->
  Double.gt x Double.zero = bool_decide (0 < units x).
Proof.
  destruct x as [s|s| |s m e]; try done. intros [Hb _].
  apply bounded_spec in Hb as [Hc _]. unfold units.
  assert (0 < 2 ^ (e + 1074)) by (apply Z.pow_pos_nonneg; lia).
  destruct s; unfold Double.gt, Double.zero, SFltb; cbn [SFcompare].
  - rewrite bool_decide_eq_false_2; [done|nia].
  - rewrite bool_decide_eq_true_2; [done|nia].
Qed.

Lemma StronglySorted_impl_elem {A} (R R' : A -> A -> Prop) (l : list A) :
  (forall a b, a ∈ l -> b ∈ l -> R a b -> R' a b) ->
  StronglySorted R l -> StronglySorted R' l.
Proof.
  induction l as [|x l IH]; intros H Hs; [constructor|].
  apply StronglySorted_cons in Hs as [Hx Hl].
  apply StronglySorted_cons. split.
  - rewrite Forall_forall in *. intros y Hy.
    apply H; [left|by right|by apply Hx].
  - apply IH; [|done]. intros a b Ha Hb. apply H; by right.
Qed.

(** ** The number of variables assigned against the exact product *)

Lemma pow2_div_shift A p q r :
  0 <= p -> 0 <= q -> 0 <= r ->
  A * 2 ^ (p + r) / 2 ^ (q + r) = A * 2 ^ p / 2 ^ q.
Proof.
  intros Hp Hq Hr. rewrite !Z.pow_add_r, Z.mul_assoc by done.
  assert (0 < 2 ^ q) by (apply Z.pow_pos_nonneg; lia).
  assert (0 < 2 ^ r) by (apply Z.pow_pos_nonneg; lia).
  apply Z.div_mul_cancel_r; lia.
Qed.

Lemma div_succ_brackets M T :
  0 < T -> M / T <= (M + 1) / T <= M / T + 1.
Proof.
  intros HT. split.
  - apply Z.div_le_mono; lia.
  - rewrite <- (Z.div_add M 1 T) by lia. apply Z.div_le_mono; lia.
Qed.

(** The product of a size below [2^53] and a positive value, cast to
    [int]: the exact product rounded down, or one more. *)
Lemma to_int_mul_brackets n mf ef z :
  1 <= Z.of_nat n < 2 ^ 53 ->
  bounded Double.prec Double.emax mf ef = true ->
  Double.to_int (Double.mul (Double.of_nat n) (S754_finite false mf ef))
  = Some z ->
  let F := Z.of_nat n * units (S754_finite false mf ef) / 2 ^ 1074 in
  F <= z <= F + 1.
Proof.
  intros Hn Hb Hz F.
  destruct (of_nat_exact n Hn) as (mn & en & Hof & Hen & Hmn & Hdn).
  rewrite Hof in Hz. apply bounded_spec in Hb as [Hcf Hef].
  unfold Double.mul, SFmul in Hz. cbn [xorb] in Hz.
  pose proof (Zdigits2_pos (Z.pos mf) ltac:(lia)) as Hdf.
  pose proof (Zdigits2_mul_lower (Z.pos mn) (Z.pos mf) ltac:(lia) ltac:(lia))
    as Hdl.
  set (mx := Z.pos (mn * mf)) in *. set (ex := en + ef) in *.
  assert (Hmx : mx = Z.pos mn * Z.pos mf) by done.
  assert (Hpre : ex <= fexp Double.prec Double.emax (Zdigits2 mx + ex)).
  { rewrite fexp_eq. unfold ex. rewrite Hmx. lia. }
  destruct (binary_round_aux_spec false mx ex loc_Exact ltac:(lia) Hpre)
    as (M2 & HM2 & [[HM20 Hr]|(m & e & Hval & He & Hcan & Hr)]); rewrite Hr in Hz.
  { (* the product does not underflow to zero *)
    exfalso.
    set (e1 := fexp Double.prec Double.emax (Zdigits2 mx + ex)) in *.
    assert (He1 : e1 = Z.max (Zdigits2 mx + ex - 53) (-1074))
      by (unfold e1; apply fexp_eq).
    assert (H2e : 0 < 2 ^ (e1 - ex)) by (apply Z.pow_pos_nonneg; lia).
    assert (HM1 : mx < 2 ^ (e1 - ex)).
    { destruct (Z_lt_ge_dec mx (2 ^ (e1 - ex))) as [|Hge]; [done|exfalso].
      assert (1 <= mx / 2 ^ (e1 - ex))
        by (apply Z.div_le_lower_bound; lia).
      lia. }
    assert (Hd : Zdigits2 mx <= e1 - ex) by (apply Zdigits2_le_iff; lia).
    rewrite Hmx in Hd, He1. unfold ex in *. lia. }
  set (e1 := fexp Double.prec Double.emax (Zdigits2 mx + ex)) in *.
  set (M1 := mx / 2 ^ (e1 - ex)) in *.
  destruct (Z.leb_spec e (Double.emax - Double.prec)) as [Hle|]; [|done].
  apply canonical_spec in Hcan.
  pose proof (Zdigits2_bounds (Z.pos m) ltac:(lia)) as [Hlm _].
  (* the result is below [2^31]: its exponent is negative *)
  assert (Hneg : e < 0).
  { destruct (Z_lt_ge_dec e 0) as [|Hge]; [done|exfalso].
    assert (Hdm : Zdigits2 (Z.pos m) = 53) by lia.
    rewrite Hdm in Hlm. change (2 ^ (53 - 1)) with 4503599627370496 in Hlm.
    unfold Double.to_int, Double.trunc in Hz.
    destruct e as [|pe|pe]; [| |lia].
    - destruct (Z.leb_spec (Z.pos m) 2147483647); [lia|].
      by rewrite andb_false_r in Hz.
    - assert (1 <= Z.pow_pos 2 pe)
        by (rewrite Z.pow_pos_fold; pose proof (Z.pow_pos_nonneg 2 (Z.pos pe)); lia).
      destruct (Z.leb_spec (Z.pos m * Z.pow_pos 2 pe) 2147483647); [nia|].
      by rewrite andb_false_r in Hz. }
  assert (He1 : ex <= e1 < 0) by (unfold e1 in *; lia).
  (* the exact product rounded down *)
  assert (HF : F = M1 / 2 ^ (- e1)).
  { unfold F, M1, units. rewrite Z.div_div by (try apply Z.pow_pos_nonneg; try apply Z.pow_nonneg; lia).
    rewrite <- Z.pow_add_r by lia.
    replace (e1 - ex + - e1) with (- ex) by lia.
    rewrite Hmx, Hmn, Z.mul_assoc.
    replace (Z.of_nat n * 2 ^ (- en) * Z.pos mf)
      with (Z.of_nat n * Z.pos mf * 2 ^ (- en)) by lia.
    rewrite <- (pow2_div_shift (Z.of_nat n * Z.pos mf) (- en) (- ex) (ef + 1074))
      by (unfold ex in *; lia).
    rewrite <- (pow2_div_shift (Z.of_nat n * Z.pos mf) (ef + 1074) 1074 (- en))
      by lia.
    replace (- ex + (ef + 1074)) with (1074 + - en) by (unfold ex; lia).
    by replace (- en + (ef + 1074)) with (ef + 1074 + - en) by lia. }
  (* the result truncated *)
  assert (Hq : Double.trunc (S754_finite false m e) = Some (M2 / 2 ^ (- e1))).
  { unfold Double.trunc. destruct e as [|pe|pe]; [lia|lia|]. f_equal.
    rewrite Z.pow_pos_fold. rewrite <- Hval.
    change (Z.pos pe) with (- Z.neg pe).
    replace (- e1) with (- Z.neg pe + (Z.neg pe - e1)) by lia.
    rewrite Z.pow_add_r by lia.
    assert (0 < 2 ^ (- Z.neg pe)) by (apply Z.pow_pos_nonneg; lia).
    assert (0 < 2 ^ (Z.neg pe - e1)) by (apply Z.pow_pos_nonneg; lia).
    symmetry. apply Z.div_mul_cancel_r; lia. }
  unfold Double.to_int in Hz. rewrite Hq in Hz.
  destruct (_ && _); [|done]. injection Hz as <-.
  assert (HT : 0 < 2 ^ (- e1)) by (apply Z.pow_pos_nonneg; lia).
  pose proof (div_succ_brackets M1 (2 ^ (- e1)) HT).
  rewrite HF. destruct HM2 as [->| ->]; lia.
Qed.

(** A product with a negative value, cast to [int], is not positive. *)
Lemma to_int_mul_negative x mf ef z :
  Double.to_int (Double.mul x (S754_finite true mf ef)) = Some z ->
  Double.isnan x = false ->
  match x with S754_finite true _ _ | S754_zero true => True
          | _ => z <= 0 end.
Proof.
  destruct x as [sx|sx| |sx mx ex]; try done; destruct sx; try done.
  - by intros [= <-].
  - unfold Double.mul, SFmul, binary_round_aux. cbn [xorb].
    destruct (shr_fexp _ _ _ _ _) as [mrs' e'].
    destruct (shr_fexp _ _ _ e' loc_Exact) as [mrs'' e''].
    unfold Double.to_int.
    destruct (shr_m mrs'') as [|m|m]; try done.
    + simpl. by intros [= <-].
    + destruct (_ <=? _); [|done]. unfold Double.trunc.
      destruct (_ && _); [|done]. intros [= <-] _.
      assert (0 <= match e'' with
                   | 0 => Z.pos m
                   | Z.pos p => Z.pos m * Z.pow_pos 2 p
                   | Z.neg p => Z.pos m / Z.pow_pos 2 p
                   end); [|lia].
      destruct e'' as [|p|p]; [lia| |].
      * rewrite Z.pow_pos_fold. pose proof (Z.pow_pos_nonneg 2 (Z.pos p)). nia.
      * rewrite Z.pow_pos_fold. apply Z.div_pos; [lia|].
        apply Z.pow_pos_nonneg; lia.
Qed.

(** [assignFraction] against [max(1, floor(n * fraction))] of the
    specification: the same number, or one more where the machine product
    was rounded up to a whole number. *)
Lemma assign_fraction_brackets n fraction k :
  Z.of_nat n < 2 ^ 53 -> Double.valid fraction = true ->
  assign_fraction n fraction = Some k ->
  exists d, decimation_size n fraction = Some d /\ d <= k <= d + 1.
Proof.
  intros Hn Hv Hk. unfold assign_fraction in Hk.
  destruct (Double.to_int _) as [z|] eqn:Hz; [|done].
  injection Hk as <-. unfold decimation_size.
  destruct (Nat.eq_dec n 0%nat) as [->|Hn0].
  { change (Double.of_nat 0) with (S754_zero false) in Hz.
    destruct fraction as [s|s| |s m e]; try done;
      injection Hz as <-; (eexists; split; [done|]);
      change (Z.of_nat 0) with 0; rewrite Z.mul_0_l, Zdiv_0_l; done. }
  destruct (of_nat_exact n ltac:(lia)) as (mn & en & Hof & _).
  destruct fraction as [s|s| |s m e].
  - rewrite Hof in Hz. injection Hz as <-.
    eexists. split; [done|]. cbn [units]. by rewrite Z.mul_0_r, Zdiv_0_l.
  - by rewrite Hof in Hz.
  - by rewrite Hof in Hz.
  - eexists. split; [done|]. destruct s.
    + pose proof (to_int_mul_negative _ _ _ _ Hz) as Hneg.
      rewrite Hof in Hneg. specialize (Hneg eq_refl). cbn beta iota in Hneg.
      assert (Z.of_nat n * units (S754_finite true m e) / 2 ^ 1074 <= 0).
      { apply Z.div_le_upper_bound; [by apply Z.pow_pos_nonneg|].
        unfold units. pose proof (Z.pow_nonneg 2 (e + 1074)). nia. }
      destruct (Z.ltb_spec z 1); lia.
    + pose proof (to_int_mul_brackets n m e z ltac:(lia) Hv Hz) as Hb.
      cbv zeta in Hb. destruct (Z.ltb_spec z 1); lia.
Qed.

Lemma elem_of_GetUnassignedVariables g v :
  v ∈ GetUnassignedVariables g <->
  (v < length (variables g))%nat /\ var_assigned g v = false.
Proof.
  unfold GetUnassignedVariables.
  rewrite list_elem_of_In, filter_In, in_seq. cbv beta.
  rewrite negb_true_iff. intuition lia.
Qed.

Section BiasedDecimation.
Context {SS : StdSort}.

(** C6 (amended to the product of the machine): when the decimation step
    of [SID] runs to its end on a graph with [n] unassigned variables, fewer
    than [2^53], whose enabled edges carry surveys of the unit interval (as
    survey propagation leaves them), it assigns exactly [k] of them, where
    [k] is [max(1, (int)(n * fraction))] with the binary64 product: with
    [d = max(1, floor(n * fraction))] for the product of the real numbers,
    [k] is [d] or [d + 1], and [1 <= k <= n].  The variables assigned are
    the [k] first in an order of the unassigned variables in which the exact
    [|evalValue|] never increases, so none of the others has a larger
    [|evalValue|] than any of them; each is set to [true] if its bias is
    positive and to [false] otherwise, and the others are left as they
    were, so that they are the variables unassigned afterwards.  For each
    variable in turn, every edge enabled and incident to it when its turn
    comes has its clause disabled if its type is the value assigned, and is
    itself disabled otherwise, and no other flag changes. *)
Theorem decimation_assigns_most_biased
        (g : FactorGraph) (fraction : double) (g' : FactorGraph) :
  let unassigned := GetUnassignedVariables g in
  let n := length unassigned in
  let g1 := evaluate_variables g unassigned in
  (forall e, In e (GetEnabledEdges g) ->
             Double.valid (edge_survey g e) = true /\
             Double.in_unit (edge_survey g e) = true) ->
  Double.valid fraction = true ->
  Z.of_nat n < 2 ^ 53 ->
  decimation g fraction = Some g' ->
  exists (k : nat) (d : Z) (chosen rest : list VarId),
    assign_fraction n fraction = Some (Z.of_nat k) /\
    decimation_size n fraction = Some d /\
    d <= Z.of_nat k <= d + 1 /\
    (1 <= k <= n)%nat /\
    length chosen = k /\
    chosen ++ rest ≡ₚ unassigned /\
    NoDup (chosen ++ rest) /\
    (forall v, v ∈ unassigned -> is_finite (var_evalValue g1 v) = true) /\
    StronglySorted (fun a b => magnitude g1 b <= magnitude g1 a)
                   (chosen ++ rest) /\
    (forall a b, a ∈ chosen -> b ∈ rest -> magnitude g1 b <= magnitude g1 a) /\
    decimates_all g1 chosen g' /\
    (forall v, v ∈ chosen ->
       var_assigned g' v = true /\
       var_value g' v = Double.gt (var_evalValue g1 v) Double.zero /\
       var_value g' v = bool_decide (0 < units (var_evalValue g1 v))) /\
    (forall v, v ∉ chosen -> variables g' !! v = variables g1 !! v) /\
    GetUnassignedVariables g' ≡ₚ rest.
Proof.
  intros unassigned n g1 Hg Hfr Hn H.
  assert (Hu : unit_surveys g).
  { intros e He. destruct (Hg e He). by apply machine_unit_float. }
  assert (Hbias : forall v, v ∈ unassigned ->
                    unit_float (Double.abs (var_evalValue g1 v))).
  { intros v Hv. apply evaluate_variables_abs_unit; [done|].
    left. by apply list_elem_of_In. }
  assert (Hnan : forall v, v ∈ unassigned ->
                           Double.isnan (var_evalValue g1 v) = false).
  { intros v Hv. apply evaluate_variables_not_nan; [done|].
    left. by apply list_elem_of_In. }
  unfold decimation in H. fold unassigned in H. fold g1 in H. fold n in H.
  destruct (assign_fraction n fraction) as [kz|] eqn:Hk; [|done].
  pose proof (assign_fraction_pos _ _ _ Hk) as Hpos.
  destruct (assign_fraction_brackets _ _ _ Hn Hfr Hk) as (d & Hd & Hdk).
  set (sorted := std_sort (by_bias g1) unassigned) in *.
  assert (Hperm : sorted ≡ₚ unassigned) by apply std_sort_perm.
  destruct (decimate_spec _ _ _ _ _ H) as [Hall Hlen]; [lia| |].
  { intros v Hv. rewrite Hperm in Hv. unfold g1.
    rewrite evaluate_variables_length. by apply GetUnassignedVariables_lt. }
  rewrite drop_0 in Hall. simpl in Hlen. rewrite Hperm in Hlen.
  assert (Hnd : NoDup sorted)
    by (rewrite Hperm; apply GetUnassignedVariables_NoDup).
  assert (Hsorted : StronglySorted
                      (fun a b => magnitude g1 b <= magnitude g1 a) sorted).
  { apply (StronglySorted_impl_elem (fun a b => by_bias g1 b a = false)).
    - intros a b Ha Hb Hab. rewrite Hperm in Ha, Hb.
      unfold magnitude. rewrite !abs_units.
      apply units_le_of_not_lt; [by apply Hbias|by apply Hbias|exact Hab].
    - apply std_sort_sorted, by_bias_strict_weak. done. }
  exists (Z.to_nat kz), d, (take (Z.to_nat kz) sorted),
         (drop (Z.to_nat kz) sorted).
  rewrite take_drop.
  destruct (decimates_all_spec _ _ _ Hall) as (_ & _ & Hin & Hout).
  { rewrite <- (take_drop (Z.to_nat kz)) in Hnd.
    by apply NoDup_app in Hnd as (? & _). }
  split_and!; try done.
  - f_equal. lia.
  - lia.
  - lia.
  - lia.
  - rewrite length_take, Hperm. fold n. lia.
  - intros v Hv. by apply abs_unit_finite, Hbias.
  - intros a b Ha Hb.
    rewrite <- (take_drop (Z.to_nat kz) sorted) in Hsorted.
    by apply (StronglySorted_app_1_elem_of _ _ _ _ _ Hsorted).
  - intros v Hv. destruct (Hin v Hv) as [Ha Hval]. split_and!; try done.
    rewrite Hval. apply gt_zero_units, Hbias. rewrite <- Hperm.
    rewrite <- (take_drop (Z.to_nat kz) sorted). apply elem_of_app. by left.
  - pose proof (evaluate_variables_same_state unassigned g) as Hss.
    fold (evaluate_variables g unassigned) in Hss. fold g1 in Hss.
    rewrite <- (take_drop (Z.to_nat kz) sorted) in Hnd, Hperm.
    apply NoDup_app in Hnd as (_ & Hdisj & Hndr).
    apply NoDup_Permutation; [apply GetUnassignedVariables_NoDup|done|].
    intros v. rewrite elem_of_GetUnassignedVariables. split.
    + intros [Hlt Ha].
      destruct (decide (v ∈ take (Z.to_nat kz) sorted)) as [Hc|Hc].
      { destruct (Hin v Hc) as [Ha' _]. congruence. }
      pose proof (Hout v Hc) as Heq.
      assert (Hv : v ∈ unassigned).
      { apply elem_of_GetUnassignedVariables.
        unfold var_assigned in Ha. rewrite Heq in Ha.
        fold (var_assigned g1 v) in Ha. rewrite (ss_assigned _ _ Hss) in Ha.
        split; [|done]. rewrite <- (ss_variables _ _ Hss).
        apply lookup_lt_is_Some. rewrite <- Heq. by apply lookup_lt_is_Some. }
      rewrite <- Hperm in Hv. apply elem_of_app in Hv as [|]; done.
    + intros Hv.
      assert (Hc : v ∉ take (Z.to_nat kz) sorted)
        by (intros Hc; by apply (Hdisj v Hc)).
      pose proof (Hout v Hc) as Heq.
      assert (Hu' : v ∈ unassigned)
        by (rewrite <- Hperm; apply elem_of_app; by right).
      apply elem_of_GetUnassignedVariables in Hu' as [Hlt Ha].
      split.
      * apply lookup_lt_is_Some. rewrite Heq. apply lookup_lt_is_Some.
        by rewrite (ss_variables _ _ Hss).
      * unfold var_assigned. rewrite Heq. fold (var_assigned g1 v).
        by rewrite (ss_assigned _ _ Hss).
Qed.
End BiasedDecimation.

(** ** Two runs of the decimation step *)

(** The fraction 0.75. *)
Definition fraction_075 : double := S754_finite false 6755399441055744 (-53).

(** The binary64 value nearest to one third, [(2^54 - 1) / 3 * 2^-54]. *)
Definition fraction_third : double := S754_finite false 6004799503160661 (-54).

(** [p cnf 3 4], [1 2 0], [-1 2 0], [1 -2 0], [3 -2 0], as survey
    propagation leaves it from seed 1: the biases of the three variables
    differ, that of the third being the largest and that of the second the
    smallest. *)
Definition three_biases : FactorGraph :=
  (SurveyPropagation (RG := counter_RandomGen) (default_config 100)
     (FactorGraph_of_cnf 3 [[1; 2]; [-1; 2]; [1; -2]; [3; -2]])
     (setSeed (RandomGen := counter_RandomGen) 1)).1.2.

(** [p cnf 6 4], [1 0], [-1 2 0], [3 4 0], [5 6 0], as survey propagation
    leaves it from seed 1: six unassigned variables, surveys of one on the
    edges that force the first two. *)
Definition six_variables : FactorGraph :=
  (SurveyPropagation (RG := counter_RandomGen) (default_config 100)
     (FactorGraph_of_cnf 6 [[1]; [-1; 2]; [3; 4]; [5; 6]])
     (setSeed (RandomGen := counter_RandomGen) 1)).1.2.

Lemma three_biases_unit_surveys e :
  In e (GetEnabledEdges three_biases) ->
  Double.valid (edge_survey three_biases e) = true /\
  Double.in_unit (edge_survey three_biases e) = true.
Proof.
  intros He. vm_compute in He.
  repeat (destruct He as [<-|He]; [split; vm_compute; reflexivity|]).
  destruct He.
Qed.

Lemma decimation_assigns_most_biased_witness :
  let g := three_biases in
  let g1 := evaluate_variables g (GetUnassignedVariables g) in
  (forall e, In e (GetEnabledEdges g) ->
             Double.valid (edge_survey g e) = true /\
             Double.in_unit (edge_survey g e) = true) /\
  Double.valid fraction_075 = true /\
  Z.of_nat (length (GetUnassignedVariables g)) < 2 ^ 53 /\
  GetUnassignedVariables g = [0; 1; 2]%nat /\
  magnitude g1 1 < magnitude g1 0 < magnitude g1 2 /\
  exists g',
    decimation (SS := insertion_StdSort) g fraction_075 = Some g' /\
    GetUnassignedVariables g' = [1%nat] /\
    exists (k : nat) (d : Z) (chosen rest : list VarId),
      assign_fraction 3 fraction_075 = Some (Z.of_nat k) /\
      decimation_size 3 fraction_075 = Some d /\
      d <= Z.of_nat k <= d + 1 /\
      length chosen = k /\
      chosen ++ rest ≡ₚ [0; 1; 2]%nat /\
      StronglySorted (fun a b => magnitude g1 b <= magnitude g1 a)
                     (chosen ++ rest) /\
      (forall a b, a ∈ chosen -> b ∈ rest ->
                   magnitude g1 b <= magnitude g1 a) /\
      decimates_all g1 chosen g' /\
      (forall v, v ∈ chosen ->
         var_assigned g' v = true /\
         var_value g' v = bool_decide (0 < units (var_evalValue g1 v))) /\
      GetUnassignedVariables g' ≡ₚ rest.
Proof.
  intros g g1.
  assert (Hdec : exists g', decimation (SS := insertion_StdSort) g fraction_075
                            = Some g')
    by (vm_compute; eexists; reflexivity).
  destruct Hdec as [g' Hdec].
  split; [exact three_biases_unit_surveys|].
  split; [reflexivity|]. split; [vm_compute; reflexivity|].
  split; [vm_compute; reflexivity|].
  split; [split; vm_compute; reflexivity|].
  exists g'. split; [exact Hdec|].
  split.
  { revert Hdec. vm_compute. intros [= <-]. reflexivity. }
  destruct (decimation_assigns_most_biased (SS := insertion_StdSort)
              g fraction_075 g' three_biases_unit_surveys eq_refl)
    as (k & d & chosen & rest & Hk & Hd & Hkd & _ & Hlen & Hperm & _ & _ &
        Hsorted & Htop & Hall & Hval & _ & Hrest).
  - vm_compute. reflexivity.
  - exact Hdec.
  - exists k, d, chosen, rest.
    split; [exact Hk|]. split; [exact Hd|]. split; [exact Hkd|].
    split; [exact Hlen|]. split; [exact Hperm|]. split; [exact Hsorted|].
    split; [exact Htop|]. split; [exact Hall|]. split; [|exact Hrest].
    intros v Hv. destruct (Hval v Hv) as (Ha & _ & Hb). by split.
Defined.

(** C6 (the claim as worded fails): on the graph that the first survey
    propagation of [SID] leaves of [p cnf 6 4], [1 0], [-1 2 0], [3 4 0],
    [5 6 0], with the fraction nearest to one third, six variables are
    unassigned and [max(1, floor(6 * fraction))] is one, since the fraction
    is below one third; the binary64 product is rounded to two and the step
    assigns two variables, the first and the second. *)
Lemma decimation_assigns_one_more_than_the_floor :
  (forall e, In e (GetEnabledEdges six_variables) ->
             Double.valid (edge_survey six_variables e) = true /\
             Double.in_unit (edge_survey six_variables e) = true) /\
  Double.valid fraction_third = true /\
  Double.in_unit fraction_third = true /\
  3 * units fraction_third < 2 ^ 1074 /\
  GetUnassignedVariables six_variables = [0; 1; 2; 3; 4; 5]%nat /\
  decimation_size 6 fraction_third = Some 1 /\
  assign_fraction 6 fraction_third = Some 2 /\
  exists g',
    decimation (SS := insertion_StdSort) six_variables fraction_third
    = Some g' /\
    GetUnassignedVariables g' = [2; 3; 4; 5]%nat /\
    var_assigned g' 0 = true /\ var_assigned g' 1 = true /\
    Z.of_nat (length (GetUnassignedVariables six_variables)
              - length (GetUnassignedVariables g')) <> 1.
Proof.
  split.
  { intros e He. vm_compute in He.
    repeat (destruct He as [<-|He]; [split; vm_compute; reflexivity|]).
    destruct He. }
  split; [reflexivity|]. split; [reflexivity|].
  split; [vm_compute; reflexivity|]. split; [vm_compute; reflexivity|].
  split; [vm_compute; reflexivity|]. split; [vm_compute; reflexivity|].
  assert (Hdec : exists g',
             decimation (SS := insertion_StdSort) six_variables fraction_third
             = Some g')
    by (vm_compute; eexists; reflexivity).
  destruct Hdec as [g' Hdec]. exists g'. split; [exact Hdec|].
  revert Hdec. vm_compute. intros [= <-].
  repeat split; try reflexivity. discriminate.
Qed.
